(** * COVINS back-end optimisation (optimization_be.cpp)

    A shallow embedding of [covins::Optimization]: Global Bundle Adjustment,
    Local Bundle Adjustment, two-view relative pose optimisation and the two
    pose-graph optimisations, as they build and solve Ceres problems over the
    shared keyframe / landmark graph.

    Conventions of the embedding.
    - [KeyframePtr], [LandmarkPtr] and camera pointers are handles into a heap
      of objects ([std::shared_ptr] never dangles, so the heap is total);
      a possibly-null pointer is an [option].
    - The flat [double] buffers the solver works on ([ceres_pose_],
      [ceres_pos_], ...) live in one memory [Mem], addressed by the buffer and
      an offset, so that [&kf->ceres_pose_[4]] is a block of its own.
    - [double] arithmetic and the Eigen rigid-transform algebra are an
      interface ([Scalar], [Geometry]); the Ceres solver and residual
      evaluation are oracles of the section that uses them.
    - [exit(-1)], an uncaught [std::out_of_range] and a read past the end of a
      vector end the run: functions that can reach one return a [Result]. *)

From Stdlib Require Import ZArith QArith Lia.
From stdpp Require Import base option list gmap.

Set Default Proof Using "Type".
Local Open Scope Z_scope.
Local Open Scope nat_scope.

(** ** Outcomes of a call *)

Inductive Error :=
  | exit_fatal          (* std::cout << COUTFATAL ...; exit(-1) *)
  | out_of_range        (* std::map::at on a missing key *)
  | undefined_behavior. (* unchecked operator[] past the end, null dereference *)

Inductive Result (A : Type) :=
  | Ok (a : A)
  | Err (e : Error).
Arguments Ok {A} a.
Arguments Err {A} e.

Global Instance Result_ret : MRet Result := fun A a => Ok a.
Global Instance Result_bind : MBind Result := fun A B f r =>
  match r with Ok a => f a | Err e => Err e end.

(** [v[i]] on a [std::vector]: no bounds check. *)
Definition vec_at {A} (v : list A) (i : nat) : Result A :=
  match v !! i with Some a => Ok a | None => Err undefined_behavior end.

(** A [for] loop over a range that can end the run. *)
Fixpoint for_each {A S} (body : A -> S -> Result S) (l : list A) (s : S) : Result S :=
  match l with
  | [] => Ok s
  | a :: l' => match body a s with Ok s' => for_each body l' s' | Err e => Err e end
  end.

(** ** Machine integers *)

(** Conversion to [int] (32 bits, two's complement). *)
Definition to_int (z : Z) : Z := ((z + 2 ^ 31) mod 2 ^ 32 - 2 ^ 31)%Z.
(** Conversion to [size_t] (64 bits). *)
Definition to_size_t (z : Z) : Z := (z mod 2 ^ 64)%Z.

(** ** Numbers and geometry *)

(** [TypeDefs::precision_t] ([double]) with the operations the file uses. *)
Class Scalar := {
  precision_t : Type;
  lit : Q -> precision_t;                            (* a literal: 100.0, 1e4 *)
  fadd : precision_t -> precision_t -> precision_t;
  fsub : precision_t -> precision_t -> precision_t;
  fmul : precision_t -> precision_t -> precision_t;
  fdiv : precision_t -> precision_t -> precision_t;
  fneg : precision_t -> precision_t;
  fgt : precision_t -> precision_t -> bool;          (* a > b *)
  flt : precision_t -> precision_t -> bool;          (* a < b *)
  fle : precision_t -> precision_t -> bool;          (* a <= b; not used by the code *)
  fcos : precision_t -> precision_t;
  fsin : precision_t -> precision_t;
  hypot2 : precision_t -> precision_t -> precision_t (* Vector2Type(x, y).norm() *)
}.

Section Vectors.
Context `{Scalar}.

Record Vector2Type := Vector2 { v2_x : precision_t; v2_y : precision_t }.
Record Vector3Type := Vector3 { v3_x : precision_t; v3_y : precision_t; v3_z : precision_t }.
Record QuaternionType := Quaternion {
  q_w : precision_t; q_x : precision_t; q_y : precision_t; q_z : precision_t }.

Definition norm (v : Vector2Type) : precision_t := hypot2 (v2_x v) (v2_y v).

Definition M_PI : precision_t := lit (314159265358979323846 # 100000000000000000000).

Definition degToRad (angle : precision_t) : precision_t :=
  fdiv (fmul angle M_PI) (lit 180).

Definition quat_negate (q : QuaternionType) : QuaternionType :=
  Quaternion (fneg (q_w q)) (fneg (q_x q)) (fneg (q_y q)) (fneg (q_z q)).

Definition eulerAnglesToQuat (yaw pitch roll : precision_t) : QuaternionType :=
  let yaw := degToRad yaw in
  let pitch := degToRad pitch in
  let roll := degToRad roll in
  let cy := fcos (fdiv yaw (lit 2)) in
  let sy := fsin (fdiv yaw (lit 2)) in
  let cp := fcos (fdiv pitch (lit 2)) in
  let sp := fsin (fdiv pitch (lit 2)) in
  let cr := fcos (fdiv roll (lit 2)) in
  let sr := fsin (fdiv roll (lit 2)) in
  let quat :=
    Quaternion (fadd (fmul (fmul cy cp) cr) (fmul (fmul sy sp) sr))
               (fsub (fmul (fmul cy cp) sr) (fmul (fmul sy sp) cr))
               (fadd (fmul (fmul sy cp) sr) (fmul (fmul cy sp) cr))
               (fsub (fmul (fmul sy cp) cr) (fmul (fmul cy sp) sr)) in
  if flt (q_w quat) (lit 0) then quat_negate quat else quat.

End Vectors.

(** [TypeDefs::TransformType] (a 4x4 rigid transform) and the Eigen / Utils
    operations applied to it. *)
Class Geometry `{Scalar} := {
  TransformType : Type;
  Tmul : TransformType -> TransformType -> TransformType;     (* A * B *)
  Tinv : TransformType -> TransformType;                      (* A.inverse() *)
  T_quat : TransformType -> QuaternionType;   (* QuaternionType q(T.block<3,3>(0,0)) *)
  T_trans : TransformType -> Vector3Type;     (* T.block<3,1>(0,3) *)
  T_apply : TransformType -> Vector3Type -> Vector3Type;
                          (* T.block<3,3>(0,0) * p + T.block<3,1>(0,3) *)
  T_rotate : TransformType -> Vector3Type -> Vector3Type;     (* T.block<3,3>(0,0) * v *)
  Ceres2Transform : list precision_t -> TransformType;        (* Utils::Ceres2Transform *)
  R2ypr : TransformType -> Vector3Type;       (* Utils::R2ypr(T.block<3,3>(0,0)) *)
  quat_R2ypr : QuaternionType -> Vector3Type  (* Utils::R2ypr(q.toRotationMatrix()) *)
}.

(** ** Entities *)

Abbreviation KeyframePtr := nat (only parsing).
Abbreviation LandmarkPtr := nat (only parsing).
Abbreviation CameraPtr := nat (only parsing).
(** [TypeDefs::idpair]: (keyframe index, client id). *)
Abbreviation idpair := (nat * nat)%type.

(** [aslam::Camera::Type] and [aslam::Distortion::Type]. *)
Inductive CameraType := kPinhole | kUnifiedProjection | kLidar3D.
Inductive DistortionType := kNoDistortion | kEquidistant | kFisheye | kRadTan.

Global Instance CameraType_eq_dec : EqDecision CameraType.
Proof. solve_decision. Defined.
Global Instance DistortionType_eq_dec : EqDecision DistortionType.
Proof. solve_decision. Defined.

Record Camera := {
  getType : CameraType;                  (* camera_->getType() *)
  getDistortionType : DistortionType;    (* camera_->getDistortion().getType() *)
  getParameterSize : nat;                (* camera->getParameterSize() *)
  getDistortionParameterSize : nat       (* camera->getDistortion().getParameterSize() *)
}.

(** The flat buffers handed to Ceres. *)
Inductive Array :=
  | ceres_pose_ (kf : KeyframePtr)
  | ceres_velocity_and_bias_ (kf : KeyframePtr)
  | ceres_extrinsics_ (kf : KeyframePtr)
  | ceres_pose_local_ (kf : KeyframePtr)
  | distortion_parameters (cam : CameraPtr)  (* getDistortionMutable()->getParametersMutable() *)
  | camera_parameters (cam : CameraPtr)      (* camera->getParametersMutable() *)
  | ceres_pos_ (lm : LandmarkPtr)
  | local_ceres_pos_ (lm : nat)              (* LocalLM::ceres_pos_ *)
  | ceresAB.                                 (* local of OptimizeRelativePose *)

Global Instance Array_eq_dec : EqDecision Array.
Proof. solve_decision. Defined.

(** A [double*]: a buffer and an offset into it. *)
Abbreviation Addr := (Array * nat)%type.

Section Entities.
Context `{Geometry}.

(** What the optimiser reads of [kf->preintegrated_imu_]. *)
Record Preintegration := {
  getNumMeasurements : nat;
  imu_bias_acc : Vector3Type;    (* bias of the last (re)propagation *)
  imu_bias_gyr : Vector3Type
}.

Definition repropagate (bias_acc bias_gyr : Vector3Type) (p : Preintegration) : Preintegration :=
  {| getNumMeasurements := getNumMeasurements p;
     imu_bias_acc := bias_acc; imu_bias_gyr := bias_gyr |}.

Record Keyframe := {
  id_ : idpair;
  kf_invalid : bool;                             (* IsInvalid() *)
  T_ws : TransformType;                          (* GetPoseTws() *)
  velocity : Vector3Type;                        (* GetStateVelocity() *)
  bias_accel : Vector3Type;
  bias_gyro : Vector3Type;
  T_sc : TransformType;                          (* GetStateExtrinsics() *)
  camera_ : CameraPtr;
  keypoints_distorted_ : Z -> Vector2Type;       (* FromKeypointType(keypoints_distorted_[i]) *)
  keypoints_aors_ : Z -> nat -> precision_t;     (* keypoints_aors_[i][j] *)
  keypoints_distorted_add_ : Z -> Vector2Type;
  keypoints_aors_add_ : Z -> nat -> precision_t;
  landmarks_ : list (option LandmarkPtr);        (* GetLandmarks() *)
  predecessor : option KeyframePtr;              (* GetPredecessor() *)
  successor : option KeyframePtr;                (* GetSuccessor() *)
  is_loaded_ : bool;
  is_gba_optimized_ : bool;
  pose_optimized : bool;                         (* SetPoseOptimized() *)
  vel_bias_optimized : bool;                     (* SetVelBiasOptimized() *)
  preintegrated_imu_ : Preintegration
}.

(** [GetPoseTsw()]. *)
Definition GetPoseTsw (kf : Keyframe) : TransformType := Tinv (T_ws kf).

Record Landmark := {
  lm_invalid : bool;                               (* IsInvalid() *)
  pos_w : Vector3Type;                             (* GetWorldPos() *)
  observations : list (option KeyframePtr * Z);    (* GetObservations(), in map order *)
  reference_keyframe : option KeyframePtr;         (* GetReferenceKeyframe() *)
  lm_optimized : bool;                             (* SetOptimized() *)
  lm_is_gba_optimized_ : bool
}.

(** [Map::LoopConstraint]; [cov_trace] is [cov_mat.block<3,3>(3,3).trace()]. *)
Record LoopConstraint := {
  kf1 : KeyframePtr;
  kf2 : KeyframePtr;
  T_s1_s2 : TransformType;
  cov_trace : precision_t;
  relative_yaw_smatch_squery : precision_t
}.

Record Map := {
  id_map_ : nat;
  GetKeyframesVec : list KeyframePtr;
  GetLandmarksVec : list LandmarkPtr;
  GetLoopConstraints : list LoopConstraint
}.

Definition Mem := Array -> nat -> precision_t.

(** The object graph a call works on. *)
Record State := {
  kfs : KeyframePtr -> Keyframe;
  lms : LandmarkPtr -> Landmark;
  cams : CameraPtr -> Camera;
  mem : Mem;
  map_ : Map
}.

(** *** Mutators of the shared graph *)

Definition upd {A} (f : nat -> A) (p : nat) (g : A -> A) : nat -> A :=
  fun q => if decide (q = p) then g (f q) else f q.

Definition with_kf (p : KeyframePtr) (g : Keyframe -> Keyframe) (s : State) : State :=
  {| kfs := upd (kfs s) p g; lms := lms s; cams := cams s; mem := mem s; map_ := map_ s |}.

Definition with_lm (p : LandmarkPtr) (g : Landmark -> Landmark) (s : State) : State :=
  {| kfs := kfs s; lms := upd (lms s) p g; cams := cams s; mem := mem s; map_ := map_ s |}.

Definition with_mem (m : Mem) (s : State) : State :=
  {| kfs := kfs s; lms := lms s; cams := cams s; mem := m; map_ := map_ s |}.

(** [buf[off + j] = vs[j]] for every [j]. *)
Definition store (a : Array) (off : nat) (vs : list precision_t) (m : Mem) : Mem :=
  fun a' i =>
    if decide (a' = a) then
      if decide (off <= i) then default (m a' i) (vs !! (i - off)) else m a' i
    else m a' i.

(** The [n] doubles at [p]. *)
Definition load (m : Mem) (p : Addr) (n : nat) : list precision_t :=
  (fun j => m (fst p) (snd p + j)) <$> seq 0 n.

End Entities.

(** ** The Ceres problem *)

Inductive LocalParameterization :=
  | PoseQuaternionLocalParameterization
  | AngleLocalParameterization.

Inductive LossFunction :=
  | CauchyLoss (a : Q)
  | HuberLoss (a : Q).

(** [robopt::defs::visual::RelativeProjectionType]. *)
Inductive RelativeProjectionType := kNormal | kInverse.

(** Block sizes of [robopt::defs]. *)
Definition kPoseBlockSize : nat := 7.
Definition kSpeedBiasBlockSize : nat := 9.
Definition kPositionBlockSize : nat := 3.

(** [ceres::ResidualBlockId]: the identity of one added residual block. *)
Abbreviation ResidualBlockId := nat (only parsing).

Section Ceres.
Context `{Geometry}.

(** The 6x6 matrix [Identity()] with its top-left 3x3 corner scaled by
    [rot_scale] and its bottom-right corner by [trans_scale]. *)
Record SqrtInfo := { rot_scale : precision_t; trans_scale : precision_t }.

(** Cost functions, by the arguments they are constructed from. *)
Inductive CostFunction :=
  | GlobalEuclideanReprError (C : CameraType) (D : DistortionType)
      (kpx : Vector2Type) (obs_sigma : precision_t) (camera : CameraPtr)
  | RelativeEuclideanReprError (C : CameraType) (D : DistortionType)
      (kpObs : Vector2Type) (obs_sigma : precision_t) (camera : CameraPtr)
      (P3D : Vector3Type) (ptype : RelativeProjectionType)
  | PreintegrationFactor (imu_of : KeyframePtr)      (* kf->preintegrated_imu_.get() *)
  | SixDofBetweenError (q_12 : QuaternionType) (t_12 : Vector3Type) (sqrt_info : SqrtInfo)
  | FourDOFWeightError (t_x t_y t_z relative_yaw pitch_i roll_i weight : precision_t)
  | FourDOFError (t_x t_y t_z relative_yaw pitch_i roll_i : precision_t).

(** [CostFunction::parameter_block_sizes()]. The camera blocks have the sizes
    of the aslam classes the factor is instantiated with. *)
Definition camera_kNumOfParams (C : CameraType) : nat :=
  match C with kPinhole => 4 | kUnifiedProjection => 5 | kLidar3D => 0 end.
Definition distortion_kNumOfParams (D : DistortionType) : nat :=
  match D with kNoDistortion => 0 | kEquidistant => 4 | kFisheye => 1 | kRadTan => 4 end.

Definition parameter_block_sizes (c : CostFunction) : list nat :=
  match c with
  | GlobalEuclideanReprError C D _ _ _ =>
      [kPoseBlockSize; kPoseBlockSize; kPositionBlockSize;
       camera_kNumOfParams C; distortion_kNumOfParams D]
  | RelativeEuclideanReprError _ _ _ _ _ _ _ => [kPoseBlockSize]
  | PreintegrationFactor _ =>
      [kPoseBlockSize; kSpeedBiasBlockSize; kPoseBlockSize; kSpeedBiasBlockSize]
  | SixDofBetweenError _ _ _ =>
      [kPoseBlockSize; kPoseBlockSize; kPoseBlockSize; kPoseBlockSize]
  | FourDOFWeightError _ _ _ _ _ _ _ => [1; 3; 1; 3]
  | FourDOFError _ _ _ _ _ _ => [1; 3; 1; 3]
  end.

Record ParameterBlock := {
  pb_addr : Addr;
  pb_size : nat;
  pb_local : option LocalParameterization;
  pb_constant : bool
}.

Record ResidualBlock := {
  rb_id : ResidualBlockId;
  rb_cost : CostFunction;
  rb_loss : option LossFunction;       (* NULL: no robust loss *)
  rb_params : list Addr
}.

Record Problem := {
  parameter_blocks : list ParameterBlock;
  residual_blocks : list ResidualBlock;
  next_residual_id : ResidualBlockId
}.

Definition empty_problem : Problem :=
  {| parameter_blocks := []; residual_blocks := []; next_residual_id := 0 |}.

Definition HasParameterBlock (p : Problem) (a : Addr) : bool :=
  bool_decide (a ∈ pb_addr <$> parameter_blocks p).

(** Adding a block that is already there changes nothing. *)
Definition AddParameterBlock (a : Addr) (size : nat)
    (lp : option LocalParameterization) (p : Problem) : Problem :=
  if HasParameterBlock p a then p
  else {| parameter_blocks :=
            parameter_blocks p ++
              [{| pb_addr := a; pb_size := size; pb_local := lp; pb_constant := false |}];
          residual_blocks := residual_blocks p;
          next_residual_id := next_residual_id p |}.

Definition set_constant (a : Addr) (b : ParameterBlock) : ParameterBlock :=
  if decide (pb_addr b = a)
  then {| pb_addr := pb_addr b; pb_size := pb_size b; pb_local := pb_local b;
          pb_constant := true |}
  else b.

Definition SetParameterBlockConstant (a : Addr) (p : Problem) : Problem :=
  {| parameter_blocks := set_constant a <$> parameter_blocks p;
     residual_blocks := residual_blocks p;
     next_residual_id := next_residual_id p |}.

(** [AddResidualBlock] registers the parameter blocks the problem does not
    know yet, with the sizes the cost function declares. *)
Definition AddResidualBlock (cost : CostFunction) (loss : option LossFunction)
    (params : list Addr) (p : Problem) : ResidualBlockId * Problem :=
  let p' := foldl (fun q '(a, n) => AddParameterBlock a n None q) p
                  (zip params (parameter_block_sizes cost)) in
  (next_residual_id p,
   {| parameter_blocks := parameter_blocks p';
      residual_blocks :=
        residual_blocks p ++
          [{| rb_id := next_residual_id p; rb_cost := cost; rb_loss := loss;
              rb_params := params |}];
      next_residual_id := S (next_residual_id p) |}).

(** With [enable_fast_removal] the parameter blocks stay. *)
Definition RemoveResidualBlock (id : ResidualBlockId) (p : Problem) : Problem :=
  {| parameter_blocks := parameter_blocks p;
     residual_blocks := filter (fun r => rb_id r ≠ id) (residual_blocks p);
     next_residual_id := next_residual_id p |}.

(** Is [buf[i]] inside a parameter block the solver may change? *)
Definition covers (b : ParameterBlock) (a : Array) (i : nat) : bool :=
  bool_decide (fst (pb_addr b) = a) && bool_decide (snd (pb_addr b) <= i)
  && bool_decide (i < snd (pb_addr b) + pb_size b).

Definition is_variable (p : Problem) (a : Array) (i : nat) : bool :=
  existsb (fun b => negb (pb_constant b) && covers b a i) (parameter_blocks p).

(** *** Solver options *)

Inductive LinearSolverType := SPARSE_SCHUR | SPARSE_NORMAL_CHOLESKY.
Inductive TrustRegionStrategyType := LEVENBERG_MARQUARDT | DOGLEG.

Record SolverOptions := {
  linear_solver_type : LinearSolverType;
  num_threads : Z;
  num_linear_solver_threads : Z;
  trust_region_strategy_type : TrustRegionStrategyType;
  max_num_iterations : Z;
  max_solver_time_in_seconds : precision_t
}.

(** [ceres::Solver::Options options;] *)
Definition default_options : SolverOptions :=
  {| linear_solver_type := SPARSE_NORMAL_CHOLESKY;
     num_threads := 1;
     num_linear_solver_threads := -1;
     trust_region_strategy_type := LEVENBERG_MARQUARDT;
     max_num_iterations := 50;
     max_solver_time_in_seconds := lit 1000000000 |}.

(** [covins_params]. *)
Record Params := {
  threads_server : Z;
  th_gba_outlier_global : precision_t;
  th_outlier_align : precision_t;
  gba_fix_poses_loaded_maps : bool;
  gba_use_map_loop_constraints : bool;
  pgo_fix_kfs_after_gba : bool;
  pgo_fix_poses_loaded_maps : bool;
  pgo_iteration_limit : Z;
  wt_kf_r : precision_t;
  wt_kf_t : precision_t;
  wt_lp_r1 : precision_t;
  wt_lp_r2 : precision_t;
  wt_lp_r3 : precision_t;
  wt_lp_t1 : precision_t;
  cov_switch : precision_t;
  cov_switch2 : precision_t
}.

(** The options every call starts from, up to the iteration cap. *)
Definition bundle_options (params : Params) (iterations : Z) : SolverOptions :=
  {| linear_solver_type := SPARSE_SCHUR;
     num_threads := threads_server params;
     num_linear_solver_threads := threads_server params;
     trust_region_strategy_type := DOGLEG;
     max_num_iterations := iterations;
     max_solver_time_in_seconds := max_solver_time_in_seconds default_options |}.

End Ceres.

(** ** Collaborators *)

(** [ceres::Solve] and [ceres::Problem::Evaluate].  [Solve] returns the memory
    after the solve; [EvaluateResidual] is the 2-vector of one reprojection
    residual block at the current parameter values; [JacobianCovariance] is
    the covariance the local bundle adjustment reads off the Jacobian. *)
Class Solver `{Geometry} := {
  Solve : SolverOptions -> Problem -> Mem -> Mem;
  EvaluateResidual : Problem -> Mem -> ResidualBlockId -> Vector2Type;
  (* (J^T J).completeOrthogonalDecomposition().pseudoInverse().block<6,6>(0,0) of the
     Jacobian evaluated over the listed parameter blocks *)
  JacobianCovariance : Problem -> Mem -> list Addr -> list (list precision_t)
}.

(** [Map::Clean()], the map's own clean-up after an optimisation. *)
Class MapBackend `{Geometry} := {
  Clean : State -> State
}.

Section Optimization.
Context `{Geometry} `{!Solver} `{!MapBackend}.
Variable params : Params.

(** [problem.Evaluate(eval_opts, &cost, &residuals, NULL, NULL)] with
    [eval_opts.residual_blocks = ids]: the residuals of the listed blocks, one
    after the other. *)
Definition Evaluate (p : Problem) (m : Mem) (ids : list ResidualBlockId) : list precision_t :=
  flat_map (fun id => let r := EvaluateResidual p m id in [v2_x r; v2_y r]) ids.

(** Quaternion (x, y, z, w) followed by the translation: the layout of a pose block. *)
Definition pose_to_ceres (T : TransformType) : list precision_t :=
  let q := T_quat T in
  let t := T_trans T in
  [q_x q; q_y q; q_z q; q_w q; v3_x t; v3_y t; v3_z t].

(** [v[i] = x] on a [std::vector]. *)
Definition vec_set {A} (v : list A) (i : nat) (x : A) : Result (list A) :=
  if decide (i < length v) then Ok (<[i:=x]> v) else Err undefined_behavior.

(** Modelled from the spec: [Landmark::GetFeatureIndex] is not in the source
    files.  It is the feature index under which the landmark is observed in
    the keyframe ("a resolvable feature index in kf2"), and -1 when the
    keyframe does not observe it. *)
Fixpoint feature_index (obs : list (option KeyframePtr * Z)) (kf : KeyframePtr) : Z :=
  match obs with
  | [] => (-1)%Z
  | (k, f) :: obs' => if decide (k = Some kf) then f else feature_index obs' kf
  end.
Definition GetFeatureIndex (lm : Landmark) (kf : KeyframePtr) : Z :=
  feature_index (observations lm) kf.

(** [(keypoints_aors_[i][1] + 1) * 2.0] *)
Definition obs_sigma_of (aors : Z -> nat -> precision_t) (i : Z) : precision_t :=
  fmul (fadd (aors i 1) (lit 1)) (lit 2).

(** *** Two-view relative pose optimisation *)

(** The [if (camera_type == ...) switch (distortion_type)] dispatch. *)
Definition new_RelativeEuclideanReprError (cam : Camera) (kpObs : Vector2Type)
    (obs_sigma : precision_t) (camera : CameraPtr) (P3D : Vector3Type)
    (ptype : RelativeProjectionType) : Result CostFunction :=
  match getType cam with
  | kPinhole =>
      match getDistortionType cam with
      | kEquidistant =>
          Ok (RelativeEuclideanReprError kPinhole kEquidistant kpObs obs_sigma camera P3D ptype)
      | kRadTan =>
          Ok (RelativeEuclideanReprError kPinhole kRadTan kpObs obs_sigma camera P3D ptype)
      | kFisheye =>
          Ok (RelativeEuclideanReprError kPinhole kFisheye kpObs obs_sigma camera P3D ptype)
      | _ => Err exit_fatal
      end
  | kUnifiedProjection =>
      match getDistortionType cam with
      | kEquidistant =>
          Ok (RelativeEuclideanReprError kUnifiedProjection kEquidistant kpObs obs_sigma camera
                P3D ptype)
      | kRadTan =>
          Ok (RelativeEuclideanReprError kUnifiedProjection kRadTan kpObs obs_sigma camera
                P3D ptype)
      | kFisheye =>
          Ok (RelativeEuclideanReprError kUnifiedProjection kFisheye kpObs obs_sigma camera
                P3D ptype)
      | _ => Err exit_fatal
      end
  | _ => Err exit_fatal
  end.

(** The locals of the loop that adds the observations. *)
Record RelPoseBuild := {
  rp_problem : Problem;
  residIdsA : list ResidualBlockId;
  residIdsB : list ResidualBlockId;
  vIndex : list nat;
  numCorrespondences : Z          (* int *)
}.

Definition add_observation (s : State) (kf1 kf2 : KeyframePtr)
    (TcwA TcwB : TransformType) (matches1 : list (option LandmarkPtr))
    (i : nat) (b : RelPoseBuild) : Result RelPoseBuild :=
  m ← vec_at matches1 i;
  match m with
  | None => Ok b                                      (* if (!matches1[i]) continue; *)
  | Some pMPB =>
      pMPA ← vec_at (landmarks_ (kfs s kf1)) i;
      let iB := GetFeatureIndex (lms s pMPB) kf2 in
      match pMPA with
      | Some pMPA =>
          if negb (lm_invalid (lms s pMPA)) && negb (lm_invalid (lms s pMPB))
             && bool_decide (0 <= iB)%Z
          then
            let P3DAc := T_apply TcwA (pos_w (lms s pMPA)) in
            let P3DBc := T_apply TcwB (pos_w (lms s pMPB)) in
            let kpObsA := keypoints_distorted_ (kfs s kf1) (Z.of_nat i) in
            let obs_sigma_A := obs_sigma_of (keypoints_aors_ (kfs s kf1)) (Z.of_nat i) in
            reprojection_error_A ←
              new_RelativeEuclideanReprError (cams s (camera_ (kfs s kf1))) kpObsA obs_sigma_A
                (camera_ (kfs s kf1)) P3DBc kNormal;
            let kpObsB := keypoints_distorted_ (kfs s kf2) iB in
            let obs_sigma_B := obs_sigma_of (keypoints_aors_ (kfs s kf2)) iB in
            reprojection_error_B ←
              new_RelativeEuclideanReprError (cams s (camera_ (kfs s kf2))) kpObsB obs_sigma_B
                (camera_ (kfs s kf2)) P3DAc kInverse;
            let addedA :=
              AddResidualBlock reprojection_error_A (Some (CauchyLoss 1)) [(ceresAB, 0)]
                (rp_problem b) in
            let addedB :=
              AddResidualBlock reprojection_error_B (Some (CauchyLoss 1)) [(ceresAB, 0)]
                (snd addedA) in
            Ok {| rp_problem := snd addedB;
                  residIdsA := residIdsA b ++ [fst addedA];
                  residIdsB := residIdsB b ++ [fst addedB];
                  vIndex := vIndex b ++ [i];
                  numCorrespondences := (numCorrespondences b + 1)%Z |}
          else Ok b
      | None => Ok b
      end
  end.

(** The locals of the loop that checks for outliers; [rc_matches1] is the
    caller's [matches1], passed by reference. *)
Record RelPoseCheck := {
  rc_problem : Problem;
  rc_matches1 : list (option LandmarkPtr);
  numBad : nat;                   (* size_t *)
  residInd : nat
}.

Definition exceeds (th : precision_t) (r : Vector2Type) : bool := fgt (norm r) th.

Definition check_outlier (b : RelPoseBuild) (residualsA residualsB : list precision_t)
    (i : nat) (c : RelPoseCheck) : Result RelPoseCheck :=
  ax ← vec_at residualsA (residInd c);
  ay ← vec_at residualsA (residInd c + 1);
  bx ← vec_at residualsB (residInd c);
  by_ ← vec_at residualsB (residInd c + 1);
  let residA := Vector2 ax ay in
  let residB := Vector2 bx by_ in
  if exceeds (th_outlier_align params) residA || exceeds (th_outlier_align params) residB then
    idA ← vec_at (residIdsA b) i;
    idB ← vec_at (residIdsB b) i;
    matches1 ← vec_set (rc_matches1 c) i None;          (* matches1[i] = NULL; *)
    Ok {| rc_problem := RemoveResidualBlock idB (RemoveResidualBlock idA (rc_problem c));
          rc_matches1 := matches1;
          numBad := S (numBad c);
          residInd := residInd c + 2 |}
  else
    Ok {| rc_problem := rc_problem c; rc_matches1 := rc_matches1 c;
          numBad := numBad c; residInd := residInd c + 2 |}.

(** The problem with the observations of every correspondence added. *)
Definition relative_pose_problem (s : State) (kf1 kf2 : KeyframePtr)
    (matches1 : list (option LandmarkPtr)) : Result RelPoseBuild :=
  let problem :=
    AddParameterBlock (ceresAB, 0) kPoseBlockSize (Some PoseQuaternionLocalParameterization)
      empty_problem in
  let TcwA := Tinv (Tmul (T_ws (kfs s kf1)) (T_sc (kfs s kf1))) in
  let TcwB := Tinv (Tmul (T_ws (kfs s kf2)) (T_sc (kfs s kf1))) in
  let N := to_int (Z.of_nat (length matches1)) in
  for_each (add_observation s kf1 kf2 TcwA TcwB matches1) (seq 0 (Z.to_nat N))
    {| rp_problem := problem; residIdsA := []; residIdsB := []; vIndex := [];
       numCorrespondences := 0 |}.

(** The memory after the first solve. *)
Definition relative_pose_first_solve (s : State) (T12 : TransformType) (b : RelPoseBuild) : Mem :=
  Solve (bundle_options params 5) (rp_problem b) (store ceresAB 0 (pose_to_ceres T12) (mem s)).

(** The outlier check over the residuals of the first solve. *)
Definition relative_pose_check (s : State) (matches1 : list (option LandmarkPtr))
    (T12 : TransformType) (b : RelPoseBuild) : Result RelPoseCheck :=
  let m1 := relative_pose_first_solve s T12 b in
  let residualsA := Evaluate (rp_problem b) m1 (residIdsA b) in
  let residualsB := Evaluate (rp_problem b) m1 (residIdsB b) in
  for_each (check_outlier b residualsA residualsB) (seq 0 (length (residIdsA b)))
    {| rc_problem := rp_problem b; rc_matches1 := matches1; numBad := 0; residInd := 0 |}.

(** [OptimizeRelativePose(kf1, kf2, matches1, T12, th2)]: the returned [int]
    and the final values of the reference arguments [matches1] and [T12]. *)
Definition OptimizeRelativePose (s : State) (kf1 kf2 : KeyframePtr)
    (matches1 : list (option LandmarkPtr)) (T12 : TransformType) (th2 : precision_t)
    : Result (Z * list (option LandmarkPtr) * TransformType) :=
  b ← relative_pose_problem s kf1 kf2 matches1;
  c ← relative_pose_check s matches1 T12 b;
  (* int - size_t is computed in size_t *)
  let remaining := to_size_t (to_size_t (numCorrespondences b) - Z.of_nat (numBad c)) in
  if bool_decide (remaining < 12)%Z then
    Ok (0%Z, rc_matches1 c, T12)
  else
    let m2 := Solve (bundle_options params 5) (rc_problem c)
                (relative_pose_first_solve s T12 b) in
    Ok (to_int remaining, rc_matches1 c, Ceres2Transform (load m2 (ceresAB, 0) kPoseBlockSize)).

(** *** State synchronisation *)

Definition set_kf_pose (T : TransformType) (velocity' bias_accel' bias_gyro' : Vector3Type)
    (T_sc' : TransformType) (pose_optimized' vel_bias_optimized' is_gba_optimized' : bool)
    (k : Keyframe) : Keyframe :=
  {| id_ := id_ k; kf_invalid := kf_invalid k; T_ws := T; velocity := velocity';
     bias_accel := bias_accel'; bias_gyro := bias_gyro'; T_sc := T_sc';
     camera_ := camera_ k; keypoints_distorted_ := keypoints_distorted_ k;
     keypoints_aors_ := keypoints_aors_ k;
     keypoints_distorted_add_ := keypoints_distorted_add_ k;
     keypoints_aors_add_ := keypoints_aors_add_ k; landmarks_ := landmarks_ k;
     predecessor := predecessor k; successor := successor k; is_loaded_ := is_loaded_ k;
     is_gba_optimized_ := is_gba_optimized';
     pose_optimized := pose_optimized'; vel_bias_optimized := vel_bias_optimized';
     preintegrated_imu_ := preintegrated_imu_ k |}.

Definition set_kf_links (landmarks' : list (option LandmarkPtr)) (imu' : Preintegration)
    (k : Keyframe) : Keyframe :=
  {| id_ := id_ k; kf_invalid := kf_invalid k; T_ws := T_ws k; velocity := velocity k;
     bias_accel := bias_accel k; bias_gyro := bias_gyro k; T_sc := T_sc k;
     camera_ := camera_ k; keypoints_distorted_ := keypoints_distorted_ k;
     keypoints_aors_ := keypoints_aors_ k;
     keypoints_distorted_add_ := keypoints_distorted_add_ k;
     keypoints_aors_add_ := keypoints_aors_add_ k; landmarks_ := landmarks';
     predecessor := predecessor k; successor := successor k; is_loaded_ := is_loaded_ k;
     is_gba_optimized_ := is_gba_optimized_ k;
     pose_optimized := pose_optimized k; vel_bias_optimized := vel_bias_optimized k;
     preintegrated_imu_ := imu' |}.

(** [kf->SetPoseTws(T); kf->SetPoseOptimized();] *)
Definition SetPoseTws_optimized (T : TransformType) (k : Keyframe) : Keyframe :=
  set_kf_pose T (velocity k) (bias_accel k) (bias_gyro k) (T_sc k) true
    (vel_bias_optimized k) (is_gba_optimized_ k) k.

(** [kf->SetStateBias(bA, bG); kf->SetStateVelocity(vel); kf->SetVelBiasOptimized();] *)
Definition SetStateVelBias_optimized (vel bA bG : Vector3Type) (k : Keyframe) : Keyframe :=
  set_kf_pose (T_ws k) vel bA bG (T_sc k) (pose_optimized k) true (is_gba_optimized_ k) k.

Definition SetStateVelocity (vel : Vector3Type) (k : Keyframe) : Keyframe :=
  set_kf_pose (T_ws k) vel (bias_accel k) (bias_gyro k) (T_sc k) (pose_optimized k)
    (vel_bias_optimized k) (is_gba_optimized_ k) k.

(** [kf->is_gba_optimized_ = true;] *)
Definition set_is_gba_optimized (k : Keyframe) : Keyframe :=
  set_kf_pose (T_ws k) (velocity k) (bias_accel k) (bias_gyro k) (T_sc k) (pose_optimized k)
    (vel_bias_optimized k) true k.

(** Modelled from the spec: [Keyframe::EraseLandmark] is not in the source
    files ("mutator to erase one observation by feature index"): the landmark
    slot of the feature is emptied. *)
Definition EraseLandmark (kp_id : nat) (k : Keyframe) : Keyframe :=
  set_kf_links (<[kp_id := None]> (landmarks_ k)) (preintegrated_imu_ k) k.

(** [kf->preintegrated_imu_->repropagate(bias_acc, bias_gyr)] *)
Definition repropagate_imu (bias_acc bias_gyr : Vector3Type) (k : Keyframe) : Keyframe :=
  set_kf_links (landmarks_ k) (repropagate bias_acc bias_gyr (preintegrated_imu_ k)) k.

Definition set_lm (pos : Vector3Type) (obs : list (option KeyframePtr * Z))
    (optimized gba_optimized : bool) (l : Landmark) : Landmark :=
  {| lm_invalid := lm_invalid l; pos_w := pos; observations := obs;
     reference_keyframe := reference_keyframe l; lm_optimized := optimized;
     lm_is_gba_optimized_ := gba_optimized |}.

(** Modelled from the spec: [Landmark::EraseObservation] is not in the source
    files ("mutator to erase one observation by keyframe"): the observation of
    the keyframe is taken out of the observation map. *)
Definition EraseObservation (kf : KeyframePtr) (l : Landmark) : Landmark :=
  set_lm (pos_w l) (filter (fun o => fst o ≠ Some kf) (observations l))
    (lm_optimized l) (lm_is_gba_optimized_ l) l.

(** [lm->SetWorldPos(pos)] *)
Definition SetWorldPos (pos : Vector3Type) (l : Landmark) : Landmark :=
  set_lm pos (observations l) (lm_optimized l) (lm_is_gba_optimized_ l) l.

(** [lm->SetWorldPos(pos); lm->SetOptimized(); lm->is_gba_optimized_ = true;] *)
Definition SetWorldPos_gba (pos : Vector3Type) (l : Landmark) : Landmark :=
  set_lm pos (observations l) true true l.

Definition vec3_to_list (v : Vector3Type) : list precision_t := [v3_x v; v3_y v; v3_z v].

(** [Vector3Type(buf[off], buf[off + 1], buf[off + 2])] *)
Definition vec3_at (m : Mem) (a : Array) (off : nat) : Vector3Type :=
  Vector3 (m a off) (m a (off + 1)) (m a (off + 2)).

(** Modelled from the spec: [Keyframe::UpdateCeresFromState] is not in the
    source files.  It "copies live entity state into flat optimization
    vectors": the pose block (quaternion xyzw + translation xyz), the
    velocity + bias block (9 scalars) and the extrinsics as a pose block. *)
Definition UpdateCeresFromState (kf : KeyframePtr) (s : State) : State :=
  let k := kfs s kf in
  with_mem
    (store (ceres_extrinsics_ kf) 0 (pose_to_ceres (T_sc k))
       (store (ceres_velocity_and_bias_ kf) 0
          (vec3_to_list (velocity k) ++ vec3_to_list (bias_accel k)
             ++ vec3_to_list (bias_gyro k))
          (store (ceres_pose_ kf) 0 (pose_to_ceres (T_ws k)) (mem s)))) s.

(** Modelled from the spec: [Keyframe::UpdateFromCeres] is not in the source
    files.  It "copies optimized vectors back into entity state", the converse
    of [UpdateCeresFromState]. *)
Definition UpdateFromCeres (kf : KeyframePtr) (s : State) : State :=
  let m := mem s in
  with_kf kf
    (fun k =>
       set_kf_pose (Ceres2Transform (load m (ceres_pose_ kf, 0) kPoseBlockSize))
         (vec3_at m (ceres_velocity_and_bias_ kf) 0)
         (vec3_at m (ceres_velocity_and_bias_ kf) 3)
         (vec3_at m (ceres_velocity_and_bias_ kf) 6)
         (Ceres2Transform (load m (ceres_extrinsics_ kf, 0) kPoseBlockSize))
         (pose_optimized k) (vel_bias_optimized k) (is_gba_optimized_ k) k) s.

(** *** Global Bundle Adjustment: building the problem *)

(** [kf->id_.first == 0 && kf->id_.second == map->id_map_] *)
Definition is_anchor (s : State) (kf : KeyframePtr) : bool :=
  bool_decide (fst (id_ (kfs s kf)) = 0)
  && bool_decide (snd (id_ (kfs s kf)) = id_map_ (map_ s)).

(** [m.insert(std::make_pair(k, v))]: an existing entry is kept. *)
Definition map_insert_new {V} (k : idpair) (v : V) (m : gmap idpair V) : gmap idpair V :=
  match m !! k with Some _ => m | None => <[k := v]> m end.

(** [m.at(k)] *)
Definition map_at {V} (m : gmap idpair V) (k : idpair) : Result V :=
  match m !! k with Some v => Ok v | None => Err out_of_range end.

(** [KeypointIdentifier(kfx, lm, feat_id)] *)
Record KeypointIdentifier := {
  keyframe : KeyframePtr;
  landmark : LandmarkPtr;
  keypoint_id : nat          (* size_t, from the int feat_id *)
}.

(** The locals of one round of problem construction, and the graph. *)
Record BundleBuild := {
  bb_state : State;
  bb_problem : Problem;
  distortion_map : gmap idpair Addr;
  intrinsics_map : gmap idpair Addr;
  not_included_lms : list bool;
  residual_ids : list ResidualBlockId;
  keypoint_ids : list KeypointIdentifier;
  imu_factors : list ResidualBlockId;
  imu_factors_kfs : list idpair;
  cnt_not_included : Z;
  cnt_included : Z
}.

Definition bb_update (s : State) (p : Problem) (b : BundleBuild) : BundleBuild :=
  {| bb_state := s; bb_problem := p; distortion_map := distortion_map b;
     intrinsics_map := intrinsics_map b; not_included_lms := not_included_lms b;
     residual_ids := residual_ids b; keypoint_ids := keypoint_ids b;
     imu_factors := imu_factors b; imu_factors_kfs := imu_factors_kfs b;
     cnt_not_included := cnt_not_included b; cnt_included := cnt_included b |}.

Definition bundle_init (s : State) : BundleBuild :=
  {| bb_state := s; bb_problem := empty_problem; distortion_map := ∅; intrinsics_map := ∅;
     not_included_lms := replicate (length (GetLandmarksVec (map_ s))) false;
     residual_ids := []; keypoint_ids := []; imu_factors := []; imu_factors_kfs := [];
     cnt_not_included := 0; cnt_included := 0 |}.

(** "Add camera parameters": the same statements in the [kPinhole] and the
    [kUnifiedProjection] branch, up to the pointer cast. *)
Definition add_camera_blocks (kf : KeyframePtr) (b : BundleBuild) : BundleBuild :=
  let s := bb_state b in
  let camera := camera_ (kfs s kf) in
  let p := AddParameterBlock (distortion_parameters camera, 0)
             (getDistortionParameterSize (cams s camera)) None (bb_problem b) in
  let p := SetParameterBlockConstant (distortion_parameters camera, 0) p in
  let p := AddParameterBlock (camera_parameters camera, 0)
             (getParameterSize (cams s camera)) None p in
  let p := SetParameterBlockConstant (camera_parameters camera, 0) p in
  {| bb_state := s; bb_problem := p;
     distortion_map :=
       map_insert_new (id_ (kfs s kf)) (distortion_parameters camera, 0) (distortion_map b);
     intrinsics_map :=
       map_insert_new (id_ (kfs s kf)) (camera_parameters camera, 0) (intrinsics_map b);
     not_included_lms := not_included_lms b;
     residual_ids := residual_ids b; keypoint_ids := keypoint_ids b;
     imu_factors := imu_factors b; imu_factors_kfs := imu_factors_kfs b;
     cnt_not_included := cnt_not_included b; cnt_included := cnt_included b |}.

Definition add_camera_parameters (kf : KeyframePtr) (b : BundleBuild) : Result BundleBuild :=
  match getType (cams (bb_state b) (camera_ (kfs (bb_state b) kf))) with
  | kPinhole => Ok (add_camera_blocks kf b)
  | kUnifiedProjection => Ok (add_camera_blocks kf b)
  | _ => Err exit_fatal                     (* "Unknown projection type." *)
  end.

(** "Add the state parameters" of round 1. *)
Definition add_state_parameters (visual_only : bool) (kf : KeyframePtr) (s : State)
    (p : Problem) : Problem :=
  let p := AddParameterBlock (ceres_pose_ kf, 0) kPoseBlockSize
             (Some PoseQuaternionLocalParameterization) p in
  let p := if is_anchor s kf then SetParameterBlockConstant (ceres_pose_ kf, 0) p else p in
  let p := if negb visual_only
           then AddParameterBlock (ceres_velocity_and_bias_ kf, 0) kSpeedBiasBlockSize None p
           else p in
  let p := AddParameterBlock (ceres_extrinsics_ kf, 0) kPoseBlockSize
             (Some PoseQuaternionLocalParameterization) p in
  SetParameterBlockConstant (ceres_extrinsics_ kf, 0) p.

(** The parameters of the IMU factor between [pred] and [kf]. *)
Definition imu_factor_blocks (pred kf : KeyframePtr) : list Addr :=
  [(ceres_pose_ pred, 0); (ceres_velocity_and_bias_ pred, 0);
   (ceres_pose_ kf, 0); (ceres_velocity_and_bias_ kf, 0)].

(** [repropagate] with the biases read from the velocity + bias block. *)
Definition repropagate_from_ceres (kf : KeyframePtr) (s : State) : State :=
  let bias_acc := vec3_at (mem s) (ceres_velocity_and_bias_ kf) 3 in
  let bias_gyr := vec3_at (mem s) (ceres_velocity_and_bias_ kf) 6 in
  with_kf kf (repropagate_imu bias_acc bias_gyr) s.

(** Round 1, "Add Keyframes": the loop body. *)
Definition gba1_add_keyframe (visual_only : bool) (kf : KeyframePtr) (b : BundleBuild)
    : Result BundleBuild :=
  if kf_invalid (kfs (bb_state b) kf) then Ok b else
  let s := UpdateCeresFromState kf (bb_state b) in
  let p := add_state_parameters visual_only kf s (bb_problem b) in
  b ← add_camera_parameters kf (bb_update s p b);
  if negb visual_only then
    let pred := predecessor (kfs s kf) in
    match pred with
    | Some pred =>
        if kf_invalid (kfs s pred) then
          if bool_decide (fst (id_ (kfs s kf)) ≠ 0) then Err exit_fatal   (* "no predecessor" *)
          else Ok b
        else
          let s := repropagate_from_ceres kf s in
          let imu_factor := PreintegrationFactor kf in
          let added := AddResidualBlock imu_factor None (imu_factor_blocks pred kf)
                         (bb_problem b) in
          Ok (bb_update s (snd added) b)
    | None =>
        if bool_decide (fst (id_ (kfs s kf)) ≠ 0) then Err exit_fatal
        else Ok b
    end
  else Ok b.

(** Round 2, "Add Keyframes": the loop body. *)
Definition gba2_add_keyframe (visual_only : bool) (kf : KeyframePtr) (b : BundleBuild)
    : Result BundleBuild :=
  if kf_invalid (kfs (bb_state b) kf) then Ok b else
  let s := UpdateCeresFromState kf (bb_state b) in
  let p := add_state_parameters visual_only kf s (bb_problem b) in
  let p := if is_loaded_ (kfs s kf) && gba_fix_poses_loaded_maps params
           then SetParameterBlockConstant (ceres_pose_ kf, 0) p else p in
  b ← add_camera_parameters kf (bb_update s p b);
  if negb visual_only then
    let pred := predecessor (kfs s kf) in
    match pred with
    | Some pred =>
        if kf_invalid (kfs s pred) then
          if bool_decide (fst (id_ (kfs s kf)) ≠ 0) then Err exit_fatal
          else Ok b
        else if bool_decide (getNumMeasurements (preintegrated_imu_ (kfs s kf)) = 0) then
          Ok b                                   (* "0 IMU measurements - skip IMU factor" *)
        else
          let s := repropagate_from_ceres kf s in
          if negb (HasParameterBlock (bb_problem b) (ceres_pose_ pred, 0))
             || negb (HasParameterBlock (bb_problem b) (ceres_pose_ kf, 0))
             || negb (HasParameterBlock (bb_problem b) (ceres_velocity_and_bias_ pred, 0))
             || negb (HasParameterBlock (bb_problem b) (ceres_velocity_and_bias_ kf, 0))
          then Err exit_fatal                    (* "parameter block missing" *)
          else
            let imu_factor := PreintegrationFactor kf in
            let added := AddResidualBlock imu_factor None (imu_factor_blocks pred kf)
                           (bb_problem b) in
            Ok {| bb_state := s; bb_problem := snd added;
                  distortion_map := distortion_map b; intrinsics_map := intrinsics_map b;
                  not_included_lms := not_included_lms b;
                  residual_ids := residual_ids b; keypoint_ids := keypoint_ids b;
                  imu_factors := imu_factors b ++ [fst added];
                  imu_factors_kfs := imu_factors_kfs b ++ [id_ (kfs s kf)];
                  cnt_not_included := cnt_not_included b; cnt_included := cnt_included b |}
    | None =>
        if bool_decide (fst (id_ (kfs s kf)) ≠ 0) then Err exit_fatal
        else Ok b
    end
  else Ok b.

(** The [if (camera_type == ...) switch (distortion_type)] dispatch that picks
    the reprojection factor. *)
Definition new_GlobalEuclideanReprError (cam : Camera) (kpx : Vector2Type)
    (obs_sigma : precision_t) (camera : CameraPtr) : Result CostFunction :=
  match getType cam with
  | kPinhole =>
      match getDistortionType cam with
      | kEquidistant => Ok (GlobalEuclideanReprError kPinhole kEquidistant kpx obs_sigma camera)
      | kRadTan => Ok (GlobalEuclideanReprError kPinhole kRadTan kpx obs_sigma camera)
      | kFisheye => Ok (GlobalEuclideanReprError kPinhole kFisheye kpx obs_sigma camera)
      | _ => Err exit_fatal                 (* "Unknown distortion type." *)
      end
  | kUnifiedProjection =>
      match getDistortionType cam with
      | kEquidistant =>
          Ok (GlobalEuclideanReprError kUnifiedProjection kEquidistant kpx obs_sigma camera)
      | kRadTan =>
          Ok (GlobalEuclideanReprError kUnifiedProjection kRadTan kpx obs_sigma camera)
      | kFisheye =>
          Ok (GlobalEuclideanReprError kUnifiedProjection kFisheye kpx obs_sigma camera)
      | _ => Err exit_fatal
      end
  | _ => Err exit_fatal                     (* "Unknown projection type." *)
  end.

(** [kfx && !kfx->IsInvalid()] for the keyframe of an observation. *)
Definition valid_observer (s : State) (o : option KeyframePtr * Z) : bool :=
  match fst o with
  | Some kfx => negb (kf_invalid (kfs s kfx))
  | None => false
  end.

(** [num_edges]: the observations whose keyframe is there and valid. *)
Definition num_edges (s : State) (obs : list (option KeyframePtr * Z)) : nat :=
  length (filter (fun o => valid_observer s o = true) obs).

(** The parameters of a reprojection factor. *)
Definition reprojection_blocks (kfx : KeyframePtr) (lm : LandmarkPtr) (intr dist : Addr)
    : list Addr :=
  [(ceres_pose_ kfx, 0); (ceres_extrinsics_ kfx, 0); (ceres_pos_ lm, 0); intr; dist].

Definition push_residual (block_id : ResidualBlockId) (ident : KeypointIdentifier)
    (p : Problem) (b : BundleBuild) : BundleBuild :=
  {| bb_state := bb_state b; bb_problem := p;
     distortion_map := distortion_map b; intrinsics_map := intrinsics_map b;
     not_included_lms := not_included_lms b;
     residual_ids := residual_ids b ++ [block_id];
     keypoint_ids := keypoint_ids b ++ [ident];
     imu_factors := imu_factors b; imu_factors_kfs := imu_factors_kfs b;
     cnt_not_included := cnt_not_included b; cnt_included := cnt_included b |}.

(** [size_t kp_id] from [int feat_id]. *)
Definition kp_id_of (feat_id : Z) : nat := Z.to_nat (to_size_t feat_id).

(** Round 1: the reprojection factor of one observation. *)
Definition gba1_add_observation (lm : LandmarkPtr) (o : option KeyframePtr * Z)
    (b : BundleBuild) : Result BundleBuild :=
  let s := bb_state b in
  match fst o with
  | None => Ok b
  | Some kfx =>
      if kf_invalid (kfs s kfx) then Ok b else
      let feat_id := snd o in
      let kpx := keypoints_distorted_ (kfs s kfx) feat_id in
      let obs_sigma := obs_sigma_of (keypoints_aors_ (kfs s kfx)) feat_id in
      reprojection_error ←
        new_GlobalEuclideanReprError (cams s (camera_ (kfs s kfx))) kpx obs_sigma
          (camera_ (kfs s kfx));
      intr ← map_at (intrinsics_map b) (id_ (kfs s kfx));
      dist ← map_at (distortion_map b) (id_ (kfs s kfx));
      let added :=
        AddResidualBlock reprojection_error (Some (CauchyLoss 1))
          (reprojection_blocks kfx lm intr dist) (bb_problem b) in
      Ok (push_residual (fst added)
            {| keyframe := kfx; landmark := lm; keypoint_id := kp_id_of feat_id |}
            (snd added) b)
  end.

(** Round 2: the same, with the look-up in [intrinsics_map] checked first. *)
Definition gba2_add_observation (lm : LandmarkPtr) (o : option KeyframePtr * Z)
    (b : BundleBuild) : Result BundleBuild :=
  let s := bb_state b in
  match fst o with
  | None => Ok b
  | Some kfx =>
      if kf_invalid (kfs s kfx) then Ok b else
      let feat_id := snd o in
      match intrinsics_map b !! id_ (kfs s kfx) with
      | None => Err exit_fatal              (* "cannot find ... in intrinsics_map" *)
      | Some intr =>
          let kpx := keypoints_distorted_ (kfs s kfx) feat_id in
          let obs_sigma := obs_sigma_of (keypoints_aors_ (kfs s kfx)) feat_id in
          reprojection_error ←
            new_GlobalEuclideanReprError (cams s (camera_ (kfs s kfx))) kpx obs_sigma
              (camera_ (kfs s kfx));
          dist ← map_at (distortion_map b) (id_ (kfs s kfx));
          let added :=
            AddResidualBlock reprojection_error (Some (CauchyLoss 1))
              (reprojection_blocks kfx lm intr dist) (bb_problem b) in
          Ok (push_residual (fst added)
                {| keyframe := kfx; landmark := lm; keypoint_id := kp_id_of feat_id |}
                (snd added) b)
      end
  end.

(** [not_included_lms[i] = true; continue;] with the counters of round 2. *)
Definition exclude_landmark (i : nat) (b : BundleBuild) : BundleBuild :=
  {| bb_state := bb_state b; bb_problem := bb_problem b;
     distortion_map := distortion_map b; intrinsics_map := intrinsics_map b;
     not_included_lms := <[i := true]> (not_included_lms b);
     residual_ids := residual_ids b; keypoint_ids := keypoint_ids b;
     imu_factors := imu_factors b; imu_factors_kfs := imu_factors_kfs b;
     cnt_not_included := (cnt_not_included b + 1)%Z; cnt_included := cnt_included b |}.

(** The position block of an included landmark. *)
Definition include_landmark (lm : LandmarkPtr) (b : BundleBuild) : BundleBuild :=
  let s := bb_state b in
  {| bb_state := with_mem (store (ceres_pos_ lm) 0 (vec3_to_list (pos_w (lms s lm))) (mem s)) s;
     bb_problem := AddParameterBlock (ceres_pos_ lm, 0) kPositionBlockSize None (bb_problem b);
     distortion_map := distortion_map b; intrinsics_map := intrinsics_map b;
     not_included_lms := not_included_lms b;
     residual_ids := residual_ids b; keypoint_ids := keypoint_ids b;
     imu_factors := imu_factors b; imu_factors_kfs := imu_factors_kfs b;
     cnt_not_included := cnt_not_included b; cnt_included := (cnt_included b + 1)%Z |}.

Definition th_min_observations : nat := 2.

(** "Add Landmarks": the loop body, over the index [i] into [landmarks]. *)
Definition gba_add_landmark
    (add_observation : LandmarkPtr -> option KeyframePtr * Z -> BundleBuild -> Result BundleBuild)
    (landmarks : list LandmarkPtr) (i : nat) (b : BundleBuild) : Result BundleBuild :=
  lm ← vec_at landmarks i;
  let s := bb_state b in
  if lm_invalid (lms s lm) then Ok b else
  let observations := observations (lms s lm) in
  if bool_decide (length observations < th_min_observations) then Ok (exclude_landmark i b)
  else if bool_decide (num_edges s observations < th_min_observations)
  then Ok (exclude_landmark i b)
  else for_each (add_observation lm) observations (include_landmark lm b).

Definition gba1_add_landmark := gba_add_landmark gba1_add_observation.
Definition gba2_add_landmark := gba_add_landmark gba2_add_observation.

(** [sqrt_info] of the bundle adjustments: identity, rotation part scaled by
    100, translation part by 1e4. *)
Definition gba_sqrt_info : SqrtInfo :=
  {| rot_scale := fmul (lit 1) (lit 100); trans_scale := fmul (lit 1) (lit 10000) |}.

Definition loop_edge_blocks (kf1 kf2 : KeyframePtr) : list Addr :=
  [(ceres_pose_ kf1, 0); (ceres_pose_ kf2, 0);
   (ceres_extrinsics_ kf1, 0); (ceres_extrinsics_ kf2, 0)].

Definition new_loop_edge (l : LoopConstraint) (sqrt_info : SqrtInfo) : CostFunction :=
  SixDofBetweenError (T_quat (T_s1_s2 l)) (T_trans (T_s1_s2 l)) sqrt_info.

(** Round 1, "Set Loop Edges". *)
Definition gba1_add_loop (p : Problem) (l : LoopConstraint) : Problem :=
  snd (AddResidualBlock (new_loop_edge l gba_sqrt_info) None
         (loop_edge_blocks (kf1 l) (kf2 l)) p).

(** Round 2, "Set Loop Edges". *)
Definition gba2_add_loop (p : Problem) (l : LoopConstraint) : Problem :=
  if negb (HasParameterBlock p (ceres_pose_ (kf1 l), 0))
     || negb (HasParameterBlock p (ceres_pose_ (kf2 l), 0))
  then p                                      (* "Loop KF missing -- skip loop" *)
  else snd (AddResidualBlock (new_loop_edge l gba_sqrt_info) (Some (CauchyLoss 1))
              (loop_edge_blocks (kf1 l) (kf2 l)) p).

(** The problem of round 1 (outlier removal), before the solve. *)
Definition gba1_build (visual_only : bool) (s : State) : Result BundleBuild :=
  let keyframes := GetKeyframesVec (map_ s) in
  let landmarks := GetLandmarksVec (map_ s) in
  b ← for_each (gba1_add_keyframe visual_only) keyframes (bundle_init s);
  b ← for_each (gba1_add_landmark landmarks) (seq 0 (length landmarks)) b;
  let loops := GetLoopConstraints (map_ (bb_state b)) in
  Ok (bb_update (bb_state b) (foldl gba1_add_loop (bb_problem b) loops) b).

(** The problem of round 2 (the "real" optimisation), before the solve. *)
Definition gba2_build (visual_only : bool) (s : State) : Result BundleBuild :=
  let keyframes := GetKeyframesVec (map_ s) in
  let landmarks := GetLandmarksVec (map_ s) in
  b ← for_each (gba2_add_keyframe visual_only) keyframes (bundle_init s);
  b ← for_each (gba2_add_landmark landmarks) (seq 0 (length landmarks)) b;
  if gba_use_map_loop_constraints params then
    let loops := GetLoopConstraints (map_ (bb_state b)) in
    Ok (bb_update (bb_state b) (foldl gba2_add_loop (bb_problem b) loops) b)
  else Ok b.

(** *** Global Bundle Adjustment: outlier removal *)

(** The locals of the "Remove Outliers" loop, and the graph. *)
Record OutlierLoop := {
  ol_state : State;
  ol_problem : Problem;
  resid_idx : nat;
  num_bad : nat
}.

Definition gba_remove_outlier (b : BundleBuild) (residuals : list precision_t)
    (i : nat) (o : OutlierLoop) : Result OutlierLoop :=
  rx ← vec_at residuals (resid_idx o);
  ry ← vec_at residuals (resid_idx o + 1);
  let residual_i := Vector2 rx ry in
  if exceeds (th_gba_outlier_global params) residual_i then
    ident ← vec_at (keypoint_ids b) i;
    block_id ← vec_at (residual_ids b) i;
    let kfi := keyframe ident in
    let lmi := landmark ident in
    let kp_id := keypoint_id ident in
    let s := with_kf kfi (EraseLandmark kp_id) (ol_state o) in
    let s := with_lm lmi (EraseObservation kfi) s in
    Ok {| ol_state := s; ol_problem := RemoveResidualBlock block_id (ol_problem o);
          resid_idx := resid_idx o + 2; num_bad := S (num_bad o) |}
  else
    Ok {| ol_state := ol_state o; ol_problem := ol_problem o;
          resid_idx := resid_idx o + 2; num_bad := num_bad o |}.

(** The state in which round 1 evaluates the residuals: after its solve. *)
Definition gba1_solved (b : BundleBuild) : State :=
  with_mem (Solve (bundle_options params 5) (bb_problem b) (mem (bb_state b))) (bb_state b).

(** [problem.Evaluate] over [residual_ids] after the solve of round 1. *)
Definition gba1_residuals (b : BundleBuild) : list precision_t :=
  Evaluate (bb_problem b) (mem (gba1_solved b)) (residual_ids b).

(** "First round for outlier removal", from the built problem on. *)
Definition gba1_remove_outliers (b : BundleBuild) : Result OutlierLoop :=
  for_each (gba_remove_outlier b (gba1_residuals b)) (seq 0 (length (residual_ids b)))
    {| ol_state := gba1_solved b; ol_problem := bb_problem b; resid_idx := 0; num_bad := 0 |}.

Definition gba_outlier_round (visual_only : bool) (s : State) : Result OutlierLoop :=
  b ← gba1_build visual_only s;
  gba1_remove_outliers b.

(** *** Global Bundle Adjustment: the optimisation and the write-back *)

(** "Recover optimized data", keyframes: the loop body. *)
Definition gba_recover_keyframe (visual_only : bool) (s : State) (kf : KeyframePtr) : State :=
  if kf_invalid (kfs s kf) then s else
  let T_ws_corrected := Ceres2Transform (load (mem s) (ceres_pose_ kf, 0) kPoseBlockSize) in
  let vel := vec3_at (mem s) (ceres_velocity_and_bias_ kf) 0 in
  let bA := vec3_at (mem s) (ceres_velocity_and_bias_ kf) 3 in
  let bG := vec3_at (mem s) (ceres_velocity_and_bias_ kf) 6 in
  with_kf kf
    (fun k =>
       let k := SetPoseTws_optimized T_ws_corrected k in
       let k := if negb visual_only then SetStateVelBias_optimized vel bA bG k else k in
       set_is_gba_optimized k) s.

(** "Recover optimized data", landmarks: the loop body. *)
Definition gba_recover_landmark (not_included : list bool) (landmarks : list LandmarkPtr)
    (i : nat) (s : State) : Result State :=
  skip ← vec_at not_included i;
  if (skip : bool) then Ok s else
  lm ← vec_at landmarks i;
  if lm_invalid (lms s lm) then Ok s else
  Ok (with_lm lm (SetWorldPos_gba (vec3_at (mem s) (ceres_pos_ lm) 0)) s).

(** "Second Round - 'real' optimization". *)
Definition gba_main_round (interations_limit : Z) (visual_only : bool) (s : State)
    : Result State :=
  let keyframes := GetKeyframesVec (map_ s) in
  let landmarks := GetLandmarksVec (map_ s) in
  b ← gba2_build visual_only s;
  let s := with_mem (Solve (bundle_options params interations_limit) (bb_problem b)
                       (mem (bb_state b))) (bb_state b) in
  let s := foldl (gba_recover_keyframe visual_only) s keyframes in
  for_each (gba_recover_landmark (not_included_lms b) landmarks) (seq 0 (length landmarks)) s.

(** "First round for outlier removal", when asked for. *)
Definition gba_first_round (visual_only outlier_removal : bool) (s : State) : Result State :=
  if outlier_removal
  then o ← gba_outlier_round visual_only s; Ok (ol_state o)
  else Ok s.

(** [Optimization::GlobalBundleAdjustment] *)
Definition GlobalBundleAdjustment (s : State) (interations_limit : Z)
    (time_limit : precision_t) (visual_only outlier_removal estimate_bias : bool)
    : Result State :=
  s ← gba_first_round visual_only outlier_removal s;
  s ← gba_main_round interations_limit visual_only s;
  Ok (Clean s).

(** *** Local Bundle Adjustment *)

(** [LocalLM]; its [ceres_pos_] is the buffer [local_ceres_pos_ i] of the
    [i]-th entry of [lms]. *)
Record LocalLM := {
  pos_l_ : Vector3Type;
  observations_ : list (option KeyframePtr * Z)
}.

(** The pose block of the identity: [QuaternionType qws(Matrix3Type::Identity())]
    and a zero translation. *)
Definition identity_pose : list precision_t :=
  [lit 0; lit 0; lit 0; lit 1; lit 0; lit 0; lit 0].

(** The blocks every window keyframe gets after its local pose is set. *)
Definition lba_add_blocks (anchor : bool) (kf : KeyframePtr) (p : Problem) : Problem :=
  let p := AddParameterBlock (ceres_pose_local_ kf, 0) kPoseBlockSize
             (Some PoseQuaternionLocalParameterization) p in
  let p := if anchor then SetParameterBlockConstant (ceres_pose_local_ kf, 0) p else p in
  let p := AddParameterBlock (ceres_extrinsics_ kf, 0) kPoseBlockSize
             (Some PoseQuaternionLocalParameterization) p in
  SetParameterBlockConstant (ceres_extrinsics_ kf, 0) p.

(** "Add Query KFs": the loop body. *)
Definition lba_add_query_kf (QKFs : list KeyframePtr) (QKF : KeyframePtr) (i : nat)
    (b : BundleBuild) : Result BundleBuild :=
  kf ← vec_at QKFs i;
  let s := UpdateCeresFromState kf (bb_state b) in
  if bool_decide (i = 0) then
    (* This is the QKF, set the pose to Identity and constant *)
    let s := with_mem (store (ceres_pose_local_ kf) 0 identity_pose (mem s)) s in
    add_camera_parameters kf (bb_update s (lba_add_blocks true kf (bb_problem b)) b)
  else
    (* This is Neighboring KF of QKF *)
    let T_wsi := Tmul (GetPoseTsw (kfs s QKF)) (T_ws (kfs s kf)) in
    let s := with_mem (store (ceres_pose_local_ kf) 0 (pose_to_ceres T_wsi) (mem s)) s in
    add_camera_parameters kf (bb_update s (lba_add_blocks false kf (bb_problem b)) b).

(** "Add Candidate KFs": the loop body. *)
Definition lba_add_candidate_kf (CKF : KeyframePtr) (T_s1s2 : TransformType)
    (kf : KeyframePtr) (b : BundleBuild) : Result BundleBuild :=
  let s := UpdateCeresFromState kf (bb_state b) in
  (* Transformation = T_QC * T_CW * T_WCi *)
  let T_wsi := Tmul (Tmul T_s1s2 (GetPoseTsw (kfs s CKF))) (T_ws (kfs s kf)) in
  let s := with_mem (store (ceres_pose_local_ kf) 0 (pose_to_ceres T_wsi) (mem s)) s in
  add_camera_parameters kf (bb_update s (lba_add_blocks false kf (bb_problem b)) b).

(** The reprojection factor of one observation of a local landmark. *)
Definition lba_add_observation (i : nat) (o : option KeyframePtr * Z) (b : BundleBuild)
    : Result BundleBuild :=
  let s := bb_state b in
  match fst o with
  | None => Ok b
  | Some kfx =>
      if kf_invalid (kfs s kfx) then Ok b else
      let feat_id := snd o in
      match intrinsics_map b !! id_ (kfs s kfx) with
      | None => Err exit_fatal              (* "cannot find ... in intrinsics_map" *)
      | Some intr =>
          let kpx := keypoints_distorted_add_ (kfs s kfx) feat_id in
          let obs_sigma := obs_sigma_of (keypoints_aors_add_ (kfs s kfx)) feat_id in
          reprojection_error ←
            new_GlobalEuclideanReprError (cams s (camera_ (kfs s kfx))) kpx obs_sigma
              (camera_ (kfs s kfx));
          dist ← map_at (distortion_map b) (id_ (kfs s kfx));
          let added :=
            AddResidualBlock reprojection_error (Some (CauchyLoss 1))
              [(ceres_pose_local_ kfx, 0); (ceres_extrinsics_ kfx, 0);
               (local_ceres_pos_ i, 0); intr; dist] (bb_problem b) in
          Ok (bb_update s (snd added) b)
      end
  end.

(** "Add Landmarks": the loop body. *)
Definition lba_add_landmark (lms_ : list LocalLM) (i : nat) (b : BundleBuild)
    : Result BundleBuild :=
  lm ← vec_at lms_ i;
  let s := bb_state b in
  let s := with_mem (store (local_ceres_pos_ i) 0 (vec3_to_list (pos_l_ lm)) (mem s)) s in
  let p := AddParameterBlock (local_ceres_pos_ i, 0) kPositionBlockSize None (bb_problem b) in
  for_each (lba_add_observation i) (observations_ lm) (bb_update s p b).

(** The between-factor of "Set Loop Edges": from [kf1] to [kf2], with the
    robust loss, over the local pose blocks. *)
Definition lba_add_edge (s : State) (kf1 : KeyframePtr) (p : Problem) (kf2 : KeyframePtr)
    : Problem :=
  let T_12 := Tmul (GetPoseTsw (kfs s kf1)) (T_ws (kfs s kf2)) in
  let loop_edge := SixDofBetweenError (T_quat T_12) (T_trans T_12) gba_sqrt_info in
  snd (AddResidualBlock loop_edge (Some (CauchyLoss 1))
         [(ceres_pose_local_ kf1, 0); (ceres_pose_local_ kf2, 0);
          (ceres_extrinsics_ kf1, 0); (ceres_extrinsics_ kf2, 0)] p).

(** The problem of the local bundle adjustment, before the solve. *)
Definition lba_build (s : State) (lms_ : list LocalLM) (QKFs CKFs : list KeyframePtr)
    (T_s1s2 : TransformType) : Result BundleBuild :=
  QKF ← vec_at QKFs 0;
  CKF ← vec_at CKFs 0;
  b ← for_each (lba_add_query_kf QKFs QKF) (seq 0 (length QKFs)) (bundle_init s);
  b ← for_each (lba_add_candidate_kf CKF T_s1s2) CKFs b;
  b ← for_each (lba_add_landmark lms_) (seq 0 (length lms_)) b;
  (* CKF edges: for (size_t i = 1; i < CKFs.size(); ++i) *)
  let p := foldl (lba_add_edge (bb_state b) CKF) (bb_problem b) (drop 1 CKFs) in
  (* QKF edges: for (size_t i = 1; i < QKFs.size(); ++i) *)
  let p := foldl (lba_add_edge (bb_state b) QKF) p (drop 1 QKFs) in
  Ok (bb_update (bb_state b) p b).

(** The parameter blocks the covariance is estimated over. *)
Definition lba_eval_blocks (lms_ : list LocalLM) (QKFs CKFs : list KeyframePtr) : list Addr :=
  ((fun kf => (ceres_pose_local_ kf, 0)) <$> CKFs)
  ++ ((fun kf => (ceres_pose_local_ kf, 0)) <$> drop 1 QKFs)
  ++ ((fun i => (local_ceres_pos_ i, 0)) <$> seq 0 (length lms_)).

(** [Optimization::LocalBundleAdjustment]: the graph after the call and the
    value left in [cov_BA].  The files it writes are not part of the model. *)
Definition LocalBundleAdjustment (s : State) (lms_ : list LocalLM)
    (QKFs CKFs : list KeyframePtr) (T_s1s2 : TransformType)
    : Result (State * list (list precision_t)) :=
  b ← lba_build s lms_ QKFs CKFs T_s1s2;
  let m := Solve (bundle_options params 10000) (bb_problem b) (mem (bb_state b)) in
  let cov_BA := JacobianCovariance (bb_problem b) m (lba_eval_blocks lms_ QKFs CKFs) in
  Ok (with_mem m (bb_state b), cov_BA).

(** *** Pose-Graph Optimisation *)

(** [TypeDefs::PoseMap]: poses by keyframe id. *)
Abbreviation PoseMap := (gmap idpair TransformType).

(** The locals of the pose-graph construction, and the graph. *)
Record PoseGraphBuild := {
  pg_state : State;
  pg_problem : Problem;
  q_ws_map : gmap idpair QuaternionType;
  inserted_edges : gset (KeyframePtr * KeyframePtr)
}.

Definition pg_update (s : State) (p : Problem) (b : PoseGraphBuild) : PoseGraphBuild :=
  {| pg_state := s; pg_problem := p; q_ws_map := q_ws_map b;
     inserted_edges := inserted_edges b |}.

(** The two blocks of a 4-DoF pose: [&kf->ceres_pose_[1]] (yaw) and
    [&kf->ceres_pose_[4]] (translation). *)
Definition yaw_block (kf : KeyframePtr) : Addr := (ceres_pose_ kf, 1).
Definition trans_block (kf : KeyframePtr) : Addr := (ceres_pose_ kf, 4).

Definition set_4dof_constant (kf : KeyframePtr) (p : Problem) : Problem :=
  SetParameterBlockConstant (trans_block kf) (SetParameterBlockConstant (yaw_block kf) p).

(** 4-DoF, "Add Keyframes": the loop body. *)
Definition pgo4_add_keyframe (kf : KeyframePtr) (b : PoseGraphBuild) : PoseGraphBuild :=
  if kf_invalid (kfs (pg_state b) kf) then b else
  let T_ws_init := T_ws (kfs (pg_state b) kf) in
  let s := UpdateCeresFromState kf (pg_state b) in
  let q_ws_init := T_quat T_ws_init in
  let ypr := R2ypr T_ws_init in
  let s := with_mem
             (store (ceres_pose_ kf) 1
                (vec3_to_list ypr ++ vec3_to_list (T_trans T_ws_init)) (mem s)) s in
  let p := AddParameterBlock (yaw_block kf) 1 (Some AngleLocalParameterization)
             (pg_problem b) in
  let p := AddParameterBlock (trans_block kf) 3 None p in
  let p := if is_anchor s kf then set_4dof_constant kf p else p in
  let p := if is_gba_optimized_ (kfs s kf) && pgo_fix_kfs_after_gba params
           then set_4dof_constant kf p
           else if is_loaded_ (kfs s kf) && pgo_fix_poses_loaded_maps params
           then set_4dof_constant kf p
           else p in
  {| pg_state := s; pg_problem := p;
     q_ws_map := <[id_ (kfs s kf) := q_ws_init]> (q_ws_map b);
     inserted_edges := inserted_edges b |}.

(** [q_ws_map[id]]: an entry that is not there is created with an
    uninitialised quaternion, whose value must not be read. *)
Definition q_ws_at (b : PoseGraphBuild) (id : idpair) : Result QuaternionType :=
  match q_ws_map b !! id with Some q => Ok q | None => Err undefined_behavior end.

Definition pose_4dof_blocks (kf1 kf2 : KeyframePtr) : list Addr :=
  [yaw_block kf1; trans_block kf1; yaw_block kf2; trans_block kf2].

(** The weight of a loop edge of the 4-DoF variant: [double weight = 1;]
    (the three-band selection on [cov] is commented out in the source). *)
Definition pgo4_loop_weight (l : LoopConstraint) : precision_t :=
  let cov := cov_trace l in
  lit 1.

(** 4-DoF, "Set loop constraints": the loop body. *)
Definition pgo4_add_loop (l : LoopConstraint) (b : PoseGraphBuild) : Result PoseGraphBuild :=
  let s := pg_state b in
  let t_12 := T_trans (T_s1_s2 l) in
  let relative_yaw := relative_yaw_smatch_squery l in
  let weight := pgo4_loop_weight l in
  q ← q_ws_at b (id_ (kfs s (kf1 l)));
  let euler_conncected := quat_R2ypr q in
  let cost_function :=
    FourDOFWeightError (v3_x t_12) (v3_y t_12) (v3_z t_12) relative_yaw
      (v3_y euler_conncected) (v3_z euler_conncected) weight in
  Ok (pg_update s
        (snd (AddResidualBlock cost_function (Some (HuberLoss (1 # 10)))
                (pose_4dof_blocks (kf1 l) (kf2 l)) (pg_problem b))) b).

(** [inserted_edges.count(kf_pair)], else [inserted_edges.insert(kf_pair)]. *)
Definition edge_is_new (kf_pair : KeyframePtr * KeyframePtr) (b : PoseGraphBuild) : bool :=
  bool_decide (kf_pair ∉ inserted_edges b).

Definition insert_edge (kf_pair : KeyframePtr * KeyframePtr) (p : Problem)
    (b : PoseGraphBuild) : PoseGraphBuild :=
  {| pg_state := pg_state b; pg_problem := p; q_ws_map := q_ws_map b;
     inserted_edges := {[kf_pair]} ∪ inserted_edges b |}.

(** The 4-DoF between-factor from [kf] to [kfc], without a loss. *)
Definition pgo4_add_edge (kf kfc : KeyframePtr) (b : PoseGraphBuild) : Result PoseGraphBuild :=
  let s := pg_state b in
  let T_si_sc := Tmul (Tinv (T_ws (kfs s kf))) (T_ws (kfs s kfc)) in
  let relative_t := T_trans T_si_sc in
  let relative_yaw := fsub (mem s (ceres_pose_ kfc) 1) (mem s (ceres_pose_ kf) 1) in
  q_ws ← q_ws_at b (id_ (kfs s kf));
  let euler_conncected := quat_R2ypr q_ws in
  if edge_is_new (kf, kfc) b then
    let cost_function :=
      FourDOFError (v3_x relative_t) (v3_y relative_t) (v3_z relative_t) relative_yaw
        (v3_y euler_conncected) (v3_z euler_conncected) in
    Ok (insert_edge (kf, kfc)
          (snd (AddResidualBlock cost_function None (pose_4dof_blocks kf kfc) (pg_problem b))) b)
  else Ok b.

(** "Set keyframe edges": the edge to the successor. *)
Definition add_successor_edge
    (add_edge : KeyframePtr -> KeyframePtr -> PoseGraphBuild -> Result PoseGraphBuild)
    (kf : KeyframePtr) (b : PoseGraphBuild) : Result PoseGraphBuild :=
  if kf_invalid (kfs (pg_state b) kf) then Ok b else
  match successor (kfs (pg_state b) kf) with
  | None => Ok b
  | Some succ => add_edge kf succ b
  end.

(** "Use 4 Previous KFs for additional Edges as done in VINS Fusion":
    [connections], walking the predecessors for [j = 1 .. 4]. *)
Fixpoint connections_from (s : State) (first : Z) (temp_kf : option KeyframePtr)
    (js : list Z) : Result (list (option KeyframePtr)) :=
  match js with
  | [] => Ok []
  | j :: js' =>
      if bool_decide (first - j > 0)%Z then
        match temp_kf with
        | None => Err undefined_behavior           (* temp_kf->GetPredecessor() on null *)
        | Some k =>
            let temp_kf := predecessor (kfs s k) in
            rest ← connections_from s first temp_kf js';
            Ok (temp_kf :: rest)
        end
      else connections_from s first temp_kf js'
  end.

(** "Set Additonal Keyframe edges": the loop body. *)
Definition add_window_edges
    (add_edge : KeyframePtr -> KeyframePtr -> PoseGraphBuild -> Result PoseGraphBuild)
    (kf : KeyframePtr) (b : PoseGraphBuild) : Result PoseGraphBuild :=
  let s := pg_state b in
  if kf_invalid (kfs s kf) then Ok b else
  connections ← connections_from s (to_int (Z.of_nat (fst (id_ (kfs s kf))))) (Some kf)
                  [1; 2; 3; 4]%Z;
  for_each (fun kfc b =>
              match kfc with
              | None => Err undefined_behavior     (* kfc->GetPoseTws() on null *)
              | Some kfc => add_edge kf kfc b
              end) connections b.

(** The options of the 4-DoF solve. *)
Definition pgo4_options : SolverOptions :=
  {| linear_solver_type := SPARSE_NORMAL_CHOLESKY;
     num_threads := threads_server params;
     num_linear_solver_threads := threads_server params;
     trust_region_strategy_type := trust_region_strategy_type default_options;
     max_num_iterations := pgo_iteration_limit params;
     max_solver_time_in_seconds := max_solver_time_in_seconds default_options |}.

(** The 4-DoF problem, before the solve. *)
Definition pgo4_build (s : State) : Result PoseGraphBuild :=
  let keyframes := GetKeyframesVec (map_ s) in
  let b := foldl (fun b kf => pgo4_add_keyframe kf b)
             {| pg_state := s; pg_problem := empty_problem; q_ws_map := ∅;
                inserted_edges := ∅ |} keyframes in
  b ← for_each pgo4_add_loop (GetLoopConstraints (map_ s)) b;
  b ← for_each (add_successor_edge pgo4_add_edge) keyframes b;
  for_each (add_window_edges pgo4_add_edge) keyframes b.

(** The locals of "Recover the optimized data", and the graph. *)
Record PoseGraphRecover := {
  pr_state : State;
  non_corrected_poses : PoseMap
}.

(** [velocity_corrected]: the velocity rotated from the old into the new frame. *)
Definition rotate_velocity (T_ws_corrected T_ws_uncorrected : TransformType) (k : Keyframe)
    : Keyframe :=
  SetStateVelocity (T_rotate (Tmul T_ws_corrected (Tinv T_ws_uncorrected)) (velocity k)) k.

(** 4-DoF, "Keyframes": the loop body. *)
Definition pgo4_recover_keyframe (r : PoseGraphRecover) (kf : KeyframePtr) : PoseGraphRecover :=
  let s := pr_state r in
  if kf_invalid (kfs s kf) then r else
  let T_ws_uncorrected := T_ws (kfs s kf) in
  let q := eulerAnglesToQuat (mem s (ceres_pose_ kf) 1) (mem s (ceres_pose_ kf) 2)
             (mem s (ceres_pose_ kf) 3) in
  let s := with_mem (store (ceres_pose_ kf) 0 [q_x q; q_y q; q_z q; q_w q] (mem s)) s in
  let T_ws_corrected := Ceres2Transform (load (mem s) (ceres_pose_ kf, 0) kPoseBlockSize) in
  let s := UpdateFromCeres kf s in
  let s := with_kf kf (rotate_velocity T_ws_corrected T_ws_uncorrected) s in
  {| pr_state := s;
     non_corrected_poses := <[id_ (kfs s kf) := T_ws_uncorrected]> (non_corrected_poses r) |}.

(** "Landmarks": every landmark is moved with its reference keyframe. *)
Definition pgo_recover_landmark (poses : PoseMap) (lm : LandmarkPtr) (s : State)
    : Result State :=
  if lm_invalid (lms s lm) then Ok s else
  match reference_keyframe (lms s lm) with
  | None => Ok s                                   (* "has no ref-KF" *)
  | Some kf_ref =>
      match poses !! id_ (kfs s kf_ref) with
      | None => Err exit_fatal                     (* "mit == non_corrected_poses.end()" *)
      | Some T_ws_uncorrected =>
          let T_sw_uncorrected := Tinv T_ws_uncorrected in
          let pos_s := T_apply T_sw_uncorrected (pos_w (lms s lm)) in
          let T_ws_corrected := T_ws (kfs s kf_ref) in
          Ok (with_lm lm (SetWorldPos (T_apply T_ws_corrected pos_s)) s)
      end
  end.

(** [Optimization::PoseGraphOptimization4DoF] *)
Definition PoseGraphOptimization4DoF (s : State) (corrected_poses : PoseMap) : Result State :=
  let keyframes := GetKeyframesVec (map_ s) in
  let landmarks := GetLandmarksVec (map_ s) in
  b ← pgo4_build s;
  let s := with_mem (Solve pgo4_options (pg_problem b) (mem (pg_state b))) (pg_state b) in
  let r := foldl pgo4_recover_keyframe {| pr_state := s; non_corrected_poses := ∅ |}
             keyframes in
  for_each (pgo_recover_landmark (non_corrected_poses r)) landmarks (pr_state r).

(** 6-DoF, "Add Keyframes": the loop body. *)
Definition pgo_add_keyframe (corrected_poses : PoseMap) (kf : KeyframePtr)
    (b : PoseGraphBuild) : PoseGraphBuild :=
  if kf_invalid (kfs (pg_state b) kf) then b else
  let T_ws_init :=
    match corrected_poses !! id_ (kfs (pg_state b) kf) with
    | Some T => T
    | None => T_ws (kfs (pg_state b) kf)
    end in
  let s := UpdateCeresFromState kf (pg_state b) in
  let s := with_mem (store (ceres_pose_ kf) 0 (pose_to_ceres T_ws_init) (mem s)) s in
  let p := AddParameterBlock (ceres_pose_ kf, 0) kPoseBlockSize
             (Some PoseQuaternionLocalParameterization) (pg_problem b) in
  let p := if is_anchor s kf then SetParameterBlockConstant (ceres_pose_ kf, 0) p else p in
  let p := AddParameterBlock (ceres_extrinsics_ kf, 0) kPoseBlockSize
             (Some PoseQuaternionLocalParameterization) p in
  let p := SetParameterBlockConstant (ceres_extrinsics_ kf, 0) p in
  pg_update s p b.

(** The weight of a loop edge of the 6-DoF variant, by the trace of the
    translational covariance. *)
Definition pgo_loop_weight (l : LoopConstraint) : precision_t :=
  let cov := cov_trace l in
  if flt cov (cov_switch params) then wt_lp_r1 params
  else if flt cov (cov_switch2 params) then wt_lp_r2 params
  else wt_lp_r3 params.

(** [sqrt_info_l = Identity(); ... sqrt_info_l *= weight;] *)
Definition pgo_loop_sqrt_info (l : LoopConstraint) : SqrtInfo :=
  {| rot_scale := fmul (lit 1) (pgo_loop_weight l);
     trans_scale := fmul (lit 1) (pgo_loop_weight l) |}.

(** [sqrt_info] of the keyframe edges. *)
Definition pgo_kf_sqrt_info : SqrtInfo :=
  {| rot_scale := fmul (lit 1) (wt_kf_r params); trans_scale := fmul (lit 1) (wt_kf_t params) |}.

(** 6-DoF, "Set loop constraints": the loop body. *)
Definition pgo_add_loop (p : Problem) (l : LoopConstraint) : Problem :=
  snd (AddResidualBlock (new_loop_edge l (pgo_loop_sqrt_info l)) None
         (loop_edge_blocks (kf1 l) (kf2 l)) p).

(** The 6-DoF between-factor from [kf] to [kfc], without a loss. *)
Definition pgo_add_edge (kf kfc : KeyframePtr) (b : PoseGraphBuild) : Result PoseGraphBuild :=
  let s := pg_state b in
  let T_si_sc := Tmul (Tinv (T_ws (kfs s kf))) (T_ws (kfs s kfc)) in
  if edge_is_new (kf, kfc) b then
    let f := SixDofBetweenError (T_quat T_si_sc) (T_trans T_si_sc) pgo_kf_sqrt_info in
    Ok (insert_edge (kf, kfc)
          (snd (AddResidualBlock f None (loop_edge_blocks kf kfc) (pg_problem b))) b)
  else Ok b.

(** The 6-DoF problem, before the solve. *)
Definition pgo_build (s : State) (corrected_poses : PoseMap) : Result PoseGraphBuild :=
  let keyframes := GetKeyframesVec (map_ s) in
  let b := foldl (fun b kf => pgo_add_keyframe corrected_poses kf b)
             {| pg_state := s; pg_problem := empty_problem; q_ws_map := ∅;
                inserted_edges := ∅ |} keyframes in
  let b := pg_update (pg_state b)
             (foldl pgo_add_loop (pg_problem b) (GetLoopConstraints (map_ s))) b in
  b ← for_each (add_successor_edge pgo_add_edge) keyframes b;
  for_each (add_window_edges pgo_add_edge) keyframes b.

(** 6-DoF, "Keyframes": the loop body. *)
Definition pgo_recover_keyframe (r : PoseGraphRecover) (kf : KeyframePtr) : PoseGraphRecover :=
  let s := pr_state r in
  if kf_invalid (kfs s kf) then r else
  let T_ws_uncorrected := T_ws (kfs s kf) in
  let T_ws_corrected := Ceres2Transform (load (mem s) (ceres_pose_ kf, 0) kPoseBlockSize) in
  let s := UpdateFromCeres kf s in
  let s := with_kf kf (rotate_velocity T_ws_corrected T_ws_uncorrected) s in
  {| pr_state := s;
     non_corrected_poses := <[id_ (kfs s kf) := T_ws_uncorrected]> (non_corrected_poses r) |}.

(** [Optimization::PoseGraphOptimization] *)
Definition PoseGraphOptimization (s : State) (corrected_poses : PoseMap) : Result State :=
  let keyframes := GetKeyframesVec (map_ s) in
  let landmarks := GetLandmarksVec (map_ s) in
  b ← pgo_build s corrected_poses;
  let s := with_mem (Solve (bundle_options params (pgo_iteration_limit params))
                       (pg_problem b) (mem (pg_state b))) (pg_state b) in
  let r := foldl pgo_recover_keyframe {| pr_state := s; non_corrected_poses := ∅ |}
             keyframes in
  for_each (pgo_recover_landmark (non_corrected_poses r)) landmarks (pr_state r).

(** *** The Jacobian of the covariance estimation *)

(** [ceres::CRSMatrix]: a sparse matrix in compressed row storage.  The
    fields are [int]s and vectors of [int] and [double]. *)
Record CRSMatrix := {
  num_rows : Z;
  num_cols : Z;
  crs_rows : list Z;              (* rows *)
  crs_cols : list Z;              (* cols *)
  crs_values : list precision_t   (* values *)
}.

(** [Eigen::MatrixXd]: its dimensions and its coefficients, row by row. *)
Record MatrixXd := {
  mat_rows : nat;
  mat_cols : nat;
  coeffs : list (list precision_t)
}.

(** [M(r, c)] read. *)
Definition mat_get (M : MatrixXd) (r c : nat) : option precision_t :=
  row ← coeffs M !! r; row !! c.

(** [M.setZero(rows, cols)]: negative dimensions are rejected by Eigen. *)
Definition setZero (rows cols : Z) : Result MatrixXd :=
  if bool_decide (rows < 0)%Z || bool_decide (cols < 0)%Z then Err undefined_behavior
  else Ok {| mat_rows := Z.to_nat rows; mat_cols := Z.to_nat cols;
             coeffs := replicate (Z.to_nat rows) (replicate (Z.to_nat cols) (lit 0)) |}.

(** [M(row, col) = val] with [int] indices: outside the matrix there is no
    coefficient to write. *)
Definition mat_set (M : MatrixXd) (row col : Z) (val : precision_t) : Result MatrixXd :=
  if bool_decide (0 <= row < Z.of_nat (mat_rows M))%Z
     && bool_decide (0 <= col < Z.of_nat (mat_cols M))%Z
  then Ok {| mat_rows := mat_rows M; mat_cols := mat_cols M;
             coeffs := alter (fun r => <[Z.to_nat col := val]> r) (Z.to_nat row) (coeffs M) |}
  else Err undefined_behavior.

(** [v[i]] with an [int] index: the index is converted to [size_t], so a
    negative one is past the end. *)
Definition vec_at_int {A} (v : list A) (i : Z) : Result A :=
  if bool_decide (i < 0)%Z then Err undefined_behavior else vec_at v (Z.to_nat i).

(** The body of the inner loop of [transformJacobian]. *)
Definition fill_entry (jacobian : CRSMatrix) (row colInd : Z) (jacobianMat : MatrixXd)
    : Result MatrixXd :=
  col ← vec_at_int (crs_cols jacobian) colInd;
  val ← vec_at_int (crs_values jacobian) colInd;
  mat_set jacobianMat row col val.

(** The body of the outer loop: [for (colInd = startInd; colInd < endInd; ++colInd)]. *)
Definition fill_row (jacobian : CRSMatrix) (row : Z) (jacobianMat : MatrixXd)
    : Result MatrixXd :=
  startInd ← vec_at_int (crs_rows jacobian) row;
  endInd ← vec_at_int (crs_rows jacobian) (row + 1);
  for_each (fill_entry jacobian row) (seqZ startInd (endInd - startInd)) jacobianMat.

(** [transformJacobian(jacobian)] *)
Definition transformJacobian (jacobian : CRSMatrix) : Result MatrixXd :=
  jacobianMat ← setZero (num_rows jacobian) (num_cols jacobian);
  for_each (fill_row jacobian) (seqZ 0 (num_rows jacobian)) jacobianMat.

(** ** Notions the properties are stated with *)

(** Entry [i] of [matches1] gives a correspondence: there is a match, slot [i]
    of [kf1] holds a landmark, both landmarks are valid, and the match has a
    feature index in [kf2]. *)
Definition is_correspondence (s : State) (kf1 kf2 : KeyframePtr)
    (matches1 : list (option LandmarkPtr)) (i : nat) : bool :=
  match matches1 !! i, landmarks_ (kfs s kf1) !! i with
  | Some (Some pMPB), Some (Some pMPA) =>
      negb (lm_invalid (lms s pMPA)) && negb (lm_invalid (lms s pMPB))
      && bool_decide (0 <= GetFeatureIndex (lms s pMPB) kf2)%Z
  | _, _ => false
  end.

(** The original indices of the correspondences, in order. *)
Definition correspondence_indices (s : State) (kf1 kf2 : KeyframePtr)
    (matches1 : list (option LandmarkPtr)) : list nat :=
  filter (fun i => is_correspondence s kf1 kf2 matches1 i = true) (seq 0 (length matches1)).

(** The [k]-th correspondence is an outlier: after the first solve, the norm
    of its residual in either direction exceeds the alignment threshold. *)
Definition is_outlier (s : State) (T12 : TransformType) (b : RelPoseBuild) (k : nat) : bool :=
  match residIdsA b !! k, residIdsB b !! k with
  | Some idA, Some idB =>
      let m1 := relative_pose_first_solve s T12 b in
      exceeds (th_outlier_align params) (EvaluateResidual (rp_problem b) m1 idA)
      || exceeds (th_outlier_align params) (EvaluateResidual (rp_problem b) m1 idB)
  | _, _ => false
  end.

(** The correspondences (by their position among the correspondences)
    classified as outliers. *)
Definition outliers (s : State) (T12 : TransformType) (b : RelPoseBuild) : list nat :=
  filter (fun k => is_outlier s T12 b k = true) (seq 0 (length (residIdsA b))).

(** The three-band table of loop-edge weights, in the words of the
    specification: keyed by the trace of the translational covariance, tight
    below the first breakpoint, medium below the second, loose otherwise. *)
Definition three_band_weight (cov : precision_t) : precision_t :=
  if flt cov (cov_switch params) then wt_lp_r1 params        (* tight *)
  else if flt cov (cov_switch2 params) then wt_lp_r2 params  (* medium *)
  else wt_lp_r3 params.                                      (* loose *)

(** The weights of the 4-DoF loop edges of a problem, in order. *)
Definition loop_edge_weights (p : Problem) : list precision_t :=
  omap (fun r => match rb_cost r with
                 | FourDOFWeightError _ _ _ _ _ _ w => Some w
                 | _ => None
                 end) (residual_blocks p).

(** The between-factors of a problem over local pose blocks, in order, each as
    the pair of keyframes it connects. *)
Definition between_edges (p : Problem) : list (KeyframePtr * KeyframePtr) :=
  omap (fun r => match rb_cost r, rb_params r with
                 | SixDofBetweenError _ _ _,
                   (ceres_pose_local_ k1, 0) :: (ceres_pose_local_ k2, 0) :: _ => Some (k1, k2)
                 | _, _ => None
                 end) (residual_blocks p).

(** A parameter block the solver may change, and one it may not. *)
Definition block_variable (p : Problem) (a : Addr) : Prop :=
  exists pb, pb ∈ parameter_blocks p /\ pb_addr pb = a /\ pb_constant pb = false.
Definition block_constant (p : Problem) (a : Addr) : Prop :=
  exists pb, pb ∈ parameter_blocks p /\ pb_addr pb = a /\ pb_constant pb = true.

(** The blocks [AddResidualBlock] looks at: the parameters the cost function
    declares a size for. *)
Definition declared_params (cost : CostFunction) (params : list Addr) : list Addr :=
  fst <$> zip params (parameter_block_sizes cost).

(** The landmark in slot [i] of a keyframe, if there is one. *)
Definition landmark_in_slot (k : Keyframe) (i : nat) : option LandmarkPtr :=
  match landmarks_ k !! i with
  | Some (Some lm) => Some lm
  | _ => None
  end.

(** The observation a keypoint identifier stands for is gone from both sides:
    the keyframe's slot is empty and the landmark has no observation by the
    keyframe. *)
Definition observation_erased (s : State) (ident : KeypointIdentifier) : Prop :=
  landmark_in_slot (kfs s (keyframe ident)) (keypoint_id ident) = None /\
  forall f, (Some (keyframe ident), f) ∉ observations (lms s (landmark ident)).

(** The residual of the [k]-th reprojection factor of round 1, evaluated
    after the solve of that round. *)
Definition gba1_residual (b : BundleBuild) (id : ResidualBlockId) : Vector2Type :=
  EvaluateResidual (bb_problem b) (mem (gba1_solved b)) id.

(** Its norm exceeds the global outlier threshold. *)
Definition gba1_is_outlier (b : BundleBuild) (k : nat) : bool :=
  match residual_ids b !! k with
  | Some id => fgt (norm (gba1_residual b id)) (th_gba_outlier_global params)
  | None => false
  end.

(** The ids of the residual blocks of a problem. *)
Definition residual_block_ids (p : Problem) : list ResidualBlockId :=
  rb_id <$> residual_blocks p.

Definition is_reprojection (c : CostFunction) : bool :=
  match c with GlobalEuclideanReprError _ _ _ _ _ => true | _ => false end.

(** A landmark is left out of a problem: it has no position block, and no
    residual block has its position buffer among its parameters. *)
Definition landmark_excluded (lm : LandmarkPtr) (p : Problem) : Prop :=
  (forall off, HasParameterBlock p (ceres_pos_ lm, off) = false) /\
  (forall r, r ∈ residual_blocks p -> forall x, x ∈ rb_params r -> fst x <> ceres_pos_ lm).

(** The solver writes to the scalars of variable parameter blocks and to
    nothing else. *)
Definition solver_keeps_constants : Prop :=
  forall o p m arr i, is_variable p arr i = false -> Solve o p m arr i = m arr i.

(** The pose block the 4-DoF write-back reads for a keyframe whose pose was
    [T] and whose yaw and translation the solver left alone: the quaternion
    of the Euler angles of [T], and the translation of [T]. *)
Definition pose_via_euler (T : TransformType) : list precision_t :=
  let ypr := R2ypr T in
  let q := eulerAnglesToQuat (v3_x ypr) (v3_y ypr) (v3_z ypr) in
  [q_x q; q_y q; q_z q; q_w q] ++ vec3_to_list (T_trans T).

(** An address is one of the places where a buffer is split into blocks. *)
Definition placed (arr : Array) (offs : list nat) (x : Addr) : Prop :=
  fst x = arr -> snd x ∈ offs.

(** The blocks over the buffer [arr] start at the offsets [offs] only; and
    once [done], all of them are there and none is variable. *)
Definition pinned (arr : Array) (offs : list nat) (done : Prop) (p : Problem) : Prop :=
  (forall off, HasParameterBlock p (arr, off) = true -> off ∈ offs) /\
  (done -> (forall off, off ∈ offs -> HasParameterBlock p (arr, off) = true) /\
           forall off, ~ block_variable p (arr, off)).

(** The factors of a kind in a problem, in the order they were added, each by
    its [key]. *)
Definition factors {K} (key : ResidualBlock -> K) (kind : CostFunction -> bool)
    (p : Problem) : list K :=
  key <$> filter (fun r => kind (rb_cost r) = true) (residual_blocks p).

(** A factor without its id: cost function, loss and parameters. *)
Definition full_key (r : ResidualBlock) : CostFunction * option LossFunction * list Addr :=
  (rb_cost r, rb_loss r, rb_params r).

(** A factor without its id and its loss. *)
Definition bare_key (r : ResidualBlock) : CostFunction * list Addr :=
  (rb_cost r, rb_params r).

Definition any_factor (c : CostFunction) : bool := true.

(** How the problem [p1] of round 1 stands to the problem [p2] of round 2:
    the blocks of [p2] are blocks of [p1], the variable ones are variable in
    [p1], a constant block of [p1] is a block of [p2]; the reprojection
    factors are the same; and the factors of [p2], in order and up to the
    loss, are among those of [p1]. *)
Record rounds_related (p1 p2 : Problem) : Prop := {
  rr_blocks : forall x, HasParameterBlock p2 x = true -> HasParameterBlock p1 x = true;
  rr_variable : forall x, block_variable p2 x -> block_variable p1 x;
  rr_constant : forall x, block_constant p1 x -> HasParameterBlock p2 x = true;
  rr_reprojection :
    factors full_key is_reprojection p1 = factors full_key is_reprojection p2;
  rr_factors : factors bare_key any_factor p2 `sublist_of` factors bare_key any_factor p1
}.

(** A camera the factors are instantiated for: a pinhole or unified-projection
    camera with an equidistant, radial-tangential or fisheye distortion. *)
Definition supported_camera (cam : Camera) : Prop :=
  (getType cam = kPinhole \/ getType cam = kUnifiedProjection) /\
  (getDistortionType cam = kEquidistant \/ getDistortionType cam = kRadTan
   \/ getDistortionType cam = kFisheye).

(** ** Notions for the remaining properties *)

(** Entry [k] of the storage can be copied: the index is not negative, there
    is a column and a value at [k], and the column is one of the matrix. *)
Definition crs_entry_ok (jacobian : CRSMatrix) (k : Z) : bool :=
  bool_decide (0 <= k)%Z
  && match crs_cols jacobian !! Z.to_nat k, crs_values jacobian !! Z.to_nat k with
     | Some c, Some _ => bool_decide (0 <= c < num_cols jacobian)%Z
     | _, _ => false
     end.

(** The indices of the entries of row [r]: from [rows[r]] up to [rows[r + 1]]. *)
Definition crs_row_range (jacobian : CRSMatrix) (r : nat) : list Z :=
  match crs_rows jacobian !! r, crs_rows jacobian !! S r with
  | Some a, Some b => seqZ a (b - a)
  | _, _ => []
  end.

(** Row [r] can be copied: [rows[r]] and [rows[r + 1]] are there and every
    entry between them can be copied. *)
Definition crs_row_ok (jacobian : CRSMatrix) (r : Z) : bool :=
  match crs_rows jacobian !! Z.to_nat r, crs_rows jacobian !! S (Z.to_nat r) with
  | Some a, Some b => forallb (crs_entry_ok jacobian) (seqZ a (b - a))
  | _, _ => false
  end.

(** The storage is well formed. *)
Definition crs_wf (jacobian : CRSMatrix) : bool :=
  bool_decide (0 <= num_rows jacobian)%Z && bool_decide (0 <= num_cols jacobian)%Z
  && forallb (crs_row_ok jacobian) (seqZ 0 (num_rows jacobian)).

(** The value the storage holds for the coefficient [(r, c)], if any: that of
    the last entry of row [r] with column [c]. *)
Definition crs_stored (jacobian : CRSMatrix) (r c : nat) : option precision_t :=
  last (omap (fun k => if bool_decide (crs_cols jacobian !! Z.to_nat k = Some (Z.of_nat c))
                       then crs_values jacobian !! Z.to_nat k else None)
          (crs_row_range jacobian r)).

(** ** Invariants of the constructions *)

(** The residual blocks of a problem built by additions are numbered in the
    order they were added. *)
Definition wf_problem (p : Problem) : Prop :=
  residual_block_ids p = seq 0 (next_residual_id p).

(** [p'] is [p] after some additions. *)
Definition grows (p p' : Problem) : Prop :=
  (wf_problem p -> wf_problem p') /\ next_residual_id p <= next_residual_id p'.

(** The book-keeping of the reprojection factors: [residual_ids] and
    [keypoint_ids] run in parallel, and [residual_ids] lists, without
    repetition, exactly the reprojection factors of the problem. *)
Record residuals_tracked (b : BundleBuild) : Prop := {
  rt_wf : wf_problem (bb_problem b);
  rt_length : length (keypoint_ids b) = length (residual_ids b);
  rt_nodup : NoDup (residual_ids b);
  rt_repr : forall r, r ∈ residual_blocks (bb_problem b) ->
                      (is_reprojection (rb_cost r) = true <-> rb_id r ∈ residual_ids b);
  rt_in : forall id, id ∈ residual_ids b -> id < next_residual_id (bb_problem b)
}.

(** Steps that only touch the parameter blocks. *)
Definition same_residuals (p p' : Problem) : Prop :=
  residual_blocks p' = residual_blocks p /\ next_residual_id p' = next_residual_id p.

(** What holds after the first [k] rounds of the loop. *)
Record removal_inv (b : BundleBuild) (k : nat) (o : OutlierLoop) : Prop := {
  ri_idx : resid_idx o = 2 * k;
  ri_bad : num_bad o
           = length (filter (fun j => gba1_is_outlier b j = true) (seq 0 k));
  ri_ids : forall id,
      id ∈ residual_block_ids (ol_problem o) <->
      id ∈ residual_block_ids (bb_problem b) /\
      ~ exists j, j < k /\ gba1_is_outlier b j = true /\ residual_ids b !! j = Some id;
  ri_erased : forall j ident,
      j < k -> gba1_is_outlier b j = true -> keypoint_ids b !! j = Some ident ->
      observation_erased (ol_state o) ident
}.

(** Equal up to the landmark slots and the IMU preintegration. *)
Definition kf_same (k k' : Keyframe) : Prop :=
  k' = set_kf_links (landmarks_ k') (preintegrated_imu_ k') k.

(** Equal up to the observations, of which some may have been erased. *)
Definition lm_same (l l' : Landmark) : Prop :=
  l' = set_lm (pos_w l) (observations l') (lm_optimized l) (lm_is_gba_optimized_ l) l /\
  observations l' `sublist_of` observations l.

(** [s'] is [s] up to the buffers, erased observations and the IMU
    preintegrations. *)
Record frame (s s' : State) : Prop := {
  fr_map : map_ s' = map_ s;
  fr_cams : cams s' = cams s;
  fr_kfs : forall k, kf_same (kfs s k) (kfs s' k);
  fr_lms : forall l, lm_same (lms s l) (lms s' l)
}.

(** The camera buffers on record are camera buffers. *)
Definition camera_maps (b : BundleBuild) : Prop :=
  (forall k v, intrinsics_map b !! k = Some v -> exists c, v = (camera_parameters c, 0)) /\
  (forall k v, distortion_map b !! k = Some v -> exists c, v = (distortion_parameters c, 0)).

(** A landmark is left out of the problem under construction. *)
Definition excl (lm : LandmarkPtr) (b : BundleBuild) : Prop :=
  landmark_excluded lm (bb_problem b) /\ camera_maps b.

(** Adding the factor of an observation leaves the graph, the marks and the
    camera maps as they are. *)
Definition observation_step
    (add_observation : nat -> option nat * Z -> BundleBuild -> Result BundleBuild) : Prop :=
  forall lm o b1 b2, add_observation lm o b1 = Ok b2 ->
    bb_state b2 = bb_state b1 /\ not_included_lms b2 = not_included_lms b1 /\
    intrinsics_map b2 = intrinsics_map b1 /\ distortion_map b2 = distortion_map b1.

(** The graph of [s0] up to the buffers; the camera buffers on record are
    camera buffers; the pose buffer of the anchor is one block; and once the
    anchor has been visited, that block is constant and holds its pose. *)
Definition anchored (a : KeyframePtr) (s0 : State) (done : Prop) (b : BundleBuild) : Prop :=
  frame s0 (bb_state b) /\ camera_maps b /\
  pinned (ceres_pose_ a) [0] done (bb_problem b) /\
  (done -> load (mem (bb_state b)) (ceres_pose_ a, 0) kPoseBlockSize
           = pose_to_ceres (T_ws (kfs s0 a))).

(** The keyframes of [s0]; the pose buffer of the anchor is split at [offs];
    and once the anchor has been visited, its blocks are constant and its
    buffer holds what [holds] says. *)
Definition pg_anchored (a : KeyframePtr) (s0 : State) (offs : list nat)
    (holds : Mem -> Prop) (done : Prop) (b : PoseGraphBuild) : Prop :=
  kfs (pg_state b) = kfs s0 /\ map_ (pg_state b) = map_ s0 /\
  pinned (ceres_pose_ a) offs done (pg_problem b) /\
  (done -> holds (mem (pg_state b))).

(** The pose buffer of [a] holds the pose block of [T]. *)
Definition holds_pose (a : KeyframePtr) (T : TransformType) (m : Mem) : Prop :=
  load m (ceres_pose_ a, 0) kPoseBlockSize = pose_to_ceres T.

(** The pose buffer of [a] holds, from index 1 on, the Euler angles and the
    translation of [T]. *)
Definition holds_yaw_trans (a : KeyframePtr) (T : TransformType) (m : Mem) : Prop :=
  load m (ceres_pose_ a, 1) 6 = vec3_to_list (R2ypr T) ++ vec3_to_list (T_trans T).

(** The pose a write-back leaves in the keyframe [a] of the graph [s]: the
    pose [T] read back from its buffer when [a] is a valid keyframe of the
    keyframe vector, which the write-back loop visits; the pose it had
    otherwise. *)
Definition pose_after (s : State) (a : KeyframePtr) (T : TransformType) : TransformType :=
  if decide (a ∈ GetKeyframesVec (map_ s) /\ kf_invalid (kfs s a) = false)
  then T else T_ws (kfs s a).

(** The graphs of the two rounds: the same up to the landmark slots and the
    IMU preintegrations of the keyframes. *)
Definition st_rel (s1 s2 : State) : Prop :=
  map_ s1 = map_ s2 /\ cams s1 = cams s2 /\ lms s1 = lms s2 /\ mem s1 = mem s2 /\
  forall k, kf_same (kfs s2 k) (kfs s1 k).

(** The locals of the two rounds. *)
Definition build_rel (b1 b2 : BundleBuild) : Prop :=
  st_rel (bb_state b1) (bb_state b2) /\
  intrinsics_map b1 = intrinsics_map b2 /\ distortion_map b1 = distortion_map b2 /\
  rounds_related (bb_problem b1) (bb_problem b2).

(** A matrix of [R] rows and [C] columns. *)
Definition shape (R C : nat) (M : MatrixXd) : Prop :=
  mat_rows M = R /\ mat_cols M = C /\ length (coeffs M) = R /\
  forall row, row ∈ coeffs M -> length row = C.


(** Some landmark slots of a keyframe were emptied. *)
Definition slots_emptied (l l' : list (option LandmarkPtr)) : Prop :=
  length l' = length l /\ forall i, l' !! i = l !! i \/ l' !! i = Some None.

(** Equal up to the estimates (pose, velocity, biases) and their flags. *)
Definition kf_moved (k k' : Keyframe) : Prop :=
  k' = set_kf_pose (T_ws k') (velocity k') (bias_accel k') (bias_gyro k') (T_sc k)
         (pose_optimized k') (vel_bias_optimized k') (is_gba_optimized_ k') k.

(** Equal up to the position and its flags. *)
Definition lm_moved (l l' : Landmark) : Prop :=
  l' = set_lm (pos_w l') (observations l) (lm_optimized l') (lm_is_gba_optimized_ l') l.

(** [s'] is [s] up to the buffers and the IMU preintegrations. *)
Definition imu_only (s s' : State) : Prop :=
  map_ s' = map_ s /\ cams s' = cams s /\ lms s' = lms s /\
  forall k, kfs s' k = set_kf_links (landmarks_ (kfs s k)) (preintegrated_imu_ (kfs s' k))
                         (kfs s k).

(** [s'] is [s] up to the buffers. *)
Definition buffers_only (s s' : State) : Prop :=
  kfs s' = kfs s /\ lms s' = lms s /\ cams s' = cams s /\ map_ s' = map_ s.

(** The ids of the valid keyframes of a list, in order. *)
Definition valid_ids (s : State) (l : list KeyframePtr) : list idpair :=
  (fun kf => id_ (kfs s kf)) <$> filter (fun kf => kf_invalid (kfs s kf) = false) l.

(** The velocity and bias block of a keyframe, as [UpdateCeresFromState]
    writes it. *)
Definition speed_and_bias (k : Keyframe) : list precision_t :=
  vec3_to_list (velocity k) ++ vec3_to_list (bias_accel k) ++ vec3_to_list (bias_gyro k).

(** A pose-graph construction seen from one keyframe: the keyframes are
    those of [s0], the problem satisfies [Q], and once the keyframe has been
    visited the buffers satisfy [holds]. *)
Definition kf_built (s0 : State) (Q : Problem -> Prop) (holds : Mem -> Prop) (done : Prop)
    (b : PoseGraphBuild) : Prop :=
  kfs (pg_state b) = kfs s0 /\ Q (pg_problem b) /\ (done -> holds (mem (pg_state b))).

(** Every block of the problem is a yaw block (offset 1, one scalar) or a
    translation block (offset 4, three scalars). *)
Definition yaw_trans_blocks (p : Problem) : Prop :=
  forall pb, pb ∈ parameter_blocks p ->
    (snd (pb_addr pb) = 1 /\ pb_size pb = 1) \/ (snd (pb_addr pb) = 4 /\ pb_size pb = 3).

(** A local bundle adjustment under construction, seen from the query
    keyframe [QKF]: the graph is that of [s0] up to the buffers, the camera
    buffers on record are camera buffers, the local pose buffer of [QKF] is
    one block, and once [QKF] has been visited that block is constant and
    holds the identity. *)
Definition query_pinned (QKF : KeyframePtr) (s0 : State) (done : Prop) (b : BundleBuild)
    : Prop :=
  buffers_only s0 (bb_state b) /\ camera_maps b /\
  pinned (ceres_pose_local_ QKF) [0] done (bb_problem b) /\
  (done -> load (mem (bb_state b)) (ceres_pose_local_ QKF, 0) kPoseBlockSize = identity_pose).

(** A pose graph under construction, after the loop constraints: the factors
    from the [n]-th on are keyframe edges, no two of them over the same
    blocks, each without a loss and over the blocks [blocks kf kfc] of a pair
    of keyframes on record in [inserted_edges]. *)
Definition edges_distinct (blocks : KeyframePtr -> KeyframePtr -> list Addr) (n : nat)
    (b : PoseGraphBuild) : Prop :=
  n <= length (residual_blocks (pg_problem b)) /\
  NoDup (rb_params <$> drop n (residual_blocks (pg_problem b))) /\
  forall r, r ∈ drop n (residual_blocks (pg_problem b)) ->
    rb_loss r = None /\
    exists kf kfc, (kf, kfc) ∈ inserted_edges b /\ rb_params r = blocks kf kfc.

(** No block of the problem lies in a velocity and bias buffer. *)
Definition no_speed_blocks (p : Problem) : Prop :=
  forall x, HasParameterBlock p x = true -> forall kf, fst x <> ceres_velocity_and_bias_ kf.

(** No factor of the problem is an IMU factor. *)
Definition no_imu_factors (p : Problem) : Prop :=
  forall r, r ∈ residual_blocks p -> forall kf, rb_cost r <> PreintegrationFactor kf.

(** A bundle adjustment without inertial terms, in the problem and on record. *)
Definition no_inertial_terms (b : BundleBuild) : Prop :=
  no_speed_blocks (bb_problem b) /\ no_imu_factors (bb_problem b) /\ imu_factors b = [].

(** The [j]-th predecessor of a keyframe, if the chain is that long. *)
Fixpoint nth_predecessor (s : State) (j : nat) (kf : KeyframePtr) : option KeyframePtr :=
  match j with
  | 0 => Some kf
  | S j' =>
      match nth_predecessor s j' kf with
      | Some k => predecessor (kfs s k)
      | None => None
      end
  end.

End Optimization.

(** ** A concrete world for test scenes

    Exact rational arithmetic, and the rigid transforms restricted to pure
    translations (every frame has the identity orientation), so that the
    model can be run on small scenes. *)

Module TestWorld.

(** [sqrt] of a rational, rounded down on the numerator. *)
Definition Qsqrt (q : Q) : Q := Z.sqrt (Qnum q * Zpos (Qden q)) # Qden q.

#[export] Instance QScalar : Scalar := {|
  precision_t := Q;
  lit := fun q => q;
  fadd := Qplus;
  fsub := Qminus;
  fmul := Qmult;
  fdiv := Qdiv;
  fneg := Qopp;
  fgt := fun a b => negb (Qle_bool a b);
  flt := fun a b => negb (Qle_bool b a);
  fle := Qle_bool;
  fcos := fun x => (1 - x * x / 2)%Q;      (* second-order approximation *)
  fsin := fun x => x;                      (* first-order approximation *)
  hypot2 := fun x y => Qsqrt (x * x + y * y)
|}.

Definition zero3 : Vector3Type := Vector3 0%Q 0%Q 0%Q.

#[export] Instance TranslationGeometry : Geometry := {|
  TransformType := Vector3Type;
  Tmul := fun a b => Vector3 (v3_x a + v3_x b)%Q (v3_y a + v3_y b)%Q (v3_z a + v3_z b)%Q;
  Tinv := fun a => Vector3 (- v3_x a)%Q (- v3_y a)%Q (- v3_z a)%Q;
  T_quat := fun _ => Quaternion 1%Q 0%Q 0%Q 0%Q;
  T_trans := fun a => a;
  T_apply := fun a p => Vector3 (v3_x p + v3_x a)%Q (v3_y p + v3_y a)%Q (v3_z p + v3_z a)%Q;
  T_rotate := fun _ v => v;
  Ceres2Transform := fun l => Vector3 (nth 4 l 0%Q) (nth 5 l 0%Q) (nth 6 l 0%Q);
  R2ypr := fun _ => zero3;
  quat_R2ypr := fun _ => zero3
|}.

(** A solver that moves every scalar it is allowed to move by one, and an
    evaluation in which every point projects to the image origin, so that the
    residual of a reprojection factor is the observed keypoint. *)
Definition residual_of_cost (c : CostFunction) : Vector2Type :=
  match c with
  | GlobalEuclideanReprError _ _ kpx _ _ => kpx
  | RelativeEuclideanReprError _ _ kpObs _ _ _ _ => kpObs
  | _ => Vector2 0%Q 0%Q
  end.

#[export] Instance ShiftSolver : Solver := {|
  Solve := fun _ p m a i => if is_variable p a i then (m a i + 1)%Q else m a i;
  EvaluateResidual := fun p _ id =>
    match filter (fun r => rb_id r = id) (residual_blocks p) with
    | r :: _ => residual_of_cost (rb_cost r)
    | [] => Vector2 0%Q 0%Q
    end;
  JacobianCovariance := fun _ _ _ => []
|}.

#[export] Instance KeepAll : MapBackend := {| Clean := fun s => s |}.

Definition test_params : Params :=
  {| threads_server := 4;
     th_gba_outlier_global := 2%Q;
     th_outlier_align := 2%Q;
     gba_fix_poses_loaded_maps := false;
     gba_use_map_loop_constraints := false;
     pgo_fix_kfs_after_gba := false;
     pgo_fix_poses_loaded_maps := false;
     pgo_iteration_limit := 100;
     wt_kf_r := 1%Q; wt_kf_t := 1%Q;
     wt_lp_r1 := (1 # 2)%Q; wt_lp_r2 := (1 # 10)%Q; wt_lp_r3 := (1 # 100)%Q;
     wt_lp_t1 := 1%Q;
     cov_switch := (2 # 10)%Q; cov_switch2 := (5 # 10)%Q |}.

Definition pinhole : Camera :=
  {| getType := kPinhole; getDistortionType := kRadTan;
     getParameterSize := 4; getDistortionParameterSize := 4 |}.

Definition no_imu : Preintegration :=
  {| getNumMeasurements := 0; imu_bias_acc := zero3; imu_bias_gyr := zero3 |}.

(** A valid keyframe with the given id, pose, keypoints and landmark slots. *)
Definition test_kf (id : idpair) (T : TransformType) (kps : Z -> Vector2Type)
    (slots : list (option LandmarkPtr)) (pred succ : option KeyframePtr) : Keyframe :=
  {| id_ := id; kf_invalid := false; T_ws := T; velocity := zero3;
     bias_accel := zero3; bias_gyro := zero3; T_sc := zero3; camera_ := 0;
     keypoints_distorted_ := kps; keypoints_aors_ := fun _ _ => 0%Q;
     keypoints_distorted_add_ := kps; keypoints_aors_add_ := fun _ _ => 0%Q;
     landmarks_ := slots; predecessor := pred; successor := succ;
     is_loaded_ := false; is_gba_optimized_ := false; pose_optimized := false;
     vel_bias_optimized := false; preintegrated_imu_ := no_imu |}.

Definition test_lm (pos : Vector3Type) (obs : list (option KeyframePtr * Z))
    (ref : option KeyframePtr) : Landmark :=
  {| lm_invalid := false; pos_w := pos; observations := obs; reference_keyframe := ref;
     lm_optimized := false; lm_is_gba_optimized_ := false |}.

Definition zero_mem : Mem := fun _ _ => 0%Q.

(** *** Scene 1: two views.
    Keyframes 0 and 1; landmark [i] sits in slot [i] of keyframe 0, landmark
    [100 + i] is observed by keyframe 1 under feature [i].  The keypoint [i] of
    keyframe 0 is (3, 4) when [i] is in [far], the origin otherwise. *)
Definition two_view_scene (far : list Z) (slots : nat) : State :=
  {| kfs := fun k =>
       if decide (k = 0)
       then test_kf (0, 0) zero3
              (fun i => if bool_decide (i ∈ far) then Vector2 3%Q 4%Q else Vector2 0%Q 0%Q)
              (Some <$> seq 0 slots) None (Some 1)
       else test_kf (1, 0) (Vector3 1%Q 0%Q 0%Q) (fun _ => Vector2 0%Q 0%Q) [] (Some 0) None;
     lms := fun l =>
       if decide (l < 100) then test_lm (Vector3 0%Q 0%Q 5%Q) [(Some 0, Z.of_nat l)] (Some 0)
       else test_lm (Vector3 0%Q 0%Q 5%Q) [(Some 1, Z.of_nat (l - 100))] (Some 1);
     cams := fun _ => pinhole;
     mem := zero_mem;
     map_ := {| id_map_ := 0; GetKeyframesVec := [0; 1]; GetLandmarksVec := [];
                GetLoopConstraints := [] |} |}.

(** Fourteen entries of [matches1] for scene 1: the first without a match,
    then thirteen correspondences. *)
Definition thirteen_matches : list (option LandmarkPtr) := None :: (Some <$> seq 101 13).

(** *** Scene 2: a chain of [n] keyframes of one agent.
    Keyframe [k] has the id (k, 0) and sits at (k, 0, 0); keyframe 0 is the
    anchor of the map. *)
Definition chain_kf (n k : nat) : Keyframe :=
  test_kf (k, 0) (Vector3 (Z.of_nat k # 1) 0%Q 0%Q) (fun _ => Vector2 0%Q 0%Q) []
    (if decide (k = 0) then None else Some (k - 1))
    (if decide (k + 1 < n) then Some (k + 1) else None).

Definition chain_scene (n : nat) (loops : list LoopConstraint) : State :=
  {| kfs := chain_kf n;
     lms := fun _ => test_lm zero3 [] None;
     cams := fun _ => pinhole;
     mem := zero_mem;
     map_ := {| id_map_ := 0; GetKeyframesVec := seq 0 n; GetLandmarksVec := [];
                GetLoopConstraints := loops |} |}.

(** A loop constraint between the keyframes 0 and 2 with a tight covariance. *)
Definition tight_loop : LoopConstraint :=
  {| kf1 := 0; kf2 := 2; T_s1_s2 := Vector3 2%Q 0%Q 0%Q; cov_trace := (1 # 10)%Q;
     relative_yaw_smatch_squery := 0%Q |}.

(** *** Scene 3: a small map for bundle adjustment.
    Keyframes 0 (the anchor) and 1; the landmarks 0 and 1 are seen by both
    keyframes, the landmark 2 by keyframe 0 only.  The keypoint 1 of keyframe 0
    is (3, 4), every other keypoint is the origin. *)
Definition bundle_scene (loops : list LoopConstraint) : State :=
  {| kfs := fun k =>
       if decide (k = 0)
       then test_kf (0, 0) zero3
              (fun i => if bool_decide (i = 1%Z) then Vector2 3%Q 4%Q else Vector2 0%Q 0%Q)
              [Some 0; Some 1; Some 2] None (Some 1)
       else test_kf (k, 0) (Vector3 1%Q 0%Q 0%Q) (fun _ => Vector2 0%Q 0%Q)
              [Some 0; Some 1] (Some 0) None;
     lms := fun l =>
       if decide (l < 2)
       then test_lm (Vector3 0%Q 0%Q 5%Q) [(Some 0, Z.of_nat l); (Some 1, Z.of_nat l)] (Some 0)
       else test_lm (Vector3 0%Q 0%Q 5%Q) [(Some 0, Z.of_nat l)] (Some 0);
     cams := fun _ => pinhole;
     mem := zero_mem;
     map_ := {| id_map_ := 0; GetKeyframesVec := [0; 1]; GetLandmarksVec := [0; 1; 2];
                GetLoopConstraints := loops |} |}.

(** A loop constraint between the two keyframes of scene 3. *)
Definition short_loop : LoopConstraint :=
  {| kf1 := 0; kf2 := 1; T_s1_s2 := Vector3 1%Q 0%Q 0%Q; cov_trace := (1 # 10)%Q;
     relative_yaw_smatch_squery := 0%Q |}.

(** A 2 x 3 sparse matrix in compressed-row storage.  Row 0 stores 1 at
    column 0 and 2 at column 2; row 1 stores column 1 twice, 3 and then 4. *)
Definition sparse_2x3 : CRSMatrix :=
  {| num_rows := 2; num_cols := 3;
     crs_rows := [0; 2; 4]%Z;
     crs_cols := [0; 2; 1; 1]%Z;
     crs_values := [1%Q; 2%Q; 3%Q; 4%Q] |}.

(** The dense form of [sparse_2x3]. *)
Definition dense_2x3 : MatrixXd :=
  {| mat_rows := 2; mat_cols := 3;
     coeffs := [[1%Q; 0%Q; 2%Q]; [0%Q; 4%Q; 0%Q]] |}.

(** The parameters of [test_params] with the switches that fix keyframes on. *)
Definition fixing_params : Params :=
  {| threads_server := 4;
     th_gba_outlier_global := 2%Q;
     th_outlier_align := 2%Q;
     gba_fix_poses_loaded_maps := true;
     gba_use_map_loop_constraints := false;
     pgo_fix_kfs_after_gba := true;
     pgo_fix_poses_loaded_maps := true;
     pgo_iteration_limit := 100;
     wt_kf_r := 1%Q; wt_kf_t := 1%Q;
     wt_lp_r1 := (1 # 2)%Q; wt_lp_r2 := (1 # 10)%Q; wt_lp_r3 := (1 # 100)%Q;
     wt_lp_t1 := 1%Q;
     cov_switch := (2 # 10)%Q; cov_switch2 := (5 # 10)%Q |}.

(** Scene 2 with its keyframe 1 read from a stored map. *)
Definition loaded_chain (n : nat) (loops : list LoopConstraint) : State :=
  {| kfs := fun k =>
       if decide (k = 1)
       then {| id_ := (1, 0); kf_invalid := false; T_ws := Vector3 1%Q 0%Q 0%Q;
               velocity := zero3; bias_accel := zero3; bias_gyro := zero3; T_sc := zero3;
               camera_ := 0;
               keypoints_distorted_ := fun _ => Vector2 0%Q 0%Q;
               keypoints_aors_ := fun _ _ => 0%Q;
               keypoints_distorted_add_ := fun _ => Vector2 0%Q 0%Q;
               keypoints_aors_add_ := fun _ _ => 0%Q;
               landmarks_ := []; predecessor := Some 0;
               successor := if decide (2 < n) then Some 2 else None;
               is_loaded_ := true; is_gba_optimized_ := false; pose_optimized := false;
               vel_bias_optimized := false; preintegrated_imu_ := no_imu |}
       else chain_kf n k;
     lms := fun _ => test_lm zero3 [] None;
     cams := fun _ => pinhole;
     mem := zero_mem;
     map_ := {| id_map_ := 0; GetKeyframesVec := seq 0 n; GetLandmarksVec := [];
                GetLoopConstraints := loops |} |}.

(** The local landmarks of a window over scene 2: one seen by the keyframes 1
    and 2, one that is not observed. *)
Definition window_landmarks : list LocalLM :=
  [ {| pos_l_ := Vector3 0%Q 0%Q 5%Q; observations_ := [(Some 1, 0%Z); (Some 2, 3%Z)] |};
    {| pos_l_ := Vector3 1%Q 0%Q 5%Q; observations_ := [(None, 0%Z)] |} ].

(** A corrected pose for the id of the anchor of scene 2. *)
Definition anchor_correction : gmap idpair TransformType :=
  {[ (0, 0) := Vector3 5%Q 5%Q 5%Q ]}.

End TestWorld.

(** * Properties *)

(** ** Generic facts *)

Lemma bind_Ok {A B} (r : Result A) (f : A -> Result B) (b : B) :
  r ≫= f = Ok b -> exists a, r = Ok a /\ f a = Ok b.
Proof. destruct r as [a|e]; simpl; [eauto | discriminate]. Qed.

Lemma Ok_inj {A} (a b : A) : Ok a = Ok b -> a = b.
Proof. intros [= ->]. reflexivity. Qed.

Lemma vec_at_Ok {A} (v : list A) (i : nat) (a : A) :
  vec_at v i = Ok a <-> v !! i = Some a.
Proof.
  unfold vec_at. destruct (v !! i); split; intros E; inversion E; reflexivity.
Qed.

Lemma for_each_cons {A S} (body : A -> S -> Result S) a l s s' :
  for_each body (a :: l) s = Ok s' ->
  exists s1, body a s = Ok s1 /\ for_each body l s1 = Ok s'.
Proof. simpl. destruct (body a s) as [s1|e]; [eauto | discriminate]. Qed.

Lemma for_each_app {A S} (body : A -> S -> Result S) l1 l2 s s' :
  for_each body (l1 ++ l2) s = Ok s' <->
  exists s1, for_each body l1 s = Ok s1 /\ for_each body l2 s1 = Ok s'.
Proof.
  revert s. induction l1 as [|a l1 IH]; intros s; simpl.
  - split; [eauto | intros (s1 & E & E'); congruence].
  - destruct (body a s) as [s1|e]; [apply IH |].
    split; [discriminate | intros (s1 & E & _); discriminate].
Qed.

(** An invariant of a loop that ran to its end. *)
Lemma for_each_invariant {A S} (body : A -> S -> Result S) (P : S -> Prop) l s s' :
  (forall a s1 s2, a ∈ l -> P s1 -> body a s1 = Ok s2 -> P s2) ->
  P s -> for_each body l s = Ok s' -> P s'.
Proof.
  revert s. induction l as [|a l IH]; intros s Hstep Hs E.
  - inversion E; subst; exact Hs.
  - apply for_each_cons in E as (s1 & E1 & E2).
    apply (IH s1); [| eapply Hstep; [left | exact Hs | exact E1] | exact E2].
    intros a' t1 t2 Ha'. apply Hstep. right. exact Ha'.
Qed.

Lemma to_int_small (z : Z) : (0 <= z < 2 ^ 31)%Z -> to_int z = z.
Proof.
  intros Hz. unfold to_int.
  rewrite Z.mod_small; lia.
Qed.

Lemma to_int_le (n : nat) : (to_int (Z.of_nat n) <= Z.of_nat n)%Z.
Proof.
  unfold to_int.
  pose proof (Z.mod_pos_bound (Z.of_nat n + 2 ^ 31) (2 ^ 32) ltac:(lia)) as Hb.
  pose proof (Z.mod_le (Z.of_nat n + 2 ^ 31) (2 ^ 32) ltac:(lia) ltac:(lia)).
  lia.
Qed.

Lemma to_size_t_small (z : Z) : (0 <= z < 2 ^ 64)%Z -> to_size_t z = z.
Proof. intros Hz. unfold to_size_t. apply Z.mod_small. lia. Qed.

Section RelativePose.
Context `{Geometry} `{!Solver}.
Variable params : Params.

(** [residuals[2 k]] and [residuals[2 k + 1]] are the residual of block [k]. *)
Lemma Evaluate_lookup (p : Problem) (m : Mem) (ids : list ResidualBlockId) k id :
  ids !! k = Some id ->
  Evaluate p m ids !! (2 * k) = Some (v2_x (EvaluateResidual p m id)) /\
  Evaluate p m ids !! (2 * k + 1) = Some (v2_y (EvaluateResidual p m id)).
Proof.
  revert k. induction ids as [|i0 ids IH]; intros k Hk; [discriminate|].
  destruct k as [|k]; simpl in Hk.
  - inversion Hk; subst. split; reflexivity.
  - replace (2 * S k) with (S (S (2 * k))) by lia.
    replace (S (S (2 * k)) + 1) with (S (S (2 * k + 1))) by lia.
    simpl. apply IH, Hk.
Qed.

(** One round of the loop that adds the observations. *)
Lemma add_observation_step s kf1 kf2 TcwA TcwB matches1 i b b' :
  add_observation s kf1 kf2 TcwA TcwB matches1 i b = Ok b' ->
  let c := is_correspondence s kf1 kf2 matches1 i in
  is_Some (matches1 !! i) /\
  vIndex b' = vIndex b ++ (if c then [i] else []) /\
  numCorrespondences b' = (numCorrespondences b + (if c then 1 else 0))%Z /\
  length (residIdsA b') = length (residIdsA b) + (if c then 1 else 0) /\
  length (residIdsB b') = length (residIdsB b) + (if c then 1 else 0).
Proof.
  unfold add_observation, is_correspondence. intros E.
  apply bind_Ok in E as (m & Em & E). apply vec_at_Ok in Em. rewrite Em.
  split; [eauto|].
  destruct m as [pMPB|].
  2: { inversion E; subst. rewrite app_nil_r. repeat split; lia. }
  apply bind_Ok in E as (pMPA & EA & E). apply vec_at_Ok in EA. rewrite EA.
  destruct pMPA as [pMPA|].
  2: { inversion E; subst. rewrite app_nil_r. repeat split; lia. }
  destruct (negb (lm_invalid (lms s pMPA)) && negb (lm_invalid (lms s pMPB))
            && bool_decide (0 <= GetFeatureIndex (lms s pMPB) kf2)%Z).
  2: { inversion E; subst. rewrite app_nil_r. repeat split; lia. }
  apply bind_Ok in E as (eA & _ & E). apply bind_Ok in E as (eB & _ & E).
  inversion E; subst; simpl. rewrite !length_app. simpl. repeat split; lia.
Qed.

Lemma add_observation_loop s kf1 kf2 TcwA TcwB matches1 n : forall k b b',
  for_each (add_observation s kf1 kf2 TcwA TcwB matches1) (seq k n) b = Ok b' ->
  let found := filter (fun i => is_correspondence s kf1 kf2 matches1 i = true) (seq k n) in
  vIndex b' = vIndex b ++ found /\
  numCorrespondences b' = (numCorrespondences b + Z.of_nat (length found))%Z /\
  length (residIdsA b') = length (residIdsA b) + length found /\
  length (residIdsB b') = length (residIdsB b) + length found.
Proof.
  induction n as [|n IH]; intros k b b' E; simpl in *.
  - inversion E; subst. rewrite app_nil_r. repeat split; lia.
  - destruct (add_observation s kf1 kf2 TcwA TcwB matches1 k b) as [b1|e] eqn:E1;
      [|discriminate].
    apply add_observation_step in E1 as (_ & HvI & HnC & HA & HB).
    apply IH in E as (HvI' & HnC' & HA' & HB').
    rewrite filter_cons.
    destruct (is_correspondence s kf1 kf2 matches1 k) eqn:Ec.
    + rewrite decide_True by reflexivity. simpl.
      rewrite HvI', HvI, HnC', HnC, HA', HA, HB', HB, <- app_assoc. simpl.
      repeat split; lia.
    + rewrite decide_False by discriminate.
      rewrite HvI', HvI, HnC', HnC, HA', HA, HB', HB, app_nil_r.
      repeat split; lia.
Qed.

(** The correspondences never outnumber the matches. *)
Lemma correspondences_le_matches s kf1 kf2 (matches1 : list (option LandmarkPtr)) l :
  length (filter (fun i => is_correspondence s kf1 kf2 matches1 i = true) l)
  <= length (filter (fun i => is_Some (matches1 !! i ≫= id)) l).
Proof.
  induction l as [|i l IH]; [reflexivity|].
  rewrite !filter_cons.
  destruct (decide (is_correspondence s kf1 kf2 matches1 i = true)) as [Hc|Hc].
  - rewrite decide_True; [simpl; lia|].
    unfold is_correspondence in Hc.
    destruct (matches1 !! i) as [[m|]|]; try discriminate. simpl. eauto.
  - destruct (decide (is_Some (matches1 !! i ≫= id))); simpl; lia.
Qed.

Lemma matched_indices (matches1 : list (option LandmarkPtr)) n : forall k,
  length (filter (fun i => is_Some (matches1 !! i ≫= id)) (seq k n))
  <= length (filter is_Some (drop k matches1)).
Proof.
  induction n as [|n IH]; intros k; [simpl; lia|].
  simpl seq. rewrite filter_cons. specialize (IH (S k)).
  destruct (matches1 !! k) as [m|] eqn:Hm.
  - rewrite (drop_S _ _ _ Hm), filter_cons. simpl.
    destruct m as [m|]; simpl; repeat case_decide; simpl; try lia.
    all: try (exfalso; match goal with Hn : ~ is_Some _ |- _ => apply Hn; eauto end).
    all: try (exfalso; match goal with Hs : is_Some None |- _ =>
                                 destruct Hs; discriminate end).
  - simpl.
    apply lookup_ge_None in Hm.
    rewrite drop_ge in IH by lia. rewrite drop_ge by lia. exact IH.
Qed.

(** What the loops of a returning call have computed. *)
Lemma relative_pose_problem_spec s kf1 kf2 matches1 b :
  relative_pose_problem s kf1 kf2 matches1 = Ok b ->
  let N := Z.to_nat (to_int (Z.of_nat (length matches1))) in
  let found := filter (fun i => is_correspondence s kf1 kf2 matches1 i = true) (seq 0 N) in
  vIndex b = found /\
  numCorrespondences b = Z.of_nat (length found) /\
  length (residIdsA b) = length found /\
  length (residIdsB b) = length found /\
  length found <= length (filter is_Some matches1) /\
  (Z.of_nat (length found) < 2 ^ 31)%Z.
Proof.
  unfold relative_pose_problem. intros E.
  apply add_observation_loop in E as (HvI & HnC & HA & HB). simpl in *.
  repeat split; try assumption; try lia.
  - etransitivity; [apply correspondences_le_matches|].
    etransitivity; [apply matched_indices|]. rewrite drop_0. reflexivity.
  - pose proof (length_filter
      (fun i => is_correspondence s kf1 kf2 matches1 i = true)
      (seq 0 (Z.to_nat (to_int (Z.of_nat (length matches1)))))) as Hle.
    rewrite length_seq in Hle.
    assert (to_int (Z.of_nat (length matches1)) < 2 ^ 31)%Z.
    { unfold to_int.
      pose proof (Z.mod_pos_bound (Z.of_nat (length matches1) + 2 ^ 31) (2 ^ 32)
                    ltac:(lia)). lia. }
    lia.
Qed.

Lemma check_outlier_step s T12 b i c c' :
  residInd c = 2 * i ->
  i < length (residIdsA b) ->
  length (residIdsB b) = length (residIdsA b) ->
  check_outlier params b
    (Evaluate (rp_problem b) (relative_pose_first_solve params s T12 b) (residIdsA b))
    (Evaluate (rp_problem b) (relative_pose_first_solve params s T12 b) (residIdsB b))
    i c = Ok c' ->
  numBad c' = numBad c + (if is_outlier params s T12 b i then 1 else 0) /\
  residInd c' = 2 * S i.
Proof.
  intros Hri Hi Hlen E. unfold check_outlier in E.
  destruct (lookup_lt_is_Some_2 (residIdsA b) i Hi) as [idA HA].
  destruct (lookup_lt_is_Some_2 (residIdsB b) i ltac:(lia)) as [idB HB].
  pose proof (Evaluate_lookup (rp_problem b) (relative_pose_first_solve params s T12 b)
                _ _ _ HA) as [HAx HAy].
  pose proof (Evaluate_lookup (rp_problem b) (relative_pose_first_solve params s T12 b)
                _ _ _ HB) as [HBx HBy].
  rewrite Hri in E.
  apply bind_Ok in E as (ax & Eax & E). apply vec_at_Ok in Eax.
  apply bind_Ok in E as (ay & Eay & E). apply vec_at_Ok in Eay.
  apply bind_Ok in E as (bx & Ebx & E). apply vec_at_Ok in Ebx.
  apply bind_Ok in E as (by_ & Eby & E). apply vec_at_Ok in Eby.
  rewrite HAx in Eax. rewrite HAy in Eay. rewrite HBx in Ebx. rewrite HBy in Eby.
  inversion Eax; inversion Eay; inversion Ebx; inversion Eby; subst ax ay bx by_.
  unfold is_outlier. rewrite HA, HB. simpl.
  assert (EA : forall v : Vector2Type, Vector2 (v2_x v) (v2_y v) = v) by (intros []; reflexivity).
  rewrite !EA in E.
  destruct (exceeds (th_outlier_align params) _ || exceeds (th_outlier_align params) _).
  - apply bind_Ok in E as (? & _ & E). apply bind_Ok in E as (? & _ & E).
    apply bind_Ok in E as (? & _ & E). inversion E; subst; simpl. lia.
  - inversion E; subst; simpl. lia.
Qed.

Lemma check_outlier_loop s T12 b n : forall k c c',
  residInd c = 2 * k ->
  k + n <= length (residIdsA b) ->
  length (residIdsB b) = length (residIdsA b) ->
  for_each
    (check_outlier params b
       (Evaluate (rp_problem b) (relative_pose_first_solve params s T12 b) (residIdsA b))
       (Evaluate (rp_problem b) (relative_pose_first_solve params s T12 b) (residIdsB b)))
    (seq k n) c = Ok c' ->
  numBad c' = numBad c + length (filter (fun j => is_outlier params s T12 b j = true) (seq k n)).
Proof.
  induction n as [|n IH]; intros k c c' Hri Hk Hlen E.
  - inversion E; subst. simpl. lia.
  - simpl seq in *. apply for_each_cons in E as (c1 & E1 & E).
    apply (check_outlier_step s T12) in E1 as [Hbad Hri1]; [| assumption | lia | assumption].
    apply IH in E; [| assumption | lia | assumption].
    rewrite E, Hbad, filter_cons.
    destruct (is_outlier params s T12 b k); case_decide; simpl; try lia; congruence.
Qed.

Lemma relative_pose_check_spec s matches1 T12 b c :
  length (residIdsB b) = length (residIdsA b) ->
  relative_pose_check params s matches1 T12 b = Ok c ->
  numBad c = length (outliers params s T12 b) /\ numBad c <= length (residIdsA b).
Proof.
  intros Hlen E. unfold relative_pose_check in E.
  apply (check_outlier_loop s T12) in E; [| reflexivity | simpl; lia | assumption].
  simpl in E. unfold outliers. split; [exact E|].
  rewrite E. etransitivity; [apply length_filter|]. rewrite length_seq. reflexivity.
Qed.

(** The value compared with 12 and returned: no wrap-around happens. *)
Lemma remaining_exact (added bad : nat) :
  (Z.of_nat added < 2 ^ 31)%Z -> bad <= added ->
  to_size_t (to_size_t (Z.of_nat added) - Z.of_nat bad) = Z.of_nat (added - bad) /\
  to_int (Z.of_nat (added - bad)) = Z.of_nat (added - bad).
Proof.
  intros Ha Hb. split.
  - rewrite (to_size_t_small (Z.of_nat added)) by lia.
    rewrite to_size_t_small by lia. lia.
  - apply to_int_small. lia.
Qed.

(** The run of a returning call, step by step. *)
Lemma OptimizeRelativePose_run s kf1 kf2 matches1 T12 th2 n matches1' T12' :
  OptimizeRelativePose params s kf1 kf2 matches1 T12 th2 = Ok (n, matches1', T12') ->
  exists b c,
    relative_pose_problem s kf1 kf2 matches1 = Ok b /\
    relative_pose_check params s matches1 T12 b = Ok c /\
    matches1' = rc_matches1 c /\
    let remaining := length (vIndex b) - length (outliers params s T12 b) in
    length (outliers params s T12 b) <= length (vIndex b) /\
    (remaining < 12 -> n = 0%Z /\ T12' = T12) /\
    (12 <= remaining ->
       n = Z.of_nat remaining /\
       T12' = Ceres2Transform
                (load (Solve (bundle_options params 5) (rc_problem c)
                         (relative_pose_first_solve params s T12 b))
                   (ceresAB, 0) kPoseBlockSize)).
Proof.
  unfold OptimizeRelativePose. intros E.
  apply bind_Ok in E as (b & Eb & E). apply bind_Ok in E as (c & Ec & E).
  exists b, c. split; [exact Eb|]. split; [exact Ec|].
  pose proof (relative_pose_problem_spec _ _ _ _ _ Eb) as (HvI & HnC & HA & HB & _ & Hsmall).
  pose proof (relative_pose_check_spec s matches1 T12 b c ltac:(lia) Ec) as [Hbad Hle].
  simpl in *. rewrite HvI. rewrite HA in Hle. rewrite <- Hbad.
  destruct (remaining_exact _ _ Hsmall Hle) as [Hrem Hint].
  rewrite HnC, Hrem in E.
  case_bool_decide as Hlt; inversion E; subst; clear E.
  - repeat split; [lia | lia | lia].
  - rewrite Hint. repeat split; try lia.
Qed.

(** C4 (OptimizeRelativePose, inlier count).  A call that returns has added
    one correspondence for every qualifying entry of [matches1]; its result
    never exceeds the number of non-null matches, is 0 when fewer than 12
    correspondences are left once the outliers are taken out, and is the
    number of correspondences added minus the number classified as outliers
    otherwise. *)
Theorem OptimizeRelativePose_inlier_count s kf1 kf2 matches1 T12 th2 n matches1' T12' :
  (Z.of_nat (length matches1) < 2 ^ 31)%Z ->
  OptimizeRelativePose params s kf1 kf2 matches1 T12 th2 = Ok (n, matches1', T12') ->
  exists b,
    relative_pose_problem s kf1 kf2 matches1 = Ok b /\
    vIndex b = correspondence_indices s kf1 kf2 matches1 /\
    let added := length (vIndex b) in
    let bad := length (outliers params s T12 b) in
    (n <= Z.of_nat (length (filter is_Some matches1)))%Z /\
    bad <= added /\
    (added - bad < 12 -> n = 0%Z) /\
    (12 <= added - bad -> n = Z.of_nat (added - bad)).
Proof.
  intros Hlen E.
  apply OptimizeRelativePose_run in E as (b & c & Eb & _ & _ & Hle & Hfail & Hok).
  exists b. split; [exact Eb|].
  pose proof (relative_pose_problem_spec _ _ _ _ _ Eb) as (HvI & _ & _ & _ & Hcnt & _).
  simpl in *.
  rewrite to_int_small, Nat2Z.id in HvI, Hcnt by lia.
  split; [exact HvI|]. rewrite <- HvI in Hcnt.
  split; [| split; [exact Hle | split]].
  - destruct (decide (length (vIndex b) - length (outliers params s T12 b) < 12)) as [Hl|Hl].
    + destruct (Hfail Hl) as [-> _]. lia.
    + destruct (Hok ltac:(lia)) as [-> _]. lia.
  - intros Hl. apply Hfail, Hl.
  - intros Hl. apply Hok, Hl.
Qed.

(** C10 (OptimizeRelativePose, failure leaves T12 alone).  A call that returns
    0 hands back the caller's [T12]; a call that returns anything else hands
    back the transform decoded from [ceresAB] after the second solve. *)
Theorem OptimizeRelativePose_failure_keeps_T12 s kf1 kf2 matches1 T12 th2 n matches1' T12' :
  OptimizeRelativePose params s kf1 kf2 matches1 T12 th2 = Ok (n, matches1', T12') ->
  (n = 0%Z -> T12' = T12) /\
  (n <> 0%Z ->
   exists b c,
     relative_pose_problem s kf1 kf2 matches1 = Ok b /\
     relative_pose_check params s matches1 T12 b = Ok c /\
     T12' = Ceres2Transform
              (load (Solve (bundle_options params 5) (rc_problem c)
                       (relative_pose_first_solve params s T12 b))
                 (ceresAB, 0) kPoseBlockSize)).
Proof.
  intros E.
  apply OptimizeRelativePose_run in E as (b & c & Eb & Ec & _ & Hle & Hfail & Hok).
  simpl in *.
  destruct (decide (length (vIndex b) - length (outliers params s T12 b) < 12)) as [Hl|Hl].
  - destruct (Hfail Hl) as [-> ->]. split; [reflexivity | intros Hn; contradiction].
  - destruct (Hok ltac:(lia)) as [-> ->]. split; [intros Hn; lia|].
    intros _. exists b, c. repeat split; assumption.
Qed.

End RelativePose.

(** ** Facts about the Ceres problem *)

Section ProblemFacts.
Context `{Geometry}.

Lemma AddParameterBlock_residual_blocks a n lp (p : Problem) :
  residual_blocks (AddParameterBlock a n lp p) = residual_blocks p /\
  next_residual_id (AddParameterBlock a n lp p) = next_residual_id p.
Proof. unfold AddParameterBlock. destruct (HasParameterBlock p a); split; reflexivity. Qed.

Lemma implicit_blocks_residual_blocks (l : list (Addr * nat)) : forall p : Problem,
  residual_blocks (foldl (fun q '(a, n) => AddParameterBlock a n None q) p l)
  = residual_blocks p.
Proof.
  induction l as [|[a n] l IH]; intros p; simpl; [reflexivity|].
  rewrite IH. apply AddParameterBlock_residual_blocks.
Qed.

Lemma AddResidualBlock_residual_blocks cost loss params (p : Problem) :
  residual_blocks (snd (AddResidualBlock cost loss params p))
  = residual_blocks p ++
      [{| rb_id := next_residual_id p; rb_cost := cost; rb_loss := loss;
          rb_params := params |}].
Proof. reflexivity. Qed.

Lemma AddResidualBlock_fst cost loss params (p : Problem) :
  fst (AddResidualBlock cost loss params p) = next_residual_id p.
Proof. reflexivity. Qed.

Lemma AddResidualBlock_next cost loss params (p : Problem) :
  next_residual_id (snd (AddResidualBlock cost loss params p)) = S (next_residual_id p).
Proof. reflexivity. Qed.

Lemma set_4dof_constant_residual_blocks kf (p : Problem) :
  residual_blocks (set_4dof_constant kf p) = residual_blocks p.
Proof. reflexivity. Qed.

Lemma has_iff (p : Problem) a :
  HasParameterBlock p a = true <-> exists pb, pb ∈ parameter_blocks p /\ pb_addr pb = a.
Proof.
  unfold HasParameterBlock. rewrite bool_decide_eq_true, list_elem_of_fmap.
  split; intros (pb & H1 & H2); exists pb; auto.
Qed.

Lemma has_or_variable_or_constant (p : Problem) a :
  HasParameterBlock p a = true <-> block_variable p a \/ block_constant p a.
Proof.
  rewrite has_iff. unfold block_variable, block_constant. split.
  - intros (pb & Hin & Ha). destruct (pb_constant pb) eqn:Hc; [right | left]; eauto.
  - intros [(pb & Hin & Ha & _)|(pb & Hin & Ha & _)]; eauto.
Qed.

Lemma AddParameterBlock_blocks a n lp (p : Problem) :
  parameter_blocks (AddParameterBlock a n lp p)
  = if HasParameterBlock p a then parameter_blocks p
    else parameter_blocks p ++
           [{| pb_addr := a; pb_size := n; pb_local := lp; pb_constant := false |}].
Proof. unfold AddParameterBlock. destruct (HasParameterBlock p a); reflexivity. Qed.

Lemma AddParameterBlock_has a n lp (p : Problem) x :
  HasParameterBlock (AddParameterBlock a n lp p) x = true
  <-> x = a \/ HasParameterBlock p x = true.
Proof.
  rewrite !has_iff, AddParameterBlock_blocks.
  destruct (HasParameterBlock p a) eqn:Ha.
  - split; [auto|]. intros [->|Hx]; [apply has_iff, Ha | exact Hx].
  - split.
    + intros (pb & Hin & Hx). apply elem_of_app in Hin as [Hin|Hin]; [right; eauto|].
      apply list_elem_of_singleton in Hin. subst pb. left. symmetry. exact Hx.
    + intros [->|(pb & Hin & Hx)].
      * eexists. split; [apply elem_of_app; right; apply list_elem_of_singleton; reflexivity|].
        reflexivity.
      * exists pb. split; [apply elem_of_app; left; exact Hin | exact Hx].
Qed.

Lemma AddParameterBlock_variable a n lp (p : Problem) x :
  block_variable (AddParameterBlock a n lp p) x
  <-> block_variable p x \/ (x = a /\ HasParameterBlock p a = false).
Proof.
  unfold block_variable. rewrite AddParameterBlock_blocks.
  destruct (HasParameterBlock p a) eqn:Ha.
  - split; [auto|]. intros [Hx|[_ Hx]]; [exact Hx | discriminate].
  - split.
    + intros (pb & Hin & Hx & Hc). apply elem_of_app in Hin as [Hin|Hin]; [left; eauto|].
      apply list_elem_of_singleton in Hin. subst pb. right. split; [symmetry; exact Hx | reflexivity].
    + intros [(pb & Hin & Hx & Hc)|[-> _]].
      * exists pb. split; [apply elem_of_app; left; exact Hin | auto].
      * eexists. split; [apply elem_of_app; right; apply list_elem_of_singleton; reflexivity|].
        split; reflexivity.
Qed.

Lemma AddParameterBlock_constant a n lp (p : Problem) x :
  block_constant (AddParameterBlock a n lp p) x <-> block_constant p x.
Proof.
  unfold block_constant. rewrite AddParameterBlock_blocks.
  destruct (HasParameterBlock p a); [reflexivity|]. split.
  - intros (pb & Hin & Hx & Hc). apply elem_of_app in Hin as [Hin|Hin]; [eauto|].
    apply list_elem_of_singleton in Hin. subst pb. discriminate.
  - intros (pb & Hin & Hx & Hc). exists pb. split; [apply elem_of_app; left; exact Hin | auto].
Qed.

Lemma set_constant_addr a (pb : ParameterBlock) : pb_addr (set_constant a pb) = pb_addr pb.
Proof. unfold set_constant. destruct (decide (pb_addr pb = a)); reflexivity. Qed.

Lemma SetParameterBlockConstant_has a (p : Problem) x :
  HasParameterBlock (SetParameterBlockConstant a p) x = HasParameterBlock p x.
Proof.
  unfold HasParameterBlock, SetParameterBlockConstant. simpl.
  assert (E : pb_addr <$> (set_constant a <$> parameter_blocks p)
              = pb_addr <$> parameter_blocks p).
  { rewrite <- list_fmap_compose. apply list_fmap_ext.
    intros i pb _. apply set_constant_addr. }
  rewrite E. reflexivity.
Qed.

Lemma SetParameterBlockConstant_variable a (p : Problem) x :
  block_variable (SetParameterBlockConstant a p) x <-> block_variable p x /\ x <> a.
Proof.
  unfold block_variable, SetParameterBlockConstant. simpl. split.
  - intros (pb' & Hin & Hx & Hc). apply list_elem_of_fmap in Hin as (pb & -> & Hin).
    unfold set_constant in *. destruct (decide (pb_addr pb = a)) as [Ha|Ha]; simpl in *.
    + discriminate.
    + split; [eauto | congruence].
  - intros [(pb & Hin & Hx & Hc) Hne]. exists (set_constant a pb).
    split; [apply list_elem_of_fmap; eauto|].
    unfold set_constant. destruct (decide (pb_addr pb = a)); [congruence | auto].
Qed.

Lemma SetParameterBlockConstant_constant a (p : Problem) x :
  block_constant (SetParameterBlockConstant a p) x
  <-> block_constant p x \/ (x = a /\ HasParameterBlock p a = true).
Proof.
  unfold block_constant, SetParameterBlockConstant. simpl. split.
  - intros (pb' & Hin & Hx & Hc). apply list_elem_of_fmap in Hin as (pb & -> & Hin).
    unfold set_constant in *. destruct (decide (pb_addr pb = a)) as [Ha|Ha]; simpl in *.
    + right. split; [congruence|]. apply has_iff. eauto.
    + left. eauto.
  - intros [(pb & Hin & Hx & Hc)|[-> Ha]].
    + exists (set_constant a pb). split; [apply list_elem_of_fmap; eauto|].
      rewrite set_constant_addr. split; [exact Hx|].
      unfold set_constant. destruct (decide (pb_addr pb = a)); [reflexivity | exact Hc].
    + apply has_iff in Ha as (pb & Hin & Hx). exists (set_constant a pb).
      split; [apply list_elem_of_fmap; eauto|].
      rewrite set_constant_addr. split; [exact Hx|].
      unfold set_constant. rewrite decide_True by exact Hx. reflexivity.
Qed.

(** The implicit registration of [AddResidualBlock]. *)
Lemma implicit_blocks_has (l : list (Addr * nat)) : forall (p : Problem) x,
  HasParameterBlock (foldl (fun q '(a, n) => AddParameterBlock a n None q) p l) x = true
  <-> HasParameterBlock p x = true \/ x ∈ fst <$> l.
Proof.
  induction l as [|[a n] l IH]; intros p x; simpl.
  - split; [auto|]. intros [Hx|Hx]; [exact Hx|]. apply elem_of_nil in Hx. destruct Hx.
  - rewrite IH, AddParameterBlock_has, elem_of_cons. tauto.
Qed.

Lemma implicit_blocks_variable (l : list (Addr * nat)) : forall (p : Problem) x,
  block_variable (foldl (fun q '(a, n) => AddParameterBlock a n None q) p l) x
  -> block_variable p x \/ (x ∈ fst <$> l /\ HasParameterBlock p x = false).
Proof.
  induction l as [|[a n] l IH]; intros p x; simpl; [auto|].
  intros Hv. apply IH in Hv as [Hv|[Hin Hno]].
  - apply AddParameterBlock_variable in Hv as [Hv|[-> Ha]]; [auto|].
    right. split; [left | exact Ha].
  - right. split; [right; exact Hin|].
    destruct (HasParameterBlock p x) eqn:Hx; [|reflexivity].
    exfalso. assert (HasParameterBlock (AddParameterBlock a n None p) x = true)
      by (apply AddParameterBlock_has; auto). congruence.
Qed.

Lemma implicit_blocks_variable_mono (l : list (Addr * nat)) : forall (p : Problem) x,
  block_variable p x
  -> block_variable (foldl (fun q '(a, n) => AddParameterBlock a n None q) p l) x.
Proof.
  induction l as [|[a n] l IH]; intros p x Hv; simpl; [exact Hv|].
  apply IH, AddParameterBlock_variable. auto.
Qed.

Lemma implicit_blocks_new_variable (l : list (Addr * nat)) : forall (p : Problem) x,
  x ∈ fst <$> l -> HasParameterBlock p x = false
  -> block_variable (foldl (fun q '(a, n) => AddParameterBlock a n None q) p l) x.
Proof.
  induction l as [|[a n] l IH]; intros p x Hin Hno; simpl in *.
  - apply elem_of_nil in Hin. destruct Hin.
  - apply elem_of_cons in Hin as [->|Hin].
    + apply implicit_blocks_variable_mono, AddParameterBlock_variable. auto.
    + destruct (decide (x = a)) as [->|Hne].
      * apply implicit_blocks_variable_mono, AddParameterBlock_variable. auto.
      * apply IH; [exact Hin|].
        destruct (HasParameterBlock (AddParameterBlock a n None p) x) eqn:Hx; [|reflexivity].
        apply AddParameterBlock_has in Hx as [Hx|Hx]; congruence.
Qed.

Lemma implicit_blocks_constant (l : list (Addr * nat)) : forall (p : Problem) x,
  block_constant (foldl (fun q '(a, n) => AddParameterBlock a n None q) p l) x
  <-> block_constant p x.
Proof.
  induction l as [|[a n] l IH]; intros p x; simpl; [reflexivity|].
  rewrite IH. apply AddParameterBlock_constant.
Qed.

Lemma AddResidualBlock_has cost loss params (p : Problem) x :
  HasParameterBlock (snd (AddResidualBlock cost loss params p)) x = true
  <-> HasParameterBlock p x = true \/ x ∈ declared_params cost params.
Proof.
  unfold AddResidualBlock, HasParameterBlock at 1. simpl.
  apply (implicit_blocks_has (zip params (parameter_block_sizes cost)) p x).
Qed.

Lemma AddResidualBlock_variable cost loss params (p : Problem) x :
  block_variable (snd (AddResidualBlock cost loss params p)) x
  <-> block_variable p x
      \/ (x ∈ declared_params cost params /\ HasParameterBlock p x = false).
Proof.
  unfold AddResidualBlock, block_variable at 1. simpl. split.
  - apply (implicit_blocks_variable (zip params (parameter_block_sizes cost)) p x).
  - intros [Hv|[Hin Hno]].
    + apply (implicit_blocks_variable_mono _ p x Hv).
    + apply (implicit_blocks_new_variable _ p x Hin Hno).
Qed.

Lemma AddResidualBlock_constant cost loss params (p : Problem) x :
  block_constant (snd (AddResidualBlock cost loss params p)) x <-> block_constant p x.
Proof.
  unfold AddResidualBlock, block_constant at 1. simpl.
  apply (implicit_blocks_constant (zip params (parameter_block_sizes cost)) p x).
Qed.

(** A scalar no variable block covers is not variable. *)
Lemma is_variable_false (p : Problem) (arr : Array) (i : nat) :
  (forall off, ~ block_variable p (arr, off)) -> is_variable p arr i = false.
Proof.
  intros Hno. unfold is_variable.
  destruct (existsb _ _) eqn:E; [|reflexivity]. exfalso.
  apply existsb_exists in E as (pb & Hin & Hpb).
  apply andb_true_iff in Hpb as [Hc Hcov]. unfold covers in Hcov.
  apply andb_true_iff in Hcov as [Hcov _]. apply andb_true_iff in Hcov as [Harr _].
  apply bool_decide_eq_true in Harr. apply negb_true_iff in Hc.
  apply (Hno (snd (pb_addr pb))). exists pb.
  split; [apply list_elem_of_In; exact Hin|]. split; [|exact Hc].
  destruct (pb_addr pb); simpl in *; subst; reflexivity.
Qed.

End ProblemFacts.

(** ** Solver options and loop-edge weights *)

Section Weights.
Context `{Geometry} `{!Solver} `{!MapBackend}.
Variable params : Params.

(** C8 (Global Bundle Adjustment, time budget).  The [time_limit] argument
    reaches neither solve: the outcome of the call is the same for any two
    budgets, and both solves run under Ceres' default
    [max_solver_time_in_seconds]. *)
Theorem GlobalBundleAdjustment_ignores_time_limit s interations_limit t1 t2
    visual_only outlier_removal estimate_bias :
  GlobalBundleAdjustment params s interations_limit t1 visual_only outlier_removal
    estimate_bias
  = GlobalBundleAdjustment params s interations_limit t2 visual_only outlier_removal
      estimate_bias /\
  max_solver_time_in_seconds (bundle_options params 5)
  = max_solver_time_in_seconds default_options /\
  max_solver_time_in_seconds (bundle_options params interations_limit)
  = max_solver_time_in_seconds default_options.
Proof. repeat split. Qed.

(** *** 4-DoF: the weight of a loop edge *)

Lemma pgo4_add_keyframe_residuals kf (b : PoseGraphBuild) :
  residual_blocks (pg_problem (pgo4_add_keyframe params kf b)) = residual_blocks (pg_problem b).
Proof.
  unfold pgo4_add_keyframe.
  destruct (kf_invalid (kfs (pg_state b) kf)); [reflexivity|]. simpl.
  repeat match goal with
         | |- context [if ?c then _ else _] => destruct c
         end;
    rewrite ?set_4dof_constant_residual_blocks;
    rewrite (proj1 (AddParameterBlock_residual_blocks _ _ _ _));
    apply AddParameterBlock_residual_blocks.
Qed.

Lemma pgo4_keyframes_residuals (l : list nat) : forall b : PoseGraphBuild,
  residual_blocks (pg_problem (foldl (fun b kf => pgo4_add_keyframe params kf b) b l))
  = residual_blocks (pg_problem b).
Proof.
  induction l as [|kf l IH]; intros b; simpl; [reflexivity|].
  rewrite IH. apply pgo4_add_keyframe_residuals.
Qed.

Lemma pgo4_add_loop_weights l (b b' : PoseGraphBuild) :
  pgo4_add_loop l b = Ok b' ->
  loop_edge_weights (pg_problem b') = loop_edge_weights (pg_problem b) ++ [lit 1].
Proof.
  unfold pgo4_add_loop. intros E. apply bind_Ok in E as (q & _ & E).
  inversion E; subst; clear E. unfold loop_edge_weights. simpl.
  rewrite omap_app. reflexivity.
Qed.

Lemma pgo4_loops_weights (ls : list LoopConstraint) : forall b b' : PoseGraphBuild,
  for_each pgo4_add_loop ls b = Ok b' ->
  loop_edge_weights (pg_problem b')
  = loop_edge_weights (pg_problem b) ++ replicate (length ls) (lit 1).
Proof.
  induction ls as [|l ls IH]; intros b b' E.
  - inversion E; subst. simpl. rewrite app_nil_r. reflexivity.
  - apply for_each_cons in E as (b1 & E1 & E).
    rewrite (IH _ _ E), (pgo4_add_loop_weights _ _ _ E1), <- app_assoc. reflexivity.
Qed.

Lemma pgo4_add_edge_weights kf kfc (b b' : PoseGraphBuild) :
  pgo4_add_edge kf kfc b = Ok b' ->
  loop_edge_weights (pg_problem b') = loop_edge_weights (pg_problem b).
Proof.
  unfold pgo4_add_edge. intros E. apply bind_Ok in E as (q & _ & E).
  destruct (edge_is_new (kf, kfc) b); inversion E; subst; clear E; [|reflexivity].
  unfold loop_edge_weights. simpl. rewrite omap_app. simpl. apply app_nil_r.
Qed.

Lemma successor_edges_weights (l : list nat) (b b' : PoseGraphBuild) :
  for_each (add_successor_edge pgo4_add_edge) l b = Ok b' ->
  loop_edge_weights (pg_problem b') = loop_edge_weights (pg_problem b).
Proof.
  intros E.
  apply (for_each_invariant _
           (fun x => loop_edge_weights (pg_problem x) = loop_edge_weights (pg_problem b))
           _ _ _) in E; [exact E | | reflexivity].
  intros kf b1 b2 _ Hb1 E1. unfold add_successor_edge in E1.
  destruct (kf_invalid (kfs (pg_state b1) kf)); [inversion E1; subst; exact Hb1|].
  destruct (successor (kfs (pg_state b1) kf)) as [succ|]; [| inversion E1; subst; exact Hb1].
  rewrite (pgo4_add_edge_weights _ _ _ _ E1). exact Hb1.
Qed.

Lemma window_edges_weights (l : list nat) (b b' : PoseGraphBuild) :
  for_each (add_window_edges pgo4_add_edge) l b = Ok b' ->
  loop_edge_weights (pg_problem b') = loop_edge_weights (pg_problem b).
Proof.
  intros E.
  apply (for_each_invariant _
           (fun x => loop_edge_weights (pg_problem x) = loop_edge_weights (pg_problem b))
           _ _ _) in E; [exact E | | reflexivity].
  intros kf b1 b2 _ Hb1 E1. unfold add_window_edges in E1.
  destruct (kf_invalid (kfs (pg_state b1) kf)); [inversion E1; subst; exact Hb1|].
  apply bind_Ok in E1 as (conns & _ & E1).
  apply (for_each_invariant _
           (fun x => loop_edge_weights (pg_problem x) = loop_edge_weights (pg_problem b))
           _ _ _) in E1; [exact E1 | | exact Hb1].
  intros [kfc|] c1 c2 _ Hc1 E2; [| discriminate].
  rewrite (pgo4_add_edge_weights _ _ _ _ E2). exact Hc1.
Qed.

(** *** 6-DoF: the loop edges come first *)

Lemma pgo_add_keyframe_residuals cp kf (b : PoseGraphBuild) :
  residual_blocks (pg_problem (pgo_add_keyframe cp kf b)) = residual_blocks (pg_problem b).
Proof.
  unfold pgo_add_keyframe.
  destruct (kf_invalid (kfs (pg_state b) kf)); [reflexivity|]. simpl.
  rewrite (proj1 (AddParameterBlock_residual_blocks _ _ _ _)).
  match goal with |- context [if ?c then _ else _] => destruct c end; simpl;
    apply AddParameterBlock_residual_blocks.
Qed.

Lemma pgo_keyframes_residuals cp (l : list nat) : forall b : PoseGraphBuild,
  residual_blocks (pg_problem (foldl (fun b kf => pgo_add_keyframe cp kf b) b l))
  = residual_blocks (pg_problem b).
Proof.
  induction l as [|kf l IH]; intros b; simpl; [reflexivity|].
  rewrite IH. apply pgo_add_keyframe_residuals.
Qed.

Lemma pgo_loops_costs (ls : list LoopConstraint) : forall p : Problem,
  rb_cost <$> residual_blocks (foldl (pgo_add_loop params) p ls)
  = (rb_cost <$> residual_blocks p)
    ++ ((fun l => new_loop_edge l (pgo_loop_sqrt_info params l)) <$> ls).
Proof.
  induction ls as [|l ls IH]; intros p; simpl; [rewrite app_nil_r; reflexivity|].
  rewrite IH. unfold pgo_add_loop.
  rewrite AddResidualBlock_residual_blocks, fmap_app, <- app_assoc. reflexivity.
Qed.

Lemma pgo_add_edge_prefix kf kfc (b b' : PoseGraphBuild) :
  pgo_add_edge params kf kfc b = Ok b' ->
  residual_blocks (pg_problem b) `prefix_of` residual_blocks (pg_problem b').
Proof.
  unfold pgo_add_edge. intros E.
  destruct (edge_is_new (kf, kfc) b); inversion E; subst; clear E; [|reflexivity].
  simpl. apply prefix_app_r. reflexivity.
Qed.

Lemma pgo_edges_prefix (l : list nat) (b b' : PoseGraphBuild) :
  (for_each (add_successor_edge (pgo_add_edge params)) l b = Ok b' \/
   for_each (add_window_edges (pgo_add_edge params)) l b = Ok b') ->
  residual_blocks (pg_problem b) `prefix_of` residual_blocks (pg_problem b').
Proof.
  intros [E|E].
  - apply (for_each_invariant _
             (fun x => residual_blocks (pg_problem b) `prefix_of` residual_blocks (pg_problem x))
             _ _ _) in E; [exact E | | reflexivity].
    intros kf b1 b2 _ Hb1 E1. unfold add_successor_edge in E1.
    destruct (kf_invalid (kfs (pg_state b1) kf)); [inversion E1; subst; exact Hb1|].
    destruct (successor (kfs (pg_state b1) kf)) as [succ|]; [| inversion E1; subst; exact Hb1].
    etransitivity; [exact Hb1 | eapply pgo_add_edge_prefix, E1].
  - apply (for_each_invariant _
             (fun x => residual_blocks (pg_problem b) `prefix_of` residual_blocks (pg_problem x))
             _ _ _) in E; [exact E | | reflexivity].
    intros kf b1 b2 _ Hb1 E1. unfold add_window_edges in E1.
    destruct (kf_invalid (kfs (pg_state b1) kf)); [inversion E1; subst; exact Hb1|].
    apply bind_Ok in E1 as (conns & _ & E1).
    apply (for_each_invariant _
             (fun x => residual_blocks (pg_problem b) `prefix_of` residual_blocks (pg_problem x))
             _ _ _) in E1; [exact E1 | | exact Hb1].
    intros [kfc|] c1 c2 _ Hc1 E2; [| discriminate].
    etransitivity; [exact Hc1 | eapply pgo_add_edge_prefix, E2].
Qed.

(** C6 (loop-edge weights of the pose-graph optimisations).  In the 4-DoF
    variant every loop edge carries the weight 1, whatever the covariance of
    its loop constraint.  It is the 6-DoF variant whose loop edges, the first
    residual blocks of its problem, scale the identity information matrix by
    the weight the three-band table gives for the trace of the translational
    covariance. *)
Theorem loop_edge_weights_by_variant s corrected_poses :
  (forall b, pgo4_build params s = Ok b ->
     loop_edge_weights (pg_problem b)
     = replicate (length (GetLoopConstraints (map_ s))) (lit 1)) /\
  (forall b, pgo_build params s corrected_poses = Ok b ->
     rb_cost <$> take (length (GetLoopConstraints (map_ s))) (residual_blocks (pg_problem b))
     = (fun l =>
          new_loop_edge l
            {| rot_scale := fmul (lit 1) (three_band_weight params (cov_trace l));
               trans_scale := fmul (lit 1) (three_band_weight params (cov_trace l)) |})
       <$> GetLoopConstraints (map_ s)).
Proof.
  split.
  - intros b E. unfold pgo4_build in E.
    apply bind_Ok in E as (b1 & E1 & E). apply bind_Ok in E as (b2 & E2 & E).
    rewrite (window_edges_weights _ _ _ E), (successor_edges_weights _ _ _ E2),
      (pgo4_loops_weights _ _ _ E1).
    unfold loop_edge_weights at 1. rewrite pgo4_keyframes_residuals. reflexivity.
  - intros b E. unfold pgo_build in E.
    pose proof (pgo_keyframes_residuals corrected_poses (GetKeyframesVec (map_ s))
                  {| pg_state := s; pg_problem := empty_problem; q_ws_map := ∅;
                     inserted_edges := ∅ |}) as Hkf.
    remember (foldl (fun b kf => pgo_add_keyframe corrected_poses kf b)
                {| pg_state := s; pg_problem := empty_problem; q_ws_map := ∅;
                   inserted_edges := ∅ |} (GetKeyframesVec (map_ s))) as b0 eqn:Hb0.
    clear Hb0. cbn [pg_problem empty_problem residual_blocks] in Hkf.
    apply bind_Ok in E as (b1 & E1 & E).
    pose proof (pgo_edges_prefix _ _ _ (or_introl E1)) as [t1 Ht1].
    pose proof (pgo_edges_prefix _ _ _ (or_intror E)) as [t2 Ht2].
    cbn [pg_problem pg_update] in Ht1.
    pose proof (pgo_loops_costs (GetLoopConstraints (map_ s)) (pg_problem b0)) as Hc.
    rewrite Hkf in Hc. cbn [fmap list_fmap app] in Hc.
    rewrite Ht2, Ht1, <- app_assoc.
    assert (Hlen : length (GetLoopConstraints (map_ s))
                   = length (residual_blocks
                               (foldl (pgo_add_loop params) (pg_problem b0)
                                  (GetLoopConstraints (map_ s))))).
    { apply (f_equal length) in Hc. rewrite !length_fmap in Hc. symmetry. exact Hc. }
    rewrite (take_app_length' _ _ _ Hlen). exact Hc.
Qed.

End Weights.

(** ** Local Bundle Adjustment: the between-factors *)

Section LocalBA.
Context `{Geometry}.

Lemma new_GlobalEuclideanReprError_Ok cam kpx obs_sigma camera c :
  new_GlobalEuclideanReprError cam kpx obs_sigma camera = Ok c ->
  exists C D, c = GlobalEuclideanReprError C D kpx obs_sigma camera.
Proof.
  unfold new_GlobalEuclideanReprError. intros E.
  destruct (getType cam), (getDistortionType cam); inversion E; eauto.
Qed.

Lemma add_camera_parameters_Ok kf (b b' : BundleBuild) :
  add_camera_parameters kf b = Ok b' -> b' = add_camera_blocks kf b.
Proof.
  unfold add_camera_parameters. intros E.
  destruct (getType _); inversion E; reflexivity.
Qed.

Lemma add_camera_blocks_residual_blocks kf (b : BundleBuild) :
  residual_blocks (bb_problem (add_camera_blocks kf b)) = residual_blocks (bb_problem b).
Proof.
  unfold add_camera_blocks. simpl.
  rewrite (proj1 (AddParameterBlock_residual_blocks _ _ _ _)). simpl.
  apply AddParameterBlock_residual_blocks.
Qed.

Lemma lba_add_blocks_residual_blocks anchor kf (p : Problem) :
  residual_blocks (lba_add_blocks anchor kf p) = residual_blocks p.
Proof.
  unfold lba_add_blocks. simpl.
  rewrite (proj1 (AddParameterBlock_residual_blocks _ _ _ _)).
  destruct anchor; simpl; apply AddParameterBlock_residual_blocks.
Qed.

Lemma lba_add_query_kf_edges QKFs QKF i (b b' : BundleBuild) :
  lba_add_query_kf QKFs QKF i b = Ok b' ->
  between_edges (bb_problem b') = between_edges (bb_problem b).
Proof.
  unfold lba_add_query_kf. intros E. apply bind_Ok in E as (kf & _ & E).
  unfold between_edges.
  destruct (bool_decide (i = 0)); apply add_camera_parameters_Ok in E; subst b';
    rewrite add_camera_blocks_residual_blocks; cbn [bb_problem bb_update];
    rewrite lba_add_blocks_residual_blocks; reflexivity.
Qed.

Lemma lba_add_candidate_kf_edges CKF T_s1s2 kf (b b' : BundleBuild) :
  lba_add_candidate_kf CKF T_s1s2 kf b = Ok b' ->
  between_edges (bb_problem b') = between_edges (bb_problem b).
Proof.
  unfold lba_add_candidate_kf. intros E. unfold between_edges.
  apply add_camera_parameters_Ok in E; subst b'.
  rewrite add_camera_blocks_residual_blocks; cbn [bb_problem bb_update].
  rewrite lba_add_blocks_residual_blocks; reflexivity.
Qed.

Lemma lba_add_observation_edges i o (b b' : BundleBuild) :
  lba_add_observation i o b = Ok b' ->
  between_edges (bb_problem b') = between_edges (bb_problem b).
Proof.
  unfold lba_add_observation. intros E.
  destruct (fst o) as [kfx|]; [| inversion E; reflexivity].
  destruct (kf_invalid _); [inversion E; reflexivity|].
  destruct (intrinsics_map b !! _) as [intr|]; [| discriminate].
  apply bind_Ok in E as (c & Ec & E). apply bind_Ok in E as (dist & _ & E).
  apply new_GlobalEuclideanReprError_Ok in Ec as (C & D & ->).
  inversion E; subst; clear E. unfold between_edges. simpl.
  rewrite omap_app. simpl. apply app_nil_r.
Qed.

Lemma lba_add_landmark_edges lms_ i (b b' : BundleBuild) :
  lba_add_landmark lms_ i b = Ok b' ->
  between_edges (bb_problem b') = between_edges (bb_problem b).
Proof.
  unfold lba_add_landmark. intros E. apply bind_Ok in E as (lm & _ & E).
  apply (for_each_invariant _
           (fun x => between_edges (bb_problem x) = between_edges (bb_problem b)) _ _ _) in E;
    [exact E | |].
  - intros o b1 b2 _ Hb1 E1. rewrite (lba_add_observation_edges _ _ _ _ E1). exact Hb1.
  - unfold between_edges. simpl.
    rewrite (proj1 (AddParameterBlock_residual_blocks _ _ _ _)). reflexivity.
Qed.

Lemma lba_add_edges_between s kf1 (l : list nat) : forall p : Problem,
  between_edges (foldl (lba_add_edge s kf1) p l)
  = between_edges p ++ ((fun kf2 => (kf1, kf2)) <$> l).
Proof.
  induction l as [|kf2 l IH]; intros p; simpl; [rewrite app_nil_r; reflexivity|].
  rewrite IH. unfold lba_add_edge, between_edges.
  rewrite AddResidualBlock_residual_blocks, omap_app, <- app_assoc. reflexivity.
Qed.

(** C9 (Local Bundle Adjustment, topology of the between-factors).  The
    between-factors form one star per window, each centred on the first
    keyframe of its own window: the first candidate keyframe is connected to
    every other entry of the candidate window, then the first query keyframe
    (the anchor) to every other entry of the query window, and there is no
    other between-factor.  So every between-factor starts at the first
    keyframe of a window: none joins two keyframes that are both not first
    in their window.  When the two windows share no keyframe, none connects
    the anchor to a keyframe of the candidate window, in either direction. *)
Theorem lba_between_factors_two_stars s lms_ QKFs CKFs T_s1s2 b :
  lba_build s lms_ QKFs CKFs T_s1s2 = Ok b ->
  exists QKF CKF,
    QKFs !! 0 = Some QKF /\ CKFs !! 0 = Some CKF /\
    between_edges (bb_problem b)
    = ((fun kf2 => (CKF, kf2)) <$> drop 1 CKFs) ++ ((fun kf2 => (QKF, kf2)) <$> drop 1 QKFs) /\
    (forall kf1 kf2, (kf1, kf2) ∈ between_edges (bb_problem b) -> kf1 = CKF \/ kf1 = QKF) /\
    ((forall kf, kf ∈ QKFs -> kf ∉ CKFs) ->
     forall kf, kf ∈ CKFs ->
       ((QKF, kf) ∉ between_edges (bb_problem b)) /\
       ((kf, QKF) ∉ between_edges (bb_problem b))).
Proof.
  unfold lba_build. intros E.
  apply bind_Ok in E as (QKF & EQ & E). apply bind_Ok in E as (CKF & EC & E).
  apply vec_at_Ok in EQ, EC. exists QKF, CKF. split; [exact EQ|]. split; [exact EC|].
  apply bind_Ok in E as (b1 & E1 & E). apply bind_Ok in E as (b2 & E2 & E).
  apply bind_Ok in E as (b3 & E3 & E). inversion E; subst; clear E.
  cbn [bb_problem bb_update].
  rewrite !lba_add_edges_between, <- app_assoc.
  assert (H3 : between_edges (bb_problem b3) = []).
  { apply (for_each_invariant _ (fun x => between_edges (bb_problem x) = []) _ _ _) in E3;
      [exact E3 | |].
    { intros i c1 c2 _ Hc1 Ec. rewrite (lba_add_landmark_edges _ _ _ _ Ec). exact Hc1. }
    apply (for_each_invariant _ (fun x => between_edges (bb_problem x) = []) _ _ _) in E2;
      [exact E2 | |].
    { intros i c1 c2 _ Hc1 Ec. rewrite (lba_add_candidate_kf_edges _ _ _ _ _ Ec). exact Hc1. }
    apply (for_each_invariant _ (fun x => between_edges (bb_problem x) = []) _ _ _) in E1;
      [exact E1 | | reflexivity].
    intros i c1 c2 _ Hc1 Ec. rewrite (lba_add_query_kf_edges _ _ _ _ _ Ec). exact Hc1. }
  rewrite H3. cbn [app]. split; [reflexivity|].
  assert (Hedge : forall kf1 kf2,
            (kf1, kf2) ∈ ((fun kf2 => (CKF, kf2)) <$> drop 1 CKFs)
                         ++ ((fun kf2 => (QKF, kf2)) <$> drop 1 QKFs) ->
            (kf1 = CKF /\ kf2 ∈ drop 1 CKFs) \/ (kf1 = QKF /\ kf2 ∈ drop 1 QKFs)).
  { intros kf1 kf2 Hin. apply elem_of_app in Hin as [Hin|Hin];
      apply list_elem_of_fmap in Hin as (k & Ek & Hk); inversion Ek; subst; auto. }
  assert (Hdrop : forall (l : list KeyframePtr) k, k ∈ drop 1 l -> k ∈ l).
  { intros l k Hk. destruct l as [|x l]; [exact Hk | right; exact Hk]. }
  assert (HQ : QKF ∈ QKFs) by (eapply list_elem_of_lookup_2; exact EQ).
  assert (HC : CKF ∈ CKFs) by (eapply list_elem_of_lookup_2; exact EC).
  split.
  - intros kf1 kf2 Hin. destruct (Hedge kf1 kf2 Hin) as [[-> _]|[-> _]]; auto.
  - intros Hdisj kf Hkf. split; intros Hin.
    + destruct (Hedge _ _ Hin) as [[-> _]|[_ Hk]].
      * exact (Hdisj _ HQ HC).
      * exact (Hdisj _ (Hdrop _ _ Hk) Hkf).
    + destruct (Hedge _ _ Hin) as [[_ Hk]|[-> _]].
      * exact (Hdisj _ HQ (Hdrop _ _ Hk)).
      * exact (Hdisj _ HQ Hkf).
Qed.

End LocalBA.

(** ** Global Bundle Adjustment: the problems that are built *)

Section BundleProblems.
Context `{Geometry}.

Lemma grows_refl p : grows p p.
Proof. split; auto. Qed.

Lemma grows_trans p1 p2 p3 : grows p1 p2 -> grows p2 p3 -> grows p1 p3.
Proof. intros [H1 L1] [H2 L2]. split; [auto | lia]. Qed.

Lemma grows_same_residuals p p' :
  residual_blocks p' = residual_blocks p -> next_residual_id p' = next_residual_id p ->
  grows p p'.
Proof.
  intros Hr Hn. unfold grows, wf_problem, residual_block_ids. rewrite Hr, Hn. auto.
Qed.

Lemma grows_AddParameterBlock a n lp p : grows p (AddParameterBlock a n lp p).
Proof. apply grows_same_residuals; apply AddParameterBlock_residual_blocks. Qed.

Lemma grows_SetParameterBlockConstant a p : grows p (SetParameterBlockConstant a p).
Proof. apply grows_same_residuals; reflexivity. Qed.

Lemma grows_AddResidualBlock cost loss params p :
  grows p (snd (AddResidualBlock cost loss params p)).
Proof.
  split; [| simpl; lia].
  unfold wf_problem, residual_block_ids. intros Hwf.
  rewrite AddResidualBlock_residual_blocks, fmap_app, Hwf, AddResidualBlock_next, seq_S.
  reflexivity.
Qed.

Lemma grows_add_state_parameters visual_only kf s p :
  grows p (add_state_parameters visual_only kf s p).
Proof.
  unfold add_state_parameters.
  repeat match goal with
         | |- grows _ (SetParameterBlockConstant _ _) =>
             eapply grows_trans; [| apply grows_SetParameterBlockConstant]
         | |- grows _ (AddParameterBlock _ _ _ _) =>
             eapply grows_trans; [| apply grows_AddParameterBlock]
         | |- grows _ (if ?c then _ else _) => destruct c
         end; apply grows_refl.
Qed.

Lemma grows_add_camera_blocks kf (b : BundleBuild) :
  grows (bb_problem b) (bb_problem (add_camera_blocks kf b)).
Proof.
  unfold add_camera_blocks. cbn [bb_problem].
  repeat match goal with
         | |- grows _ (SetParameterBlockConstant _ _) =>
             eapply grows_trans; [| apply grows_SetParameterBlockConstant]
         | |- grows _ (AddParameterBlock _ _ _ _) =>
             eapply grows_trans; [| apply grows_AddParameterBlock]
         end; apply grows_refl.
Qed.

Lemma wf_problem_ids p id :
  wf_problem p -> (id ∈ residual_block_ids p <-> id < next_residual_id p).
Proof.
  intros Hwf. rewrite Hwf, elem_of_seq. lia.
Qed.

Lemma residuals_tracked_init s : residuals_tracked (bundle_init s).
Proof.
  split; simpl; try reflexivity.
  - constructor.
  - intros r Hr. apply elem_of_nil in Hr. destruct Hr.
  - intros id Hid. apply elem_of_nil in Hid. destruct Hid.
Qed.

(** Steps that leave the residual blocks alone. *)
Lemma residuals_tracked_same (b b' : BundleBuild) :
  residual_blocks (bb_problem b') = residual_blocks (bb_problem b) ->
  next_residual_id (bb_problem b') = next_residual_id (bb_problem b) ->
  residual_ids b' = residual_ids b -> keypoint_ids b' = keypoint_ids b ->
  residuals_tracked b -> residuals_tracked b'.
Proof.
  intros Hr Hn Hi Hk [Hwf Hlen Hnd Hrepr Hin].
  split; rewrite ?Hi, ?Hk, ?Hn; try assumption.
  - unfold wf_problem, residual_block_ids in *. rewrite Hr, Hn. exact Hwf.
  - rewrite Hr. exact Hrepr.
Qed.

(** A step that adds a residual block that is not a reprojection factor. *)
Lemma residuals_tracked_other cost loss params (b b' : BundleBuild) :
  is_reprojection cost = false ->
  bb_problem b' = snd (AddResidualBlock cost loss params (bb_problem b)) ->
  residual_ids b' = residual_ids b -> keypoint_ids b' = keypoint_ids b ->
  residuals_tracked b -> residuals_tracked b'.
Proof.
  intros Hc Hp Hi Hk [Hwf Hlen Hnd Hrepr Hin].
  split; rewrite ?Hi, ?Hk, ?Hp; try assumption.
  - apply grows_AddResidualBlock, Hwf.
  - intros r Hr. rewrite AddResidualBlock_residual_blocks in Hr.
    apply elem_of_app in Hr as [Hr|Hr]; [apply Hrepr, Hr|].
    apply list_elem_of_singleton in Hr. subst r. simpl. rewrite Hc. split; [discriminate|].
    intros Hid. apply Hin in Hid. lia.
  - intros id Hid. apply Hin in Hid. simpl. lia.
Qed.

(** A step that adds a reprojection factor and records it. *)
Lemma residuals_tracked_push cost loss params ident (b : BundleBuild) :
  is_reprojection cost = true ->
  residuals_tracked b ->
  residuals_tracked
    (push_residual (fst (AddResidualBlock cost loss params (bb_problem b))) ident
       (snd (AddResidualBlock cost loss params (bb_problem b))) b).
Proof.
  intros Hc [Hwf Hlen Hnd Hrepr Hin].
  split; cbn [push_residual bb_problem residual_ids keypoint_ids].
  - apply grows_AddResidualBlock, Hwf.
  - rewrite !length_app, Hlen. reflexivity.
  - apply NoDup_app. split; [exact Hnd|]. split; [| apply NoDup_singleton].
    intros id Hid Hid'. apply list_elem_of_singleton in Hid'. subst id.
    apply Hin in Hid. simpl in Hid. lia.
  - intros r Hr. rewrite AddResidualBlock_residual_blocks in Hr.
    rewrite elem_of_app, list_elem_of_singleton.
    apply elem_of_app in Hr as [Hr|Hr].
    + rewrite (Hrepr r Hr). split; [auto|]. intros [Hid|Hid]; [exact Hid|].
      exfalso. assert (rb_id r ∈ residual_block_ids (bb_problem b))
        by (apply list_elem_of_fmap; eauto).
      apply (wf_problem_ids _ _ Hwf) in H1. simpl in Hid. lia.
    + apply list_elem_of_singleton in Hr. subst r. simpl. rewrite Hc. split; auto.
  - intros id Hid. apply elem_of_app in Hid as [Hid|Hid].
    + apply Hin in Hid. simpl. lia.
    + apply list_elem_of_singleton in Hid. subst id. simpl. lia.
Qed.

Lemma same_residuals_refl p : same_residuals p p.
Proof. split; reflexivity. Qed.

Lemma same_residuals_trans p1 p2 p3 :
  same_residuals p1 p2 -> same_residuals p2 p3 -> same_residuals p1 p3.
Proof. intros [H1 L1] [H2 L2]. split; congruence. Qed.

Lemma same_residuals_AddParameterBlock a n lp p : same_residuals p (AddParameterBlock a n lp p).
Proof. apply AddParameterBlock_residual_blocks. Qed.

Lemma same_residuals_SetParameterBlockConstant a p :
  same_residuals p (SetParameterBlockConstant a p).
Proof. split; reflexivity. Qed.

Lemma same_residuals_add_state_parameters visual_only kf s p :
  same_residuals p (add_state_parameters visual_only kf s p).
Proof.
  unfold add_state_parameters.
  repeat match goal with
         | |- same_residuals _ (SetParameterBlockConstant _ _) =>
             eapply same_residuals_trans; [| apply same_residuals_SetParameterBlockConstant]
         | |- same_residuals _ (AddParameterBlock _ _ _ _) =>
             eapply same_residuals_trans; [| apply same_residuals_AddParameterBlock]
         | |- same_residuals _ (if ?c then _ else _) => destruct c
         end; apply same_residuals_refl.
Qed.

Lemma same_residuals_add_camera_blocks kf (b : BundleBuild) :
  same_residuals (bb_problem b) (bb_problem (add_camera_blocks kf b)).
Proof.
  unfold add_camera_blocks. cbn [bb_problem].
  repeat match goal with
         | |- same_residuals _ (SetParameterBlockConstant _ _) =>
             eapply same_residuals_trans; [| apply same_residuals_SetParameterBlockConstant]
         | |- same_residuals _ (AddParameterBlock _ _ _ _) =>
             eapply same_residuals_trans; [| apply same_residuals_AddParameterBlock]
         end; apply same_residuals_refl.
Qed.

Lemma residuals_tracked_same' (b b' : BundleBuild) :
  same_residuals (bb_problem b) (bb_problem b') ->
  residual_ids b' = residual_ids b -> keypoint_ids b' = keypoint_ids b ->
  residuals_tracked b -> residuals_tracked b'.
Proof. intros [Hr Hn]. apply residuals_tracked_same; assumption. Qed.

End BundleProblems.

Section OutlierRemoval.
Context `{Geometry} `{!Solver} `{!MapBackend}.
Variable params : Params.

Lemma gba1_add_keyframe_tracked visual_only kf (b b' : BundleBuild) :
  gba1_add_keyframe visual_only kf b = Ok b' ->
  residuals_tracked b -> residuals_tracked b'.
Proof.
  unfold gba1_add_keyframe. intros E Hb.
  destruct (kf_invalid (kfs (bb_state b) kf)); [inversion E; subst; exact Hb|].
  apply bind_Ok in E as (b0 & E0 & E). apply add_camera_parameters_Ok in E0.
  assert (H0' : residuals_tracked b0).
  { rewrite E0. eapply residuals_tracked_same'; [| | | exact Hb]; [| reflexivity | reflexivity].
    eapply same_residuals_trans; [| apply same_residuals_add_camera_blocks].
    cbn [bb_problem bb_update]. apply same_residuals_add_state_parameters. }
  clear E0 Hb.
  destruct (negb visual_only); [| inversion E; subst b'; exact H0'].
  destruct (predecessor _) as [pred|].
  - destruct (kf_invalid (kfs _ pred)).
    + destruct (bool_decide _); inversion E; subst b'; exact H0'.
    + inversion E as [Eb']; clear E.
      eapply (residuals_tracked_other (PreintegrationFactor kf) None
                (imu_factor_blocks pred kf) b0); [reflexivity | | | | exact H0'];
        reflexivity.
  - destruct (bool_decide _); inversion E; subst b'; exact H0'.
Qed.

Lemma gba1_add_observation_tracked lm o (b b' : BundleBuild) :
  gba1_add_observation lm o b = Ok b' ->
  residuals_tracked b -> residuals_tracked b'.
Proof.
  unfold gba1_add_observation. intros E Hb.
  destruct (fst o) as [kfx|]; [| inversion E; subst; exact Hb].
  destruct (kf_invalid _); [inversion E; subst; exact Hb|].
  apply bind_Ok in E as (c & Ec & E). apply bind_Ok in E as (intr & _ & E).
  apply bind_Ok in E as (dist & _ & E).
  apply new_GlobalEuclideanReprError_Ok in Ec as (C & D & ->).
  inversion E; subst; clear E.
  exact (residuals_tracked_push
           (GlobalEuclideanReprError C D
              (keypoints_distorted_ (kfs (bb_state b) kfx) (snd o))
              (obs_sigma_of (keypoints_aors_ (kfs (bb_state b) kfx)) (snd o))
              (camera_ (kfs (bb_state b) kfx)))
           (Some (CauchyLoss 1)) (reprojection_blocks kfx lm intr dist)
           {| keyframe := kfx; landmark := lm; keypoint_id := kp_id_of (snd o) |}
           b eq_refl Hb).
Qed.

Lemma gba1_add_landmark_tracked landmarks i (b b' : BundleBuild) :
  gba1_add_landmark landmarks i b = Ok b' ->
  residuals_tracked b -> residuals_tracked b'.
Proof.
  unfold gba1_add_landmark, gba_add_landmark. intros E Hb.
  apply bind_Ok in E as (lm & _ & E).
  destruct (lm_invalid _); [inversion E; subst; exact Hb|].
  destruct (bool_decide _).
  { inversion E; subst. eapply residuals_tracked_same'; [| | | exact Hb];
      [apply same_residuals_refl | reflexivity | reflexivity]. }
  destruct (bool_decide _).
  { inversion E; subst. eapply residuals_tracked_same'; [| | | exact Hb];
      [apply same_residuals_refl | reflexivity | reflexivity]. }
  apply (for_each_invariant _ residuals_tracked _ _ _) in E; [exact E | |].
  - intros o b1 b2 _ Hb1 E1. exact (gba1_add_observation_tracked _ _ _ _ E1 Hb1).
  - eapply residuals_tracked_same'; [| | | exact Hb]; [| reflexivity | reflexivity].
    apply same_residuals_AddParameterBlock.
Qed.

Lemma gba1_add_loops_tracked (loops : list LoopConstraint) : forall (b : BundleBuild),
  residuals_tracked b ->
  residuals_tracked (bb_update (bb_state b) (foldl gba1_add_loop (bb_problem b) loops) b).
Proof.
  induction loops as [|l loops IH]; intros b Hb.
  - eapply residuals_tracked_same'; [| | | exact Hb];
      [apply same_residuals_refl | reflexivity | reflexivity].
  - simpl foldl.
    specialize (IH (bb_update (bb_state b) (gba1_add_loop (bb_problem b) l) b)).
    cbn [bb_update bb_state bb_problem] in IH.
    eapply residuals_tracked_same'; [| | | apply IH];
      [apply same_residuals_refl | reflexivity | reflexivity |].
    eapply (residuals_tracked_other (new_loop_edge l gba_sqrt_info) None
              (loop_edge_blocks (kf1 l) (kf2 l)) b); [reflexivity | | | | exact Hb];
      reflexivity.
Qed.

(** The problem of round 1 keeps its reprojection factors on record. *)
Lemma gba1_build_tracked visual_only s b :
  gba1_build visual_only s = Ok b -> residuals_tracked b.
Proof.
  unfold gba1_build. intros E.
  apply bind_Ok in E as (b1 & E1 & E). apply bind_Ok in E as (b2 & E2 & E).
  inversion E; subst; clear E. apply gba1_add_loops_tracked.
  apply (for_each_invariant _ residuals_tracked _ _ _) in E2; [exact E2 | |].
  { intros i c1 c2 _ Hc1 Ec. exact (gba1_add_landmark_tracked _ _ _ _ Ec Hc1). }
  apply (for_each_invariant _ residuals_tracked _ _ _) in E1; [exact E1 | |].
  { intros kf c1 c2 _ Hc1 Ec. exact (gba1_add_keyframe_tracked _ _ _ _ Ec Hc1). }
  apply residuals_tracked_init.
Qed.

(** *** The "Remove Outliers" loop *)

Lemma vec_at_Some {A} (v : list A) i a : v !! i = Some a -> vec_at v i = Ok a.
Proof. intros E. unfold vec_at. rewrite E. reflexivity. Qed.

Lemma RemoveResidualBlock_ids id (p : Problem) id' :
  id' ∈ residual_block_ids (RemoveResidualBlock id p)
  <-> id' ∈ residual_block_ids p /\ id' <> id.
Proof.
  unfold residual_block_ids, RemoveResidualBlock. simpl.
  rewrite !list_elem_of_fmap. split.
  - intros (r & -> & Hr). apply list_elem_of_filter in Hr as [Hne Hr]. split; eauto.
  - intros [(r & -> & Hr) Hne]. exists r. split; [reflexivity|].
    apply list_elem_of_filter. auto.
Qed.

Lemma landmark_in_slot_erased kp (k : Keyframe) :
  landmark_in_slot (EraseLandmark kp k) kp = None.
Proof.
  unfold landmark_in_slot, EraseLandmark. simpl.
  destruct (decide (kp < length (landmarks_ k))) as [Hlt|Hge].
  - rewrite list_lookup_insert_eq by exact Hlt. reflexivity.
  - rewrite list_insert_ge by lia. rewrite lookup_ge_None_2 by lia. reflexivity.
Qed.

Lemma landmark_in_slot_erase_more kp (k : Keyframe) i :
  landmark_in_slot k i = None -> landmark_in_slot (EraseLandmark kp k) i = None.
Proof.
  intros Hi. destruct (decide (i = kp)) as [->|Hne]; [apply landmark_in_slot_erased|].
  unfold landmark_in_slot, EraseLandmark in *. simpl.
  rewrite list_lookup_insert_ne by congruence. exact Hi.
Qed.

(** Erasing one more observation leaves the erased ones erased. *)
Lemma observation_erased_more (s : State) kfi lmi kp ident :
  observation_erased s ident ->
  observation_erased (with_lm lmi (EraseObservation kfi) (with_kf kfi (EraseLandmark kp) s))
    ident.
Proof.
  intros [Hslot Hobs]. split.
  - simpl. unfold upd. destruct (decide (keyframe ident = kfi));
      [apply landmark_in_slot_erase_more|]; exact Hslot.
  - intros f. simpl. unfold upd. destruct (decide (landmark ident = lmi)); [| apply Hobs].
    unfold EraseObservation. simpl. intros Hin.
    apply list_elem_of_filter in Hin as [_ Hin]. exact (Hobs f Hin).
Qed.

Lemma observation_erased_now (s : State) ident :
  observation_erased
    (with_lm (landmark ident) (EraseObservation (keyframe ident))
       (with_kf (keyframe ident) (EraseLandmark (keypoint_id ident)) s)) ident.
Proof.
  split.
  - simpl. unfold upd. rewrite decide_True by reflexivity. apply landmark_in_slot_erased.
  - intros f. simpl. unfold upd. rewrite decide_True by reflexivity.
    unfold EraseObservation. simpl. intros Hin.
    apply list_elem_of_filter in Hin as [Hne _]. apply Hne. reflexivity.
Qed.

Lemma removal_step (b : BundleBuild) k o :
  length (keypoint_ids b) = length (residual_ids b) ->
  k < length (residual_ids b) ->
  removal_inv params b k o ->
  exists o', gba_remove_outlier params b (gba1_residuals params b) k o = Ok o' /\
             removal_inv params b (S k) o'.
Proof.
  intros Hlen Hk [Hidx Hbad Hids Her].
  destruct (lookup_lt_is_Some_2 (residual_ids b) k Hk) as [id Hid].
  destruct (lookup_lt_is_Some_2 (keypoint_ids b) k ltac:(lia)) as [ident Hident].
  destruct (Evaluate_lookup (bb_problem b) (mem (gba1_solved params b)) _ _ _ Hid) as [Hx Hy].
  unfold gba_remove_outlier, gba1_residuals. rewrite Hidx.
  rewrite (vec_at_Some _ _ _ Hx), (vec_at_Some _ _ _ Hy). cbn [mbind Result_bind].
  assert (Eexc : exceeds (th_gba_outlier_global params)
                   (Vector2 (v2_x (EvaluateResidual (bb_problem b) (mem (gba1_solved params b)) id))
                            (v2_y (EvaluateResidual (bb_problem b) (mem (gba1_solved params b)) id)))
                 = gba1_is_outlier params b k).
  { unfold gba1_is_outlier, gba1_residual, exceeds. rewrite Hid.
    destruct (EvaluateResidual _ _ id); reflexivity. }
  rewrite Eexc.
  assert (Hseq : filter (fun j => gba1_is_outlier params b j = true) (seq 0 (S k))
                 = filter (fun j => gba1_is_outlier params b j = true) (seq 0 k)
                   ++ (if gba1_is_outlier params b k then [k] else [])).
  { rewrite seq_S, filter_app. simpl. f_equal. rewrite filter_cons, filter_nil.
    destruct (gba1_is_outlier params b k); case_decide; congruence. }
  destruct (gba1_is_outlier params b k) eqn:Ek.
  - rewrite (vec_at_Some _ _ _ Hident), (vec_at_Some _ _ _ Hid). cbn [mbind Result_bind].
    eexists. split; [reflexivity|]. split; cbn [resid_idx num_bad ol_state ol_problem].
    + lia.
    + rewrite Hseq, length_app, Hbad. simpl. lia.
    + intros id'. rewrite RemoveResidualBlock_ids, Hids. split.
      * intros [[Hin Hno] Hne]. split; [exact Hin|]. intros (j & Hj & Hout & Hj').
        destruct (decide (j = k)) as [->|Hjk]; [congruence|].
        apply Hno. exists j. split; [lia | auto].
      * intros [Hin Hno]. split; [split; [exact Hin|]|].
        -- intros (j & Hj & Hout & Hj'). apply Hno. exists j. split; [lia | auto].
        -- intros ->. apply Hno. exists k. split; [lia | auto].
    + intros j ident' Hj Hout Hj'.
      destruct (decide (j = k)) as [->|Hjk].
      * rewrite Hident in Hj'. inversion Hj'; subst ident'. apply observation_erased_now.
      * apply observation_erased_more. apply (Her j); [lia | assumption | assumption].
  - eexists. split; [reflexivity|]. split; cbn [resid_idx num_bad ol_state ol_problem].
    + lia.
    + rewrite Hseq, length_app, Hbad. simpl. lia.
    + intros id'. rewrite Hids. split; intros [Hin Hno]; (split; [exact Hin|]);
        intros (j & Hj & Hout & Hj'); apply Hno.
      * destruct (decide (j = k)) as [->|Hjk]; [congruence|]. exists j. split; [lia | auto].
      * exists j. split; [lia | auto].
    + intros j ident' Hj Hout Hj'.
      destruct (decide (j = k)) as [->|Hjk]; [congruence|].
      apply (Her j); [lia | assumption | assumption].
Qed.

Lemma removal_loop (b : BundleBuild) n : forall k o,
  length (keypoint_ids b) = length (residual_ids b) ->
  k + n <= length (residual_ids b) ->
  removal_inv params b k o ->
  exists o', for_each (gba_remove_outlier params b (gba1_residuals params b)) (seq k n) o
             = Ok o' /\
             removal_inv params b (k + n) o'.
Proof.
  induction n as [|n IH]; intros k o Hlen Hk Hinv.
  - exists o. rewrite Nat.add_0_r. split; [reflexivity | exact Hinv].
  - destruct (removal_step b k o Hlen ltac:(lia) Hinv) as (o1 & E1 & Hinv1).
    destruct (IH (S k) o1 Hlen ltac:(lia) Hinv1) as (o' & E' & Hinv').
    exists o'. simpl. rewrite E1. split; [exact E'|].
    replace (k + S n) with (S k + n) by lia. exact Hinv'.
Qed.

(** On the problem of round 1 the removal loop runs to its end; it counts
    and removes the reprojection factors whose residual norm, evaluated after
    the solve, exceeds [th_gba_outlier_global], and erases their
    observations. *)
Lemma gba1_outlier_loop visual_only s b :
  gba1_build visual_only s = Ok b ->
  exists o,
    gba1_remove_outliers params b = Ok o /\
    num_bad o
    = length (filter (fun k => gba1_is_outlier params b k = true)
                (seq 0 (length (residual_ids b)))) /\
    (forall r, r ∈ residual_blocks (bb_problem b) ->
               is_reprojection (rb_cost r) = true <-> rb_id r ∈ residual_ids b) /\
    forall k id ident,
      residual_ids b !! k = Some id -> keypoint_ids b !! k = Some ident ->
      id ∈ residual_block_ids (bb_problem b) /\
      (fgt (norm (gba1_residual params b id)) (th_gba_outlier_global params) = true ->
         observation_erased (ol_state o) ident /\
         id ∉ residual_block_ids (ol_problem o)) /\
      (fgt (norm (gba1_residual params b id)) (th_gba_outlier_global params) = false ->
         id ∈ residual_block_ids (ol_problem o)) /\
      (id ∈ residual_block_ids (ol_problem o) ->
         fgt (norm (gba1_residual params b id)) (th_gba_outlier_global params) = false).
Proof.
  intros Eb. pose proof (gba1_build_tracked _ _ _ Eb) as [Hwf Hlen Hnd Hrepr Hin].
  destruct (removal_loop b (length (residual_ids b)) 0
              {| ol_state := gba1_solved params b; ol_problem := bb_problem b;
                 resid_idx := 0; num_bad := 0 |} Hlen ltac:(lia))
    as (o & Eo & [Hidx Hbad Hids Her]).
  { split; simpl; try reflexivity.
    - intros id. split; [intros Hid; split; [exact Hid|] | intros [Hid _]; exact Hid].
      intros (j & Hj & _). lia.
    - intros j ident Hj. lia. }
  exists o. split; [exact Eo|]. split; [exact Hbad|]. split; [exact Hrepr|].
  intros k id ident Hid Hident.
  assert (Hk : k < length (residual_ids b)) by (apply lookup_lt_is_Some; eauto).
  assert (Hidin : id ∈ residual_block_ids (bb_problem b)).
  { apply (wf_problem_ids _ _ Hwf), Hin. apply list_elem_of_lookup. eauto. }
  assert (Hout : gba1_is_outlier params b k
                 = fgt (norm (gba1_residual params b id)) (th_gba_outlier_global params)).
  { unfold gba1_is_outlier. rewrite Hid. reflexivity. }
  assert (Hsurv : id ∈ residual_block_ids (ol_problem o)
                  <-> gba1_is_outlier params b k = false).
  { rewrite Hids. split.
    - intros [_ Hno]. destruct (gba1_is_outlier params b k) eqn:Ek; [|reflexivity].
      exfalso. apply Hno. exists k. auto.
    - intros Hk'. split; [exact Hidin|]. intros (j & Hj & Hj' & Hj'').
      assert (j = k) by (eapply NoDup_lookup; eauto). subst j. congruence. }
  split; [exact Hidin|]. rewrite <- Hout. split; [| split].
  - intros Ek. split; [apply (Her k); assumption|].
    rewrite Hsurv, Ek. discriminate.
  - intros Ek. apply Hsurv, Ek.
  - intros Hs. apply Hsurv, Hs.
Qed.

(** The entries of a list that satisfy a test are as many as their indices. *)
Lemma filter_indices_length {A} (P : A -> bool) (l : list A) : forall pre : list A,
  length (filter (fun k => match (pre ++ l) !! k with Some x => P x | None => false end = true)
            (seq (length pre) (length l)))
  = length (filter (fun x => P x = true) l).
Proof.
  induction l as [|x l IH]; intros pre; [reflexivity|].
  cbn [length seq]. rewrite !filter_cons, list_lookup_middle by reflexivity.
  specialize (IH (pre ++ [x])). rewrite <- app_assoc, length_app in IH. cbn [app length] in IH.
  replace (length pre + 1) with (S (length pre)) in IH by lia.
  destruct (decide (P x = true)); cbn [length]; rewrite IH; reflexivity.
Qed.


End OutlierRemoval.

(** ** What the construction of a problem leaves alone *)

Section Frame.
Context `{Geometry}.

Lemma kf_same_refl k : kf_same k k.
Proof. destruct k; reflexivity. Qed.

Lemma kf_same_trans k1 k2 k3 : kf_same k1 k2 -> kf_same k2 k3 -> kf_same k1 k3.
Proof. unfold kf_same. intros E1 E2. rewrite E2 at 1. rewrite E1. reflexivity. Qed.

Lemma kf_same_links l i k : kf_same k (set_kf_links l i k).
Proof. reflexivity. Qed.

Lemma lm_same_refl l : lm_same l l.
Proof. split; [destruct l; reflexivity | reflexivity]. Qed.

Lemma lm_same_trans l1 l2 l3 : lm_same l1 l2 -> lm_same l2 l3 -> lm_same l1 l3.
Proof.
  unfold lm_same. intros [E1 S1] [E2 S2]. split; [| etransitivity; eassumption].
  rewrite E2 at 1. rewrite E1. reflexivity.
Qed.

Lemma lm_same_erase kf l : lm_same l (EraseObservation kf l).
Proof. split; [reflexivity | apply sublist_filter]. Qed.

Lemma frame_refl s : frame s s.
Proof. split; auto using kf_same_refl, lm_same_refl. Qed.

Lemma frame_trans s1 s2 s3 : frame s1 s2 -> frame s2 s3 -> frame s1 s3.
Proof.
  intros [M1 C1 K1 L1] [M2 C2 K2 L2]. split; try congruence.
  - intros k. eapply kf_same_trans; eauto.
  - intros l. eapply lm_same_trans; eauto.
Qed.

Lemma frame_with_mem m s : frame s (with_mem m s).
Proof. split; auto using kf_same_refl, lm_same_refl. Qed.

Lemma frame_with_kf p g s :
  (forall k, kf_same k (g k)) -> frame s (with_kf p g s).
Proof.
  intros Hg. split; auto using lm_same_refl.
  intros k. simpl. unfold upd. destruct (decide (k = p)); auto using kf_same_refl.
Qed.

Lemma frame_with_lm p g s :
  (forall l, lm_same l (g l)) -> frame s (with_lm p g s).
Proof.
  intros Hg. split; auto using kf_same_refl.
  intros l. simpl. unfold upd. destruct (decide (l = p)); auto using lm_same_refl.
Qed.

Lemma frame_UpdateCeresFromState kf s : frame s (UpdateCeresFromState kf s).
Proof. apply frame_with_mem. Qed.

Lemma frame_repropagate kf s : frame s (repropagate_from_ceres kf s).
Proof. apply frame_with_kf. intros k. apply kf_same_links. Qed.

(** What a frame keeps. *)
Lemma frame_kf s s' k :
  frame s s' ->
  kf_invalid (kfs s' k) = kf_invalid (kfs s k) /\
  T_ws (kfs s' k) = T_ws (kfs s k) /\
  id_ (kfs s' k) = id_ (kfs s k).
Proof. intros [_ _ K _]. rewrite (K k). repeat split. Qed.

Lemma frame_is_anchor s s' k : frame s s' -> is_anchor s' k = is_anchor s k.
Proof.
  intros F. unfold is_anchor.
  destruct (frame_kf s s' k F) as (_ & _ & ->). rewrite (fr_map _ _ F). reflexivity.
Qed.

Lemma frame_lm s s' l :
  frame s s' ->
  lm_invalid (lms s' l) = lm_invalid (lms s l) /\
  pos_w (lms s' l) = pos_w (lms s l) /\
  observations (lms s' l) `sublist_of` observations (lms s l).
Proof. intros [_ _ _ L]. destruct (L l) as [E S]. rewrite E at 1 2. repeat split. exact S. Qed.

Lemma frame_valid_observer s s' o : frame s s' -> valid_observer s' o = valid_observer s o.
Proof.
  intros F. unfold valid_observer. destruct (fst o) as [kfx|]; [|reflexivity].
  destruct (frame_kf s s' kfx F) as (-> & _). reflexivity.
Qed.

Lemma sublist_filter_length {A} (P : A -> Prop) `{!forall x, Decision (P x)} (l1 l2 : list A) :
  l1 `sublist_of` l2 -> length (filter P l1) <= length (filter P l2).
Proof.
  induction 1 as [|x l1 l2 _ IH|x l1 l2 _ IH]; [reflexivity | |].
  - rewrite !filter_cons. destruct (decide (P x)); simpl; lia.
  - rewrite filter_cons. destruct (decide (P x)); simpl; lia.
Qed.

(** Erasing observations can only lower the number of valid observations. *)
Lemma frame_num_edges s s' l :
  frame s s' ->
  num_edges s' (observations (lms s' l)) <= num_edges s (observations (lms s l)).
Proof.
  intros F. unfold num_edges.
  destruct (frame_lm s s' l F) as (_ & _ & Hsub).
  etransitivity; [apply (sublist_filter_length _ _ _ Hsub)|].
  apply Nat.eq_le_incl. f_equal. apply list_filter_iff.
  intros o. rewrite (frame_valid_observer s s' o F). reflexivity.
Qed.

(** The valid observations never outnumber the observations. *)
Lemma num_edges_le s obs : num_edges s obs <= length obs.
Proof. apply length_filter. Qed.

End Frame.

(** ** Global Bundle Adjustment: the graph during the construction *)

Section BundleFrame.
Context `{Geometry} `{!Solver}.
Variable params : Params.

(** A loop whose every round stays within the frame stays within the frame. *)
Lemma for_each_frame {A} (body : A -> BundleBuild -> Result BundleBuild) l b b' :
  (forall a b1 b2, body a b1 = Ok b2 -> frame (bb_state b1) (bb_state b2)) ->
  for_each body l b = Ok b' -> frame (bb_state b) (bb_state b').
Proof.
  intros Hbody E.
  apply (for_each_invariant _ (fun x => frame (bb_state b) (bb_state x)) _ _ _) in E;
    [exact E | | apply frame_refl].
  intros a b1 b2 _ Hb1 E1. eapply frame_trans; [exact Hb1 | eapply Hbody, E1].
Qed.

Lemma gba1_add_keyframe_frame visual_only kf (b b' : BundleBuild) :
  gba1_add_keyframe visual_only kf b = Ok b' -> frame (bb_state b) (bb_state b').
Proof.
  unfold gba1_add_keyframe. intros E.
  destruct (kf_invalid (kfs (bb_state b) kf)); [inversion E; subst; apply frame_refl|].
  apply bind_Ok in E as (b0 & E0 & E). apply add_camera_parameters_Ok in E0.
  assert (F0 : frame (bb_state b) (bb_state b0))
    by (rewrite E0; apply frame_UpdateCeresFromState).
  assert (S0 : bb_state b0 = UpdateCeresFromState kf (bb_state b)) by (rewrite E0; reflexivity).
  clear E0.
  destruct (negb visual_only); [| inversion E; subst b'; exact F0].
  destruct (predecessor _) as [pred|].
  - destruct (kf_invalid (kfs _ pred)).
    + destruct (bool_decide _); inversion E; subst b'; exact F0.
    + inversion E as [Eb']; clear E. cbn [bb_state bb_update].
      eapply frame_trans; [apply frame_UpdateCeresFromState | apply frame_repropagate].
  - destruct (bool_decide _); inversion E; subst b'; exact F0.
Qed.

Lemma gba2_add_keyframe_frame visual_only kf (b b' : BundleBuild) :
  gba2_add_keyframe params visual_only kf b = Ok b' -> frame (bb_state b) (bb_state b').
Proof.
  unfold gba2_add_keyframe. intros E.
  destruct (kf_invalid (kfs (bb_state b) kf)); [inversion E; subst; apply frame_refl|].
  apply bind_Ok in E as (b0 & E0 & E). apply add_camera_parameters_Ok in E0.
  assert (F0 : frame (bb_state b) (bb_state b0))
    by (rewrite E0; apply frame_UpdateCeresFromState).
  clear E0.
  destruct (negb visual_only); [| inversion E; subst b'; exact F0].
  destruct (predecessor _) as [pred|].
  - destruct (kf_invalid (kfs _ pred)).
    + destruct (bool_decide _); inversion E; subst b'; exact F0.
    + destruct (bool_decide (getNumMeasurements _ = 0)); [inversion E; subst b'; exact F0|].
      destruct (_ || _); [discriminate|].
      inversion E as [Eb']; clear E. cbn [bb_state].
      eapply frame_trans; [apply frame_UpdateCeresFromState | apply frame_repropagate].
  - destruct (bool_decide _); inversion E; subst b'; exact F0.
Qed.

(** The reprojection factors are added without touching the graph. *)
Lemma gba1_add_observation_state lm o (b b' : BundleBuild) :
  gba1_add_observation lm o b = Ok b' ->
  bb_state b' = bb_state b /\ not_included_lms b' = not_included_lms b /\
  intrinsics_map b' = intrinsics_map b /\ distortion_map b' = distortion_map b.
Proof.
  unfold gba1_add_observation. intros E.
  destruct (fst o) as [kfx|]; [| inversion E; auto].
  destruct (kf_invalid _); [inversion E; auto|].
  apply bind_Ok in E as (c & _ & E). apply bind_Ok in E as (intr & _ & E).
  apply bind_Ok in E as (dist & _ & E). inversion E; auto.
Qed.

Lemma gba2_add_observation_state lm o (b b' : BundleBuild) :
  gba2_add_observation lm o b = Ok b' ->
  bb_state b' = bb_state b /\ not_included_lms b' = not_included_lms b /\
  intrinsics_map b' = intrinsics_map b /\ distortion_map b' = distortion_map b.
Proof.
  unfold gba2_add_observation. intros E.
  destruct (fst o) as [kfx|]; [| inversion E; auto].
  destruct (kf_invalid _); [inversion E; auto|].
  destruct (intrinsics_map b !! _) as [intr|]; [|discriminate].
  apply bind_Ok in E as (c & _ & E). apply bind_Ok in E as (dist & _ & E). inversion E; auto.
Qed.

(** One round of "Add Landmarks": either nothing happens to the graph, or the
    position buffer of the landmark is filled. *)
Lemma gba_add_landmark_state add_observation landmarks i (b b' : BundleBuild) :
  (forall lm o b1 b2, add_observation lm o b1 = Ok b2 ->
     bb_state b2 = bb_state b1 /\ not_included_lms b2 = not_included_lms b1 /\
     intrinsics_map b2 = intrinsics_map b1 /\ distortion_map b2 = distortion_map b1) ->
  gba_add_landmark add_observation landmarks i b = Ok b' ->
  exists m, bb_state b' = with_mem m (bb_state b).
Proof.
  intros Hadd. unfold gba_add_landmark. intros E.
  assert (Hsame : forall s : State, s = with_mem (mem s) s) by (intros []; reflexivity).
  apply bind_Ok in E as (lm & _ & E).
  destruct (lm_invalid _); [inversion E; subst; eauto|].
  destruct (bool_decide _); [inversion E; subst; simpl; eauto|].
  destruct (bool_decide _); [inversion E; subst; simpl; eauto|].
  apply (for_each_invariant _
           (fun x => bb_state x = bb_state (include_landmark lm b)) _ _ _) in E.
  - rewrite E. simpl. eauto.
  - intros o b1 b2 _ Hb1 E1. destruct (Hadd _ _ _ _ E1) as (-> & _). exact Hb1.
  - reflexivity.
Qed.

Lemma gba_add_landmark_frame add_observation landmarks i (b b' : BundleBuild) :
  (forall lm o b1 b2, add_observation lm o b1 = Ok b2 ->
     bb_state b2 = bb_state b1 /\ not_included_lms b2 = not_included_lms b1 /\
     intrinsics_map b2 = intrinsics_map b1 /\ distortion_map b2 = distortion_map b1) ->
  gba_add_landmark add_observation landmarks i b = Ok b' ->
  frame (bb_state b) (bb_state b').
Proof.
  intros Hadd E. destruct (gba_add_landmark_state _ _ _ _ _ Hadd E) as [m ->].
  apply frame_with_mem.
Qed.

Lemma gba1_build_frame visual_only s b :
  gba1_build visual_only s = Ok b -> frame s (bb_state b).
Proof.
  unfold gba1_build. intros E.
  apply bind_Ok in E as (b1 & E1 & E). apply bind_Ok in E as (b2 & E2 & E).
  inversion E; subst; clear E. cbn [bb_state bb_update].
  apply for_each_frame in E1; [| intros a c1 c2; apply gba1_add_keyframe_frame].
  apply for_each_frame in E2;
    [| intros a c1 c2; apply gba_add_landmark_frame, gba1_add_observation_state].
  eapply frame_trans; [exact E1 | exact E2].
Qed.

Lemma gba2_build_frame visual_only s b :
  gba2_build params visual_only s = Ok b -> frame s (bb_state b).
Proof.
  unfold gba2_build. intros E.
  apply bind_Ok in E as (b1 & E1 & E). apply bind_Ok in E as (b2 & E2 & E).
  apply for_each_frame in E1; [| intros a c1 c2; apply gba2_add_keyframe_frame].
  apply for_each_frame in E2;
    [| intros a c1 c2; apply gba_add_landmark_frame, gba2_add_observation_state].
  assert (F : frame s (bb_state b2)) by (eapply frame_trans; [exact E1 | exact E2]).
  destruct (gba_use_map_loop_constraints params); inversion E; subst; exact F.
Qed.

Lemma gba_remove_outlier_frame (b : BundleBuild) residuals i o o' :
  gba_remove_outlier params b residuals i o = Ok o' -> frame (ol_state o) (ol_state o').
Proof.
  unfold gba_remove_outlier. intros E.
  apply bind_Ok in E as (rx & _ & E). apply bind_Ok in E as (ry & _ & E).
  destruct (exceeds _ _); [| inversion E; subst; apply frame_refl].
  apply bind_Ok in E as (ident & _ & E). apply bind_Ok in E as (block_id & _ & E).
  inversion E; subst; clear E. cbn [ol_state].
  eapply frame_trans.
  - apply frame_with_kf. intros k. apply kf_same_links.
  - apply frame_with_lm. intros l. apply lm_same_erase.
Qed.

Lemma gba_first_round_frame visual_only outlier_removal s s1 :
  gba_first_round params visual_only outlier_removal s = Ok s1 -> frame s s1.
Proof.
  unfold gba_first_round, gba_outlier_round. intros E.
  destruct outlier_removal; [| inversion E; subst; apply frame_refl].
  apply bind_Ok in E as (o & E & Eo). inversion Eo; subst; clear Eo.
  apply bind_Ok in E as (b & Eb & E).
  apply gba1_build_frame in Eb. unfold gba1_remove_outliers in E.
  apply (for_each_invariant _ (fun x => frame s (ol_state x)) _ _ _) in E; [exact E | |].
  - intros i o1 o2 _ Ho1 E1. eapply frame_trans; [exact Ho1|].
    eapply gba_remove_outlier_frame, E1.
  - cbn [ol_state]. eapply frame_trans; [exact Eb | apply frame_with_mem].
Qed.

End BundleFrame.

(** ** Global Bundle Adjustment: landmarks with too few observations *)

Section Landmarks.
Context `{Geometry} `{!Solver} `{!MapBackend}.
Variable params : Params.

Lemma for_each_prefix {A S} (body : A -> S -> Result S) (P : list A -> S -> Prop) l :
  forall pre s s',
    (forall pre' a s1 s2, P pre' s1 -> body a s1 = Ok s2 -> P (pre' ++ [a]) s2) ->
    P pre s -> for_each body l s = Ok s' -> P (pre ++ l) s'.
Proof.
  induction l as [|a l IH]; intros pre s s' Hstep Hs E.
  - inversion E; subst. rewrite app_nil_r. exact Hs.
  - apply for_each_cons in E as (s1 & E1 & E).
    replace (pre ++ a :: l) with ((pre ++ [a]) ++ l) by (rewrite <- app_assoc; reflexivity).
    apply (IH _ s1); [exact Hstep | eapply Hstep; eassumption | exact E].
Qed.

Lemma declared_params_subset (c : CostFunction) params' x :
  x ∈ declared_params c params' -> x ∈ params'.
Proof.
  unfold declared_params. intros Hx.
  apply list_elem_of_fmap in Hx as ([a n] & -> & Hin). simpl.
  eapply elem_of_zip_l, Hin.
Qed.

(** *** Leaving a landmark out *)

Lemma excluded_AddParameterBlock lm a n lp (p : Problem) :
  fst a <> ceres_pos_ lm ->
  landmark_excluded lm p -> landmark_excluded lm (AddParameterBlock a n lp p).
Proof.
  intros Ha [Hb Hr]. split.
  - intros off. destruct (HasParameterBlock _ _) eqn:E; [|reflexivity].
    apply AddParameterBlock_has in E as [E|E]; [subst a; simpl in Ha; congruence|].
    rewrite Hb in E. discriminate.
  - rewrite (proj1 (AddParameterBlock_residual_blocks _ _ _ _)). exact Hr.
Qed.

Lemma excluded_SetParameterBlockConstant lm a (p : Problem) :
  landmark_excluded lm p -> landmark_excluded lm (SetParameterBlockConstant a p).
Proof.
  intros [Hb Hr]. split; [| exact Hr].
  intros off. rewrite SetParameterBlockConstant_has. apply Hb.
Qed.

Lemma excluded_AddResidualBlock lm cost loss params' (p : Problem) :
  (forall x, x ∈ params' -> fst x <> ceres_pos_ lm) ->
  landmark_excluded lm p ->
  landmark_excluded lm (snd (AddResidualBlock cost loss params' p)).
Proof.
  intros Hp [Hb Hr]. split.
  - intros off. destruct (HasParameterBlock _ _) eqn:E; [|reflexivity].
    apply AddResidualBlock_has in E as [E|E]; [rewrite Hb in E; discriminate|].
    apply declared_params_subset, Hp in E. simpl in E. congruence.
  - intros r Hin. rewrite AddResidualBlock_residual_blocks in Hin.
    apply elem_of_app in Hin as [Hin|Hin]; [apply Hr, Hin|].
    apply list_elem_of_singleton in Hin. subst r. exact Hp.
Qed.

Lemma excluded_add_state_parameters lm visual_only kf s (p : Problem) :
  landmark_excluded lm p -> landmark_excluded lm (add_state_parameters visual_only kf s p).
Proof.
  intros Hp. unfold add_state_parameters.
  repeat first
    [ apply excluded_SetParameterBlockConstant
    | apply excluded_AddParameterBlock; [discriminate|]
    | match goal with |- landmark_excluded _ (if ?c then _ else _) => destruct c end ];
    exact Hp.
Qed.

Lemma map_insert_new_lookup {V} (m : gmap idpair V) k v k' v' :
  map_insert_new k v m !! k' = Some v' -> m !! k' = Some v' \/ v' = v.
Proof.
  unfold map_insert_new. destruct (m !! k) eqn:E; [auto|].
  destruct (decide (k = k')) as [->|Hne].
  - rewrite lookup_insert_eq. intros [= ->]. auto.
  - rewrite lookup_insert_ne by exact Hne. auto.
Qed.

Lemma add_camera_blocks_excluded lm kf (b : BundleBuild) :
  landmark_excluded lm (bb_problem b) /\ camera_maps b ->
  landmark_excluded lm (bb_problem (add_camera_blocks kf b))
  /\ camera_maps (add_camera_blocks kf b).
Proof.
  intros [Hp [Hi Hd]]. split.
  - unfold add_camera_blocks. cbn [bb_problem].
    repeat first
      [ apply excluded_SetParameterBlockConstant
      | apply excluded_AddParameterBlock; [discriminate|] ]; exact Hp.
  - split; intros k v Hv; unfold add_camera_blocks in Hv; cbn in Hv;
      apply map_insert_new_lookup in Hv as [Hv| ->]; eauto.
Qed.

Lemma excl_init lm s : excl lm (bundle_init s).
Proof.
  split; [split|split].
  - intros off. reflexivity.
  - intros r Hr. apply elem_of_nil in Hr. destruct Hr.
  - intros k v Hv. simpl in Hv. rewrite lookup_empty in Hv. discriminate.
  - intros k v Hv. simpl in Hv. rewrite lookup_empty in Hv. discriminate.
Qed.

Lemma imu_factor_blocks_not_pos lm pred kf x :
  x ∈ imu_factor_blocks pred kf -> fst x <> ceres_pos_ lm.
Proof.
  unfold imu_factor_blocks. intros Hx.
  repeat (apply elem_of_cons in Hx as [->|Hx]; [discriminate|]).
  apply elem_of_nil in Hx. destruct Hx.
Qed.

Lemma loop_edge_blocks_not_pos lm k1 k2 x :
  x ∈ loop_edge_blocks k1 k2 -> fst x <> ceres_pos_ lm.
Proof.
  unfold loop_edge_blocks. intros Hx.
  repeat (apply elem_of_cons in Hx as [->|Hx]; [discriminate|]).
  apply elem_of_nil in Hx. destruct Hx.
Qed.

Lemma gba1_add_keyframe_excl lm visual_only kf (b b' : BundleBuild) :
  gba1_add_keyframe visual_only kf b = Ok b' -> excl lm b -> excl lm b'.
Proof.
  unfold gba1_add_keyframe. intros E Hb.
  destruct (kf_invalid (kfs (bb_state b) kf)); [inversion E; subst; exact Hb|].
  apply bind_Ok in E as (b0 & E0 & E). apply add_camera_parameters_Ok in E0.
  assert (H0' : excl lm b0).
  { rewrite E0. apply add_camera_blocks_excluded. destruct Hb as [Hp Hm].
    split; [| exact Hm]. cbn [bb_problem bb_update].
    apply excluded_add_state_parameters, Hp. }
  clear E0 Hb.
  destruct (negb visual_only); [| inversion E; subst b'; exact H0'].
  destruct (predecessor _) as [pred|].
  - destruct (kf_invalid (kfs _ pred)).
    + destruct (bool_decide _); inversion E; subst b'; exact H0'.
    + apply Ok_inj in E. subst b'. destruct H0' as [Hp Hm]. split; [| exact Hm].
      cbn [bb_problem bb_update].
      apply excluded_AddResidualBlock; [apply imu_factor_blocks_not_pos | exact Hp].
  - destruct (bool_decide _); inversion E; subst b'; exact H0'.
Qed.

Lemma gba2_add_keyframe_excl lm visual_only kf (b b' : BundleBuild) :
  gba2_add_keyframe params visual_only kf b = Ok b' -> excl lm b -> excl lm b'.
Proof.
  unfold gba2_add_keyframe. intros E Hb.
  destruct (kf_invalid (kfs (bb_state b) kf)); [inversion E; subst; exact Hb|].
  apply bind_Ok in E as (b0 & E0 & E). apply add_camera_parameters_Ok in E0.
  assert (H0' : excl lm b0).
  { rewrite E0. apply add_camera_blocks_excluded. destruct Hb as [Hp Hm].
    split; [| exact Hm]. cbn [bb_problem bb_update].
    destruct (_ && _); [apply excluded_SetParameterBlockConstant|];
      apply excluded_add_state_parameters, Hp. }
  clear E0 Hb.
  destruct (negb visual_only); [| inversion E; subst b'; exact H0'].
  destruct (predecessor _) as [pred|].
  - destruct (kf_invalid (kfs _ pred)).
    + destruct (bool_decide _); inversion E; subst b'; exact H0'.
    + destruct (bool_decide (getNumMeasurements _ = 0)); [inversion E; subst b'; exact H0'|].
      destruct (_ || _); [discriminate|].
      apply Ok_inj in E. subst b'. destruct H0' as [Hp Hm]. split; [| exact Hm].
      cbn [bb_problem].
      apply excluded_AddResidualBlock; [apply imu_factor_blocks_not_pos | exact Hp].
  - destruct (bool_decide _); inversion E; subst b'; exact H0'.
Qed.

Lemma reprojection_blocks_not_pos lm kfx lm' intr dist x :
  lm' <> lm ->
  (exists c, intr = (camera_parameters c, 0)) ->
  (exists c, dist = (distortion_parameters c, 0)) ->
  x ∈ reprojection_blocks kfx lm' intr dist -> fst x <> ceres_pos_ lm.
Proof.
  intros Hne [ci ->] [cd ->]. unfold reprojection_blocks. intros Hx.
  repeat (apply elem_of_cons in Hx as [->|Hx]; [simpl; congruence|]).
  apply elem_of_nil in Hx. destruct Hx.
Qed.

Lemma map_at_Ok {V} (m : gmap idpair V) k v : map_at m k = Ok v -> m !! k = Some v.
Proof. unfold map_at. destruct (m !! k); intros [=]; subst; reflexivity. Qed.

Lemma gba1_add_observation_excl lm lm' o (b b' : BundleBuild) :
  lm' <> lm -> gba1_add_observation lm' o b = Ok b' -> excl lm b -> excl lm b'.
Proof.
  unfold gba1_add_observation. intros Hne E Hb.
  destruct (fst o) as [kfx|]; [| inversion E; subst; exact Hb].
  destruct (kf_invalid _); [inversion E; subst; exact Hb|].
  apply bind_Ok in E as (c & _ & E). apply bind_Ok in E as (intr & Ei & E).
  apply bind_Ok in E as (dist & Ed & E). apply map_at_Ok in Ei, Ed.
  apply Ok_inj in E. subst b'. destruct Hb as [Hp [Hi Hd]].
  split; [| split; assumption]. cbn [bb_problem push_residual].
  apply excluded_AddResidualBlock; [| exact Hp].
  intros x. apply reprojection_blocks_not_pos; eauto.
Qed.

Lemma gba2_add_observation_excl lm lm' o (b b' : BundleBuild) :
  lm' <> lm -> gba2_add_observation lm' o b = Ok b' -> excl lm b -> excl lm b'.
Proof.
  unfold gba2_add_observation. intros Hne E Hb.
  destruct (fst o) as [kfx|]; [| inversion E; subst; exact Hb].
  destruct (kf_invalid _); [inversion E; subst; exact Hb|].
  destruct (intrinsics_map b !! _) as [intr|] eqn:Ei; [|discriminate].
  apply bind_Ok in E as (c & _ & E).
  apply bind_Ok in E as (dist & Ed & E). apply map_at_Ok in Ed.
  apply Ok_inj in E. subst b'. destruct Hb as [Hp [Hi Hd]].
  split; [| split; assumption]. cbn [bb_problem push_residual].
  apply excluded_AddResidualBlock; [| exact Hp].
  intros x. apply reprojection_blocks_not_pos; eauto.
Qed.

(** The three ways a round of "Add Landmarks" can go. *)
Lemma gba_add_landmark_cases add_observation landmarks i (b b' : BundleBuild) :
  gba_add_landmark add_observation landmarks i b = Ok b' ->
  exists lm, landmarks !! i = Some lm /\
    let s := bb_state b in
    ((lm_invalid (lms s lm) = true /\ b' = b)
     \/ (lm_invalid (lms s lm) = false
         /\ num_edges s (observations (lms s lm)) < th_min_observations
         /\ b' = exclude_landmark i b)
     \/ (lm_invalid (lms s lm) = false
         /\ th_min_observations <= num_edges s (observations (lms s lm))
         /\ for_each (add_observation lm) (observations (lms s lm)) (include_landmark lm b)
            = Ok b')).
Proof.
  unfold gba_add_landmark. intros E.
  apply bind_Ok in E as (lm & Elm & E). apply vec_at_Ok in Elm.
  exists lm. split; [exact Elm|]. simpl.
  destruct (lm_invalid _); [inversion E; subst; auto|].
  pose proof (num_edges_le (bb_state b) (observations (lms (bb_state b) lm))) as Hle.
  case_bool_decide as H1'.
  { inversion E; subst. right; left. repeat split. lia. }
  case_bool_decide as H2'.
  { inversion E; subst. right; left. repeat split. lia. }
  right; right. repeat split; [lia | exact E].
Qed.

(** "Add Landmarks" adds nothing for a landmark with too few valid
    observations. *)
Lemma gba_landmarks_excl add_observation landmarks s0 lm l (b b' : BundleBuild) :
  observation_step add_observation ->
  (forall lm' o b1 b2, lm' <> lm -> add_observation lm' o b1 = Ok b2 ->
                       excl lm b1 -> excl lm b2) ->
  num_edges s0 (observations (lms s0 lm)) < th_min_observations ->
  frame s0 (bb_state b) -> excl lm b ->
  for_each (gba_add_landmark add_observation landmarks) l b = Ok b' ->
  frame s0 (bb_state b') /\ excl lm b'.
Proof.
  intros Hstate Hadd Hfew F Hb E.
  apply (for_each_invariant _ (fun x => frame s0 (bb_state x) /\ excl lm x) _ _ _) in E;
    [exact E | | auto].
  clear E. intros i b1 b2 _ [F1 X1] E1.
  split; [eapply frame_trans; [exact F1 | eapply gba_add_landmark_frame; eassumption]|].
  apply gba_add_landmark_cases in E1 as (lm' & Hi & [[_ ->]|[(_ & _ & ->)|(_ & Hmany & E1)]]).
  - exact X1.
  - exact X1.
  - destruct (decide (lm' = lm)) as [->|Hne].
    { pose proof (frame_num_edges _ _ lm F1). lia. }
    apply (for_each_invariant _ (excl lm) _ _ _) in E1; [exact E1 | |].
    + intros o c1 c2 _ Hc1 Ec. eapply Hadd; eassumption.
    + destruct X1 as [Hp Hm]. split; [| exact Hm].
      unfold include_landmark. cbn [bb_problem].
      apply excluded_AddParameterBlock; [simpl; congruence | exact Hp].
Qed.

(** "Add Landmarks" marks every entry of [landmarks] that holds a valid
    landmark with too few valid observations as not included. *)
Lemma gba_landmarks_marks add_observation landmarks s0 lm (b b' : BundleBuild) :
  observation_step add_observation ->
  num_edges s0 (observations (lms s0 lm)) < th_min_observations ->
  lm_invalid (lms s0 lm) = false ->
  frame s0 (bb_state b) ->
  length (not_included_lms b) = length landmarks ->
  for_each (gba_add_landmark add_observation landmarks) (seq 0 (length landmarks)) b = Ok b' ->
  forall i, landmarks !! i = Some lm -> not_included_lms b' !! i = Some true.
Proof.
  intros Hstate Hfew Hvalid F Hlen E.
  apply (for_each_prefix _
           (fun pre x =>
              frame s0 (bb_state x) /\ length (not_included_lms x) = length landmarks /\
              forall i, i ∈ pre -> landmarks !! i = Some lm ->
                        not_included_lms x !! i = Some true) _ [] _ _) in E.
  - destruct E as (_ & _ & Hmarks). intros i Hi. apply Hmarks; [| exact Hi].
    apply elem_of_seq. apply lookup_lt_Some in Hi. lia.
  - clear E. intros pre a b1 b2 (F1 & L1 & M1) E1.
    split; [eapply frame_trans; [exact F1 | eapply gba_add_landmark_frame; eassumption]|].
    destruct (frame_lm _ _ lm F1) as (Hinv & _).
    pose proof (frame_num_edges _ _ lm F1) as Hedges.
    apply gba_add_landmark_cases in E1
      as (lm' & Ha & [[Hinv' ->]|[(_ & _ & ->)|(_ & Hmany & E1)]]).
    + split; [exact L1|]. intros i Hi Hlm. apply elem_of_app in Hi as [Hi|Hi]; [auto|].
      apply list_elem_of_singleton in Hi. subst i. rewrite Ha in Hlm. inversion Hlm; subst lm'.
      congruence.
    + unfold exclude_landmark. cbn [not_included_lms]. rewrite length_insert.
      split; [exact L1|]. intros i Hi Hlm.
      destruct (decide (i = a)) as [->|Hne].
      * apply list_lookup_insert_eq. rewrite L1. eapply lookup_lt_Some, Ha.
      * rewrite list_lookup_insert_ne by congruence.
        apply elem_of_app in Hi as [Hi|Hi]; [auto|].
        apply list_elem_of_singleton in Hi. congruence.
    + assert (Hni : not_included_lms b2 = not_included_lms b1).
      { apply (for_each_invariant _
                 (fun x => not_included_lms x = not_included_lms b1) _ _ _) in E1;
          [exact E1 | | reflexivity].
        intros o c1 c2 _ Hc1 Ec. destruct (Hstate _ _ _ _ Ec) as (_ & -> & _). exact Hc1. }
      rewrite Hni. split; [exact L1|]. intros i Hi Hlm.
      apply elem_of_app in Hi as [Hi|Hi]; [auto|].
      apply list_elem_of_singleton in Hi. subst i. rewrite Ha in Hlm. inversion Hlm; subst lm'.
      lia.
  - split; [exact F|]. split; [exact Hlen|]. intros i Hi. apply elem_of_nil in Hi. destruct Hi.
Qed.

Lemma gba1_keyframes_excl lm visual_only s0 l (b b' : BundleBuild) :
  frame s0 (bb_state b) -> excl lm b ->
  for_each (gba1_add_keyframe visual_only) l b = Ok b' ->
  frame s0 (bb_state b') /\ excl lm b'.
Proof.
  intros F Hb E.
  apply (for_each_invariant _ (fun x => frame s0 (bb_state x) /\ excl lm x) _ _ _) in E;
    [exact E | | auto].
  intros kf b1 b2 _ [F1 X1] E1. split.
  - eapply frame_trans; [exact F1 | eapply gba1_add_keyframe_frame, E1].
  - eapply gba1_add_keyframe_excl; eassumption.
Qed.

Lemma gba2_keyframes_excl lm visual_only s0 l (b b' : BundleBuild) :
  frame s0 (bb_state b) -> excl lm b ->
  for_each (gba2_add_keyframe params visual_only) l b = Ok b' ->
  frame s0 (bb_state b') /\ excl lm b' /\ not_included_lms b' = not_included_lms b.
Proof.
  intros F Hb E.
  apply (for_each_invariant _
           (fun x => frame s0 (bb_state x) /\ excl lm x
                     /\ not_included_lms x = not_included_lms b) _ _ _) in E;
    [exact E | | auto].
  intros kf b1 b2 _ (F1 & X1 & N1) E1. split; [| split].
  - eapply frame_trans; [exact F1 | eapply gba2_add_keyframe_frame, E1].
  - eapply gba2_add_keyframe_excl; eassumption.
  - rewrite <- N1. clear -E1. unfold gba2_add_keyframe in E1.
    destruct (kf_invalid _); [apply Ok_inj in E1; subst; reflexivity|].
    apply bind_Ok in E1 as (b0 & E0 & E1). apply add_camera_parameters_Ok in E0.
    assert (N0 : not_included_lms b0 = not_included_lms b1) by (rewrite E0; reflexivity).
    clear E0. rewrite <- N0.
    destruct (negb visual_only); [| apply Ok_inj in E1; subst; reflexivity].
    destruct (predecessor _) as [pred|].
    + destruct (kf_invalid (kfs _ pred)).
      * destruct (bool_decide _); [discriminate | apply Ok_inj in E1; subst; reflexivity].
      * destruct (bool_decide (getNumMeasurements _ = 0));
          [apply Ok_inj in E1; subst; reflexivity|].
        destruct (_ || _); [discriminate|]. apply Ok_inj in E1; subst; reflexivity.
    + destruct (bool_decide _); [discriminate | apply Ok_inj in E1; subst; reflexivity].
Qed.

Lemma gba1_loops_excluded lm (loops : list LoopConstraint) : forall p : Problem,
  landmark_excluded lm p -> landmark_excluded lm (foldl gba1_add_loop p loops).
Proof.
  induction loops as [|l loops IH]; intros p Hp; [exact Hp|].
  simpl. apply IH. unfold gba1_add_loop.
  apply excluded_AddResidualBlock; [apply loop_edge_blocks_not_pos | exact Hp].
Qed.

Lemma gba2_loops_excluded lm (loops : list LoopConstraint) : forall p : Problem,
  landmark_excluded lm p -> landmark_excluded lm (foldl gba2_add_loop p loops).
Proof.
  induction loops as [|l loops IH]; intros p Hp; [exact Hp|].
  simpl. apply IH. unfold gba2_add_loop. destruct (_ || _); [exact Hp|].
  apply excluded_AddResidualBlock; [apply loop_edge_blocks_not_pos | exact Hp].
Qed.

(** Round 1 leaves a landmark with too few valid observations out. *)
Lemma gba1_build_excludes lm visual_only s b :
  num_edges s (observations (lms s lm)) < th_min_observations ->
  gba1_build visual_only s = Ok b -> landmark_excluded lm (bb_problem b).
Proof.
  intros Hfew E. unfold gba1_build in E.
  apply bind_Ok in E as (b1 & E1 & E). apply bind_Ok in E as (b2 & E2 & E).
  apply Ok_inj in E. subst b. cbn [bb_problem bb_update].
  apply gba1_keyframes_excl with (lm := lm) (s0 := s) in E1 as [F1 X1];
    [| apply frame_refl | apply excl_init].
  apply (gba_landmarks_excl _ _ s lm) in E2 as [F2 [X2 _]];
    [| exact gba1_add_observation_state
     | intros lm' o c1 c2; apply gba1_add_observation_excl
     | exact Hfew | exact F1 | exact X1].
  apply gba1_loops_excluded, X2.
Qed.

(** Round 2 leaves it out as well, and marks it as not included. *)
Lemma gba2_build_excludes lm visual_only s0 s b :
  frame s0 s ->
  num_edges s0 (observations (lms s0 lm)) < th_min_observations ->
  gba2_build params visual_only s = Ok b ->
  landmark_excluded lm (bb_problem b) /\
  (lm_invalid (lms s0 lm) = false ->
   forall i, GetLandmarksVec (map_ s) !! i = Some lm -> not_included_lms b !! i = Some true).
Proof.
  intros F0 Hfew E. unfold gba2_build in E.
  apply bind_Ok in E as (b1 & E1 & E). apply bind_Ok in E as (b2 & E2 & E).
  apply gba2_keyframes_excl with (lm := lm) (s0 := s0) in E1 as (F1 & X1 & N1);
    [| exact F0 | apply excl_init].
  pose proof E2 as E2'.
  apply (gba_landmarks_excl _ _ s0 lm) in E2 as [F2 [X2 _]];
    [| exact gba2_add_observation_state
     | intros lm' o c1 c2; apply gba2_add_observation_excl
     | exact Hfew | exact F1 | exact X1].
  assert (Hmarks : lm_invalid (lms s0 lm) = false ->
                   forall i, GetLandmarksVec (map_ s) !! i = Some lm ->
                             not_included_lms b2 !! i = Some true).
  { intros Hvalid.
    apply (gba_landmarks_marks _ _ s0 lm b1 b2 gba2_add_observation_state Hfew Hvalid F1);
      [| exact E2'].
    rewrite N1. simpl. apply length_replicate. }
  destruct (gba_use_map_loop_constraints params); apply Ok_inj in E; subst b.
  - cbn [bb_problem bb_update not_included_lms]. split; [| exact Hmarks].
    apply gba2_loops_excluded, X2.
  - split; [exact X2 | exact Hmarks].
Qed.

(** *** The write-back *)

Lemma gba_recover_keyframes_lms visual_only (l : list nat) : forall s : State,
  lms (foldl (gba_recover_keyframe visual_only) s l) = lms s /\
  map_ (foldl (gba_recover_keyframe visual_only) s l) = map_ s.
Proof.
  induction l as [|kf l IH]; intros s; [split; reflexivity|].
  simpl. destruct (IH (gba_recover_keyframe visual_only s kf)) as [-> ->].
  unfold gba_recover_keyframe. destruct (kf_invalid _); split; reflexivity.
Qed.

Lemma gba_recover_landmarks_pos not_included landmarks lm l (s s' : State) :
  (lm_invalid (lms s lm) = false ->
   forall i, landmarks !! i = Some lm -> not_included !! i = Some true) ->
  for_each (gba_recover_landmark not_included landmarks) l s = Ok s' ->
  pos_w (lms s' lm) = pos_w (lms s lm).
Proof.
  intros Hmarks E.
  apply (for_each_invariant _
           (fun x => pos_w (lms x lm) = pos_w (lms s lm)
                     /\ lm_invalid (lms x lm) = lm_invalid (lms s lm)) _ _ _) in E;
    [apply E | | auto].
  clear E. intros i s1 s2 _ [P1 V1] E1. unfold gba_recover_landmark in E1.
  apply bind_Ok in E1 as (skip & Eskip & E1). apply vec_at_Ok in Eskip.
  destruct skip; [apply Ok_inj in E1; subst; auto|].
  apply bind_Ok in E1 as (lm' & Elm & E1). apply vec_at_Ok in Elm.
  destruct (lm_invalid (lms s1 lm')) eqn:Hinv; apply Ok_inj in E1; subst s2; [auto|].
  destruct (decide (lm' = lm)) as [->|Hne].
  - rewrite Hmarks in Eskip; [discriminate | congruence | exact Elm].
  - simpl. unfold upd. rewrite decide_False by congruence. auto.
Qed.

(** C3 (Global Bundle Adjustment, landmarks with fewer than 2 valid
    observations).  Such a landmark is left out of the problem of the
    outlier-removal round and out of the problem of the main round: neither has
    a position block for it or a residual block over its position; and the
    call leaves its world position as it was (the clean-up of the map, which is
    not part of this file, is taken not to move landmarks). *)
Theorem gba_skips_underobserved_landmark s interations_limit time_limit visual_only
    outlier_removal estimate_bias lm s' :
  (forall st l, pos_w (lms (Clean st) l) = pos_w (lms st l)) ->
  num_edges s (observations (lms s lm)) < th_min_observations ->
  GlobalBundleAdjustment params s interations_limit time_limit visual_only outlier_removal
    estimate_bias = Ok s' ->
  pos_w (lms s' lm) = pos_w (lms s lm) /\
  (forall b1, gba1_build visual_only s = Ok b1 -> landmark_excluded lm (bb_problem b1)) /\
  exists s1 b2,
    gba_first_round params visual_only outlier_removal s = Ok s1 /\
    gba2_build params visual_only s1 = Ok b2 /\
    landmark_excluded lm (bb_problem b2).
Proof.
  intros Hclean Hfew E. unfold GlobalBundleAdjustment in E.
  apply bind_Ok in E as (s1 & E1 & E). apply bind_Ok in E as (s2 & E2 & E).
  apply Ok_inj in E. subst s'.
  pose proof (gba_first_round_frame _ _ _ _ _ E1) as F1.
  unfold gba_main_round in E2. apply bind_Ok in E2 as (b2 & Eb2 & E2).
  destruct (gba2_build_excludes lm _ s s1 b2 F1 Hfew Eb2) as [Hex Hmarks].
  pose proof (gba2_build_frame _ _ _ _ Eb2) as F2.
  split; [| split].
  - rewrite Hclean.
    destruct (gba_recover_keyframes_lms visual_only (GetKeyframesVec (map_ s1))
                (with_mem (Solve (bundle_options params interations_limit)
                             (bb_problem b2) (mem (bb_state b2))) (bb_state b2)))
      as [Hlms _].
    cbn [lms with_mem] in Hlms.
    destruct (frame_lm _ _ lm F2) as (V2 & P2 & _).
    destruct (frame_lm _ _ lm F1) as (V1 & P1 & _).
    apply gba_recover_landmarks_pos with (lm := lm) in E2.
    + rewrite E2, Hlms, P2, P1. reflexivity.
    + rewrite Hlms, V2, V1. exact Hmarks.
  - intros b1 Eb1. eapply gba1_build_excludes; eassumption.
  - exists s1, b2. auto.
Qed.

End Landmarks.

(** ** The anchor keyframe *)

Section Pinned.
Context `{Geometry}.

Lemma foldl_prefix {A S} (f : S -> A -> S) (P : list A -> S -> Prop) l :
  forall pre s,
    (forall pre' a s1, P pre' s1 -> P (pre' ++ [a]) (f s1 a)) ->
    P pre s -> P (pre ++ l) (foldl f s l).
Proof.
  induction l as [|a l IH]; intros pre s Hstep Hs; simpl.
  - rewrite app_nil_r. exact Hs.
  - replace (pre ++ a :: l) with ((pre ++ [a]) ++ l) by (rewrite <- app_assoc; reflexivity).
    apply IH; [exact Hstep | apply Hstep, Hs].
Qed.

Lemma pinned_empty arr offs : pinned arr offs False empty_problem.
Proof. split; [discriminate | intros []]. Qed.

Lemma pinned_weaken arr offs (done done' : Prop) (p : Problem) :
  (done' -> done) -> pinned arr offs done p -> pinned arr offs done' p.
Proof. intros Himp [Ho Hd]. split; auto. Qed.

Lemma pinned_AddParameterBlock arr offs done x n lp (p : Problem) :
  placed arr offs x -> pinned arr offs done p ->
  pinned arr offs done (AddParameterBlock x n lp p).
Proof.
  intros Hx [Ho Hd]. split.
  - intros off Hoff. apply AddParameterBlock_has in Hoff as [<-|Hoff]; [apply Hx; reflexivity|].
    apply Ho, Hoff.
  - intros Hdone. destruct (Hd Hdone) as [Hall Hno]. split.
    + intros off Hoff. apply AddParameterBlock_has. right. apply Hall, Hoff.
    + intros off Hv. apply AddParameterBlock_variable in Hv as [Hv|[<- Hnew]].
      * exact (Hno off Hv).
      * rewrite Hall in Hnew; [discriminate|]. apply Hx. reflexivity.
Qed.

Lemma pinned_SetParameterBlockConstant arr offs done x (p : Problem) :
  pinned arr offs done p -> pinned arr offs done (SetParameterBlockConstant x p).
Proof.
  intros [Ho Hd]. split.
  - intros off. rewrite SetParameterBlockConstant_has. apply Ho.
  - intros Hdone. destruct (Hd Hdone) as [Hall Hno]. split.
    + intros off Hoff. rewrite SetParameterBlockConstant_has. apply Hall, Hoff.
    + intros off Hv. apply SetParameterBlockConstant_variable in Hv as [Hv _].
      exact (Hno off Hv).
Qed.

Lemma pinned_AddResidualBlock arr offs done cost loss params' (p : Problem) :
  (forall x, x ∈ params' -> placed arr offs x) -> pinned arr offs done p ->
  pinned arr offs done (snd (AddResidualBlock cost loss params' p)).
Proof.
  intros Hx [Ho Hd]. split.
  - intros off Hoff. apply AddResidualBlock_has in Hoff as [Hoff|Hoff]; [apply Ho, Hoff|].
    apply declared_params_subset in Hoff. apply (Hx _ Hoff). reflexivity.
  - intros Hdone. destruct (Hd Hdone) as [Hall Hno]. split.
    + intros off Hoff. apply AddResidualBlock_has. left. apply Hall, Hoff.
    + intros off Hv. apply AddResidualBlock_variable in Hv as [Hv|[Hin Hnew]].
      * exact (Hno off Hv).
      * apply declared_params_subset in Hin. rewrite Hall in Hnew; [discriminate|].
        apply (Hx _ Hin). reflexivity.
Qed.

(** Pinning the pose block of a 6-DoF pose. *)
Lemma pinned_set_constant arr done n lp (p : Problem) :
  pinned arr [0] done p ->
  pinned arr [0] True
    (SetParameterBlockConstant (arr, 0) (AddParameterBlock (arr, 0) n lp p)).
Proof.
  intros Hp.
  assert (Hp1 : pinned arr [0] done (AddParameterBlock (arr, 0) n lp p)).
  { apply pinned_AddParameterBlock; [| exact Hp]. intros _. simpl. left. }
  apply (pinned_SetParameterBlockConstant _ _ _ (arr, 0)) in Hp1.
  destruct Hp1 as [Ho _]. split; [exact Ho|]. intros _. split.
  - intros off Hoff. apply list_elem_of_singleton in Hoff. subst off.
    rewrite SetParameterBlockConstant_has. apply AddParameterBlock_has. auto.
  - intros off Hv. pose proof Hv as Hv'.
    apply SetParameterBlockConstant_variable in Hv as [_ Hne].
    assert (Hhas : HasParameterBlock
                     (SetParameterBlockConstant (arr, 0) (AddParameterBlock (arr, 0) n lp p))
                     (arr, off) = true)
      by (apply has_or_variable_or_constant; left; exact Hv').
    apply Ho, list_elem_of_singleton in Hhas. congruence.
Qed.

(** Pinning the yaw and the translation block of a 4-DoF pose. *)
Lemma pinned_set_4dof_constant kf done (p : Problem) :
  pinned (ceres_pose_ kf) [1; 4] done p ->
  pinned (ceres_pose_ kf) [1; 4] True
    (set_4dof_constant kf
       (AddParameterBlock (trans_block kf) 3 None
          (AddParameterBlock (yaw_block kf) 1 (Some AngleLocalParameterization) p))).
Proof.
  intros Hp.
  set (p2 := AddParameterBlock (trans_block kf) 3 None
               (AddParameterBlock (yaw_block kf) 1 (Some AngleLocalParameterization) p)).
  assert (Hp2 : pinned (ceres_pose_ kf) [1; 4] done p2).
  { unfold p2. apply pinned_AddParameterBlock; [intros _; simpl; right; left|].
    apply pinned_AddParameterBlock; [intros _; simpl; left | exact Hp]. }
  unfold set_4dof_constant.
  apply (pinned_SetParameterBlockConstant _ _ _ (yaw_block kf)) in Hp2.
  apply (pinned_SetParameterBlockConstant _ _ _ (trans_block kf)) in Hp2.
  destruct Hp2 as [Ho _]. split; [exact Ho|]. intros _.
  assert (Hall : forall off, off ∈ [1; 4] ->
            HasParameterBlock (SetParameterBlockConstant (trans_block kf)
                                 (SetParameterBlockConstant (yaw_block kf) p2))
              (ceres_pose_ kf, off) = true).
  { intros off Hoff. rewrite !SetParameterBlockConstant_has. unfold p2.
    apply AddParameterBlock_has.
    apply elem_of_cons in Hoff as [->|Hoff]; [right; apply AddParameterBlock_has; auto|].
    apply list_elem_of_singleton in Hoff. subst off. auto. }
  split; [exact Hall|].
  intros off Hv. pose proof Hv as Hv'.
  apply SetParameterBlockConstant_variable in Hv as [Hv Hne4].
  apply SetParameterBlockConstant_variable in Hv as [_ Hne1].
  assert (Hhas : HasParameterBlock (SetParameterBlockConstant (trans_block kf)
                                      (SetParameterBlockConstant (yaw_block kf) p2))
                   (ceres_pose_ kf, off) = true)
    by (apply has_or_variable_or_constant; left; exact Hv').
  apply Ho in Hhas. apply elem_of_cons in Hhas as [->|Hhas]; [apply Hne1; reflexivity|].
  apply list_elem_of_singleton in Hhas. subst off. apply Hne4. reflexivity.
Qed.

Lemma pinned_is_variable arr offs (p : Problem) i :
  pinned arr offs True p -> is_variable p arr i = false.
Proof. intros [_ Hd]. apply is_variable_false. apply Hd. exact I. Qed.

(** *** Buffers *)

Lemma load_ext (m m' : Mem) arr off n :
  (forall i, m' arr i = m arr i) -> load m' (arr, off) n = load m (arr, off) n.
Proof. intros E. unfold load. simpl. apply list_fmap_ext. intros i j _. apply E. Qed.

Lemma store_other arr arr' off vs (m : Mem) i :
  arr' <> arr -> store arr' off vs m arr i = m arr i.
Proof. intros Hne. unfold store. rewrite decide_False by congruence. reflexivity. Qed.

Lemma load_store arr off vs (m : Mem) :
  load (store arr off vs m) (arr, off) (length vs) = vs.
Proof.
  apply list_eq. intros j. unfold load. rewrite list_lookup_fmap. simpl.
  destruct (decide (j < length vs)) as [Hj|Hj].
  - rewrite lookup_seq_lt by exact Hj. simpl. unfold store.
    rewrite decide_True by reflexivity. rewrite decide_True by lia.
    replace (off + j - off) with j by lia.
    destruct (lookup_lt_is_Some_2 vs j Hj) as [v Hv]. rewrite Hv. reflexivity.
  - rewrite lookup_seq_ge by lia. simpl. symmetry. apply lookup_ge_None. lia.
Qed.

Lemma UpdateCeresFromState_other kf s arr i :
  arr <> ceres_pose_ kf -> arr <> ceres_velocity_and_bias_ kf -> arr <> ceres_extrinsics_ kf ->
  mem (UpdateCeresFromState kf s) arr i = mem s arr i.
Proof.
  intros H1 H2 H3. unfold UpdateCeresFromState. cbn [mem with_mem].
  rewrite !store_other by congruence. reflexivity.
Qed.

Lemma UpdateCeresFromState_pose kf s :
  load (mem (UpdateCeresFromState kf s)) (ceres_pose_ kf, 0) kPoseBlockSize
  = pose_to_ceres (T_ws (kfs s kf)).
Proof.
  unfold UpdateCeresFromState. cbn [mem with_mem].
  rewrite (load_ext (store (ceres_pose_ kf) 0 (pose_to_ceres (T_ws (kfs s kf))) (mem s))).
  - apply (load_store (ceres_pose_ kf) 0 (pose_to_ceres (T_ws (kfs s kf)))).
  - intros i. rewrite !store_other by discriminate. reflexivity.
Qed.

(** The buffers of one keyframe are not those of another. *)
Lemma UpdateCeresFromState_pose_other kf a s n :
  kf <> a ->
  load (mem (UpdateCeresFromState kf s)) (ceres_pose_ a, 0) n
  = load (mem s) (ceres_pose_ a, 0) n.
Proof.
  intros Hne. apply load_ext. intros i.
  apply UpdateCeresFromState_other; congruence.
Qed.

End Pinned.

(** *** Global Bundle Adjustment *)

Section AnchorGBA.
Context `{Geometry} `{!Solver} `{!MapBackend}.
Variable params : Params.
Variable a : KeyframePtr.

Lemma placed_zero arr (x : Addr) : snd x = 0 -> placed arr [0] x.
Proof. intros Hx _. rewrite Hx. left. Qed.

Ltac pin :=
  repeat first
    [ apply pinned_SetParameterBlockConstant
    | apply pinned_AddParameterBlock; [apply placed_zero; reflexivity|]
    | match goal with |- pinned _ _ _ (if ?c then _ else _) => destruct c end ].

Lemma anchored_weaken s0 (done done' : Prop) b :
  (done' -> done) -> anchored a s0 done b -> anchored a s0 done' b.
Proof.
  intros Himp (F & Hm & Hp & Hmem).
  split; [exact F|]. split; [exact Hm|]. split; [| auto].
  apply pinned_weaken with (done := done); assumption.
Qed.

Lemma add_state_parameters_pinned visual_only kf s done (p : Problem) :
  (kf = a -> is_anchor s kf = true) ->
  pinned (ceres_pose_ a) [0] done p ->
  pinned (ceres_pose_ a) [0] (done \/ kf = a) (add_state_parameters visual_only kf s p).
Proof.
  intros Hanc Hp. unfold add_state_parameters.
  destruct (decide (kf = a)) as [->|Hne].
  - rewrite (Hanc eq_refl). apply pinned_weaken with (done := True); [auto|].
    apply pinned_SetParameterBlockConstant.
    apply pinned_AddParameterBlock; [apply placed_zero; reflexivity|].
    destruct (negb visual_only);
      [apply pinned_AddParameterBlock; [apply placed_zero; reflexivity|]|];
      eapply pinned_set_constant; exact Hp.
  - apply pinned_weaken with (done := done); [tauto|]. pin; exact Hp.
Qed.

Lemma add_camera_blocks_camera_maps kf (b : BundleBuild) :
  camera_maps b -> camera_maps (add_camera_blocks kf b).
Proof.
  intros [Hi Hd].
  split; intros k v Hv; unfold add_camera_blocks in Hv; cbn in Hv;
    apply map_insert_new_lookup in Hv as [Hv| ->]; eauto.
Qed.

Lemma imu_factor_blocks_placed arr pred kf x :
  x ∈ imu_factor_blocks pred kf -> placed arr [0] x.
Proof.
  unfold imu_factor_blocks. intros Hx.
  repeat (apply elem_of_cons in Hx as [->|Hx]; [apply placed_zero; reflexivity|]).
  apply elem_of_nil in Hx. destruct Hx.
Qed.

Lemma loop_edge_blocks_placed arr k1 k2 x :
  x ∈ loop_edge_blocks k1 k2 -> placed arr [0] x.
Proof.
  unfold loop_edge_blocks. intros Hx.
  repeat (apply elem_of_cons in Hx as [->|Hx]; [apply placed_zero; reflexivity|]).
  apply elem_of_nil in Hx. destruct Hx.
Qed.

Lemma reprojection_blocks_placed arr kfx lm intr dist x :
  (exists c, intr = (camera_parameters c, 0)) ->
  (exists c, dist = (distortion_parameters c, 0)) ->
  x ∈ reprojection_blocks kfx lm intr dist -> placed arr [0] x.
Proof.
  intros [ci ->] [cd ->]. unfold reprojection_blocks. intros Hx.
  repeat (apply elem_of_cons in Hx as [->|Hx]; [apply placed_zero; reflexivity|]).
  apply elem_of_nil in Hx. destruct Hx.
Qed.

(** Round 2, "Add Keyframes": the anchor is pinned when it is visited, and
    stays so. *)
Lemma gba2_add_keyframe_anchored visual_only s0 done kf (b b' : BundleBuild) :
  is_anchor s0 a = true -> kf_invalid (kfs s0 a) = false ->
  gba2_add_keyframe params visual_only kf b = Ok b' ->
  anchored a s0 done b -> anchored a s0 (done \/ kf = a) b'.
Proof.
  intros Hanc Hval E (F & Hm & Hp & Hmem).
  pose proof (gba2_add_keyframe_frame _ _ _ _ _ E) as F'.
  split; [eapply frame_trans; eassumption|]. clear F'.
  destruct (frame_kf _ _ a F) as (Hinv_a & HT_a & _).
  unfold gba2_add_keyframe in E.
  destruct (kf_invalid (kfs (bb_state b) kf)) eqn:Hinv.
  { apply Ok_inj in E. subst b'.
    assert (Hne : kf <> a) by (intros ->; congruence).
    split; [exact Hm|]. split; [apply pinned_weaken with (done := done); tauto|].
    intros [Hd|Hd]; [auto | contradiction]. }
  apply bind_Ok in E as (b0 & E0 & E). apply add_camera_parameters_Ok in E0.
  set (s := UpdateCeresFromState kf (bb_state b)) in *.
  assert (Hm0 : camera_maps b0).
  { rewrite E0. apply add_camera_blocks_camera_maps. exact Hm. }
  assert (Hp0 : pinned (ceres_pose_ a) [0] (done \/ kf = a) (bb_problem b0)).
  { assert (Hp1 : pinned (ceres_pose_ a) [0] (done \/ kf = a)
                    (add_state_parameters visual_only kf s (bb_problem b))).
    { apply add_state_parameters_pinned; [| exact Hp].
      intros ->. unfold s. rewrite (frame_is_anchor _ _ a (frame_UpdateCeresFromState _ _)).
      rewrite (frame_is_anchor _ _ a F). exact Hanc. }
    rewrite E0. unfold add_camera_blocks. cbn [bb_problem bb_update bb_state].
    generalize dependent (add_state_parameters visual_only kf s (bb_problem b)).
    intros p1 _ Hp1. pin; exact Hp1. }
  assert (Hmem0 : done \/ kf = a ->
                  load (mem s) (ceres_pose_ a, 0) kPoseBlockSize
                  = pose_to_ceres (T_ws (kfs s0 a))).
  { destruct (decide (kf = a)) as [->|Hne].
    - intros _. unfold s. rewrite UpdateCeresFromState_pose, HT_a. reflexivity.
    - intros [Hd|Hd]; [| contradiction].
      unfold s. rewrite UpdateCeresFromState_pose_other by exact Hne. auto. }
  assert (Hs0 : bb_state b0 = s) by (rewrite E0; reflexivity).
  assert (Hsame : camera_maps b0 /\
                  pinned (ceres_pose_ a) [0] (done \/ kf = a) (bb_problem b0) /\
                  (done \/ kf = a ->
                   load (mem (bb_state b0)) (ceres_pose_ a, 0) kPoseBlockSize
                   = pose_to_ceres (T_ws (kfs s0 a))))
    by (rewrite Hs0; auto).
  clear E0.
  destruct (negb visual_only); [| apply Ok_inj in E; subst b'; exact Hsame].
  destruct (predecessor _) as [pred|].
  - destruct (kf_invalid (kfs _ pred)).
    + destruct (bool_decide _); [discriminate | apply Ok_inj in E; subst b'; exact Hsame].
    + destruct (bool_decide (getNumMeasurements _ = 0));
        [apply Ok_inj in E; subst b'; exact Hsame|].
      destruct (_ || _); [discriminate|].
      apply Ok_inj in E. subst b'. split; [exact Hm0|]. cbn [bb_problem bb_state]. split.
      * apply pinned_AddResidualBlock; [apply imu_factor_blocks_placed | exact Hp0].
      * exact Hmem0.
  - destruct (bool_decide _); [discriminate | apply Ok_inj in E; subst b'; exact Hsame].
Qed.

Lemma gba2_add_observation_anchored s0 done lm o (b b' : BundleBuild) :
  gba2_add_observation lm o b = Ok b' -> anchored a s0 done b -> anchored a s0 done b'.
Proof.
  intros E (F & Hm & Hp & Hmem).
  destruct (gba2_add_observation_state _ _ _ _ E) as (Hs & _ & Hi & Hd).
  unfold anchored, camera_maps. rewrite Hs, Hi, Hd.
  split; [exact F|]. split; [exact Hm|]. split; [| exact Hmem].
  unfold gba2_add_observation in E.
  destruct (fst o) as [kfx|]; [| apply Ok_inj in E; subst; exact Hp].
  destruct (kf_invalid _); [apply Ok_inj in E; subst; exact Hp|].
  destruct (intrinsics_map b !! _) as [intr|] eqn:Ei; [|discriminate].
  apply bind_Ok in E as (c & _ & E).
  apply bind_Ok in E as (dist & Ed & E). apply map_at_Ok in Ed.
  apply Ok_inj in E. subst b'. cbn [bb_problem push_residual].
  apply pinned_AddResidualBlock; [| exact Hp].
  intros x. destruct Hm as [Hmi Hmd]. apply reprojection_blocks_placed; eauto.
Qed.

Lemma gba2_add_landmark_anchored s0 done landmarks i (b b' : BundleBuild) :
  gba2_add_landmark landmarks i b = Ok b' -> anchored a s0 done b -> anchored a s0 done b'.
Proof.
  intros E Hb.
  apply gba_add_landmark_cases in E as (lm & Hi & [[_ ->]|[(_ & _ & ->)|(_ & _ & E)]]).
  - exact Hb.
  - exact Hb.
  - apply (for_each_invariant _ (anchored a s0 done) _ _ _) in E; [exact E | |].
    + intros o c1 c2 _ Hc1 Ec. eapply gba2_add_observation_anchored; eassumption.
    + destruct Hb as (F & Hm & Hp & Hmem). unfold include_landmark.
      split; [| split; [exact Hm | split]]; cbn [bb_state bb_problem].
      * eapply frame_trans; [exact F | apply frame_with_mem].
      * apply pinned_AddParameterBlock; [apply placed_zero; reflexivity | exact Hp].
      * intros Hd. rewrite <- (Hmem Hd). apply load_ext. intros j. cbn [mem with_mem].
        apply store_other. discriminate.
Qed.

Lemma gba2_loops_pinned arr done (loops : list LoopConstraint) : forall p : Problem,
  pinned arr [0] done p -> pinned arr [0] done (foldl gba2_add_loop p loops).
Proof.
  induction loops as [|l loops IH]; intros p Hp; [exact Hp|].
  simpl. apply IH. unfold gba2_add_loop. destruct (_ || _); [exact Hp|].
  apply pinned_AddResidualBlock; [apply loop_edge_blocks_placed | exact Hp].
Qed.

Lemma gba2_build_anchored visual_only s b :
  is_anchor s a = true -> kf_invalid (kfs s a) = false ->
  gba2_build params visual_only s = Ok b ->
  anchored a s (a ∈ GetKeyframesVec (map_ s)) b.
Proof.
  intros Hanc Hval E. unfold gba2_build in E.
  apply bind_Ok in E as (b1 & E1 & E). apply bind_Ok in E as (b2 & E2 & E).
  apply (for_each_prefix _ (fun pre x => anchored a s (a ∈ pre) x) _ [] _ _) in E1.
  - simpl in E1.
    apply (for_each_invariant _ (anchored a s (a ∈ GetKeyframesVec (map_ s))) _ _ _) in E2;
      [| intros i c1 c2 _ Hc1 Ec; eapply gba2_add_landmark_anchored; eassumption
       | exact E1].
    destruct (gba_use_map_loop_constraints params); apply Ok_inj in E; subst b;
      [| exact E2].
    destruct E2 as (F & Hm & Hp & Hmem).
    split; [exact F|]. split; [exact Hm|]. cbn [bb_problem bb_state bb_update].
    split; [| exact Hmem]. apply gba2_loops_pinned, Hp.
  - intros pre kf c1 c2 Hc1 Ec.
    apply (anchored_weaken s (a ∈ pre \/ kf = a)).
    + intros Hin. apply elem_of_app in Hin as [Hin|Hin]; [auto|].
      apply list_elem_of_singleton in Hin. auto.
    + eapply gba2_add_keyframe_anchored; eassumption.
  - split; [apply frame_refl|]. split; [| split].
    + split; intros k v Hv; simpl in Hv; rewrite lookup_empty in Hv; discriminate.
    + apply pinned_weaken with (done := False); [| apply pinned_empty].
      intros Hin. apply elem_of_nil in Hin. exact Hin.
    + intros Hin. apply elem_of_nil in Hin. destruct Hin.
Qed.

(** "Recover optimized data": a keyframe other than the anchor leaves the
    anchor alone, and the anchor gets the pose its buffer holds. *)
Lemma gba_recover_keyframe_anchor visual_only kf (s : State) :
  (kf = a -> kf_invalid (kfs s a) = false ->
   Ceres2Transform (load (mem s) (ceres_pose_ a, 0) kPoseBlockSize) = T_ws (kfs s a)) ->
  mem (gba_recover_keyframe visual_only s kf) = mem s /\
  kf_invalid (kfs (gba_recover_keyframe visual_only s kf) a) = kf_invalid (kfs s a) /\
  T_ws (kfs (gba_recover_keyframe visual_only s kf) a) = T_ws (kfs s a).
Proof.
  intros Hkf. unfold gba_recover_keyframe.
  destruct (kf_invalid (kfs s kf)) eqn:Hinv; [auto|].
  cbn [mem with_kf kfs]. unfold upd. split; [reflexivity|].
  destruct (decide (a = kf)) as [<-|Hne]; [| auto].
  destruct (negb visual_only); simpl; auto.
Qed.

Lemma gba_recover_keyframes_anchor visual_only (l : list nat) : forall s : State,
  (a ∈ l -> kf_invalid (kfs s a) = false ->
   Ceres2Transform (load (mem s) (ceres_pose_ a, 0) kPoseBlockSize) = T_ws (kfs s a)) ->
  T_ws (kfs (foldl (gba_recover_keyframe visual_only) s l) a) = T_ws (kfs s a).
Proof.
  induction l as [|kf l IH]; intros s Hs; [reflexivity|].
  simpl.
  destruct (gba_recover_keyframe_anchor visual_only kf s) as (Em & Ev & ET).
  { intros ->. apply Hs. left. }
  rewrite IH; [exact ET|].
  rewrite Em, Ev, ET. intros Hin. apply Hs. right. exact Hin.
Qed.

Lemma gba_recover_landmarks_kfs not_included landmarks l (s s' : State) :
  for_each (gba_recover_landmark not_included landmarks) l s = Ok s' -> kfs s' = kfs s.
Proof.
  intros E.
  apply (for_each_invariant _ (fun x => kfs x = kfs s) _ _ _) in E; [exact E | | reflexivity].
  clear E. intros i s1 s2 _ Hs1 E. unfold gba_recover_landmark in E.
  apply bind_Ok in E as (skip & _ & E).
  destruct skip; [apply Ok_inj in E; subst; exact Hs1|].
  apply bind_Ok in E as (lm & _ & E).
  destruct (lm_invalid _); apply Ok_inj in E; subst s2; exact Hs1.
Qed.

(** "Recover optimized data": what the loop body does to the anchor. *)
Lemma gba_recover_keyframe_pose visual_only kf (s : State) :
  mem (gba_recover_keyframe visual_only s kf) = mem s /\
  kf_invalid (kfs (gba_recover_keyframe visual_only s kf) a) = kf_invalid (kfs s a) /\
  T_ws (kfs (gba_recover_keyframe visual_only s kf) a)
  = if decide (kf = a /\ kf_invalid (kfs s a) = false)
    then Ceres2Transform (load (mem s) (ceres_pose_ a, 0) kPoseBlockSize)
    else T_ws (kfs s a).
Proof.
  unfold gba_recover_keyframe.
  destruct (kf_invalid (kfs s kf)) eqn:Hinv.
  - split; [reflexivity|]. split; [reflexivity|].
    case_decide as Hc; [| reflexivity]. destruct Hc as [-> Hv]. congruence.
  - cbn [mem with_kf kfs]. unfold upd. split; [reflexivity|].
    destruct (decide (a = kf)) as [<-|Hne].
    + rewrite decide_True by auto. destruct (negb visual_only); simpl; auto.
    + rewrite decide_False by (intros [-> _]; congruence). auto.
Qed.

Lemma gba_recover_keyframes_pose visual_only (l : list nat) : forall s : State,
  T_ws (kfs (foldl (gba_recover_keyframe visual_only) s l) a)
  = if decide (a ∈ l /\ kf_invalid (kfs s a) = false)
    then Ceres2Transform (load (mem s) (ceres_pose_ a, 0) kPoseBlockSize)
    else T_ws (kfs s a).
Proof.
  induction l as [|kf l IH]; intros s.
  - cbn [foldl]. case_decide as Hc; [| reflexivity]. destruct Hc as [Hin _]. inversion Hin.
  - cbn [foldl]. destruct (gba_recover_keyframe_pose visual_only kf s) as (Em & Ev & ET).
    rewrite IH, Em, Ev, ET.
    destruct (decide (a ∈ l /\ kf_invalid (kfs s a) = false)) as [[Hl Hv]|Hn].
    { rewrite decide_True; [reflexivity|]. split; [right; exact Hl | exact Hv]. }
    destruct (decide (kf = a /\ kf_invalid (kfs s a) = false)) as [[-> Hv]|Hk].
    { rewrite decide_True; [reflexivity|]. split; [left | exact Hv]. }
    rewrite decide_False; [reflexivity|].
    intros [Hin Hv]. apply elem_of_cons in Hin as [->|Hin]; [apply Hk | apply Hn]; auto.
Qed.

(** The main round leaves in the anchor the pose read back from its block,
    which is constant and holds the pose the anchor had. *)
Lemma gba_main_round_anchor interations_limit visual_only (s s' : State) :
  solver_keeps_constants ->
  is_anchor s a = true ->
  gba_main_round params interations_limit visual_only s = Ok s' ->
  T_ws (kfs s' a) = pose_after s a (Ceres2Transform (pose_to_ceres (T_ws (kfs s a)))).
Proof.
  intros Hsolve Hanc E. unfold gba_main_round in E.
  apply bind_Ok in E as (b & Eb & E).
  apply gba_recover_landmarks_kfs in E. rewrite E.
  pose proof (gba2_build_frame _ _ _ _ Eb) as F.
  destruct (frame_kf _ _ a F) as (Hinv & HT & _).
  rewrite gba_recover_keyframes_pose. cbn [kfs mem with_mem]. unfold pose_after.
  rewrite Hinv, HT.
  case_decide as Hc; [| reflexivity]. destruct Hc as [Hin Hval].
  destruct (gba2_build_anchored _ _ _ Hanc Hval Eb) as (_ & _ & Hp & Hmem).
  f_equal. rewrite <- (Hmem Hin).
  apply load_ext. intros i. apply Hsolve.
  apply (pinned_is_variable _ [0]). apply pinned_weaken with (2 := Hp). auto.
Qed.

Lemma GlobalBundleAdjustment_anchor s interations_limit time_limit visual_only
    outlier_removal estimate_bias s' :
  solver_keeps_constants ->
  (forall st k, T_ws (kfs (Clean st) k) = T_ws (kfs st k)) ->
  is_anchor s a = true ->
  GlobalBundleAdjustment params s interations_limit time_limit visual_only outlier_removal
    estimate_bias = Ok s' ->
  T_ws (kfs s' a) = pose_after s a (Ceres2Transform (pose_to_ceres (T_ws (kfs s a)))).
Proof.
  intros Hsolve Hclean Hanc E. unfold GlobalBundleAdjustment in E.
  apply bind_Ok in E as (s1 & E1 & E). apply bind_Ok in E as (s2 & E2 & E).
  apply Ok_inj in E. subst s'. rewrite Hclean.
  pose proof (gba_first_round_frame _ _ _ _ _ E1) as F1.
  destruct (frame_kf _ _ a F1) as (Hinv & HT & _).
  apply (gba_main_round_anchor _ _ _ _ Hsolve) in E2.
  - rewrite E2. unfold pose_after. rewrite (fr_map _ _ F1), Hinv, HT. reflexivity.
  - rewrite (frame_is_anchor _ _ a F1). exact Hanc.
Qed.

End AnchorGBA.

(** *** Pose-Graph Optimisation *)

Section AnchorPGO.
Context `{Geometry} `{!Solver}.
Variable params : Params.
Variable a : KeyframePtr.

Lemma is_anchor_ext (s s' : State) k :
  kfs s' = kfs s -> map_ s' = map_ s -> is_anchor s' k = is_anchor s k.
Proof. intros Hk Hm. unfold is_anchor. rewrite Hk, Hm. reflexivity. Qed.

Lemma pg_anchored_weaken s0 offs holds (done done' : Prop) b :
  (done' -> done) -> pg_anchored a s0 offs holds done b -> pg_anchored a s0 offs holds done' b.
Proof.
  intros Himp (Hk & Hm & Hp & Hmem).
  split; [exact Hk|]. split; [exact Hm|]. split; [| auto].
  apply pinned_weaken with (done := done); assumption.
Qed.

Lemma successor_edges_preserve (Q : PoseGraphBuild -> Prop) add_edge l b b' :
  (forall kf kfc b1 b2, add_edge kf kfc b1 = Ok b2 -> Q b1 -> Q b2) ->
  for_each (add_successor_edge add_edge) l b = Ok b' -> Q b -> Q b'.
Proof.
  intros Hadd E Hb.
  apply (for_each_invariant _ Q _ _ _) in E; [exact E | | exact Hb].
  intros kf b1 b2 _ Hb1 E1. unfold add_successor_edge in E1.
  destruct (kf_invalid _); [apply Ok_inj in E1; subst; exact Hb1|].
  destruct (successor _) as [succ|]; [| apply Ok_inj in E1; subst; exact Hb1].
  eapply Hadd; eassumption.
Qed.

Lemma window_edges_preserve (Q : PoseGraphBuild -> Prop) add_edge l b b' :
  (forall kf kfc b1 b2, add_edge kf kfc b1 = Ok b2 -> Q b1 -> Q b2) ->
  for_each (add_window_edges add_edge) l b = Ok b' -> Q b -> Q b'.
Proof.
  intros Hadd E Hb.
  apply (for_each_invariant _ Q _ _ _) in E; [exact E | | exact Hb].
  intros kf b1 b2 _ Hb1 E1. unfold add_window_edges in E1.
  destruct (kf_invalid _); [apply Ok_inj in E1; subst; exact Hb1|].
  apply bind_Ok in E1 as (connections & _ & E1).
  apply (for_each_invariant _ Q _ _ _) in E1; [exact E1 | | exact Hb1].
  intros kfc c1 c2 _ Hc1 Ec. destruct kfc as [kfc|]; [| discriminate].
  eapply Hadd; eassumption.
Qed.

(** **** 6-DoF *)

Lemma pgo_add_keyframe_anchored corrected_poses s0 done kf (b : PoseGraphBuild) :
  is_anchor s0 a = true ->
  pg_anchored a s0 [0]
    (holds_pose a (default (T_ws (kfs s0 a)) (corrected_poses !! id_ (kfs s0 a)))) done b ->
  pg_anchored a s0 [0]
    (holds_pose a (default (T_ws (kfs s0 a)) (corrected_poses !! id_ (kfs s0 a))))
    (done \/ (kf = a /\ kf_invalid (kfs s0 a) = false))
    (pgo_add_keyframe corrected_poses kf b).
Proof.
  intros Hanc (Hk & Hm & Hp & Hmem). unfold pgo_add_keyframe.
  destruct (kf_invalid (kfs (pg_state b) kf)) eqn:Hinv.
  { apply pg_anchored_weaken with (done := done).
    - intros [Hd|[-> Hval]]; [exact Hd|]. rewrite Hk in Hinv. congruence.
    - split; [exact Hk|]. split; [exact Hm|]. split; assumption. }
  unfold pg_anchored. cbn [pg_state pg_problem pg_update].
  split; [exact Hk|]. split; [exact Hm|].
  rewrite (is_anchor_ext s0) by assumption.
  destruct (decide (kf = a)) as [->|Hne].
  - rewrite Hanc. split.
    + apply pinned_weaken with (done := True); [auto|].
      apply pinned_SetParameterBlockConstant.
      apply pinned_AddParameterBlock; [apply placed_zero; reflexivity|].
      eapply pinned_set_constant; exact Hp.
    + intros _. unfold holds_pose. cbn [mem with_mem]. rewrite Hk.
      destruct (corrected_poses !! id_ (kfs s0 a)) as [T|]; cbn [default];
        apply (load_store (ceres_pose_ a) 0 (pose_to_ceres _)).
  - split.
    + apply pinned_weaken with (done := done); [tauto|].
      apply pinned_SetParameterBlockConstant.
      apply pinned_AddParameterBlock; [apply placed_zero; reflexivity|].
      assert (Hp1 : pinned (ceres_pose_ a) [0] done
                      (AddParameterBlock (ceres_pose_ kf, 0) kPoseBlockSize
                         (Some PoseQuaternionLocalParameterization) (pg_problem b)))
        by (apply pinned_AddParameterBlock; [apply placed_zero; reflexivity | exact Hp]).
      destruct (is_anchor s0 kf); [apply pinned_SetParameterBlockConstant|]; exact Hp1.
    + intros [Hd|[Hd _]]; [| contradiction]. unfold holds_pose. rewrite <- (Hmem Hd).
      apply load_ext. intros i. cbn [mem with_mem].
      rewrite store_other by congruence.
      apply UpdateCeresFromState_other; congruence.
Qed.

Lemma pgo_loops_pinned arr done (loops : list LoopConstraint) : forall p : Problem,
  pinned arr [0] done p -> pinned arr [0] done (foldl (pgo_add_loop params) p loops).
Proof.
  induction loops as [|l loops IH]; intros p Hp; [exact Hp|].
  simpl. apply IH. unfold pgo_add_loop.
  apply pinned_AddResidualBlock; [apply loop_edge_blocks_placed | exact Hp].
Qed.

Lemma pgo_add_edge_anchored s0 holds done kf kfc (b b' : PoseGraphBuild) :
  pgo_add_edge params kf kfc b = Ok b' ->
  pg_anchored a s0 [0] holds done b -> pg_anchored a s0 [0] holds done b'.
Proof.
  unfold pgo_add_edge. intros E Hb.
  destruct (edge_is_new _ _); apply Ok_inj in E; subst b'; [| exact Hb].
  destruct Hb as (Hk & Hm & Hp & Hmem).
  split; [exact Hk|]. split; [exact Hm|]. split; [| exact Hmem].
  cbn [pg_problem insert_edge].
  apply pinned_AddResidualBlock; [apply loop_edge_blocks_placed | exact Hp].
Qed.

(** The prefix invariant of an "Add Keyframes" loop. *)
Lemma keyframes_anchored s0 offs holds (add_keyframe : nat -> PoseGraphBuild -> PoseGraphBuild)
    (l : list nat) (b : PoseGraphBuild) :
  (forall done kf b1,
     pg_anchored a s0 offs holds done b1 ->
     pg_anchored a s0 offs holds (done \/ (kf = a /\ kf_invalid (kfs s0 a) = false))
       (add_keyframe kf b1)) ->
  pg_anchored a s0 offs holds False b ->
  pg_anchored a s0 offs holds (a ∈ l /\ kf_invalid (kfs s0 a) = false)
    (foldl (fun b kf => add_keyframe kf b) b l).
Proof.
  intros Hstep Hb.
  pose proof (foldl_prefix (fun b kf => add_keyframe kf b)
                (fun pre x =>
                   pg_anchored a s0 offs holds (a ∈ pre /\ kf_invalid (kfs s0 a) = false) x)
                l []) as Hfold.
  simpl in Hfold. apply Hfold.
  - intros pre kf c1 Hc1.
    apply (pg_anchored_weaken s0 offs holds
             ((a ∈ pre /\ kf_invalid (kfs s0 a) = false)
              \/ (kf = a /\ kf_invalid (kfs s0 a) = false))).
    + intros [Hin Hval]. apply elem_of_app in Hin as [Hin|Hin]; [auto|].
      apply list_elem_of_singleton in Hin. auto.
    + apply Hstep, Hc1.
  - apply pg_anchored_weaken with (done := False); [| exact Hb].
    intros [Hin _]. apply elem_of_nil in Hin. exact Hin.
Qed.

Lemma pg_anchored_init s offs holds :
  pg_anchored a s offs holds False
    {| pg_state := s; pg_problem := empty_problem; q_ws_map := ∅; inserted_edges := ∅ |}.
Proof.
  split; [reflexivity|]. split; [reflexivity|]. split; [apply pinned_empty | intros []].
Qed.

Lemma pgo_build_anchored s corrected_poses b :
  is_anchor s a = true ->
  pgo_build params s corrected_poses = Ok b ->
  pg_anchored a s [0]
    (holds_pose a (default (T_ws (kfs s a)) (corrected_poses !! id_ (kfs s a))))
    (a ∈ GetKeyframesVec (map_ s) /\ kf_invalid (kfs s a) = false) b.
Proof.
  intros Hanc E. unfold pgo_build in E.
  apply bind_Ok in E as (b1 & E1 & E).
  eapply window_edges_preserve; [| exact E |].
  { intros kf kfc c1 c2. apply pgo_add_edge_anchored. }
  eapply successor_edges_preserve; [| exact E1 |].
  { intros kf kfc c1 c2. apply pgo_add_edge_anchored. }
  clear E E1.
  pose proof (keyframes_anchored s [0]
                (holds_pose a (default (T_ws (kfs s a)) (corrected_poses !! id_ (kfs s a))))
                (pgo_add_keyframe corrected_poses) (GetKeyframesVec (map_ s)) _
                (fun done kf b1 => pgo_add_keyframe_anchored corrected_poses s done kf b1
                                     Hanc)
                (pg_anchored_init s _ _)) as (Hk & Hm & Hp & Hmem).
  split; [exact Hk|]. split; [exact Hm|]. split; [| exact Hmem].
  cbn [pg_problem pg_update]. apply pgo_loops_pinned, Hp.
Qed.

Lemma pgo_recover_keyframe_pose kf (r : PoseGraphRecover) :
  mem (pr_state (pgo_recover_keyframe r kf)) = mem (pr_state r) /\
  kf_invalid (kfs (pr_state (pgo_recover_keyframe r kf)) a)
  = kf_invalid (kfs (pr_state r) a) /\
  T_ws (kfs (pr_state (pgo_recover_keyframe r kf)) a)
  = if decide (kf = a /\ kf_invalid (kfs (pr_state r) a) = false)
    then Ceres2Transform (load (mem (pr_state r)) (ceres_pose_ a, 0) kPoseBlockSize)
    else T_ws (kfs (pr_state r) a).
Proof.
  unfold pgo_recover_keyframe.
  destruct (kf_invalid (kfs (pr_state r) kf)) eqn:Hinv.
  - split; [reflexivity|]. split; [reflexivity|].
    case_decide as Hc; [| reflexivity]. destruct Hc as [-> Hv]. congruence.
  - cbn [pr_state]. unfold UpdateFromCeres. cbn [mem with_kf kfs]. unfold upd.
    split; [reflexivity|].
    destruct (decide (a = kf)) as [<-|Hne].
    + rewrite decide_True by auto. simpl. auto.
    + rewrite decide_False by (intros [-> _]; congruence). auto.
Qed.

(** "Recover the optimized data", keyframes: a visited anchor gets the pose
    its buffer holds, any other keeps its pose. *)
Lemma pgo_recover_keyframes_pose (l : list nat) : forall r : PoseGraphRecover,
  T_ws (kfs (pr_state (foldl pgo_recover_keyframe r l)) a)
  = if decide (a ∈ l /\ kf_invalid (kfs (pr_state r) a) = false)
    then Ceres2Transform (load (mem (pr_state r)) (ceres_pose_ a, 0) kPoseBlockSize)
    else T_ws (kfs (pr_state r) a).
Proof.
  induction l as [|kf l IH]; intros r.
  - cbn [foldl]. case_decide as Hc; [| reflexivity]. destruct Hc as [Hin _]. inversion Hin.
  - cbn [foldl]. destruct (pgo_recover_keyframe_pose kf r) as (Em & Ev & ET).
    rewrite IH, Em, Ev, ET.
    destruct (decide (a ∈ l /\ kf_invalid (kfs (pr_state r) a) = false)) as [[Hl Hv]|Hn].
    { rewrite decide_True; [reflexivity|]. split; [right; exact Hl | exact Hv]. }
    destruct (decide (kf = a /\ kf_invalid (kfs (pr_state r) a) = false)) as [[-> Hv]|Hk].
    { rewrite decide_True; [reflexivity|]. split; [left | exact Hv]. }
    rewrite decide_False; [reflexivity|].
    intros [Hin Hv]. apply elem_of_cons in Hin as [->|Hin]; [apply Hk | apply Hn]; auto.
Qed.

Lemma pgo_recover_landmarks_kfs poses l (s s' : State) :
  for_each (pgo_recover_landmark poses) l s = Ok s' -> kfs s' = kfs s.
Proof.
  intros E.
  apply (for_each_invariant _ (fun x => kfs x = kfs s) _ _ _) in E; [exact E | | reflexivity].
  clear E. intros lm s1 s2 _ Hs1 E. unfold pgo_recover_landmark in E.
  destruct (lm_invalid _); [apply Ok_inj in E; subst; exact Hs1|].
  destruct (reference_keyframe _) as [kf_ref|]; [| apply Ok_inj in E; subst; exact Hs1].
  destruct (_ !! _); [| discriminate]. apply Ok_inj in E. subst s2. exact Hs1.
Qed.

(** The 6-DoF optimisation leaves in the anchor the pose read back from its
    block, which is constant and holds the pose the block was initialised
    with: the corrected pose of the id of the anchor if there is one, the
    pose of the anchor otherwise. *)
Lemma PoseGraphOptimization_anchor s corrected_poses s' :
  solver_keeps_constants ->
  is_anchor s a = true ->
  PoseGraphOptimization params s corrected_poses = Ok s' ->
  T_ws (kfs s' a)
  = pose_after s a
      (Ceres2Transform
         (pose_to_ceres (default (T_ws (kfs s a)) (corrected_poses !! id_ (kfs s a))))).
Proof.
  intros Hsolve Hanc E. unfold PoseGraphOptimization in E.
  apply bind_Ok in E as (b & Eb & E).
  apply pgo_recover_landmarks_kfs in E. rewrite E.
  destruct (pgo_build_anchored _ _ _ Hanc Eb) as (Hk & _ & Hp & Hmem).
  rewrite pgo_recover_keyframes_pose. cbn [pr_state kfs mem with_mem]. rewrite Hk.
  unfold pose_after. case_decide as Hc; [| reflexivity].
  f_equal. rewrite <- (Hmem Hc).
  apply load_ext. intros i. apply Hsolve.
  apply (pinned_is_variable _ [0]). apply pinned_weaken with (2 := Hp). auto.
Qed.

(** **** 4-DoF *)

Lemma placed_yaw_trans arr (x : Addr) : snd x = 1 \/ snd x = 4 -> placed arr [1; 4] x.
Proof. intros [Hx|Hx] _; rewrite Hx; [left | right; left]. Qed.

Lemma pose_4dof_blocks_placed arr k1 k2 x :
  x ∈ pose_4dof_blocks k1 k2 -> placed arr [1; 4] x.
Proof.
  unfold pose_4dof_blocks. intros Hx.
  repeat (apply elem_of_cons in Hx as [->|Hx]; [apply placed_yaw_trans; simpl; auto|]).
  apply elem_of_nil in Hx. destruct Hx.
Qed.

Lemma set_4dof_constant_pinned arr offs done kf (p : Problem) :
  pinned arr offs done p -> pinned arr offs done (set_4dof_constant kf p).
Proof. intros Hp. unfold set_4dof_constant. do 2 apply pinned_SetParameterBlockConstant. exact Hp. Qed.

Lemma pgo4_add_keyframe_anchored s0 done kf (b : PoseGraphBuild) :
  is_anchor s0 a = true ->
  pg_anchored a s0 [1; 4] (holds_yaw_trans a (T_ws (kfs s0 a))) done b ->
  pg_anchored a s0 [1; 4] (holds_yaw_trans a (T_ws (kfs s0 a)))
    (done \/ (kf = a /\ kf_invalid (kfs s0 a) = false))
    (pgo4_add_keyframe params kf b).
Proof.
  intros Hanc (Hk & Hm & Hp & Hmem). unfold pgo4_add_keyframe.
  destruct (kf_invalid (kfs (pg_state b) kf)) eqn:Hinv.
  { apply pg_anchored_weaken with (done := done).
    - intros [Hd|[-> Hval]]; [exact Hd|]. rewrite Hk in Hinv. congruence.
    - split; [exact Hk|]. split; [exact Hm|]. split; assumption. }
  unfold pg_anchored. cbn [pg_state pg_problem].
  split; [exact Hk|]. split; [exact Hm|].
  rewrite (is_anchor_ext s0) by assumption.
  destruct (decide (kf = a)) as [->|Hne].
  - rewrite Hanc. split.
    + apply pinned_weaken with (done := True); [auto|].
      assert (Hp1 := pinned_set_4dof_constant a done _ Hp).
      destruct (_ && _); [apply set_4dof_constant_pinned; exact Hp1|].
      destruct (_ && _); [apply set_4dof_constant_pinned; exact Hp1 | exact Hp1].
    + intros _. unfold holds_yaw_trans. cbn [mem with_mem]. rewrite Hk.
      apply (load_store (ceres_pose_ a) 1
               (vec3_to_list (R2ypr (T_ws (kfs s0 a)))
                ++ vec3_to_list (T_trans (T_ws (kfs s0 a))))).
  - split.
    + apply pinned_weaken with (done := done); [tauto|].
      assert (Hp1 : pinned (ceres_pose_ a) [1; 4] done
                      (AddParameterBlock (trans_block kf) 3 None
                         (AddParameterBlock (yaw_block kf) 1
                            (Some AngleLocalParameterization) (pg_problem b)))).
      { apply pinned_AddParameterBlock; [apply placed_yaw_trans; simpl; auto|].
        apply pinned_AddParameterBlock; [apply placed_yaw_trans; simpl; auto | exact Hp]. }
      assert (Hp2 : pinned (ceres_pose_ a) [1; 4] done
                      (if is_anchor s0 kf
                       then set_4dof_constant kf
                              (AddParameterBlock (trans_block kf) 3 None
                                 (AddParameterBlock (yaw_block kf) 1
                                    (Some AngleLocalParameterization) (pg_problem b)))
                       else AddParameterBlock (trans_block kf) 3 None
                              (AddParameterBlock (yaw_block kf) 1
                                 (Some AngleLocalParameterization) (pg_problem b))))
        by (destruct (is_anchor s0 kf); [apply set_4dof_constant_pinned|]; exact Hp1).
      destruct (_ && _); [apply set_4dof_constant_pinned; exact Hp2|].
      destruct (_ && _); [apply set_4dof_constant_pinned; exact Hp2 | exact Hp2].
    + intros [Hd|[Hd _]]; [| contradiction]. unfold holds_yaw_trans. rewrite <- (Hmem Hd).
      apply load_ext. intros i. cbn [mem with_mem].
      rewrite store_other by congruence.
      apply UpdateCeresFromState_other; congruence.
Qed.

Lemma pgo4_add_loop_anchored s0 holds done l (b b' : PoseGraphBuild) :
  pgo4_add_loop l b = Ok b' ->
  pg_anchored a s0 [1; 4] holds done b -> pg_anchored a s0 [1; 4] holds done b'.
Proof.
  unfold pgo4_add_loop. intros E (Hk & Hm & Hp & Hmem).
  apply bind_Ok in E as (q & _ & E). apply Ok_inj in E. subst b'.
  split; [exact Hk|]. split; [exact Hm|]. split; [| exact Hmem].
  cbn [pg_problem pg_update].
  apply pinned_AddResidualBlock; [apply pose_4dof_blocks_placed | exact Hp].
Qed.

Lemma pgo4_add_edge_anchored s0 holds done kf kfc (b b' : PoseGraphBuild) :
  pgo4_add_edge kf kfc b = Ok b' ->
  pg_anchored a s0 [1; 4] holds done b -> pg_anchored a s0 [1; 4] holds done b'.
Proof.
  unfold pgo4_add_edge. intros E Hb.
  apply bind_Ok in E as (q & _ & E).
  destruct (edge_is_new _ _); apply Ok_inj in E; subst b'; [| exact Hb].
  destruct Hb as (Hk & Hm & Hp & Hmem).
  split; [exact Hk|]. split; [exact Hm|]. split; [| exact Hmem].
  cbn [pg_problem insert_edge].
  apply pinned_AddResidualBlock; [apply pose_4dof_blocks_placed | exact Hp].
Qed.

Lemma pgo4_build_anchored s b :
  is_anchor s a = true ->
  pgo4_build params s = Ok b ->
  pg_anchored a s [1; 4] (holds_yaw_trans a (T_ws (kfs s a)))
    (a ∈ GetKeyframesVec (map_ s) /\ kf_invalid (kfs s a) = false) b.
Proof.
  intros Hanc E. unfold pgo4_build in E.
  apply bind_Ok in E as (b1 & E1 & E). apply bind_Ok in E as (b2 & E2 & E).
  eapply window_edges_preserve; [| exact E |].
  { intros kf kfc c1 c2. apply pgo4_add_edge_anchored. }
  eapply successor_edges_preserve; [| exact E2 |].
  { intros kf kfc c1 c2. apply pgo4_add_edge_anchored. }
  eapply (for_each_invariant _ _ _ _ _ _ _ E1). Unshelve.
  - intros l c1 c2 _ Hc1 Ec. eapply pgo4_add_loop_anchored; eassumption.
  - apply (keyframes_anchored s [1; 4] (holds_yaw_trans a (T_ws (kfs s a)))
             (pgo4_add_keyframe params) (GetKeyframesVec (map_ s)) _
             (fun done kf b1 => pgo4_add_keyframe_anchored s done kf b1 Hanc)
             (pg_anchored_init s _ _)).
Qed.

Lemma store_same arr off vs (m : Mem) i :
  store arr off vs m arr i
  = if decide (off <= i) then default (m arr i) (vs !! (i - off)) else m arr i.
Proof. unfold store. rewrite decide_True by reflexivity. reflexivity. Qed.

(** "Keyframes" of the 4-DoF write-back: a keyframe other than the anchor
    leaves the anchor and its buffer alone. *)
Lemma pgo4_recover_keyframe_other kf (r : PoseGraphRecover) :
  kf <> a ->
  kfs (pr_state (pgo4_recover_keyframe r kf)) a = kfs (pr_state r) a /\
  forall i, mem (pr_state (pgo4_recover_keyframe r kf)) (ceres_pose_ a) i
            = mem (pr_state r) (ceres_pose_ a) i.
Proof.
  intros Hne. unfold pgo4_recover_keyframe.
  destruct (kf_invalid (kfs (pr_state r) kf)); [auto|].
  cbn [pr_state]. unfold UpdateFromCeres. cbn [mem with_kf with_mem kfs]. unfold upd.
  rewrite !decide_False by congruence. split; [reflexivity|].
  intros i. apply store_other. congruence.
Qed.

Lemma pgo4_recover_keyframes_other (l : list nat) : forall r : PoseGraphRecover,
  a ∉ l ->
  kfs (pr_state (foldl pgo4_recover_keyframe r l)) a = kfs (pr_state r) a /\
  forall i, mem (pr_state (foldl pgo4_recover_keyframe r l)) (ceres_pose_ a) i
            = mem (pr_state r) (ceres_pose_ a) i.
Proof.
  induction l as [|kf l IH]; intros r Hl; [auto|].
  simpl. apply not_elem_of_cons in Hl as [Hne Hl].
  destruct (IH (pgo4_recover_keyframe r kf) Hl) as [Ek Em].
  destruct (pgo4_recover_keyframe_other kf r) as [Ek' Em']; [congruence|].
  split; [congruence|]. intros i. rewrite Em. apply Em'.
Qed.

Lemma pgo4_recover_keyframe_invalid kf (r : PoseGraphRecover) :
  kf_invalid (kfs (pr_state r) kf) = true -> pgo4_recover_keyframe r kf = r.
Proof. intros Hinv. unfold pgo4_recover_keyframe. rewrite Hinv. reflexivity. Qed.

(** The anchor gets the pose its yaw, pitch, roll and translation give. *)
Lemma pgo4_recover_keyframe_self T (r : PoseGraphRecover) :
  kf_invalid (kfs (pr_state r) a) = false ->
  holds_yaw_trans a T (mem (pr_state r)) ->
  T_ws (kfs (pr_state (pgo4_recover_keyframe r a)) a) = Ceres2Transform (pose_via_euler T).
Proof.
  intros Hval Hh. unfold pgo4_recover_keyframe. rewrite Hval.
  cbn [pr_state]. unfold UpdateFromCeres. cbn [mem with_kf with_mem kfs]. unfold upd.
  rewrite !decide_True by reflexivity. simpl T_ws. f_equal.
  unfold holds_yaw_trans, load in Hh. simpl in Hh.
  injection Hh as H1' H2' H3' H4' H5' H6'.
  unfold pose_via_euler, load. simpl.
  rewrite !store_same. simpl. rewrite H1', H2', H3', H4', H5', H6'. reflexivity.
Qed.

Lemma pgo4_recover_keyframes_anchor T (l : list nat) (r : PoseGraphRecover) :
  NoDup l ->
  Ceres2Transform (pose_via_euler T) = T ->
  T_ws (kfs (pr_state r) a) = T ->
  (a ∈ l -> kf_invalid (kfs (pr_state r) a) = false ->
   holds_yaw_trans a T (mem (pr_state r))) ->
  T_ws (kfs (pr_state (foldl pgo4_recover_keyframe r l)) a) = T.
Proof.
  intros Hnd Hround HT Hh.
  destruct (decide (a ∈ l)) as [Hin|Hnot].
  - destruct (list_elem_of_split _ _ Hin) as (l1 & l2 & ->).
    apply NoDup_app in Hnd as (_ & Hl1 & Hl2). apply NoDup_cons in Hl2 as [Hl2 _].
    assert (Hnot1 : a ∉ l1) by (intros Ha; apply (Hl1 a Ha); left).
    rewrite foldl_app. simpl.
    destruct (pgo4_recover_keyframes_other l2
                (pgo4_recover_keyframe (foldl pgo4_recover_keyframe r l1) a) Hl2) as [-> _].
    destruct (pgo4_recover_keyframes_other l1 r Hnot1) as [Ek Em].
    destruct (kf_invalid (kfs (pr_state (foldl pgo4_recover_keyframe r l1)) a)) eqn:Hval.
    + rewrite (pgo4_recover_keyframe_invalid _ _ Hval), Ek. exact HT.
    + rewrite (pgo4_recover_keyframe_self T); [exact Hround | exact Hval |].
      unfold holds_yaw_trans. rewrite (load_ext (mem (pr_state r))) by exact Em.
      apply Hh; [exact Hin | congruence].
  - destruct (pgo4_recover_keyframes_other l r Hnot) as [-> _]. exact HT.
Qed.

(** "Recover the optimized data" of the 4-DoF variant: a visited anchor gets
    the pose its yaw, pitch, roll and translation give, any other keeps its
    pose. *)
Lemma pgo4_recover_keyframes_pose T (l : list nat) (r : PoseGraphRecover) :
  NoDup l ->
  T_ws (kfs (pr_state r) a) = T ->
  (a ∈ l -> kf_invalid (kfs (pr_state r) a) = false ->
   holds_yaw_trans a T (mem (pr_state r))) ->
  T_ws (kfs (pr_state (foldl pgo4_recover_keyframe r l)) a)
  = if decide (a ∈ l /\ kf_invalid (kfs (pr_state r) a) = false)
    then Ceres2Transform (pose_via_euler T) else T.
Proof.
  intros Hnd HT Hh.
  destruct (decide (a ∈ l)) as [Hin|Hnot].
  - destruct (list_elem_of_split _ _ Hin) as (l1 & l2 & ->).
    apply NoDup_app in Hnd as (_ & Hl1 & Hl2). apply NoDup_cons in Hl2 as [Hl2 _].
    assert (Hnot1 : a ∉ l1) by (intros Ha; apply (Hl1 a Ha); left).
    rewrite foldl_app. simpl.
    destruct (pgo4_recover_keyframes_other l2
                (pgo4_recover_keyframe (foldl pgo4_recover_keyframe r l1) a) Hl2) as [-> _].
    destruct (pgo4_recover_keyframes_other l1 r Hnot1) as [Ek Em].
    destruct (kf_invalid (kfs (pr_state (foldl pgo4_recover_keyframe r l1)) a)) eqn:Hval.
    + rewrite (pgo4_recover_keyframe_invalid _ _ Hval), Ek.
      rewrite decide_False; [exact HT|]. intros [_ Hv]. congruence.
    + rewrite (pgo4_recover_keyframe_self T).
      * rewrite decide_True; [reflexivity|]. split; [exact Hin | congruence].
      * exact Hval.
      * unfold holds_yaw_trans. rewrite (load_ext (mem (pr_state r))) by exact Em.
        apply Hh; [exact Hin | congruence].
  - destruct (pgo4_recover_keyframes_other l r Hnot) as [-> _].
    rewrite decide_False; [exact HT|]. intros [Hin _]. contradiction.
Qed.

(** The 4-DoF optimisation leaves in the anchor the pose rebuilt from the
    yaw, pitch, roll and translation of the pose it had: its yaw and
    translation blocks are constant, pitch and roll are in no block. *)
Lemma PoseGraphOptimization4DoF_anchor s corrected_poses s' :
  solver_keeps_constants ->
  NoDup (GetKeyframesVec (map_ s)) ->
  is_anchor s a = true ->
  PoseGraphOptimization4DoF params s corrected_poses = Ok s' ->
  T_ws (kfs s' a) = pose_after s a (Ceres2Transform (pose_via_euler (T_ws (kfs s a)))).
Proof.
  intros Hsolve Hnd Hanc E. unfold PoseGraphOptimization4DoF in E.
  apply bind_Ok in E as (b & Eb & E).
  apply pgo_recover_landmarks_kfs in E. rewrite E.
  destruct (pgo4_build_anchored _ _ Hanc Eb) as (Hk & _ & Hp & Hmem).
  rewrite (pgo4_recover_keyframes_pose (T_ws (kfs s a))); cbn [pr_state kfs mem with_mem];
    [rewrite Hk; reflexivity | exact Hnd | rewrite Hk; reflexivity |].
  rewrite Hk. intros Hin Hval.
  unfold holds_yaw_trans. rewrite <- (Hmem (conj Hin Hval)).
  apply load_ext. intros i. apply Hsolve.
  apply (pinned_is_variable _ [1; 4]). apply pinned_weaken with (2 := Hp). auto.
Qed.

End AnchorPGO.

Section AnchorTheorem.
Context `{Geometry} `{!Solver} `{!MapBackend}.
Variable params : Params.


End AnchorTheorem.

(** ** Global Bundle Adjustment: the two rounds *)

Section RoundsProblem.
Context `{Geometry}.

Lemma factors_AddParameterBlock {K} (key : ResidualBlock -> K) kind a n lp (p : Problem) :
  factors key kind (AddParameterBlock a n lp p) = factors key kind p.
Proof. unfold factors. rewrite (proj1 (AddParameterBlock_residual_blocks _ _ _ _)). reflexivity. Qed.

Lemma factors_SetParameterBlockConstant {K} (key : ResidualBlock -> K) kind a (p : Problem) :
  factors key kind (SetParameterBlockConstant a p) = factors key kind p.
Proof. reflexivity. Qed.

Lemma factors_AddResidualBlock {K} (key : ResidualBlock -> K) kind cost loss params'
    (p : Problem) :
  factors key kind (snd (AddResidualBlock cost loss params' p))
  = factors key kind p ++
      (if kind cost
       then [key {| rb_id := next_residual_id p; rb_cost := cost; rb_loss := loss;
                    rb_params := params' |}]
       else []).
Proof.
  unfold factors. rewrite AddResidualBlock_residual_blocks, filter_app, fmap_app.
  f_equal. destruct (kind cost) eqn:Ek.
  - rewrite filter_cons_True by exact Ek. reflexivity.
  - rewrite filter_cons_False by (simpl; congruence). reflexivity.
Qed.

Lemma rounds_related_empty : rounds_related empty_problem empty_problem.
Proof.
  split; try reflexivity.
  - auto.
  - auto.
  - intros x (pb & Hin & _). apply elem_of_nil in Hin. destruct Hin.
Qed.

Lemma has_not_constant (p1 p2 : Problem) x :
  rounds_related p1 p2 ->
  HasParameterBlock p1 x = true -> HasParameterBlock p2 x = false -> block_variable p1 x.
Proof.
  intros R H1' H2'. apply has_or_variable_or_constant in H1' as [Hv|Hc]; [exact Hv|].
  apply (rr_constant _ _ R) in Hc. congruence.
Qed.

(** Both rounds add the block. *)
Lemma rounds_AddParameterBlock a n lp (p1 p2 : Problem) :
  rounds_related p1 p2 ->
  rounds_related (AddParameterBlock a n lp p1) (AddParameterBlock a n lp p2).
Proof.
  intros R. split.
  - intros x Hx. apply AddParameterBlock_has in Hx as [->|Hx]; apply AddParameterBlock_has;
      [auto | right; apply (rr_blocks _ _ R), Hx].
  - intros x Hx. apply AddParameterBlock_variable in Hx as [Hx|[-> Hnew]];
      apply AddParameterBlock_variable.
    + left. apply (rr_variable _ _ R), Hx.
    + destruct (HasParameterBlock p1 a) eqn:H1'; [left | right; auto].
      eapply has_not_constant; eassumption.
  - intros x Hx. apply AddParameterBlock_constant in Hx. apply AddParameterBlock_has.
    right. apply (rr_constant _ _ R), Hx.
  - rewrite !factors_AddParameterBlock. apply (rr_reprojection _ _ R).
  - rewrite !factors_AddParameterBlock. apply (rr_factors _ _ R).
Qed.

(** Both rounds fix a block that round 2 has. *)
Lemma rounds_SetParameterBlockConstant a (p1 p2 : Problem) :
  HasParameterBlock p2 a = true ->
  rounds_related p1 p2 ->
  rounds_related (SetParameterBlockConstant a p1) (SetParameterBlockConstant a p2).
Proof.
  intros Ha R. split.
  - intros x. rewrite !SetParameterBlockConstant_has. apply (rr_blocks _ _ R).
  - intros x Hx. apply SetParameterBlockConstant_variable in Hx as [Hx Hne].
    apply SetParameterBlockConstant_variable. split; [apply (rr_variable _ _ R), Hx | exact Hne].
  - intros x Hx. rewrite SetParameterBlockConstant_has.
    apply SetParameterBlockConstant_constant in Hx as [Hx|[-> _]];
      [apply (rr_constant _ _ R), Hx | exact Ha].
  - apply (rr_reprojection _ _ R).
  - apply (rr_factors _ _ R).
Qed.

(** Round 2 alone fixes a block. *)
Lemma rounds_SetParameterBlockConstant_r a (p1 p2 : Problem) :
  rounds_related p1 p2 -> rounds_related p1 (SetParameterBlockConstant a p2).
Proof.
  intros R. split.
  - intros x. rewrite SetParameterBlockConstant_has. apply (rr_blocks _ _ R).
  - intros x Hx. apply SetParameterBlockConstant_variable in Hx as [Hx _].
    apply (rr_variable _ _ R), Hx.
  - intros x Hx. rewrite SetParameterBlockConstant_has. apply (rr_constant _ _ R), Hx.
  - apply (rr_reprojection _ _ R).
  - apply (rr_factors _ _ R).
Qed.

(** Both rounds add the factor, each with its loss. *)
Lemma rounds_AddResidualBlock cost loss1 loss2 params' (p1 p2 : Problem) :
  (is_reprojection cost = true -> loss1 = loss2) ->
  rounds_related p1 p2 ->
  rounds_related (snd (AddResidualBlock cost loss1 params' p1))
                 (snd (AddResidualBlock cost loss2 params' p2)).
Proof.
  intros Hloss R. split.
  - intros x Hx. apply AddResidualBlock_has in Hx as [Hx|Hx]; apply AddResidualBlock_has;
      [left; apply (rr_blocks _ _ R), Hx | auto].
  - intros x Hx. apply AddResidualBlock_variable in Hx as [Hx|[Hin Hnew]];
      apply AddResidualBlock_variable.
    + left. apply (rr_variable _ _ R), Hx.
    + destruct (HasParameterBlock p1 x) eqn:H1'; [left | right; auto].
      eapply has_not_constant; eassumption.
  - intros x Hx. apply AddResidualBlock_constant in Hx. apply AddResidualBlock_has.
    left. apply (rr_constant _ _ R), Hx.
  - rewrite !factors_AddResidualBlock, (rr_reprojection _ _ R). f_equal.
    destruct (is_reprojection cost); [| reflexivity].
    unfold full_key. simpl. rewrite Hloss by reflexivity. reflexivity.
  - rewrite !factors_AddResidualBlock. apply sublist_app; [apply (rr_factors _ _ R)|].
    reflexivity.
Qed.

(** Round 1 alone adds a factor that is not a reprojection factor. *)
Lemma rounds_AddResidualBlock_l cost loss params' (p1 p2 : Problem) :
  is_reprojection cost = false ->
  rounds_related p1 p2 ->
  rounds_related (snd (AddResidualBlock cost loss params' p1)) p2.
Proof.
  intros Hkind R. split.
  - intros x Hx. apply AddResidualBlock_has. left. apply (rr_blocks _ _ R), Hx.
  - intros x Hx. apply AddResidualBlock_variable. left. apply (rr_variable _ _ R), Hx.
  - intros x Hx. apply AddResidualBlock_constant in Hx. apply (rr_constant _ _ R), Hx.
  - rewrite factors_AddResidualBlock, Hkind, app_nil_r. apply (rr_reprojection _ _ R).
  - rewrite factors_AddResidualBlock. apply sublist_inserts_r, (rr_factors _ _ R).
Qed.

(** Both rounds add a block and fix it. *)
Lemma rounds_add_constant a n lp (p1 p2 : Problem) :
  rounds_related p1 p2 ->
  rounds_related (SetParameterBlockConstant a (AddParameterBlock a n lp p1))
                 (SetParameterBlockConstant a (AddParameterBlock a n lp p2)).
Proof.
  intros R. apply rounds_SetParameterBlockConstant; [| apply rounds_AddParameterBlock, R].
  apply AddParameterBlock_has. auto.
Qed.

(** A loop that runs in round 2 runs in round 1, in step. *)
Lemma for_each_sim {A S1 S2} (R : S1 -> S2 -> Prop)
    (body1 : A -> S1 -> Result S1) (body2 : A -> S2 -> Result S2) l :
  (forall a s1 s2 s2', R s1 s2 -> body2 a s2 = Ok s2' ->
                       exists s1', body1 a s1 = Ok s1' /\ R s1' s2') ->
  forall s1 s2 s2', R s1 s2 -> for_each body2 l s2 = Ok s2' ->
                    exists s1', for_each body1 l s1 = Ok s1' /\ R s1' s2'.
Proof.
  intros Hstep. induction l as [|a l IH]; intros s1 s2 s2' HR E.
  - apply Ok_inj in E. subst. exists s1. split; [reflexivity | exact HR].
  - apply for_each_cons in E as (t2 & E2 & E).
    destruct (Hstep _ _ _ _ HR E2) as (t1 & E1 & HR1).
    destruct (IH _ _ _ HR1 E) as (s1' & E1' & HR').
    exists s1'. split; [| exact HR']. simpl. rewrite E1. exact E1'.
Qed.

End RoundsProblem.

Section RoundsBuild.
Context `{Geometry} `{!Solver}.
Variable params : Params.

Lemma bind_of_Ok {A B} (a : A) (f : A -> Result B) : Ok a ≫= f = f a.
Proof. reflexivity. Qed.

Lemma kf_same_sym (k k' : Keyframe) : kf_same k k' -> kf_same k' k.
Proof. unfold kf_same. intros E. rewrite E. destruct k; reflexivity. Qed.

Lemma kf_same_fields (k k' : Keyframe) :
  kf_same k k' ->
  id_ k' = id_ k /\ kf_invalid k' = kf_invalid k /\ T_ws k' = T_ws k /\
  velocity k' = velocity k /\ bias_accel k' = bias_accel k /\ bias_gyro k' = bias_gyro k /\
  T_sc k' = T_sc k /\ camera_ k' = camera_ k /\
  keypoints_distorted_ k' = keypoints_distorted_ k /\
  keypoints_aors_ k' = keypoints_aors_ k /\
  predecessor k' = predecessor k /\ is_loaded_ k' = is_loaded_ k.
Proof. intros E. rewrite E. repeat split. Qed.

Lemma st_rel_refl s : st_rel s s.
Proof. repeat split. intros k. apply kf_same_refl. Qed.

Lemma st_rel_UpdateCeresFromState kf s1 s2 :
  st_rel s1 s2 -> st_rel (UpdateCeresFromState kf s1) (UpdateCeresFromState kf s2).
Proof.
  intros (Hmap & Hcams & Hlms & Hmem & Hk).
  destruct (kf_same_fields _ _ (Hk kf)) as (_ & _ & HT & Hv & Hba & Hbg & Hsc & _).
  unfold UpdateCeresFromState, st_rel. cbn [map_ cams lms mem kfs with_mem].
  rewrite HT, Hv, Hba, Hbg, Hsc, Hmem. auto.
Qed.

Lemma st_rel_repropagate_l kf s1 s2 :
  st_rel s1 s2 -> st_rel (repropagate_from_ceres kf s1) s2.
Proof.
  intros (Hmap & Hcams & Hlms & Hmem & Hk).
  unfold repropagate_from_ceres, st_rel. cbn [map_ cams lms mem kfs with_kf].
  repeat split; auto. intros k. unfold upd. destruct (decide (k = kf)); [| apply Hk].
  eapply kf_same_trans; [apply Hk | apply kf_same_links].
Qed.

Lemma st_rel_repropagate kf s1 s2 :
  st_rel s1 s2 -> st_rel (repropagate_from_ceres kf s1) (repropagate_from_ceres kf s2).
Proof.
  intros Hst. apply (st_rel_repropagate_l kf) in Hst.
  destruct Hst as (Hmap & Hcams & Hlms & Hmem & Hk).
  unfold st_rel. split; [exact Hmap|]. split; [exact Hcams|]. split; [exact Hlms|].
  split; [exact Hmem|]. intros k.
  unfold repropagate_from_ceres at 1. cbn [kfs with_kf]. unfold upd.
  destruct (decide (k = kf)); [| apply Hk].
  eapply kf_same_trans; [| apply Hk]. apply kf_same_sym, kf_same_links.
Qed.

Lemma st_rel_is_anchor s1 s2 kf : st_rel s1 s2 -> is_anchor s1 kf = is_anchor s2 kf.
Proof.
  intros (Hmap & _ & _ & _ & Hk). unfold is_anchor.
  destruct (kf_same_fields _ _ (Hk kf)) as (-> & _). rewrite Hmap. reflexivity.
Qed.

Lemma st_rel_valid_observer s1 s2 o :
  st_rel s1 s2 -> valid_observer s1 o = valid_observer s2 o.
Proof.
  intros (_ & _ & _ & _ & Hk). unfold valid_observer. destruct (fst o) as [kfx|]; [|reflexivity].
  destruct (kf_same_fields _ _ (Hk kfx)) as (_ & -> & _). reflexivity.
Qed.

Lemma st_rel_num_edges s1 s2 obs : st_rel s1 s2 -> num_edges s1 obs = num_edges s2 obs.
Proof.
  intros Hst. unfold num_edges. f_equal. apply list_filter_iff.
  intros o. rewrite (st_rel_valid_observer s1 s2 o Hst). reflexivity.
Qed.

Lemma rounds_add_state_parameters visual_only kf s1 s2 (p1 p2 : Problem) :
  st_rel s1 s2 -> rounds_related p1 p2 ->
  rounds_related (add_state_parameters visual_only kf s1 p1)
                 (add_state_parameters visual_only kf s2 p2).
Proof.
  intros Hst R. unfold add_state_parameters.
  rewrite (st_rel_is_anchor s1 s2 kf Hst).
  apply rounds_add_constant.
  destruct (negb visual_only); [apply rounds_AddParameterBlock|];
    (destruct (is_anchor s2 kf);
     [apply rounds_add_constant | apply rounds_AddParameterBlock]); exact R.
Qed.

Lemma add_camera_blocks_rel kf (c1 c2 : BundleBuild) :
  build_rel c1 c2 -> build_rel (add_camera_blocks kf c1) (add_camera_blocks kf c2).
Proof.
  intros (Hst & Hi & Hd & R). pose proof Hst as (Hmap & Hcams & Hlms & Hmem & Hk).
  destruct (kf_same_fields _ _ (Hk kf)) as (Hid & _ & _ & _ & _ & _ & _ & Hcam & _).
  unfold add_camera_blocks, build_rel.
  cbn [bb_state bb_problem intrinsics_map distortion_map].
  rewrite Hid, Hcam, Hcams, Hi, Hd.
  split; [exact Hst|]. split; [reflexivity|]. split; [reflexivity|].
  do 2 apply rounds_add_constant. exact R.
Qed.

Lemma add_camera_parameters_sim kf (c1 c2 c2' : BundleBuild) :
  build_rel c1 c2 -> add_camera_parameters kf c2 = Ok c2' ->
  exists c1', add_camera_parameters kf c1 = Ok c1' /\ build_rel c1' c2' /\
              bb_state c1' = bb_state c1 /\ bb_state c2' = bb_state c2.
Proof.
  intros HR E. pose proof HR as ((Hmap & Hcams & Hlms & Hmem & Hk) & _).
  destruct (kf_same_fields _ _ (Hk kf)) as (_ & _ & _ & _ & _ & _ & _ & Hcam & _).
  exists (add_camera_blocks kf c1).
  pose proof (add_camera_parameters_Ok _ _ _ E) as ->.
  split; [| split; [apply add_camera_blocks_rel, HR | split; reflexivity]].
  unfold add_camera_parameters in *. rewrite Hcam, Hcams.
  destruct (getType _); [reflexivity | reflexivity | discriminate].
Qed.

(** "Add Keyframes": when round 2 gets through, so does round 1. *)
Lemma gba_add_keyframe_sim visual_only kf (b1 b2 b2' : BundleBuild) :
  build_rel b1 b2 -> gba2_add_keyframe params visual_only kf b2 = Ok b2' ->
  exists b1', gba1_add_keyframe visual_only kf b1 = Ok b1' /\ build_rel b1' b2'.
Proof.
  intros HR E. pose proof HR as (Hst & Hi & Hd & R).
  pose proof Hst as (_ & _ & _ & _ & Hk).
  destruct (kf_same_fields _ _ (Hk kf)) as (_ & Hinv & _).
  unfold gba2_add_keyframe in E. unfold gba1_add_keyframe. rewrite Hinv.
  destruct (kf_invalid (kfs (bb_state b2) kf)).
  { apply Ok_inj in E. subst b2'. exists b1. split; [reflexivity | exact HR]. }
  apply bind_Ok in E as (c2 & Ec2 & E).
  pose proof (st_rel_UpdateCeresFromState kf _ _ Hst) as Hst'.
  set (s1 := UpdateCeresFromState kf (bb_state b1)) in *.
  set (s2 := UpdateCeresFromState kf (bb_state b2)) in *.
  assert (HR0 : build_rel
                  (bb_update s1 (add_state_parameters visual_only kf s1 (bb_problem b1)) b1)
                  (bb_update s2
                     (if is_loaded_ (kfs s2 kf) && gba_fix_poses_loaded_maps params
                      then SetParameterBlockConstant (ceres_pose_ kf, 0)
                             (add_state_parameters visual_only kf s2 (bb_problem b2))
                      else add_state_parameters visual_only kf s2 (bb_problem b2)) b2)).
  { split; [exact Hst'|]. split; [exact Hi|]. split; [exact Hd|].
    cbn [bb_problem bb_update].
    destruct (_ && _); [apply rounds_SetParameterBlockConstant_r|];
      apply rounds_add_state_parameters; assumption. }
  destruct (add_camera_parameters_sim _ _ _ _ HR0 Ec2) as (c1 & Ec1 & HR1 & Hs1 & Hs2).
  rewrite Ec1, bind_of_Ok. clear Ec1 Ec2 HR0.
  cbn [bb_state bb_update] in Hs1, Hs2.
  destruct HR1 as (_ & Hi1 & Hd1 & R1).
  assert (HR1 : build_rel c1 c2).
  { split; [rewrite Hs1, Hs2; exact Hst'|]. auto. }
  destruct (negb visual_only); [| apply Ok_inj in E; subst b2'; eauto].
  pose proof Hst' as (_ & _ & _ & _ & Hk').
  destruct (kf_same_fields _ _ (Hk' kf)) as (Hid & _ & _ & _ & _ & _ & _ & _ & _ & _ & Hpred & _).
  rewrite Hpred, Hid.
  destruct (predecessor (kfs s2 kf)) as [pred|].
  - destruct (kf_same_fields _ _ (Hk' pred)) as (_ & Hinvp & _). rewrite Hinvp.
    destruct (kf_invalid (kfs s2 pred)).
    + destruct (bool_decide _); [discriminate | apply Ok_inj in E; subst b2'; eauto].
    + destruct (bool_decide (getNumMeasurements _ = 0)).
      * apply Ok_inj in E. subst b2'. eexists. split; [reflexivity|].
        split; [| split; [exact Hi1 | split; [exact Hd1|]]]; cbn [bb_state bb_problem bb_update].
        -- rewrite Hs2. apply st_rel_repropagate_l, Hst'.
        -- apply rounds_AddResidualBlock_l; [reflexivity | exact R1].
      * destruct (_ || _); [discriminate|]. apply Ok_inj in E. subst b2'.
        eexists. split; [reflexivity|].
        split; [| split; [exact Hi1 | split; [exact Hd1|]]]; cbn [bb_state bb_problem bb_update].
        -- apply st_rel_repropagate, Hst'.
        -- apply rounds_AddResidualBlock; [reflexivity | exact R1].
  - destruct (bool_decide _); [discriminate | apply Ok_inj in E; subst b2'; eauto].
Qed.

(** The reprojection factor of an observation. *)
Lemma gba_add_observation_sim lm o (b1 b2 b2' : BundleBuild) :
  build_rel b1 b2 -> gba2_add_observation lm o b2 = Ok b2' ->
  exists b1', gba1_add_observation lm o b1 = Ok b1' /\ build_rel b1' b2'.
Proof.
  intros HR E. pose proof HR as (Hst & Hi & Hd & R).
  pose proof Hst as (_ & Hcams & _ & _ & Hk).
  unfold gba2_add_observation in E. unfold gba1_add_observation.
  destruct (fst o) as [kfx|]; [| apply Ok_inj in E; subst b2'; eauto].
  destruct (kf_same_fields _ _ (Hk kfx))
    as (Hid & Hinv & _ & _ & _ & _ & _ & Hcam & Hkp & Hao & _).
  rewrite Hinv. destruct (kf_invalid (kfs (bb_state b2) kfx));
    [apply Ok_inj in E; subst b2'; eauto|].
  destruct (intrinsics_map b2 !! _) as [intr|] eqn:Ei; [| discriminate].
  apply bind_Ok in E as (c & Ec & E). apply bind_Ok in E as (dist & Ed & E).
  apply Ok_inj in E. subst b2'.
  rewrite Hid, Hcam, Hkp, Hao, Hcams, Hi, Hd, Ec, bind_of_Ok.
  apply map_at_Ok in Ed. unfold map_at. rewrite Ei, bind_of_Ok, Ed, bind_of_Ok.
  eexists. split; [reflexivity|].
  split; [exact Hst|]. split; [exact Hi|]. split; [exact Hd|].
  cbn [bb_problem push_residual]. apply rounds_AddResidualBlock; [reflexivity | exact R].
Qed.

(** "Add Landmarks". *)
Lemma gba_add_landmark_sim landmarks i (b1 b2 b2' : BundleBuild) :
  build_rel b1 b2 -> gba2_add_landmark landmarks i b2 = Ok b2' ->
  exists b1', gba1_add_landmark landmarks i b1 = Ok b1' /\ build_rel b1' b2'.
Proof.
  intros HR E. pose proof HR as (Hst & Hi & Hd & R).
  pose proof Hst as (Hmap & Hcams & Hlms & Hmem & Hk).
  unfold gba2_add_landmark, gba_add_landmark in E.
  unfold gba1_add_landmark, gba_add_landmark.
  apply bind_Ok in E as (lm & Elm & E). rewrite Elm, bind_of_Ok.
  cbv zeta in E. cbv zeta. rewrite Hlms, (st_rel_num_edges _ _ _ Hst).
  destruct (lm_invalid _); [apply Ok_inj in E; subst b2'; eauto|].
  assert (Hex : build_rel (exclude_landmark i b1) (exclude_landmark i b2))
    by (split; [exact Hst | auto]).
  destruct (bool_decide _); [apply Ok_inj in E; subst b2'; eauto|].
  destruct (bool_decide _); [apply Ok_inj in E; subst b2'; eauto|].
  eapply (for_each_sim build_rel); [| | exact E].
  - intros o c1 c2 c2'. apply gba_add_observation_sim.
  - unfold include_landmark, build_rel.
    cbn [bb_state bb_problem intrinsics_map distortion_map]. rewrite Hlms, Hmem.
    split; [| split; [exact Hi | split; [exact Hd | apply rounds_AddParameterBlock, R]]].
    unfold st_rel. cbn [map_ cams lms mem kfs with_mem]. auto.
Qed.

Lemma gba_loops_left (loops : list LoopConstraint) : forall p1 p2 : Problem,
  rounds_related p1 p2 -> rounds_related (foldl gba1_add_loop p1 loops) p2.
Proof.
  induction loops as [|l loops IH]; intros p1 p2 R; [exact R|].
  simpl. apply IH. unfold gba1_add_loop.
  apply rounds_AddResidualBlock_l; [reflexivity | exact R].
Qed.

Lemma gba_loops_both (loops : list LoopConstraint) : forall p1 p2 : Problem,
  rounds_related p1 p2 ->
  rounds_related (foldl gba1_add_loop p1 loops) (foldl gba2_add_loop p2 loops).
Proof.
  induction loops as [|l loops IH]; intros p1 p2 R; [exact R|].
  simpl. apply IH. unfold gba1_add_loop, gba2_add_loop.
  destruct (_ || _).
  - apply rounds_AddResidualBlock_l; [reflexivity | exact R].
  - apply rounds_AddResidualBlock; [discriminate | exact R].
Qed.

Lemma gba_build_sim visual_only s b2 :
  gba2_build params visual_only s = Ok b2 ->
  exists b1, gba1_build visual_only s = Ok b1 /\ build_rel b1 b2.
Proof.
  unfold gba2_build, gba1_build. intros E.
  apply bind_Ok in E as (k2 & Ek2 & E). apply bind_Ok in E as (l2 & El2 & E).
  destruct (for_each_sim build_rel (gba1_add_keyframe visual_only)
              (gba2_add_keyframe params visual_only) (GetKeyframesVec (map_ s))
              (gba_add_keyframe_sim visual_only) (bundle_init s) (bundle_init s) k2)
    as (k1 & Ek1 & HRk); [| exact Ek2 |].
  { split; [apply st_rel_refl|]. split; [reflexivity|]. split; [reflexivity|].
    apply rounds_related_empty. }
  destruct (for_each_sim build_rel (gba1_add_landmark (GetLandmarksVec (map_ s)))
              (gba2_add_landmark (GetLandmarksVec (map_ s)))
              (seq 0 (length (GetLandmarksVec (map_ s))))
              (gba_add_landmark_sim (GetLandmarksVec (map_ s))) k1 k2 l2 HRk El2)
    as (l1 & El1 & (Hst & Hi & Hd & R)).
  rewrite Ek1, bind_of_Ok, El1, bind_of_Ok.
  eexists. split; [reflexivity|].
  pose proof Hst as (Hmap & _).
  destruct (gba_use_map_loop_constraints params); apply Ok_inj in E; subst b2.
  - split; [exact Hst|]. split; [exact Hi|]. split; [exact Hd|].
    cbn [bb_problem bb_update]. rewrite Hmap. apply gba_loops_both, R.
  - split; [exact Hst|]. split; [exact Hi|]. split; [exact Hd|].
    cbn [bb_problem bb_update]. apply gba_loops_left, R.
Qed.


End RoundsBuild.

(** ** The dense Jacobian *)

Section Jacobian.
Context `{Scalar}.

(** A loop over a list gets through exactly when every round does. *)
Lemma for_each_Ok_iff {A S} (body : A -> S -> Result S) (ok : A -> bool) (I : S -> Prop) l :
  (forall a s, a ∈ l -> I s -> (exists s', body a s = Ok s') <-> ok a = true) ->
  (forall a s s', a ∈ l -> I s -> body a s = Ok s' -> I s') ->
  forall s, I s -> (exists s', for_each body l s = Ok s') <-> forallb ok l = true.
Proof.
  induction l as [|a l IH]; intros Hok Hinv s Hs; simpl.
  - split; eauto.
  - rewrite andb_true_iff, <- (Hok a s ltac:(left) Hs). split.
    + intros (s' & E). destruct (body a s) as [s1|e] eqn:E1; [| discriminate].
      split; [eauto|]. apply (IH (fun a' s0 Ha' => Hok a' s0 ltac:(right; exact Ha'))
                                 (fun a' s0 s0' Ha' => Hinv a' s0 s0' ltac:(right; exact Ha'))
                                 s1); [| eauto].
      eapply Hinv; [left | exact Hs | exact E1].
    + intros [(s1 & E1) Hl]. rewrite E1.
      apply (IH (fun a' s0 Ha' => Hok a' s0 ltac:(right; exact Ha'))
                (fun a' s0 s0' Ha' => Hinv a' s0 s0' ltac:(right; exact Ha')) s1);
        [| exact Hl].
      eapply Hinv; [left | exact Hs | exact E1].
Qed.

Lemma setZero_shape rows cols M :
  setZero rows cols = Ok M ->
  shape (Z.to_nat rows) (Z.to_nat cols) M /\
  forall r c, r < Z.to_nat rows -> c < Z.to_nat cols -> mat_get M r c = Some (lit 0).
Proof.
  unfold setZero. destruct (_ || _); [discriminate|]. intros E. apply Ok_inj in E. subst M.
  split.
  - split; [reflexivity|]. split; [reflexivity|]. simpl. split; [apply length_replicate|].
    intros row Hrow. apply elem_of_replicate in Hrow as [-> _]. apply length_replicate.
  - intros r c Hr Hc. unfold mat_get. simpl.
    rewrite lookup_replicate_2 by exact Hr. simpl. apply lookup_replicate_2, Hc.
Qed.

Lemma mat_set_Ok_iff R C (M : MatrixXd) row col val :
  shape R C M ->
  (exists M', mat_set M row col val = Ok M')
  <-> (0 <= row < Z.of_nat R)%Z /\ (0 <= col < Z.of_nat C)%Z.
Proof.
  intros (HR & HC & _). unfold mat_set. rewrite HR, HC. split.
  - intros (M' & E). destruct (bool_decide _) eqn:E1; [| discriminate].
    destruct (bool_decide (0 <= col < _)%Z) eqn:E2; [| discriminate].
    apply bool_decide_eq_true in E1, E2. auto.
  - intros [H1' H2']. rewrite !bool_decide_true by assumption. simpl. eauto.
Qed.

Lemma mat_set_spec R C (M M' : MatrixXd) row col val :
  shape R C M -> mat_set M row col val = Ok M' ->
  shape R C M' /\
  forall r c, r < R -> c < C ->
    mat_get M' r c
    = if decide (Z.of_nat r = row /\ Z.of_nat c = col) then Some val else mat_get M r c.
Proof.
  intros (HR & HC & Hlen & Hrows). unfold mat_set. rewrite HR, HC.
  destruct (bool_decide _) eqn:E1; [| discriminate].
  destruct (bool_decide (0 <= col < _)%Z) eqn:E2; [| discriminate].
  apply bool_decide_eq_true in E1, E2. simpl. intros E. apply Ok_inj in E. subst M'. split.
  - split; [reflexivity|]. split; [reflexivity|]. simpl.
    split; [rewrite length_alter; exact Hlen|].
    intros x Hx. apply list_elem_of_lookup in Hx as [i Hi].
    destruct (decide (i = Z.to_nat row)) as [->|Hne].
    + rewrite list_lookup_alter_eq in Hi.
      destruct (coeffs M !! Z.to_nat row) as [x0|] eqn:E0; [| discriminate].
      simpl in Hi. inversion Hi; subst x. rewrite length_insert.
      apply Hrows. eapply list_elem_of_lookup_2, E0.
    + rewrite list_lookup_alter_ne in Hi by congruence.
      apply Hrows. eapply list_elem_of_lookup_2, Hi.
  - intros r c Hr Hc. unfold mat_get. simpl.
    destruct (decide (r = Z.to_nat row)) as [->|Hne].
    + rewrite list_lookup_alter_eq.
      destruct (lookup_lt_is_Some_2 (coeffs M) (Z.to_nat row) ltac:(lia)) as [x0 E0].
      rewrite E0. simpl.
      assert (Hx0 : length x0 = C) by (apply Hrows; eapply list_elem_of_lookup_2, E0).
      destruct (decide (c = Z.to_nat col)) as [->|Hnc].
      * rewrite list_lookup_insert_eq by lia. rewrite decide_True by lia. reflexivity.
      * rewrite list_lookup_insert_ne by congruence. rewrite decide_False by lia. reflexivity.
    + rewrite list_lookup_alter_ne by congruence. rewrite decide_False by lia. reflexivity.
Qed.

Lemma vec_at_int_Ok_iff {A} (v : list A) (i : Z) :
  (exists a, vec_at_int v i = Ok a) <-> (0 <= i)%Z /\ is_Some (v !! Z.to_nat i).
Proof.
  unfold vec_at_int, vec_at. case_bool_decide as Hi.
  - split; [intros (a & E); discriminate | intros [Hi' _]; lia].
  - destruct (v !! Z.to_nat i) as [a|]; split.
    + intros _. split; [lia | eauto].
    + eauto.
    + intros (a & E). discriminate.
    + intros [_ [a E]]. discriminate.
Qed.

Lemma vec_at_int_Ok {A} (v : list A) (i : Z) a :
  vec_at_int v i = Ok a -> (0 <= i)%Z /\ v !! Z.to_nat i = Some a.
Proof.
  unfold vec_at_int, vec_at. case_bool_decide as Hi; [discriminate|].
  destruct (v !! Z.to_nat i); intros E; inversion E; subst. split; [lia | reflexivity].
Qed.

(** One entry. *)
Lemma fill_entry_Ok_iff R (jacobian : CRSMatrix) row k (M : MatrixXd) :
  shape R (Z.to_nat (num_cols jacobian)) M ->
  (0 <= num_cols jacobian)%Z -> (0 <= row < Z.of_nat R)%Z ->
  (exists M', fill_entry jacobian row k M = Ok M') <-> crs_entry_ok jacobian k = true.
Proof.
  intros Hsh Hcols Hrow. unfold fill_entry, crs_entry_ok. split.
  - intros (M' & E). apply bind_Ok in E as (col & Ec & E). apply bind_Ok in E as (val & Ev & E).
    apply vec_at_int_Ok in Ec as [Hk Ec]. apply vec_at_int_Ok in Ev as [_ Ev].
    rewrite Ec, Ev, bool_decide_true by exact Hk. simpl.
    apply bool_decide_eq_true.
    assert (Hex : exists M', mat_set M row col val = Ok M') by eauto.
    apply (mat_set_Ok_iff _ _ _ _ _ _ Hsh) in Hex as [_ Hc]. lia.
  - intros Hok. apply andb_true_iff in Hok as [Hk Hok]. apply bool_decide_eq_true in Hk.
    destruct (crs_cols jacobian !! Z.to_nat k) as [col|] eqn:Ec; [| discriminate].
    destruct (crs_values jacobian !! Z.to_nat k) as [val|] eqn:Ev; [| discriminate].
    apply bool_decide_eq_true in Hok.
    unfold vec_at_int, vec_at. rewrite bool_decide_false by lia. rewrite Ec, Ev. simpl.
    apply (mat_set_Ok_iff _ _ _ _ _ _ Hsh). split; [exact Hrow | lia].
Qed.

Lemma fill_entry_spec R C (jacobian : CRSMatrix) row k (M M' : MatrixXd) :
  shape R C M -> fill_entry jacobian row k M = Ok M' ->
  shape R C M' /\
  forall r c, r < R -> c < C ->
    mat_get M' r c
    = if decide (Z.of_nat r = row)
      then match (if bool_decide (crs_cols jacobian !! Z.to_nat k = Some (Z.of_nat c))
                  then crs_values jacobian !! Z.to_nat k else None) with
           | Some v => Some v
           | None => mat_get M r c
           end
      else mat_get M r c.
Proof.
  intros Hsh E. unfold fill_entry in E.
  apply bind_Ok in E as (col & Ec & E). apply bind_Ok in E as (val & Ev & E).
  apply vec_at_int_Ok in Ec as [Hk Ec]. apply vec_at_int_Ok in Ev as [_ Ev].
  destruct (mat_set_spec _ _ _ _ _ _ _ Hsh E) as [Hsh' Hget]. split; [exact Hsh'|].
  intros r c Hr Hc. rewrite (Hget r c Hr Hc), Ec, Ev.
  destruct (decide (Z.of_nat r = row)) as [Hrr|Hrr].
  - case_bool_decide as Hcc.
    + inversion Hcc; subst col. rewrite decide_True by auto. reflexivity.
    + rewrite decide_False; [reflexivity|]. intros [_ Hcol]. apply Hcc. congruence.
  - rewrite decide_False by tauto. reflexivity.
Qed.

(** The entries of one row, in order: the last one with the column wins. *)
Lemma fill_entries_spec R C (jacobian : CRSMatrix) row ks : forall (M M' : MatrixXd),
  shape R C M -> for_each (fill_entry jacobian row) ks M = Ok M' ->
  shape R C M' /\
  forall r c, r < R -> c < C ->
    mat_get M' r c
    = if decide (Z.of_nat r = row)
      then match last (omap (fun k =>
                               if bool_decide (crs_cols jacobian !! Z.to_nat k
                                               = Some (Z.of_nat c))
                               then crs_values jacobian !! Z.to_nat k else None) ks) with
           | Some v => Some v
           | None => mat_get M r c
           end
      else mat_get M r c.
Proof.
  induction ks as [|k ks IH]; intros M M' Hsh E.
  - apply Ok_inj in E. subst M'. split; [exact Hsh|]. intros r c _ _. simpl.
    destruct (decide _); reflexivity.
  - apply for_each_cons in E as (M1 & E1 & E).
    destruct (fill_entry_spec _ _ _ _ _ _ _ Hsh E1) as [Hsh1 Hget1].
    destruct (IH _ _ Hsh1 E) as [Hsh' Hget']. split; [exact Hsh'|].
    intros r c Hr Hc. rewrite (Hget' r c Hr Hc), (Hget1 r c Hr Hc).
    destruct (decide (Z.of_nat r = row)); [| reflexivity].
    simpl omap.
    destruct (if bool_decide (crs_cols jacobian !! Z.to_nat k = Some (Z.of_nat c))
              then crs_values jacobian !! Z.to_nat k else None) as [v|] eqn:Ek.
    + rewrite last_cons. destruct (last _); reflexivity.
    + reflexivity.
Qed.

Lemma fill_row_spec R C (jacobian : CRSMatrix) row (M M' : MatrixXd) :
  shape R C M -> fill_row jacobian row M = Ok M' ->
  (0 <= row)%Z /\ shape R C M' /\
  forall r c, r < R -> c < C ->
    mat_get M' r c
    = if decide (Z.of_nat r = row)
      then match crs_stored jacobian r c with Some v => Some v | None => mat_get M r c end
      else mat_get M r c.
Proof.
  intros Hsh E. unfold fill_row in E.
  apply bind_Ok in E as (a & Ea & E). apply bind_Ok in E as (b & Eb & E).
  apply vec_at_int_Ok in Ea as [Hrow Ea]. apply vec_at_int_Ok in Eb as [_ Eb].
  destruct (fill_entries_spec _ _ _ _ _ _ _ Hsh E) as [Hsh' Hget].
  split; [exact Hrow|]. split; [exact Hsh'|].
  intros r c Hr Hc. rewrite (Hget r c Hr Hc).
  destruct (decide (Z.of_nat r = row)) as [<-|]; [| reflexivity].
  unfold crs_stored, crs_row_range. rewrite Nat2Z.id in Ea.
  replace (Z.to_nat (Z.of_nat r + 1)) with (S r) in Eb by lia.
  rewrite Ea, Eb. reflexivity.
Qed.

Lemma fill_rows_spec R C (jacobian : CRSMatrix) rs : forall (M M' : MatrixXd),
  NoDup rs -> shape R C M -> for_each (fill_row jacobian) rs M = Ok M' ->
  shape R C M' /\
  forall r c, r < R -> c < C ->
    mat_get M' r c
    = if decide (Z.of_nat r ∈ rs)
      then match crs_stored jacobian r c with Some v => Some v | None => mat_get M r c end
      else mat_get M r c.
Proof.
  induction rs as [|row rs IH]; intros M M' Hnd Hsh E.
  - apply Ok_inj in E. subst M'. split; [exact Hsh|]. intros r c _ _.
    rewrite decide_False; [reflexivity|]. apply not_elem_of_nil.
  - apply for_each_cons in E as (M1 & E1 & E). apply NoDup_cons in Hnd as [Hrow Hnd].
    destruct (fill_row_spec _ _ _ _ _ _ Hsh E1) as (_ & Hsh1 & Hget1).
    destruct (IH _ _ Hnd Hsh1 E) as [Hsh' Hget']. split; [exact Hsh'|].
    intros r c Hr Hc. rewrite (Hget' r c Hr Hc), (Hget1 r c Hr Hc).
    destruct (decide (Z.of_nat r = row)) as [<-|Hne].
    + rewrite decide_False by exact Hrow. rewrite decide_True by left. reflexivity.
    + destruct (decide (Z.of_nat r ∈ rs)) as [Hin|Hin].
      * rewrite decide_True by (right; exact Hin). reflexivity.
      * rewrite decide_False; [reflexivity|].
        intros Hin'. apply elem_of_cons in Hin' as [Heq|Hin']; [congruence | contradiction].
Qed.

(** X1.  [transformJacobian] copies the storage: the matrix it returns has the
    dimensions of the storage; a coefficient the storage has an entry for
    holds the value of the last such entry of its row, and every other
    coefficient is 0. *)
Theorem transformJacobian_coefficients (jacobian : CRSMatrix) (M : MatrixXd) :
  transformJacobian jacobian = Ok M ->
  mat_rows M = Z.to_nat (num_rows jacobian) /\
  mat_cols M = Z.to_nat (num_cols jacobian) /\
  forall r c, r < mat_rows M -> c < mat_cols M ->
    mat_get M r c = Some (default (lit 0) (crs_stored jacobian r c)).
Proof.
  unfold transformJacobian. intros E. apply bind_Ok in E as (M0 & E0 & E).
  destruct (setZero_shape _ _ _ E0) as [Hsh0 Hzero].
  destruct (fill_rows_spec _ _ _ _ _ _ (NoDup_seqZ _ _) Hsh0 E) as [Hsh Hget].
  destruct Hsh as (HR & HC & _). split; [exact HR|]. split; [exact HC|].
  intros r c Hr Hc. rewrite HR in Hr. rewrite HC in Hc.
  rewrite (Hget r c Hr Hc), (Hzero r c Hr Hc).
  rewrite decide_True by (apply elem_of_seqZ; lia).
  destruct (crs_stored jacobian r c); reflexivity.
Qed.

Lemma fill_row_Ok_iff R (jacobian : CRSMatrix) row (M : MatrixXd) :
  shape R (Z.to_nat (num_cols jacobian)) M ->
  (0 <= num_cols jacobian)%Z -> (0 <= row < Z.of_nat R)%Z ->
  (exists M', fill_row jacobian row M = Ok M') <-> crs_row_ok jacobian row = true.
Proof.
  intros Hsh Hcols Hrow. unfold fill_row, crs_row_ok.
  replace (S (Z.to_nat row)) with (Z.to_nat (row + 1)) by lia.
  unfold vec_at_int, vec_at. rewrite !bool_decide_false by lia.
  destruct (crs_rows jacobian !! Z.to_nat row) as [a|];
    [| split; [intros (M' & E); discriminate | discriminate]].
  destruct (crs_rows jacobian !! Z.to_nat (row + 1)) as [b|];
    [| split; [intros (M' & E); discriminate | discriminate]].
  simpl.
  apply (for_each_Ok_iff _ _ (shape R (Z.to_nat (num_cols jacobian)))); [| | exact Hsh].
  - intros k M1 _ Hsh1. apply (fill_entry_Ok_iff R); assumption.
  - intros k M1 M2 _ Hsh1 E. eapply fill_entry_spec; eassumption.
Qed.

(** X2.  [transformJacobian] returns a matrix exactly when the storage is well
    formed: the dimensions are not negative, [rows] has an entry for every
    row and one more, and every entry between [rows[r]] and [rows[r + 1]] has
    a column of the matrix and a value.  On any other storage it reads or
    writes out of bounds. *)
Theorem transformJacobian_returns_iff_wf (jacobian : CRSMatrix) :
  (exists M, transformJacobian jacobian = Ok M) <-> crs_wf jacobian = true.
Proof.
  unfold transformJacobian, crs_wf.
  destruct (setZero (num_rows jacobian) (num_cols jacobian)) as [M0|e] eqn:E0.
  - destruct (setZero_shape _ _ _ E0) as [Hsh0 _]. unfold setZero in E0.
    destruct (bool_decide (num_rows jacobian < 0)%Z) eqn:E1; [discriminate|].
    destruct (bool_decide (num_cols jacobian < 0)%Z) eqn:E2; [discriminate|].
    apply bool_decide_eq_false in E1, E2. rewrite !bool_decide_true by lia. simpl.
    apply (for_each_Ok_iff _ _ (shape (Z.to_nat (num_rows jacobian))
                                  (Z.to_nat (num_cols jacobian)))); [| | exact Hsh0].
    + intros row M1 Hrow Hsh1. apply elem_of_seqZ in Hrow.
      apply (fill_row_Ok_iff (Z.to_nat (num_rows jacobian))); [exact Hsh1 | lia | lia].
    + intros row M1 M2 _ Hsh1 E. eapply fill_row_spec; eassumption.
  - unfold setZero in E0. split; [intros (M & E); discriminate|]. intros Hwf.
    apply andb_true_iff in Hwf as [Hwf _]. apply andb_true_iff in Hwf as [H1' H2'].
    apply bool_decide_eq_true in H1', H2'.
    rewrite !bool_decide_false in E0 by lia. discriminate.
Qed.

End Jacobian.

(** ** Two-view relative pose optimisation: the rest of the run *)

(** Every round of a loop that got through got through, from a state the
    invariant holds in. *)
Lemma for_each_visits {A S} (body : A -> S -> Result S) (I : S -> Prop) l : forall s s',
  (forall a s1 s2, I s1 -> body a s1 = Ok s2 -> I s2) ->
  I s -> for_each body l s = Ok s' ->
  forall a, a ∈ l -> exists s1 s2, I s1 /\ body a s1 = Ok s2.
Proof.
  induction l as [|a0 l IH]; intros s s' Hstep Hs E a Ha.
  - apply elem_of_nil in Ha. destruct Ha.
  - apply for_each_cons in E as (s1 & E1 & E).
    apply elem_of_cons in Ha as [->|Ha]; [eauto|].
    eapply (IH s1 s'); eauto.
Qed.

Section RelativePoseRun.
Context `{Geometry} `{!Solver}.
Variable params : Params.

Lemma implicit_blocks_present (l : list (Addr * nat)) : forall p : Problem,
  (forall x, x ∈ fst <$> l -> HasParameterBlock p x = true) ->
  foldl (fun q '(a, n) => AddParameterBlock a n None q) p l = p.
Proof.
  induction l as [|[a n] l IH]; intros p Hp; [reflexivity|].
  simpl. assert (Ha : AddParameterBlock a n None p = p).
  { unfold AddParameterBlock. rewrite Hp; [reflexivity | left]. }
  rewrite Ha. apply IH. intros x Hx. apply Hp. right. exact Hx.
Qed.

(** A factor over blocks the problem has adds no block. *)
Lemma AddResidualBlock_blocks_present cost loss params' (p : Problem) :
  (forall x, x ∈ declared_params cost params' -> HasParameterBlock p x = true) ->
  parameter_blocks (snd (AddResidualBlock cost loss params' p)) = parameter_blocks p.
Proof.
  intros Hp. unfold AddResidualBlock. cbn [snd parameter_blocks].
  rewrite implicit_blocks_present; [reflexivity | exact Hp].
Qed.

(** *** The problem that is built *)

Lemma add_observation_blocks s kf1 kf2 TcwA TcwB matches1 i b b' :
  add_observation s kf1 kf2 TcwA TcwB matches1 i b = Ok b' ->
  HasParameterBlock (rp_problem b) (ceresAB, 0) = true ->
  parameter_blocks (rp_problem b') = parameter_blocks (rp_problem b) /\
  exists new,
    residual_blocks (rp_problem b') = residual_blocks (rp_problem b) ++ new /\
    (forall r, r ∈ new -> rb_params r = [(ceresAB, 0)]
                          /\ rb_loss r = Some (CauchyLoss 1)) /\
    length new = 2 * (length (vIndex b') - length (vIndex b)).
Proof.
  unfold add_observation. intros E Hhas.
  assert (Hsame : parameter_blocks (rp_problem b) = parameter_blocks (rp_problem b) /\
            exists new,
              residual_blocks (rp_problem b) = residual_blocks (rp_problem b) ++ new /\
              (forall r, r ∈ new -> rb_params r = [(ceresAB, 0)]
                                    /\ rb_loss r = Some (CauchyLoss 1)) /\
              length new = 2 * (length (vIndex b) - length (vIndex b))).
  { split; [reflexivity|]. exists []. rewrite app_nil_r. split; [reflexivity|].
    split; [| simpl; lia]. intros r Hr. apply elem_of_nil in Hr. destruct Hr. }
  apply bind_Ok in E as (m & _ & E).
  destruct m as [pMPB|]; [| apply Ok_inj in E; subst b'; exact Hsame].
  apply bind_Ok in E as (pMPA & _ & E).
  destruct pMPA as [pMPA|]; [| apply Ok_inj in E; subst b'; exact Hsame].
  destruct (_ && _); [| apply Ok_inj in E; subst b'; exact Hsame].
  apply bind_Ok in E as (eA & HeA & E). apply bind_Ok in E as (eB & HeB & E).
  apply Ok_inj in E. subst b'. cbn [rp_problem vIndex].
  assert (HsA : parameter_block_sizes eA = [kPoseBlockSize]).
  { unfold new_RelativeEuclideanReprError in HeA.
    destruct (getType _); try discriminate;
      destruct (getDistortionType _); try discriminate;
      apply Ok_inj in HeA; subst eA; reflexivity. }
  assert (HsB : parameter_block_sizes eB = [kPoseBlockSize]).
  { unfold new_RelativeEuclideanReprError in HeB.
    destruct (getType _); try discriminate;
      destruct (getDistortionType _); try discriminate;
      apply Ok_inj in HeB; subst eB; reflexivity. }
  split.
  - rewrite !AddResidualBlock_blocks_present; [reflexivity | |].
    + intros x Hx. apply declared_params_subset, list_elem_of_singleton in Hx. subst x.
      exact Hhas.
    + intros x Hx. apply declared_params_subset, list_elem_of_singleton in Hx. subst x.
      apply AddResidualBlock_has. left. exact Hhas.
  - eexists. rewrite !AddResidualBlock_residual_blocks, <- app_assoc.
    split; [reflexivity|]. split.
    + intros r Hr. apply elem_of_app in Hr as [Hr|Hr];
        apply list_elem_of_singleton in Hr; subst r; split; reflexivity.
    + rewrite !length_app. simpl. lia.
Qed.

(** X3.  The problem of the relative pose has one parameter block, the relative
    transform [ceresAB], and two residual blocks over it, with the Cauchy
    loss, for every correspondence. *)
Theorem relative_pose_problem_structure s kf1 kf2 matches1 b :
  relative_pose_problem s kf1 kf2 matches1 = Ok b ->
  pb_addr <$> parameter_blocks (rp_problem b) = [(ceresAB, 0)] /\
  length (residual_blocks (rp_problem b)) = 2 * length (vIndex b) /\
  (forall r, r ∈ residual_blocks (rp_problem b) ->
             rb_params r = [(ceresAB, 0)] /\ rb_loss r = Some (CauchyLoss 1)) /\
  length (residIdsA b) = length (vIndex b) /\
  length (residIdsB b) = length (vIndex b).
Proof.
  intros E. pose proof (relative_pose_problem_spec _ _ _ _ _ E) as (HvI & _ & HA & HB & _).
  simpl in *. rewrite HA, HB, <- HvI.
  assert (Hinv :
    pb_addr <$> parameter_blocks (rp_problem b) = [(ceresAB, 0)] /\
    length (residual_blocks (rp_problem b)) = 2 * length (vIndex b) /\
    (forall r, r ∈ residual_blocks (rp_problem b) ->
               rb_params r = [(ceresAB, 0)] /\ rb_loss r = Some (CauchyLoss 1))).
  { unfold relative_pose_problem in E.
    apply (for_each_invariant _
             (fun x =>
                pb_addr <$> parameter_blocks (rp_problem x) = [(ceresAB, 0)] /\
                length (residual_blocks (rp_problem x)) = 2 * length (vIndex x) /\
                (forall r, r ∈ residual_blocks (rp_problem x) ->
                           rb_params r = [(ceresAB, 0)] /\ rb_loss r = Some (CauchyLoss 1)))
             _ _ _) in E; [exact E | |].
    - intros i b1 b2 _ (Hp & Hlen & Hr) E1.
      pose proof (add_observation_step _ _ _ _ _ _ _ _ _ E1) as (_ & Hv & _).
      apply add_observation_blocks in E1 as (Hp' & new & Hres & Hnew & Hln);
        [| apply bool_decide_eq_true; rewrite Hp; left].
      rewrite Hp', Hres, length_app, Hln, Hlen.
      split; [exact Hp|]. split.
      + rewrite Hv, length_app. lia.
      + intros r Hin. apply elem_of_app in Hin as [Hin|Hin]; auto.
    - split; [reflexivity|]. split; [reflexivity|].
      intros r Hr. apply elem_of_nil in Hr. destruct Hr. }
  destruct Hinv as (Hp & Hlen & Hr). auto.
Qed.

(** *** The outlier loop *)

Lemma check_outlier_matches s T12 b i c c' :
  residInd c = 2 * i ->
  i < length (residIdsA b) ->
  length (residIdsB b) = length (residIdsA b) ->
  check_outlier params b
    (Evaluate (rp_problem b) (relative_pose_first_solve params s T12 b) (residIdsA b))
    (Evaluate (rp_problem b) (relative_pose_first_solve params s T12 b) (residIdsB b))
    i c = Ok c' ->
  rc_matches1 c' = (if is_outlier params s T12 b i then <[i := None]> (rc_matches1 c)
                    else rc_matches1 c).
Proof.
  intros Hri Hi Hlen E. unfold check_outlier in E.
  destruct (lookup_lt_is_Some_2 (residIdsA b) i Hi) as [idA HA].
  destruct (lookup_lt_is_Some_2 (residIdsB b) i ltac:(lia)) as [idB HB].
  pose proof (Evaluate_lookup (rp_problem b) (relative_pose_first_solve params s T12 b)
                _ _ _ HA) as [HAx HAy].
  pose proof (Evaluate_lookup (rp_problem b) (relative_pose_first_solve params s T12 b)
                _ _ _ HB) as [HBx HBy].
  rewrite Hri in E.
  apply bind_Ok in E as (ax & Eax & E). apply vec_at_Ok in Eax.
  apply bind_Ok in E as (ay & Eay & E). apply vec_at_Ok in Eay.
  apply bind_Ok in E as (bx & Ebx & E). apply vec_at_Ok in Ebx.
  apply bind_Ok in E as (by_ & Eby & E). apply vec_at_Ok in Eby.
  rewrite HAx in Eax. rewrite HAy in Eay. rewrite HBx in Ebx. rewrite HBy in Eby.
  inversion Eax; inversion Eay; inversion Ebx; inversion Eby; subst ax ay bx by_.
  unfold is_outlier. rewrite HA, HB. cbv zeta.
  assert (EA : forall v : Vector2Type, Vector2 (v2_x v) (v2_y v) = v) by (intros []; reflexivity).
  rewrite !EA in E.
  destruct (exceeds (th_outlier_align params) _ || exceeds (th_outlier_align params) _).
  - apply bind_Ok in E as (? & _ & E). apply bind_Ok in E as (? & _ & E).
    apply bind_Ok in E as (m' & Em & E). apply Ok_inj in E. subst c'. cbn [rc_matches1].
    unfold vec_set in Em. case_decide; [| discriminate]. apply Ok_inj in Em. congruence.
  - apply Ok_inj in E. subst c'. reflexivity.
Qed.

(** The loop gets through whenever [matches1] has an entry for every
    correspondence. *)
Lemma check_outlier_runs s T12 b i c :
  residInd c = 2 * i ->
  i < length (residIdsA b) ->
  length (residIdsB b) = length (residIdsA b) ->
  i < length (rc_matches1 c) ->
  exists c',
    check_outlier params b
      (Evaluate (rp_problem b) (relative_pose_first_solve params s T12 b) (residIdsA b))
      (Evaluate (rp_problem b) (relative_pose_first_solve params s T12 b) (residIdsB b))
      i c = Ok c'.
Proof.
  intros Hri Hi Hlen Hm. unfold check_outlier.
  destruct (lookup_lt_is_Some_2 (residIdsA b) i Hi) as [idA HA].
  destruct (lookup_lt_is_Some_2 (residIdsB b) i ltac:(lia)) as [idB HB].
  pose proof (Evaluate_lookup (rp_problem b) (relative_pose_first_solve params s T12 b)
                _ _ _ HA) as [HAx HAy].
  pose proof (Evaluate_lookup (rp_problem b) (relative_pose_first_solve params s T12 b)
                _ _ _ HB) as [HBx HBy].
  rewrite Hri. unfold vec_at. rewrite HAx, HAy, HBx, HBy, HA, HB. simpl.
  unfold vec_set. rewrite decide_True by exact Hm. simpl.
  destruct (_ || _); eauto.
Qed.

Lemma check_outlier_loop_matches s T12 b n : forall k c c',
  residInd c = 2 * k ->
  k + n <= length (residIdsA b) ->
  length (residIdsB b) = length (residIdsA b) ->
  for_each
    (check_outlier params b
       (Evaluate (rp_problem b) (relative_pose_first_solve params s T12 b) (residIdsA b))
       (Evaluate (rp_problem b) (relative_pose_first_solve params s T12 b) (residIdsB b)))
    (seq k n) c = Ok c' ->
  length (rc_matches1 c') = length (rc_matches1 c) /\
  forall i, rc_matches1 c' !! i
            = if decide (k <= i < k + n /\ is_outlier params s T12 b i = true
                         /\ i < length (rc_matches1 c))
              then Some None else rc_matches1 c !! i.
Proof.
  induction n as [|n IH]; intros k c c' Hri Hk Hlen E.
  - apply Ok_inj in E. subst c'. split; [reflexivity|]. intros i.
    rewrite decide_False by lia. reflexivity.
  - simpl seq in E. apply for_each_cons in E as (c1 & E1 & E).
    pose proof (check_outlier_step params s T12 b k c c1 Hri ltac:(lia) Hlen E1) as [_ Hri1].
    pose proof (check_outlier_matches s T12 b k c c1 Hri ltac:(lia) Hlen E1) as Hm1.
    destruct (IH (S k) c1 c' Hri1 ltac:(lia) Hlen E) as [Hl Hget].
    assert (Hl1 : length (rc_matches1 c1) = length (rc_matches1 c)).
    { rewrite Hm1. destruct (is_outlier params s T12 b k); [apply length_insert | reflexivity]. }
    split; [congruence|]. intros i. rewrite Hget, Hl1.
    destruct (decide (i = k)) as [->|Hne].
    + rewrite decide_False by lia. rewrite Hm1.
      destruct (is_outlier params s T12 b k) eqn:Ho.
      * destruct (decide (k < length (rc_matches1 c))) as [Hlt|Hge].
        -- rewrite list_lookup_insert_eq by exact Hlt. rewrite decide_True; [reflexivity|].
           repeat split; try lia; assumption.
        -- rewrite list_insert_ge by lia. rewrite decide_False by lia. reflexivity.
      * rewrite decide_False; [reflexivity|]. intros (_ & Hc & _). congruence.
    + assert (Hsame : rc_matches1 c1 !! i = rc_matches1 c !! i).
      { rewrite Hm1. destruct (is_outlier params s T12 b k); [| reflexivity].
        apply list_lookup_insert_ne. congruence. }
      rewrite Hsame.
      destruct (decide (S k <= i < S k + n /\ is_outlier params s T12 b i = true
                        /\ i < length (rc_matches1 c))) as [Hd|Hd].
      * rewrite decide_True; [reflexivity|]. destruct Hd as (? & ? & ?). repeat split; auto; lia.
      * rewrite decide_False; [reflexivity|]. intros (? & ? & ?). apply Hd.
        repeat split; auto; lia.
Qed.

Lemma check_outlier_loop_runs s T12 b n : forall k c,
  residInd c = 2 * k ->
  k + n <= length (residIdsA b) ->
  length (residIdsB b) = length (residIdsA b) ->
  length (residIdsA b) <= length (rc_matches1 c) ->
  exists c',
    for_each
      (check_outlier params b
         (Evaluate (rp_problem b) (relative_pose_first_solve params s T12 b) (residIdsA b))
         (Evaluate (rp_problem b) (relative_pose_first_solve params s T12 b) (residIdsB b)))
      (seq k n) c = Ok c'.
Proof.
  induction n as [|n IH]; intros k c Hri Hk Hlen Hm; [simpl; eauto|].
  destruct (check_outlier_runs s T12 b k c Hri ltac:(lia) Hlen ltac:(lia)) as [c1 E1].
  pose proof (check_outlier_step params s T12 b k c c1 Hri ltac:(lia) Hlen E1) as [_ Hri1].
  pose proof (check_outlier_matches s T12 b k c c1 Hri ltac:(lia) Hlen E1) as Hm1.
  destruct (IH (S k) c1 Hri1 ltac:(lia) Hlen) as [c' E'].
  { rewrite Hm1. destruct (is_outlier params s T12 b k); [rewrite length_insert|]; exact Hm. }
  exists c'. simpl. rewrite E1. exact E'.
Qed.

Lemma correspondences_fit s kf1 kf2 matches1 b :
  relative_pose_problem s kf1 kf2 matches1 = Ok b ->
  length (residIdsB b) = length (residIdsA b) /\
  length (residIdsA b) = length (vIndex b) /\
  length (residIdsA b) <= length matches1.
Proof.
  intros E. pose proof (relative_pose_problem_spec _ _ _ _ _ E) as (HvI & _ & HA & HB & Hle & _).
  simpl in *. rewrite HvI. split; [lia|]. split; [exact HA|].
  rewrite HA. etransitivity; [exact Hle | apply length_filter].
Qed.

(** X4.  The entries of [matches1] that a call empties are the entries at the
    positions, among the correspondences, of the outliers: entry [k] is
    emptied exactly when the [k]-th correspondence is an outlier, whatever
    entry that correspondence came from.  No other entry changes, and the
    vector keeps its length. *)
Theorem OptimizeRelativePose_nulled_entries s kf1 kf2 matches1 T12 th2 n matches1' T12' :
  OptimizeRelativePose params s kf1 kf2 matches1 T12 th2 = Ok (n, matches1', T12') ->
  exists b,
    relative_pose_problem s kf1 kf2 matches1 = Ok b /\
    length matches1' = length matches1 /\
    forall k, matches1' !! k
              = if decide (k ∈ outliers params s T12 b) then Some None else matches1 !! k.
Proof.
  intros E. apply OptimizeRelativePose_run in E as (b & c & Eb & Ec & -> & _).
  exists b. split; [exact Eb|].
  destruct (correspondences_fit _ _ _ _ _ Eb) as (HB & _ & Hfit).
  unfold relative_pose_check in Ec.
  apply (check_outlier_loop_matches s T12 b) in Ec as [Hlen Hget];
    [| reflexivity | simpl; lia | exact HB].
  cbn [rc_matches1] in Hlen, Hget. split; [exact Hlen|].
  intros k. rewrite Hget. unfold outliers.
  destruct (decide (k ∈ filter (fun j => is_outlier params s T12 b j = true)
                         (seq 0 (length (residIdsA b))))) as [Hin|Hin].
  - apply list_elem_of_filter in Hin as [Ho Hin]. apply elem_of_seq in Hin.
    rewrite decide_True; [reflexivity|]. repeat split; try lia; exact Ho.
  - rewrite decide_False; [reflexivity|]. intros (Hk & Ho & _). apply Hin.
    apply list_elem_of_filter. split; [exact Ho|]. apply elem_of_seq. lia.
Qed.

(** X5.  A call returns exactly when its problem can be built: the outlier loop
    reads the residuals and writes [matches1] within their bounds, so that a
    call can only end early while the observations are added (an unsupported
    camera model, or a match beyond the landmark slots of [kf1]). *)
Theorem OptimizeRelativePose_returns_iff_built s kf1 kf2 matches1 T12 th2 :
  (exists r, OptimizeRelativePose params s kf1 kf2 matches1 T12 th2 = Ok r)
  <-> exists b, relative_pose_problem s kf1 kf2 matches1 = Ok b.
Proof.
  split.
  - intros (r & E). unfold OptimizeRelativePose in E.
    apply bind_Ok in E as (b & Eb & _). eauto.
  - intros (b & Eb). unfold OptimizeRelativePose. rewrite Eb. simpl.
    destruct (correspondences_fit _ _ _ _ _ Eb) as (HB & _ & Hfit).
    destruct (check_outlier_loop_runs s T12 b (length (residIdsA b)) 0
                {| rc_problem := rp_problem b; rc_matches1 := matches1; numBad := 0;
                   residInd := 0 |} eq_refl ltac:(simpl; lia) HB Hfit) as [c Ec].
    unfold relative_pose_check. rewrite Ec. simpl.
    destruct (bool_decide _); eauto.
Qed.

Lemma new_RelativeEuclideanReprError_supported cam kp sigma camera P3D ptype c :
  new_RelativeEuclideanReprError cam kp sigma camera P3D ptype = Ok c -> supported_camera cam.
Proof.
  unfold new_RelativeEuclideanReprError, supported_camera. intros E.
  destruct (getType cam); try discriminate;
    destruct (getDistortionType cam); try discriminate; auto.
Qed.

(** X6.  What a call needs to return: every match among the first [N] entries of
    [matches1] has a landmark slot in [kf1] at its index, and if there is a
    correspondence at all, the cameras of both keyframes are of a supported
    model. *)
Theorem OptimizeRelativePose_requirements s kf1 kf2 matches1 T12 th2 r :
  (Z.of_nat (length matches1) < 2 ^ 31)%Z ->
  OptimizeRelativePose params s kf1 kf2 matches1 T12 th2 = Ok r ->
  (forall i pMPB, matches1 !! i = Some (Some pMPB) ->
                  i < length (landmarks_ (kfs s kf1))) /\
  (forall i, is_correspondence s kf1 kf2 matches1 i = true ->
             supported_camera (cams s (camera_ (kfs s kf1))) /\
             supported_camera (cams s (camera_ (kfs s kf2)))).
Proof.
  intros Hlen E. unfold OptimizeRelativePose in E. apply bind_Ok in E as (b & Eb & _).
  unfold relative_pose_problem in Eb. rewrite to_int_small, Nat2Z.id in Eb by lia.
  pose proof (for_each_visits _ (fun _ => True) _ _ _ (fun _ _ _ _ _ => I) I Eb) as Hvis.
  split.
  - intros i pMPB Hi.
    destruct (Hvis i) as (b1 & b2 & _ & E1).
    { apply elem_of_seq. apply lookup_lt_Some in Hi. lia. }
    unfold add_observation in E1.
    apply bind_Ok in E1 as (m & Em & E1). apply vec_at_Ok in Em.
    rewrite Hi in Em. apply (inj Some) in Em. subst m.
    apply bind_Ok in E1 as (pMPA & EA & _). apply vec_at_Ok in EA.
    eapply lookup_lt_Some, EA.
  - intros i Hc. pose proof Hc as Hc'. unfold is_correspondence in Hc.
    destruct (matches1 !! i) as [[pMPB|]|] eqn:Hi; try discriminate.
    destruct (landmarks_ (kfs s kf1) !! i) as [[pMPA|]|] eqn:HA; try discriminate.
    destruct (Hvis i) as (b1 & b2 & _ & E1).
    { apply elem_of_seq. apply lookup_lt_Some in Hi. lia. }
    unfold add_observation in E1.
    apply bind_Ok in E1 as (m & Em & E1). apply vec_at_Ok in Em.
    rewrite Hi in Em. apply (inj Some) in Em. subst m.
    apply bind_Ok in E1 as (pMPA' & EA & E1). apply vec_at_Ok in EA.
    rewrite HA in EA. apply (inj Some) in EA. subst pMPA'.
    rewrite Hc in E1.
    apply bind_Ok in E1 as (eA & HeA & E1). apply bind_Ok in E1 as (eB & HeB & _).
    split; eapply new_RelativeEuclideanReprError_supported; eassumption.
Qed.

End RelativePoseRun.

(** ** Global Bundle Adjustment: what a run does to the graph *)

Section BundleRun.
Context `{Geometry} `{!Solver} `{!MapBackend}.
Variable params : Params.

Lemma slots_emptied_refl l : slots_emptied l l.
Proof. split; [reflexivity | intros i; left; reflexivity]. Qed.

Lemma slots_emptied_insert l l' i :
  slots_emptied l l' -> slots_emptied l (<[i := None]> l').
Proof.
  intros [Hlen Hl]. split; [rewrite length_insert; exact Hlen|].
  intros j. destruct (decide (j = i)) as [->|Hne].
  - destruct (decide (i < length l')) as [Hlt|Hge].
    + right. apply list_lookup_insert_eq. exact Hlt.
    + rewrite list_insert_ge by lia. apply Hl.
  - rewrite list_lookup_insert_ne by congruence. apply Hl.
Qed.

(** The keyframe round of the first pass leaves the landmark slots alone. *)
Lemma gba1_add_keyframe_slots visual_only kf (b b' : BundleBuild) :
  gba1_add_keyframe visual_only kf b = Ok b' ->
  forall k, landmarks_ (kfs (bb_state b') k) = landmarks_ (kfs (bb_state b) k).
Proof.
  unfold gba1_add_keyframe. intros E k.
  destruct (kf_invalid (kfs (bb_state b) kf)); [apply Ok_inj in E; subst; reflexivity|].
  apply bind_Ok in E as (b0 & E0 & E). apply add_camera_parameters_Ok in E0.
  assert (S0 : bb_state b0 = UpdateCeresFromState kf (bb_state b)) by (rewrite E0; reflexivity).
  clear E0.
  destruct (negb visual_only); [| apply Ok_inj in E; subst b'; rewrite S0; reflexivity].
  destruct (predecessor _) as [pred|].
  - destruct (kf_invalid (kfs _ pred)).
    + destruct (bool_decide _); [discriminate|].
      apply Ok_inj in E; subst b'; rewrite S0; reflexivity.
    + apply Ok_inj in E. subst b'. cbn [bb_state bb_update].
      unfold repropagate_from_ceres. cbn [kfs with_kf]. unfold upd.
      destruct (decide (k = kf)); reflexivity.
  - destruct (bool_decide _); [discriminate|].
    apply Ok_inj in E; subst b'; rewrite S0; reflexivity.
Qed.

Lemma gba1_build_slots visual_only s b :
  gba1_build visual_only s = Ok b ->
  forall k, landmarks_ (kfs (bb_state b) k) = landmarks_ (kfs s k).
Proof.
  unfold gba1_build. intros E.
  apply bind_Ok in E as (b1 & E1 & E). apply bind_Ok in E as (b2 & E2 & E).
  apply Ok_inj in E. subst b. cbn [bb_state bb_update].
  assert (Hb1 : forall k, landmarks_ (kfs (bb_state b1) k) = landmarks_ (kfs s k)).
  { refine (for_each_invariant _
              (fun x => forall k, landmarks_ (kfs (bb_state x) k) = landmarks_ (kfs s k))
              _ _ _ _ _ E1); [| intros k; reflexivity].
    intros kf c1 c2 _ Hc1 Ec k.
    rewrite (gba1_add_keyframe_slots _ _ _ _ Ec). apply Hc1. }
  refine (for_each_invariant _
            (fun x => forall k, landmarks_ (kfs (bb_state x) k) = landmarks_ (kfs s k))
            _ _ _ _ Hb1 E2).
  intros i c1 c2 _ Hc1 Ec k.
  destruct (gba_add_landmark_state _ _ _ _ _ gba1_add_observation_state Ec) as [m ->].
  apply Hc1.
Qed.

Lemma gba_remove_outlier_slots (b : BundleBuild) residuals i o o' l k :
  gba_remove_outlier params b residuals i o = Ok o' ->
  slots_emptied l (landmarks_ (kfs (ol_state o) k)) ->
  slots_emptied l (landmarks_ (kfs (ol_state o') k)).
Proof.
  unfold gba_remove_outlier. intros E Hl.
  apply bind_Ok in E as (rx & _ & E). apply bind_Ok in E as (ry & _ & E).
  destruct (exceeds _ _); [| apply Ok_inj in E; subst; exact Hl].
  apply bind_Ok in E as (ident & _ & E). apply bind_Ok in E as (block_id & _ & E).
  apply Ok_inj in E. subst o'. cbn [ol_state with_lm with_kf kfs]. unfold upd.
  destruct (decide (k = keyframe ident)); [| exact Hl].
  cbn [EraseLandmark set_kf_links landmarks_]. apply slots_emptied_insert, Hl.
Qed.

Lemma gba_first_round_slots visual_only outlier_removal s s1 :
  gba_first_round params visual_only outlier_removal s = Ok s1 ->
  forall k, slots_emptied (landmarks_ (kfs s k)) (landmarks_ (kfs s1 k)).
Proof.
  unfold gba_first_round, gba_outlier_round. intros E k.
  destruct outlier_removal; [| apply Ok_inj in E; subst; apply slots_emptied_refl].
  apply bind_Ok in E as (o & E & Eo). apply Ok_inj in Eo. subst s1.
  apply bind_Ok in E as (b & Eb & E).
  pose proof (gba1_build_slots _ _ _ Eb k) as Hb. unfold gba1_remove_outliers in E.
  apply (for_each_invariant _
           (fun x => slots_emptied (landmarks_ (kfs s k)) (landmarks_ (kfs (ol_state x) k)))
           _ _ _) in E; [exact E | |].
  - intros i o1 o2 _ Ho1 E1. eapply gba_remove_outlier_slots; [exact E1 | exact Ho1].
  - cbn [ol_state gba1_solved with_mem kfs]. rewrite Hb. apply slots_emptied_refl.
Qed.

(** In visual-only mode the keyframe round of the first pass leaves the IMU
    preintegrations alone. *)
Lemma gba1_add_keyframe_imu kf (b b' : BundleBuild) :
  gba1_add_keyframe true kf b = Ok b' ->
  forall k, preintegrated_imu_ (kfs (bb_state b') k) = preintegrated_imu_ (kfs (bb_state b) k).
Proof.
  unfold gba1_add_keyframe. intros E k.
  destruct (kf_invalid (kfs (bb_state b) kf)); [apply Ok_inj in E; subst; reflexivity|].
  apply bind_Ok in E as (b0 & E0 & E). apply add_camera_parameters_Ok in E0.
  assert (S0 : bb_state b0 = UpdateCeresFromState kf (bb_state b)) by (rewrite E0; reflexivity).
  cbn [negb] in E. apply Ok_inj in E. subst b'. rewrite S0. reflexivity.
Qed.

Lemma gba1_build_imu s b :
  gba1_build true s = Ok b ->
  forall k, preintegrated_imu_ (kfs (bb_state b) k) = preintegrated_imu_ (kfs s k).
Proof.
  unfold gba1_build. intros E.
  apply bind_Ok in E as (b1 & E1 & E). apply bind_Ok in E as (b2 & E2 & E).
  apply Ok_inj in E. subst b. cbn [bb_state bb_update].
  assert (Hb1 : forall k, preintegrated_imu_ (kfs (bb_state b1) k)
                          = preintegrated_imu_ (kfs s k)).
  { refine (for_each_invariant _
              (fun x => forall k, preintegrated_imu_ (kfs (bb_state x) k)
                                  = preintegrated_imu_ (kfs s k))
              _ _ _ _ _ E1); [| intros k; reflexivity].
    intros kf c1 c2 _ Hc1 Ec k.
    rewrite (gba1_add_keyframe_imu _ _ _ Ec). apply Hc1. }
  refine (for_each_invariant _
            (fun x => forall k, preintegrated_imu_ (kfs (bb_state x) k)
                                = preintegrated_imu_ (kfs s k))
            _ _ _ _ Hb1 E2).
  intros i c1 c2 _ Hc1 Ec k.
  destruct (gba_add_landmark_state _ _ _ _ _ gba1_add_observation_state Ec) as [m ->].
  apply Hc1.
Qed.

Lemma gba_remove_outlier_imu (b : BundleBuild) residuals i o o' k :
  gba_remove_outlier params b residuals i o = Ok o' ->
  preintegrated_imu_ (kfs (ol_state o') k) = preintegrated_imu_ (kfs (ol_state o) k).
Proof.
  unfold gba_remove_outlier. intros E.
  apply bind_Ok in E as (rx & _ & E). apply bind_Ok in E as (ry & _ & E).
  destruct (exceeds _ _); [| apply Ok_inj in E; subst; reflexivity].
  apply bind_Ok in E as (ident & _ & E). apply bind_Ok in E as (block_id & _ & E).
  apply Ok_inj in E. subst o'. cbn [ol_state with_lm with_kf kfs]. unfold upd.
  destruct (decide (k = keyframe ident)) as [->|]; reflexivity.
Qed.

(** Only a visual-inertial first pass with outlier removal repropagates IMU
    preintegrations. *)
Lemma gba_first_round_imu visual_only outlier_removal s s1 :
  gba_first_round params visual_only outlier_removal s = Ok s1 ->
  visual_only = true \/ outlier_removal = false ->
  forall k, preintegrated_imu_ (kfs s1 k) = preintegrated_imu_ (kfs s k).
Proof.
  unfold gba_first_round, gba_outlier_round. intros E Hmode k.
  destruct outlier_removal; [| apply Ok_inj in E; subst; reflexivity].
  destruct Hmode as [->|Hno]; [| discriminate].
  apply bind_Ok in E as (o & E & Eo). apply Ok_inj in Eo. subst s1.
  apply bind_Ok in E as (b & Eb & E).
  pose proof (gba1_build_imu _ _ Eb k) as Hb. unfold gba1_remove_outliers in E.
  apply (for_each_invariant _
           (fun x => preintegrated_imu_ (kfs (ol_state x) k) = preintegrated_imu_ (kfs s k))
           _ _ _) in E; [exact E | |].
  - intros i o1 o2 _ Ho1 E1. rewrite (gba_remove_outlier_imu _ _ _ _ _ _ E1). exact Ho1.
  - cbn [ol_state gba1_solved with_mem kfs]. exact Hb.
Qed.

(** X7.  The first pass moves no estimate.  It keeps the map and the cameras.
    A keyframe comes out as it went in but for its landmark slots, of which
    some have been emptied, and its IMU preintegration, which the pass
    repropagates; in visual-only mode, or without outlier removal, the
    preintegration is kept too.  A landmark comes out as it went in but for
    its observations, of which some have been erased. *)
Theorem gba_first_round_keeps_estimates visual_only outlier_removal s s1 :
  gba_first_round params visual_only outlier_removal s = Ok s1 ->
  map_ s1 = map_ s /\ cams s1 = cams s /\
  (forall k,
     kfs s1 k
     = set_kf_links (landmarks_ (kfs s1 k)) (preintegrated_imu_ (kfs s1 k)) (kfs s k) /\
     slots_emptied (landmarks_ (kfs s k)) (landmarks_ (kfs s1 k)) /\
     (visual_only = true \/ outlier_removal = false ->
      preintegrated_imu_ (kfs s1 k) = preintegrated_imu_ (kfs s k))) /\
  (forall l,
     lms s1 l
     = set_lm (pos_w (lms s l)) (observations (lms s1 l)) (lm_optimized (lms s l))
         (lm_is_gba_optimized_ (lms s l)) (lms s l) /\
     observations (lms s1 l) `sublist_of` observations (lms s l)).
Proof.
  intros E. pose proof (gba_first_round_frame _ _ _ _ _ E) as [Hmap Hcams Hkfs Hlms].
  split; [exact Hmap|]. split; [exact Hcams|]. split.
  - intros k. split; [exact (Hkfs k)|].
    split; [apply (gba_first_round_slots _ _ _ _ E)|].
    intros Hmode. apply (gba_first_round_imu _ _ _ _ E Hmode).
  - intros l. exact (Hlms l).
Qed.

(** *** The main round *)

Lemma imu_only_refl s : imu_only s s.
Proof. repeat split. intros k. destruct (kfs s k); reflexivity. Qed.

Lemma imu_only_trans s1 s2 s3 : imu_only s1 s2 -> imu_only s2 s3 -> imu_only s1 s3.
Proof.
  intros (M1 & C1 & L1 & K1) (M2 & C2 & L2 & K2).
  split; [congruence|]. split; [congruence|]. split; [congruence|].
  intros k. rewrite (K2 k) at 1. rewrite (K1 k). reflexivity.
Qed.

Lemma imu_only_with_mem m s : imu_only s (with_mem m s).
Proof. repeat split. intros k. cbn [with_mem kfs]. destruct (kfs s k); reflexivity. Qed.

Lemma imu_only_repropagate kf s : imu_only s (repropagate_from_ceres kf s).
Proof.
  repeat split. intros k. cbn [repropagate_from_ceres with_kf kfs]. unfold upd.
  destruct (decide (k = kf)); [reflexivity | destruct (kfs s k); reflexivity].
Qed.

Lemma imu_only_fields s s' k :
  imu_only s s' ->
  id_ (kfs s' k) = id_ (kfs s k) /\ kf_invalid (kfs s' k) = kf_invalid (kfs s k) /\
  T_ws (kfs s' k) = T_ws (kfs s k) /\ velocity (kfs s' k) = velocity (kfs s k) /\
  bias_accel (kfs s' k) = bias_accel (kfs s k) /\ bias_gyro (kfs s' k) = bias_gyro (kfs s k) /\
  T_sc (kfs s' k) = T_sc (kfs s k) /\ landmarks_ (kfs s' k) = landmarks_ (kfs s k) /\
  is_gba_optimized_ (kfs s' k) = is_gba_optimized_ (kfs s k) /\
  pose_optimized (kfs s' k) = pose_optimized (kfs s k) /\
  vel_bias_optimized (kfs s' k) = vel_bias_optimized (kfs s k).
Proof. intros (_ & _ & _ & K). rewrite (K k). repeat split. Qed.

Lemma imu_only_num_edges s s' obs : imu_only s s' -> num_edges s' obs = num_edges s obs.
Proof.
  intros Hs. unfold num_edges. f_equal. apply list_filter_iff. intros o.
  unfold valid_observer. destruct (fst o) as [kfx|]; [|reflexivity].
  destruct (imu_only_fields _ _ kfx Hs) as (_ & -> & _). reflexivity.
Qed.

Lemma gba2_add_keyframe_imu_only visual_only kf (b b' : BundleBuild) :
  gba2_add_keyframe params visual_only kf b = Ok b' ->
  imu_only (bb_state b) (bb_state b') /\ not_included_lms b' = not_included_lms b.
Proof.
  unfold gba2_add_keyframe. intros E.
  destruct (kf_invalid (kfs (bb_state b) kf));
    [apply Ok_inj in E; subst; split; [apply imu_only_refl | reflexivity]|].
  apply bind_Ok in E as (b0 & E0 & E). apply add_camera_parameters_Ok in E0.
  assert (F0 : imu_only (bb_state b) (bb_state b0) /\ not_included_lms b0 = not_included_lms b)
    by (rewrite E0; split; [apply imu_only_with_mem | reflexivity]).
  clear E0.
  destruct (negb visual_only); [| apply Ok_inj in E; subst b'; exact F0].
  destruct (predecessor _) as [pred|].
  - destruct (kf_invalid (kfs _ pred)).
    + destruct (bool_decide _); [discriminate | apply Ok_inj in E; subst b'; exact F0].
    + destruct (bool_decide (getNumMeasurements _ = 0)); [apply Ok_inj in E; subst b'; exact F0|].
      destruct (_ || _); [discriminate|].
      apply Ok_inj in E. subst b'. cbn [bb_state not_included_lms].
      split; [| apply F0].
      eapply imu_only_trans; [apply imu_only_with_mem | apply imu_only_repropagate].
  - destruct (bool_decide _); [discriminate | apply Ok_inj in E; subst b'; exact F0].
Qed.

(** The marks of the landmark loop of the main round: the landmark at index
    [i] is marked as left out exactly when it is valid and has fewer than two
    valid observers. *)
Lemma gba2_landmarks_marks s0 landmarks (b b' : BundleBuild) :
  imu_only s0 (bb_state b) ->
  not_included_lms b = replicate (length landmarks) false ->
  for_each (gba2_add_landmark landmarks) (seq 0 (length landmarks)) b = Ok b' ->
  imu_only s0 (bb_state b') /\
  forall i lm, landmarks !! i = Some lm ->
    not_included_lms b' !! i
    = Some (negb (lm_invalid (lms s0 lm))
            && bool_decide (num_edges s0 (observations (lms s0 lm)) < th_min_observations)).
Proof.
  intros Hs Hmarks E.
  pose proof (for_each_prefix (gba2_add_landmark landmarks)
    (fun pre x =>
       imu_only s0 (bb_state x) /\
       length (not_included_lms x) = length landmarks /\
       forall i lm, landmarks !! i = Some lm ->
         not_included_lms x !! i
         = Some (if decide (i ∈ pre)
                 then negb (lm_invalid (lms s0 lm))
                      && bool_decide (num_edges s0 (observations (lms s0 lm))
                                      < th_min_observations)
                 else false))
    (seq 0 (length landmarks)) [] b b') as Hloop.
  destruct Hloop as (Hs' & _ & Hm'); [| | exact E |].
  - clear E. intros pre j c1 c2 (Hc & Hlen & Hm) Ec.
    destruct (gba_add_landmark_cases _ _ _ _ _ Ec) as (lmj & Hj & Hcase).
    cbn zeta in Hcase. pose proof Hc as (_ & _ & Hlms & _).
    rewrite Hlms, (imu_only_num_edges _ _ _ Hc) in Hcase.
    assert (Hstate : imu_only s0 (bb_state c2)).
    { destruct (gba_add_landmark_state _ _ _ _ _ gba2_add_observation_state Ec) as [m ->].
      exact Hc. }
    split; [exact Hstate|].
    destruct Hcase as [[Hinv ->] | [(Hinv & Hfew & ->) | (Hinv & Hmany & Efor)]].
    + split; [exact Hlen|]. intros i lm Hi. rewrite (Hm i lm Hi).
      destruct (decide (i ∈ pre)) as [Hin|Hnin].
      * rewrite decide_True by (apply elem_of_app; left; exact Hin). reflexivity.
      * destruct (decide (i = j)) as [->|Hne].
        -- rewrite decide_True by (apply elem_of_app; right; apply list_elem_of_singleton;
                                   reflexivity).
           assert (lm = lmj) by congruence. subst lm. rewrite Hinv. reflexivity.
        -- rewrite decide_False; [reflexivity|].
           intros [Hin|Hin%list_elem_of_singleton]%elem_of_app; contradiction.
    + cbn [exclude_landmark not_included_lms]. split; [rewrite length_insert; exact Hlen|].
      intros i lm Hi. destruct (decide (i = j)) as [->|Hne].
      * rewrite list_lookup_insert_eq
          by (rewrite Hlen; apply lookup_lt_Some in Hj; exact Hj).
        rewrite decide_True by (apply elem_of_app; right; apply list_elem_of_singleton;
                                reflexivity).
        assert (lm = lmj) by congruence. subst lm. rewrite Hinv.
        rewrite bool_decide_eq_true_2 by exact Hfew. reflexivity.
      * rewrite list_lookup_insert_ne by congruence. rewrite (Hm i lm Hi).
        destruct (decide (i ∈ pre)) as [Hin|Hnin].
        -- rewrite decide_True by (apply elem_of_app; left; exact Hin). reflexivity.
        -- rewrite decide_False; [reflexivity|].
           intros [Hin|Hin%list_elem_of_singleton]%elem_of_app; contradiction.
    + assert (Hni : not_included_lms c2 = not_included_lms c1).
      { apply (for_each_invariant _
                 (fun x => not_included_lms x = not_included_lms c1) _ _ _) in Efor;
          [exact Efor | | reflexivity].
        intros o d1 d2 _ Hd Ed. apply gba2_add_observation_state in Ed as (_ & -> & _).
        exact Hd. }
      rewrite Hni. split; [exact Hlen|]. intros i lm Hi. rewrite (Hm i lm Hi).
      destruct (decide (i ∈ pre)) as [Hin|Hnin].
      * rewrite decide_True by (apply elem_of_app; left; exact Hin). reflexivity.
      * destruct (decide (i = j)) as [->|Hne].
        -- rewrite decide_True by (apply elem_of_app; right; apply list_elem_of_singleton;
                                   reflexivity).
           assert (lm = lmj) by congruence. subst lm. rewrite Hinv.
           rewrite bool_decide_eq_false_2 by lia. reflexivity.
        -- rewrite decide_False; [reflexivity|].
           intros [Hin|Hin%list_elem_of_singleton]%elem_of_app; contradiction.
  - split; [exact Hs|]. split; [rewrite Hmarks; apply length_replicate|].
    intros i lm Hi. rewrite decide_False by apply not_elem_of_nil.
    rewrite Hmarks. apply lookup_replicate_2. apply lookup_lt_Some in Hi. exact Hi.
  - split; [exact Hs'|]. intros i lm Hi. rewrite (Hm' i lm Hi).
    rewrite decide_True; [reflexivity|].
    apply elem_of_seq. apply lookup_lt_Some in Hi. simpl. lia.
Qed.

(** The problem of the main round is built without touching the graph, up to
    the buffers and the IMU preintegrations, and with the marks of
    [gba2_landmarks_marks]. *)
Lemma gba2_build_imu_only visual_only s b :
  gba2_build params visual_only s = Ok b ->
  imu_only s (bb_state b) /\
  forall i lm, GetLandmarksVec (map_ s) !! i = Some lm ->
    not_included_lms b !! i
    = Some (negb (lm_invalid (lms s lm))
            && bool_decide (num_edges s (observations (lms s lm)) < th_min_observations)).
Proof.
  unfold gba2_build. intros E.
  apply bind_Ok in E as (b1 & E1 & E). apply bind_Ok in E as (b2 & E2 & E).
  assert (Hk1 : imu_only s (bb_state b1) /\ not_included_lms b1 = not_included_lms (bundle_init s)).
  { refine (for_each_invariant _
              (fun x => imu_only s (bb_state x)
                        /\ not_included_lms x = not_included_lms (bundle_init s))
              _ _ _ _ _ E1); [| split; [apply imu_only_refl | reflexivity]].
    intros kf c1 c2 _ [Hc Hn] Ec. apply gba2_add_keyframe_imu_only in Ec as [Hc2 Hn2].
    split; [eapply imu_only_trans; eassumption | congruence]. }
  destruct Hk1 as [Hs1 Hn1].
  apply (gba2_landmarks_marks s) in E2 as [Hs2 Hm2]; [| exact Hs1 | exact Hn1].
  destruct (gba_use_map_loop_constraints params); apply Ok_inj in E; subst b;
    (split; [exact Hs2 | exact Hm2]).
Qed.

Lemma kf_moved_refl k : kf_moved k k.
Proof. destruct k; reflexivity. Qed.

Lemma kf_moved_trans k1 k2 k3 : kf_moved k1 k2 -> kf_moved k2 k3 -> kf_moved k1 k3.
Proof.
  unfold kf_moved. intros E1 E2. rewrite E2 at 1. rewrite E1. reflexivity.
Qed.

Lemma kf_moved_fields (k k' : Keyframe) :
  kf_moved k k' ->
  id_ k' = id_ k /\ kf_invalid k' = kf_invalid k /\ T_sc k' = T_sc k /\
  landmarks_ k' = landmarks_ k.
Proof. intros E. rewrite E. repeat split. Qed.

(** The keyframe write-back: what it does to one keyframe of the graph. *)
Lemma gba_recover_keyframes_spec visual_only (l : list nat) (s : State) k :
  let s' := foldl (gba_recover_keyframe visual_only) s l in
  mem s' = mem s /\ lms s' = lms s /\ map_ s' = map_ s /\ cams s' = cams s /\
  kf_moved (kfs s k) (kfs s' k) /\
  (visual_only = true ->
   velocity (kfs s' k) = velocity (kfs s k) /\ bias_accel (kfs s' k) = bias_accel (kfs s k) /\
   bias_gyro (kfs s' k) = bias_gyro (kfs s k) /\
   vel_bias_optimized (kfs s' k) = vel_bias_optimized (kfs s k)) /\
  (k ∉ l \/ kf_invalid (kfs s k) = true -> kfs s' k = kfs s k) /\
  (k ∈ l -> kf_invalid (kfs s k) = false ->
   T_ws (kfs s' k) = Ceres2Transform (load (mem s) (ceres_pose_ k, 0) kPoseBlockSize) /\
   pose_optimized (kfs s' k) = true /\ is_gba_optimized_ (kfs s' k) = true /\
   (visual_only = false ->
    velocity (kfs s' k) = vec3_at (mem s) (ceres_velocity_and_bias_ k) 0 /\
    bias_accel (kfs s' k) = vec3_at (mem s) (ceres_velocity_and_bias_ k) 3 /\
    bias_gyro (kfs s' k) = vec3_at (mem s) (ceres_velocity_and_bias_ k) 6 /\
    vel_bias_optimized (kfs s' k) = true)).
Proof.
  cbn zeta.
  refine (foldl_prefix (gba_recover_keyframe visual_only)
    (fun pre x =>
       mem x = mem s /\ lms x = lms s /\ map_ x = map_ s /\ cams x = cams s /\
       kf_moved (kfs s k) (kfs x k) /\
       (visual_only = true ->
        velocity (kfs x k) = velocity (kfs s k) /\ bias_accel (kfs x k) = bias_accel (kfs s k) /\
        bias_gyro (kfs x k) = bias_gyro (kfs s k) /\
        vel_bias_optimized (kfs x k) = vel_bias_optimized (kfs s k)) /\
       (k ∉ pre \/ kf_invalid (kfs s k) = true -> kfs x k = kfs s k) /\
       (k ∈ pre -> kf_invalid (kfs s k) = false ->
        T_ws (kfs x k) = Ceres2Transform (load (mem s) (ceres_pose_ k, 0) kPoseBlockSize) /\
        pose_optimized (kfs x k) = true /\ is_gba_optimized_ (kfs x k) = true /\
        (visual_only = false ->
         velocity (kfs x k) = vec3_at (mem s) (ceres_velocity_and_bias_ k) 0 /\
         bias_accel (kfs x k) = vec3_at (mem s) (ceres_velocity_and_bias_ k) 3 /\
         bias_gyro (kfs x k) = vec3_at (mem s) (ceres_velocity_and_bias_ k) 6 /\
         vel_bias_optimized (kfs x k) = true)))
    l [] s _ _).
  - intros pre kf x (Hmem & Hlms & Hmap & Hcams & Hmv & Hvo & Hout & Hin).
    pose proof (kf_moved_fields _ _ Hmv) as (_ & Hval & _).
    unfold gba_recover_keyframe.
    destruct (kf_invalid (kfs x kf)) eqn:Hinv.
    + repeat (split; [assumption|]). split.
      * intros [Hnin|Hi]; apply Hout; [left | right; exact Hi].
        intros Hp. apply Hnin. apply elem_of_app. left. exact Hp.
      * intros [Hp|Hp%list_elem_of_singleton]%elem_of_app Hv; [apply Hin; assumption|].
        subst kf. congruence.
    + cbn [with_kf mem lms map_ cams kfs]. unfold upd.
      repeat (split; [assumption|]).
      destruct (decide (k = kf)) as [->|Hne].
      * rewrite Hmem. split; [|split; [|split]].
        -- eapply kf_moved_trans; [exact Hmv|]. destruct visual_only; reflexivity.
        -- intros ->. cbn. apply Hvo. reflexivity.
        -- intros [Hnin|Hi]; [| congruence].
           exfalso. apply Hnin. apply elem_of_app. right. apply list_elem_of_singleton.
           reflexivity.
        -- intros _ _. destruct visual_only; cbn; repeat split; discriminate.
      * split; [exact Hmv|]. split; [exact Hvo|]. split.
        -- intros [Hnin|Hi]; apply Hout; [left | right; exact Hi].
           intros Hp. apply Hnin. apply elem_of_app. left. exact Hp.
        -- intros [Hp|Hp%list_elem_of_singleton]%elem_of_app Hv; [apply Hin; assumption|].
           congruence.
  - repeat (split; [reflexivity|]). split; [apply kf_moved_refl|].
    split; [intros _; repeat split|]. split; [reflexivity|].
    intros Hn. apply elem_of_nil in Hn. destruct Hn.
Qed.

Lemma lm_moved_refl l : lm_moved l l.
Proof. destruct l; reflexivity. Qed.

Lemma lm_moved_trans l1 l2 l3 : lm_moved l1 l2 -> lm_moved l2 l3 -> lm_moved l1 l3.
Proof. unfold lm_moved. intros E1 E2. rewrite E2 at 1. rewrite E1. reflexivity. Qed.

Lemma lm_moved_fields (l l' : Landmark) :
  lm_moved l l' ->
  lm_invalid l' = lm_invalid l /\ observations l' = observations l /\
  reference_keyframe l' = reference_keyframe l.
Proof. intros E. rewrite E. repeat split. Qed.

(** The landmark write-back: what it does to one landmark of the graph. *)
Lemma gba_recover_landmarks_spec marks landmarks (s s' : State) lm :
  for_each (gba_recover_landmark marks landmarks) (seq 0 (length landmarks)) s = Ok s' ->
  mem s' = mem s /\ kfs s' = kfs s /\ map_ s' = map_ s /\ cams s' = cams s /\
  lm_moved (lms s lm) (lms s' lm) /\
  ((forall i, landmarks !! i = Some lm -> marks !! i = Some true)
   \/ lm_invalid (lms s lm) = true -> lms s' lm = lms s lm) /\
  (forall i, landmarks !! i = Some lm -> marks !! i = Some false ->
     lm_invalid (lms s lm) = false ->
     pos_w (lms s' lm) = vec3_at (mem s) (ceres_pos_ lm) 0 /\
     lm_optimized (lms s' lm) = true /\ lm_is_gba_optimized_ (lms s' lm) = true).
Proof.
  intros E.
  pose proof (for_each_prefix (gba_recover_landmark marks landmarks)
    (fun pre x =>
       mem x = mem s /\ kfs x = kfs s /\ map_ x = map_ s /\ cams x = cams s /\
       lm_moved (lms s lm) (lms x lm) /\
       ((forall i, landmarks !! i = Some lm -> marks !! i = Some true)
        \/ lm_invalid (lms s lm) = true -> lms x lm = lms s lm) /\
       (forall i, i ∈ pre -> landmarks !! i = Some lm -> marks !! i = Some false ->
          lm_invalid (lms s lm) = false ->
          pos_w (lms x lm) = vec3_at (mem s) (ceres_pos_ lm) 0 /\
          lm_optimized (lms x lm) = true /\ lm_is_gba_optimized_ (lms x lm) = true))
    (seq 0 (length landmarks)) [] s s') as Hloop.
  destruct Hloop as (Hmem & Hkfs & Hmap & Hcams & Hmv & Hout & Hin); [| | exact E |].
  - clear E. intros pre j x1 x2 (Hmem & Hkfs & Hmap & Hcams & Hmv & Hout & Hin) E1.
    unfold gba_recover_landmark in E1.
    apply bind_Ok in E1 as (skip & Eskip & E1). apply vec_at_Ok in Eskip.
    pose proof (lm_moved_fields _ _ Hmv) as (Hval & _).
    destruct skip.
    { apply Ok_inj in E1. subst x2. repeat (split; [assumption|]).
      intros i [Hp|Hp%list_elem_of_singleton]%elem_of_app Hi Hm Hv;
        [apply (Hin i); assumption | congruence]. }
    apply bind_Ok in E1 as (lm' & Elm & E1). apply vec_at_Ok in Elm.
    destruct (lm_invalid (lms x1 lm')) eqn:Hinv; apply Ok_inj in E1; subst x2.
    { repeat (split; [assumption|]).
      intros i [Hp|Hp%list_elem_of_singleton]%elem_of_app Hi Hm Hv;
        [apply (Hin i); assumption | congruence]. }
    cbn [with_lm mem kfs map_ cams lms]. unfold upd.
    repeat (split; [assumption|]).
    destruct (decide (lm = lm')) as [<-|Hne].
    + rewrite Hmem. split; [|split].
      * eapply lm_moved_trans; [exact Hmv | reflexivity].
      * intros [Hall|Hi]; [| congruence].
        rewrite (Hall j Elm) in Eskip. discriminate.
      * intros _ _ _ _ _. repeat split.
    + split; [exact Hmv|]. split; [exact Hout|].
      intros i [Hp|Hp%list_elem_of_singleton]%elem_of_app Hi Hm Hv;
        [apply (Hin i); assumption | congruence].
  - repeat (split; [reflexivity|]). split; [apply lm_moved_refl|].
    split; [reflexivity|]. intros i Hi. apply elem_of_nil in Hi. destruct Hi.
  - repeat (split; [assumption|]). intros i Hi Hm Hv.
    apply (Hin i); [| assumption..].
    apply elem_of_seq. apply lookup_lt_Some in Hi. simpl. lia.
Qed.

(** The main round, from the graph it is given to the graph it leaves. *)
Lemma gba_main_round_spec interations_limit visual_only (s s2 : State) :
  gba_main_round params interations_limit visual_only s = Ok s2 ->
  exists b, gba2_build params visual_only s = Ok b /\
    let m := Solve (bundle_options params interations_limit) (bb_problem b)
               (mem (bb_state b)) in
    map_ s2 = map_ s /\ cams s2 = cams s /\ mem s2 = m /\
    (forall k,
       kf_invalid (kfs s2 k) = kf_invalid (kfs s k) /\ T_sc (kfs s2 k) = T_sc (kfs s k) /\
       landmarks_ (kfs s2 k) = landmarks_ (kfs s k) /\
       (visual_only = true ->
        velocity (kfs s2 k) = velocity (kfs s k) /\
        bias_accel (kfs s2 k) = bias_accel (kfs s k) /\
        bias_gyro (kfs s2 k) = bias_gyro (kfs s k)) /\
       (k ∉ GetKeyframesVec (map_ s) \/ kf_invalid (kfs s k) = true ->
        T_ws (kfs s2 k) = T_ws (kfs s k) /\ velocity (kfs s2 k) = velocity (kfs s k) /\
        bias_accel (kfs s2 k) = bias_accel (kfs s k) /\
        bias_gyro (kfs s2 k) = bias_gyro (kfs s k)) /\
       (k ∈ GetKeyframesVec (map_ s) -> kf_invalid (kfs s k) = false ->
        T_ws (kfs s2 k) = Ceres2Transform (load m (ceres_pose_ k, 0) kPoseBlockSize) /\
        pose_optimized (kfs s2 k) = true /\ is_gba_optimized_ (kfs s2 k) = true /\
        (visual_only = false ->
         velocity (kfs s2 k) = vec3_at m (ceres_velocity_and_bias_ k) 0 /\
         bias_accel (kfs s2 k) = vec3_at m (ceres_velocity_and_bias_ k) 3 /\
         bias_gyro (kfs s2 k) = vec3_at m (ceres_velocity_and_bias_ k) 6 /\
         vel_bias_optimized (kfs s2 k) = true))) /\
    (forall lm,
       lm_invalid (lms s2 lm) = lm_invalid (lms s lm) /\
       observations (lms s2 lm) = observations (lms s lm) /\
       reference_keyframe (lms s2 lm) = reference_keyframe (lms s lm) /\
       (lm ∉ GetLandmarksVec (map_ s) \/ lm_invalid (lms s lm) = true ->
        pos_w (lms s2 lm) = pos_w (lms s lm)) /\
       (lm ∈ GetLandmarksVec (map_ s) -> lm_invalid (lms s lm) = false ->
        th_min_observations <= num_edges s (observations (lms s lm)) ->
        pos_w (lms s2 lm) = vec3_at m (ceres_pos_ lm) 0 /\
        lm_optimized (lms s2 lm) = true /\ lm_is_gba_optimized_ (lms s2 lm) = true)).
Proof.
  unfold gba_main_round. intros E. apply bind_Ok in E as (b & Eb & E).
  exists b. split; [exact Eb|]. cbn zeta.
  destruct (gba2_build_imu_only _ _ _ Eb) as [Hb Hmarks].
  pose proof Hb as (Hbmap & Hbcams & Hblms & _).
  set (m := Solve (bundle_options params interations_limit) (bb_problem b)
              (mem (bb_state b))) in *.
  set (sk := foldl (gba_recover_keyframe visual_only) (with_mem m (bb_state b))
               (GetKeyframesVec (map_ s))) in *.
  assert (Hk : forall k, _) by
    (intros k; exact (gba_recover_keyframes_spec visual_only (GetKeyframesVec (map_ s))
                        (with_mem m (bb_state b)) k)).
  cbn zeta in Hk. fold sk in Hk. cbn [with_mem mem lms map_ cams kfs] in Hk.
  destruct (Hk 0) as (Hkmem & Hklms & Hkmap & Hkcams & _).
  assert (Hl : forall lm, _) by
    (intros lm; exact (gba_recover_landmarks_spec _ _ _ _ lm E)).
  destruct (Hl 0) as (Hlmem & Hlkfs & Hlmap & Hlcams & _).
  split; [congruence|]. split; [congruence|]. split; [congruence|]. split.
  - intros k. rewrite Hlkfs.
    destruct (Hk k) as (_ & _ & _ & _ & Hmv & Hvo & Hout & Hin).
    destruct (kf_moved_fields _ _ Hmv) as (_ & Hv & Hsc & Hslots).
    destruct (imu_only_fields _ _ k Hb)
      as (_ & Hv' & HT' & Hvel' & HbA' & HbG' & Hsc' & Hslots' & _).
    split; [congruence|]. split; [congruence|]. split; [congruence|]. split; [|split].
    + intros Hvis. destruct (Hvo Hvis) as (-> & -> & -> & _). auto.
    + intros Hcase. rewrite Hout; [auto|].
      destruct Hcase as [Hnin|Hi]; [left; exact Hnin | right; congruence].
    + intros Hin' Hval. apply Hin; [exact Hin' | congruence].
  - intros lm. destruct (Hl lm) as (_ & _ & _ & _ & Hmv & Hout & Hin).
    destruct (lm_moved_fields _ _ Hmv) as (Hv & Hobs & Href).
    rewrite Hklms in Hv, Hobs, Href, Hout, Hin. cbn [with_mem lms] in Hv, Hobs, Href, Hout, Hin.
    rewrite Hblms in Hv, Hobs, Href, Hout, Hin.
    split; [exact Hv|]. split; [exact Hobs|]. split; [exact Href|]. split.
    + intros Hcase. rewrite Hout; [reflexivity|].
      destruct Hcase as [Hnin|Hi]; [left | right; exact Hi].
      intros i Hi. exfalso. apply Hnin. eapply list_elem_of_lookup_2, Hi.
    + intros [i Hi]%list_elem_of_lookup_1 Hval Hmany.
      rewrite Hkmem in Hin. cbn [with_mem mem] in Hin.
      apply (Hin i); [exact Hi | | exact Hval].
      rewrite (Hmarks i lm Hi), Hval, bool_decide_eq_false_2 by lia. reflexivity.
Qed.

Lemma GlobalBundleAdjustment_rounds s interations_limit time_limit visual_only
    outlier_removal estimate_bias s' :
  GlobalBundleAdjustment params s interations_limit time_limit visual_only outlier_removal
    estimate_bias = Ok s' ->
  exists s1 s2,
    gba_first_round params visual_only outlier_removal s = Ok s1 /\
    gba_main_round params interations_limit visual_only s1 = Ok s2 /\ s' = Clean s2.
Proof.
  unfold GlobalBundleAdjustment. intros E.
  apply bind_Ok in E as (s1 & E1 & E). apply bind_Ok in E as (s2 & E2 & E).
  apply Ok_inj in E. eauto.
Qed.

(** X8.  Global Bundle Adjustment, the write-back.  The graph handed to the
    clean-up of the map holds, for every valid keyframe of the keyframe
    vector, the pose read from its solved pose block, flagged as optimised
    (and outside visual-only mode the velocity and the biases read from its
    solved velocity and bias block); and for every valid landmark of the
    landmark vector that enters the main round with at least two valid
    observers, the position read from its solved position block, flagged as
    optimised. *)
Theorem GlobalBundleAdjustment_write_back s interations_limit time_limit visual_only
    outlier_removal estimate_bias s' :
  GlobalBundleAdjustment params s interations_limit time_limit visual_only outlier_removal
    estimate_bias = Ok s' ->
  exists s1 b s2,
    gba_first_round params visual_only outlier_removal s = Ok s1 /\
    gba2_build params visual_only s1 = Ok b /\ s' = Clean s2 /\
    let m := Solve (bundle_options params interations_limit) (bb_problem b)
               (mem (bb_state b)) in
    (forall kf, kf ∈ GetKeyframesVec (map_ s) -> kf_invalid (kfs s kf) = false ->
       T_ws (kfs s2 kf) = Ceres2Transform (load m (ceres_pose_ kf, 0) kPoseBlockSize) /\
       pose_optimized (kfs s2 kf) = true /\ is_gba_optimized_ (kfs s2 kf) = true /\
       (visual_only = false ->
        velocity (kfs s2 kf) = vec3_at m (ceres_velocity_and_bias_ kf) 0 /\
        bias_accel (kfs s2 kf) = vec3_at m (ceres_velocity_and_bias_ kf) 3 /\
        bias_gyro (kfs s2 kf) = vec3_at m (ceres_velocity_and_bias_ kf) 6 /\
        vel_bias_optimized (kfs s2 kf) = true)) /\
    (forall lm, lm ∈ GetLandmarksVec (map_ s) -> lm_invalid (lms s lm) = false ->
       th_min_observations <= num_edges s1 (observations (lms s1 lm)) ->
       pos_w (lms s2 lm) = vec3_at m (ceres_pos_ lm) 0 /\
       lm_optimized (lms s2 lm) = true /\ lm_is_gba_optimized_ (lms s2 lm) = true).
Proof.
  intros E. apply GlobalBundleAdjustment_rounds in E as (s1 & s2 & E1 & E2 & ->).
  pose proof (gba_first_round_frame _ _ _ _ _ E1) as F.
  destruct (gba_main_round_spec _ _ _ _ E2) as (b & Eb & _ & _ & _ & Hk & Hl).
  exists s1, b, s2. split; [exact E1|]. split; [exact Eb|]. split; [reflexivity|].
  cbn zeta. split.
  - intros kf Hin Hval. destruct (Hk kf) as (_ & _ & _ & _ & _ & Hw).
    destruct (frame_kf _ _ kf F) as (Hv & _).
    apply Hw; [rewrite (fr_map _ _ F); exact Hin | congruence].
  - intros lm Hin Hval Hmany. destruct (Hl lm) as (_ & _ & _ & _ & Hw).
    destruct (frame_lm _ _ lm F) as (Hv & _).
    apply Hw; [rewrite (fr_map _ _ F); exact Hin | congruence | exact Hmany].
Qed.

(** X9.  Global Bundle Adjustment, what it leaves alone.  In the graph handed to
    the clean-up of the map, the map and the cameras are those of the call;
    no keyframe has changed its validity or its extrinsics, and its landmark
    slots are the old ones with some emptied; in visual-only mode no velocity
    and no bias has changed; a keyframe that is invalid or not in the keyframe
    vector has kept its pose, velocity and biases.  No landmark has changed
    its validity or its reference keyframe or gained an observation, and a
    landmark that is invalid or not in the landmark vector has kept its
    position. *)
Theorem GlobalBundleAdjustment_leaves_alone s interations_limit time_limit visual_only
    outlier_removal estimate_bias s' :
  GlobalBundleAdjustment params s interations_limit time_limit visual_only outlier_removal
    estimate_bias = Ok s' ->
  exists s2, s' = Clean s2 /\ map_ s2 = map_ s /\ cams s2 = cams s /\
    (forall k,
       kf_invalid (kfs s2 k) = kf_invalid (kfs s k) /\ T_sc (kfs s2 k) = T_sc (kfs s k) /\
       slots_emptied (landmarks_ (kfs s k)) (landmarks_ (kfs s2 k)) /\
       (visual_only = true ->
        velocity (kfs s2 k) = velocity (kfs s k) /\
        bias_accel (kfs s2 k) = bias_accel (kfs s k) /\
        bias_gyro (kfs s2 k) = bias_gyro (kfs s k)) /\
       (k ∉ GetKeyframesVec (map_ s) \/ kf_invalid (kfs s k) = true ->
        T_ws (kfs s2 k) = T_ws (kfs s k) /\ velocity (kfs s2 k) = velocity (kfs s k) /\
        bias_accel (kfs s2 k) = bias_accel (kfs s k) /\
        bias_gyro (kfs s2 k) = bias_gyro (kfs s k))) /\
    (forall lm,
       lm_invalid (lms s2 lm) = lm_invalid (lms s lm) /\
       reference_keyframe (lms s2 lm) = reference_keyframe (lms s lm) /\
       observations (lms s2 lm) `sublist_of` observations (lms s lm) /\
       (lm ∉ GetLandmarksVec (map_ s) \/ lm_invalid (lms s lm) = true ->
        pos_w (lms s2 lm) = pos_w (lms s lm))).
Proof.
  intros E. apply GlobalBundleAdjustment_rounds in E as (s1 & s2 & E1 & E2 & ->).
  pose proof (gba_first_round_frame _ _ _ _ _ E1) as [Fmap Fcams Fkfs Flms].
  pose proof (gba_first_round_slots _ _ _ _ E1) as Hslots.
  destruct (gba_main_round_spec _ _ _ _ E2) as (b & Eb & Hmap & Hcams & _ & Hk & Hl).
  exists s2. split; [reflexivity|]. split; [congruence|]. split; [congruence|]. split.
  - intros k. destruct (Hk k) as (Hv & Hsc & Hsl & Hvo & Hout & _).
    destruct (kf_same_fields _ _ (Fkfs k)) as (_ & Hv1 & HT1 & Hvel1 & HbA1 & HbG1 & Hsc1 & _).
    split; [congruence|]. split; [congruence|]. split; [rewrite Hsl; apply Hslots|]. split.
    + intros Hvis. destruct (Hvo Hvis) as (-> & -> & ->). auto.
    + intros Hcase. rewrite Fmap, Hv1 in Hout. destruct (Hout Hcase) as (-> & -> & -> & ->).
      auto.
  - intros lm. destruct (Hl lm) as (Hv & Hobs & Href & Hout & _).
    destruct (Flms lm) as [El Hsub].
    assert (Hv1 : lm_invalid (lms s1 lm) = lm_invalid (lms s lm)) by (rewrite El; reflexivity).
    assert (Hr1 : reference_keyframe (lms s1 lm) = reference_keyframe (lms s lm))
      by (rewrite El; reflexivity).
    assert (Hp1 : pos_w (lms s1 lm) = pos_w (lms s lm)) by (rewrite El; reflexivity).
    split; [congruence|]. split; [congruence|]. split; [rewrite Hobs; exact Hsub|].
    intros Hcase. rewrite Fmap, Hv1 in Hout. rewrite (Hout Hcase). exact Hp1.
Qed.

End BundleRun.

(** ** Global Bundle Adjustment: what a run needs *)

Section BundleRequirements.
Context `{Geometry} `{!Solver} `{!MapBackend}.
Variable params : Params.

Lemma add_camera_parameters_type kf (b b' : BundleBuild) :
  add_camera_parameters kf b = Ok b' ->
  getType (cams (bb_state b) (camera_ (kfs (bb_state b) kf))) = kPinhole
  \/ getType (cams (bb_state b) (camera_ (kfs (bb_state b) kf))) = kUnifiedProjection.
Proof.
  unfold add_camera_parameters.
  destruct (getType _); intros E; try discriminate; auto.
Qed.

Lemma new_GlobalEuclideanReprError_supported cam kpx sigma camera c :
  new_GlobalEuclideanReprError cam kpx sigma camera = Ok c -> supported_camera cam.
Proof.
  unfold new_GlobalEuclideanReprError, supported_camera. intros E.
  destruct (getType cam); try discriminate;
    destruct (getDistortionType cam); try discriminate; auto.
Qed.

Lemma map_insert_new_is_Some {V} (m : gmap idpair V) k v k' :
  is_Some (map_insert_new k v m !! k') -> is_Some (m !! k') \/ k' = k.
Proof.
  unfold map_insert_new. destruct (m !! k) eqn:Ek; [auto|].
  destruct (decide (k' = k)) as [->|Hne]; [auto|].
  rewrite lookup_insert_ne by congruence. auto.
Qed.

(** What a keyframe round of the first pass needs, and what it records. *)
Lemma gba1_add_keyframe_needs visual_only kf (b b' : BundleBuild) :
  gba1_add_keyframe visual_only kf b = Ok b' ->
  imu_only (bb_state b) (bb_state b') /\
  (forall key, is_Some (intrinsics_map b' !! key) ->
     is_Some (intrinsics_map b !! key)
     \/ (key = id_ (kfs (bb_state b) kf) /\ kf_invalid (kfs (bb_state b) kf) = false)) /\
  (kf_invalid (kfs (bb_state b) kf) = false ->
   let s := bb_state b in
   (getType (cams s (camera_ (kfs s kf))) = kPinhole
    \/ getType (cams s (camera_ (kfs s kf))) = kUnifiedProjection) /\
   (visual_only = false -> fst (id_ (kfs s kf)) <> 0 ->
    exists pred, predecessor (kfs s kf) = Some pred /\ kf_invalid (kfs s pred) = false)).
Proof.
  unfold gba1_add_keyframe. intros E.
  destruct (kf_invalid (kfs (bb_state b) kf)) eqn:Hinv.
  { apply Ok_inj in E. subst b'.
    split; [apply imu_only_refl|]. split; [auto | discriminate]. }
  apply bind_Ok in E as (b0 & E0 & E).
  pose proof (add_camera_parameters_type _ _ _ E0) as Htype.
  apply add_camera_parameters_Ok in E0.
  cbn [bb_state bb_update UpdateCeresFromState with_mem cams kfs] in Htype.
  assert (F0 : imu_only (bb_state b) (bb_state b0))
    by (rewrite E0; apply imu_only_with_mem).
  assert (I0 : forall key, is_Some (intrinsics_map b0 !! key) ->
     is_Some (intrinsics_map b !! key) \/ (key = id_ (kfs (bb_state b) kf) /\ false = false)).
  { rewrite E0. cbn [add_camera_blocks intrinsics_map bb_update bb_state]. intros key Hk.
    apply map_insert_new_is_Some in Hk as [Hk| ->]; [left; exact Hk | right].
    split; reflexivity. }
  assert (S0 : bb_state b0 = UpdateCeresFromState kf (bb_state b)) by (rewrite E0; reflexivity).
  clear E0. cbn zeta. cbn [UpdateCeresFromState with_mem kfs] in E.
  destruct visual_only; cbn [negb] in E.
  { apply Ok_inj in E. subst b'. split; [exact F0|]. split; [exact I0|].
    intros _. split; [exact Htype | discriminate]. }
  destruct (predecessor (kfs (bb_state b) kf)) as [pred|] eqn:Hpred.
  - destruct (kf_invalid (kfs (bb_state b) pred)) eqn:Hpv.
    + destruct (bool_decide (fst (id_ (kfs (bb_state b) kf)) ≠ 0)) eqn:Hid; [discriminate|].
      apply Ok_inj in E. subst b'. split; [exact F0|]. split; [exact I0|].
      intros _. split; [exact Htype|]. intros _ Hne.
      apply bool_decide_eq_false in Hid. contradiction.
    + apply Ok_inj in E. subst b'. cbn [bb_state bb_update intrinsics_map].
      split; [| split; [exact I0|]].
      * eapply imu_only_trans; [apply imu_only_with_mem | apply imu_only_repropagate].
      * intros _. split; [exact Htype|]. intros _ _. eauto.
  - destruct (bool_decide (fst (id_ (kfs (bb_state b) kf)) ≠ 0)) eqn:Hid; [discriminate|].
    apply Ok_inj in E. subst b'. split; [exact F0|]. split; [exact I0|].
    intros _. split; [exact Htype|]. intros _ Hne.
    apply bool_decide_eq_false in Hid. contradiction.
Qed.

(** The same for the main round. *)
Lemma gba2_add_keyframe_needs visual_only kf (b b' : BundleBuild) :
  gba2_add_keyframe params visual_only kf b = Ok b' ->
  imu_only (bb_state b) (bb_state b') /\
  (forall key, is_Some (intrinsics_map b' !! key) ->
     is_Some (intrinsics_map b !! key)
     \/ (key = id_ (kfs (bb_state b) kf) /\ kf_invalid (kfs (bb_state b) kf) = false)) /\
  (kf_invalid (kfs (bb_state b) kf) = false ->
   let s := bb_state b in
   (getType (cams s (camera_ (kfs s kf))) = kPinhole
    \/ getType (cams s (camera_ (kfs s kf))) = kUnifiedProjection) /\
   (visual_only = false -> fst (id_ (kfs s kf)) <> 0 ->
    exists pred, predecessor (kfs s kf) = Some pred /\ kf_invalid (kfs s pred) = false)).
Proof.
  unfold gba2_add_keyframe. intros E.
  destruct (kf_invalid (kfs (bb_state b) kf)) eqn:Hinv.
  { apply Ok_inj in E. subst b'.
    split; [apply imu_only_refl|]. split; [auto | discriminate]. }
  apply bind_Ok in E as (b0 & E0 & E).
  pose proof (add_camera_parameters_type _ _ _ E0) as Htype.
  apply add_camera_parameters_Ok in E0.
  cbn [bb_state bb_update UpdateCeresFromState with_mem cams kfs] in Htype.
  assert (F0 : imu_only (bb_state b) (bb_state b0))
    by (rewrite E0; apply imu_only_with_mem).
  assert (I0 : forall key, is_Some (intrinsics_map b0 !! key) ->
     is_Some (intrinsics_map b !! key) \/ (key = id_ (kfs (bb_state b) kf) /\ false = false)).
  { rewrite E0. cbn [add_camera_blocks intrinsics_map bb_update bb_state]. intros key Hk.
    apply map_insert_new_is_Some in Hk as [Hk| ->]; [left; exact Hk | right].
    split; reflexivity. }
  assert (S0 : bb_state b0 = UpdateCeresFromState kf (bb_state b)) by (rewrite E0; reflexivity).
  clear E0. cbn zeta. cbn [UpdateCeresFromState with_mem kfs] in E.
  destruct visual_only; cbn [negb] in E.
  { apply Ok_inj in E. subst b'. split; [exact F0|]. split; [exact I0|].
    intros _. split; [exact Htype | discriminate]. }
  destruct (predecessor (kfs (bb_state b) kf)) as [pred|] eqn:Hpred.
  - destruct (kf_invalid (kfs (bb_state b) pred)) eqn:Hpv.
    + destruct (bool_decide (fst (id_ (kfs (bb_state b) kf)) ≠ 0)) eqn:Hid; [discriminate|].
      apply Ok_inj in E. subst b'. split; [exact F0|]. split; [exact I0|].
      intros _. split; [exact Htype|]. intros _ Hne.
      apply bool_decide_eq_false in Hid. contradiction.
    + destruct (bool_decide (getNumMeasurements _ = 0)).
      { apply Ok_inj in E. subst b'. split; [exact F0|]. split; [exact I0|].
        intros _. split; [exact Htype|]. intros _ _. eauto. }
      destruct (_ || _); [discriminate|].
      apply Ok_inj in E. subst b'. cbn [bb_state intrinsics_map].
      split; [| split; [exact I0|]].
      * eapply imu_only_trans; [apply imu_only_with_mem | apply imu_only_repropagate].
      * intros _. split; [exact Htype|]. intros _ _. eauto.
  - destruct (bool_decide (fst (id_ (kfs (bb_state b) kf)) ≠ 0)) eqn:Hid; [discriminate|].
    apply Ok_inj in E. subst b'. split; [exact F0|]. split; [exact I0|].
    intros _. split; [exact Htype|]. intros _ Hne.
    apply bool_decide_eq_false in Hid. contradiction.
Qed.

(** What the factor of an observation by a valid keyframe needs. *)
Lemma gba1_add_observation_needs lm o kfx (b b' : BundleBuild) :
  gba1_add_observation lm o b = Ok b' ->
  fst o = Some kfx -> kf_invalid (kfs (bb_state b) kfx) = false ->
  supported_camera (cams (bb_state b) (camera_ (kfs (bb_state b) kfx))) /\
  is_Some (intrinsics_map b !! id_ (kfs (bb_state b) kfx)).
Proof.
  unfold gba1_add_observation. intros E Ho Hv. rewrite Ho, Hv in E.
  apply bind_Ok in E as (c & Ec & E). apply bind_Ok in E as (intr & Ei & _).
  apply new_GlobalEuclideanReprError_supported in Ec. apply map_at_Ok in Ei.
  split; [exact Ec | eauto].
Qed.

Lemma gba2_add_observation_needs lm o kfx (b b' : BundleBuild) :
  gba2_add_observation lm o b = Ok b' ->
  fst o = Some kfx -> kf_invalid (kfs (bb_state b) kfx) = false ->
  supported_camera (cams (bb_state b) (camera_ (kfs (bb_state b) kfx))) /\
  is_Some (intrinsics_map b !! id_ (kfs (bb_state b) kfx)).
Proof.
  unfold gba2_add_observation. intros E Ho Hv. rewrite Ho, Hv in E.
  destruct (intrinsics_map b !! id_ (kfs (bb_state b) kfx)) as [intr|] eqn:Ei; [|discriminate].
  apply bind_Ok in E as (c & Ec & _).
  apply new_GlobalEuclideanReprError_supported in Ec. split; [exact Ec | eauto].
Qed.

(** What the two loops of a construction need of the graph [s] they start
    from, whichever round they belong to. *)
Lemma bundle_loops_need
    (add_keyframe : KeyframePtr -> BundleBuild -> Result BundleBuild)
    (add_observation : LandmarkPtr -> option KeyframePtr * Z -> BundleBuild
                       -> Result BundleBuild)
    (visual_only : bool) (s : State) (b1 b2 : BundleBuild) :
  (forall kf b b', add_keyframe kf b = Ok b' ->
     imu_only (bb_state b) (bb_state b') /\
     (forall key, is_Some (intrinsics_map b' !! key) ->
        is_Some (intrinsics_map b !! key)
        \/ (key = id_ (kfs (bb_state b) kf) /\ kf_invalid (kfs (bb_state b) kf) = false)) /\
     (kf_invalid (kfs (bb_state b) kf) = false ->
      let s := bb_state b in
      (getType (cams s (camera_ (kfs s kf))) = kPinhole
       \/ getType (cams s (camera_ (kfs s kf))) = kUnifiedProjection) /\
      (visual_only = false -> fst (id_ (kfs s kf)) <> 0 ->
       exists pred, predecessor (kfs s kf) = Some pred /\ kf_invalid (kfs s pred) = false))) ->
  observation_step add_observation ->
  (forall lm o kfx b b', add_observation lm o b = Ok b' ->
     fst o = Some kfx -> kf_invalid (kfs (bb_state b) kfx) = false ->
     supported_camera (cams (bb_state b) (camera_ (kfs (bb_state b) kfx))) /\
     is_Some (intrinsics_map b !! id_ (kfs (bb_state b) kfx))) ->
  for_each add_keyframe (GetKeyframesVec (map_ s)) (bundle_init s) = Ok b1 ->
  for_each (gba_add_landmark add_observation (GetLandmarksVec (map_ s)))
    (seq 0 (length (GetLandmarksVec (map_ s)))) b1 = Ok b2 ->
  (forall kf, kf ∈ GetKeyframesVec (map_ s) -> kf_invalid (kfs s kf) = false ->
     (getType (cams s (camera_ (kfs s kf))) = kPinhole
      \/ getType (cams s (camera_ (kfs s kf))) = kUnifiedProjection) /\
     (visual_only = false -> fst (id_ (kfs s kf)) <> 0 ->
      exists pred, predecessor (kfs s kf) = Some pred /\ kf_invalid (kfs s pred) = false)) /\
  (forall lm kfx feat_id,
     lm ∈ GetLandmarksVec (map_ s) -> lm_invalid (lms s lm) = false ->
     th_min_observations <= num_edges s (observations (lms s lm)) ->
     (Some kfx, feat_id) ∈ observations (lms s lm) -> kf_invalid (kfs s kfx) = false ->
     supported_camera (cams s (camera_ (kfs s kfx))) /\
     exists kf, kf ∈ GetKeyframesVec (map_ s) /\ kf_invalid (kfs s kf) = false
                /\ id_ (kfs s kf) = id_ (kfs s kfx)).
Proof.
  intros Hkf Hstep Hobs E1 E2.
  (* the keyframe loop *)
  assert (Hinv1 : forall kf c1 c2, imu_only s (bb_state c1) -> add_keyframe kf c1 = Ok c2 ->
                                   imu_only s (bb_state c2)).
  { intros kf c1 c2 Hc Ec. destruct (Hkf _ _ _ Ec) as (Hc2 & _).
    eapply imu_only_trans; eassumption. }
  assert (Hb1 : imu_only s (bb_state b1) /\
                forall key, is_Some (intrinsics_map b1 !! key) ->
                  exists kf, kf ∈ GetKeyframesVec (map_ s) /\ kf_invalid (kfs s kf) = false
                             /\ id_ (kfs s kf) = key).
  { pose proof (for_each_prefix add_keyframe
      (fun pre x =>
         imu_only s (bb_state x) /\
         forall key, is_Some (intrinsics_map x !! key) ->
           exists kf, kf ∈ pre /\ kf_invalid (kfs s kf) = false /\ id_ (kfs s kf) = key)
      (GetKeyframesVec (map_ s)) [] (bundle_init s) b1) as Hloop.
    apply Hloop; [| | exact E1].
    - intros pre kf c1 c2 [Hc Hm] Ec. split; [eapply Hinv1; eassumption|].
      destruct (Hkf _ _ _ Ec) as (_ & Hdom & _). intros key Hkey.
      destruct (imu_only_fields _ _ kf Hc) as (Hid & Hv & _).
      destruct (Hdom key Hkey) as [Hold | [-> Hval]].
      + destruct (Hm key Hold) as (kf' & Hin & Hv' & Hid'). exists kf'.
        split; [apply elem_of_app; left; exact Hin | auto].
      + exists kf. split; [apply elem_of_app; right; apply list_elem_of_singleton; reflexivity|].
        split; congruence.
    - split; [apply imu_only_refl|]. intros key [v Hv]. cbn in Hv.
      rewrite lookup_empty in Hv. discriminate. }
  destruct Hb1 as [Hs1 Hdom1]. split.
  - intros kf Hin Hval.
    destruct (for_each_visits add_keyframe (fun x => imu_only s (bb_state x)) _
                (bundle_init s) b1 Hinv1 (imu_only_refl s) E1 kf Hin) as (c1 & c2 & Hc & Ec).
    destruct (Hkf _ _ _ Ec) as (_ & _ & Hneed).
    pose proof Hc as (_ & Hcams & _ & Hk).
    destruct (imu_only_fields _ _ kf Hc) as (Hid & Hv & _).
    cbn zeta in Hneed. rewrite Hcams, Hid in Hneed.
    assert (Hcam : camera_ (kfs (bb_state c1) kf) = camera_ (kfs s kf))
      by (rewrite (Hk kf); reflexivity).
    assert (Hpred : predecessor (kfs (bb_state c1) kf) = predecessor (kfs s kf))
      by (rewrite (Hk kf); reflexivity).
    rewrite Hcam, Hpred in Hneed.
    destruct Hneed as [Htype Hp]; [congruence|]. split; [exact Htype|].
    intros Hvo Hne. destruct (Hp Hvo Hne) as (pred & Hpr & Hpv). exists pred.
    split; [exact Hpr|]. destruct (imu_only_fields _ _ pred Hc) as (_ & <- & _). exact Hpv.
  - intros lm kfx feat_id [i Hi]%list_elem_of_lookup_1 Hval Hmany Ho Hkv.
    assert (Hinv2 : forall j c1 c2,
      imu_only s (bb_state c1) /\ intrinsics_map c1 = intrinsics_map b1 ->
      gba_add_landmark add_observation (GetLandmarksVec (map_ s)) j c1 = Ok c2 ->
      imu_only s (bb_state c2) /\ intrinsics_map c2 = intrinsics_map b1).
    { intros j c1 c2 [Hc Hm] Ec.
      destruct (gba_add_landmark_state _ _ _ _ _ Hstep Ec) as [m Hst].
      split; [rewrite Hst; exact Hc|].
      destruct (gba_add_landmark_cases _ _ _ _ _ Ec) as (lmj & _ & Hcase). cbn zeta in Hcase.
      destruct Hcase as [[_ ->] | [(_ & _ & ->) | (_ & _ & Efor)]]; [exact Hm | exact Hm |].
      refine (for_each_invariant _ (fun x => intrinsics_map x = intrinsics_map b1)
                _ _ _ _ _ Efor); [| exact Hm].
      intros o d1 d2 _ Hd Ed. apply Hstep in Ed as (_ & _ & -> & _). exact Hd. }
    assert (Hi' : i ∈ seq 0 (length (GetLandmarksVec (map_ s))))
      by (apply elem_of_seq; apply lookup_lt_Some in Hi; simpl; lia).
    destruct (for_each_visits _
                (fun x => imu_only s (bb_state x) /\ intrinsics_map x = intrinsics_map b1)
                _ b1 b2 Hinv2 (conj Hs1 eq_refl) E2 i Hi') as (c1 & c2 & [Hc Hm] & Ec).
    destruct (gba_add_landmark_cases _ _ _ _ _ Ec) as (lm' & Hi2 & Hcase).
    assert (lm' = lm) by congruence. subst lm'. cbn zeta in Hcase.
    pose proof Hc as (_ & Hcams & Hlms & _).
    rewrite Hlms, (imu_only_num_edges _ _ _ Hc) in Hcase.
    destruct Hcase as [[Hinv _] | [(_ & Hfew & _) | (_ & _ & Efor)]]; [congruence | lia |].
    assert (Hinv3 : forall o d1 d2,
      bb_state d1 = bb_state (include_landmark lm c1) /\ intrinsics_map d1 = intrinsics_map b1 ->
      add_observation lm o d1 = Ok d2 ->
      bb_state d2 = bb_state (include_landmark lm c1) /\ intrinsics_map d2 = intrinsics_map b1).
    { intros o d1 d2 [Hd1 Hd2] Ed. apply Hstep in Ed as (-> & _ & -> & _). auto. }
    destruct (for_each_visits _
                (fun x => bb_state x = bb_state (include_landmark lm c1)
                          /\ intrinsics_map x = intrinsics_map b1)
                _ (include_landmark lm c1) c2 Hinv3 (conj eq_refl Hm) Efor _ Ho) as (d1 & d2 & [Hd1 Hd2] & Ed).
    assert (Hd : imu_only s (bb_state d1))
      by (rewrite Hd1; cbn [include_landmark bb_state];
          eapply imu_only_trans; [exact Hc | apply imu_only_with_mem]).
    destruct (imu_only_fields _ _ kfx Hd) as (Hid & Hv & _).
    pose proof Hd as (_ & Hdcams & _ & Hdk).
    assert (Hcam : camera_ (kfs (bb_state d1) kfx) = camera_ (kfs s kfx))
      by (rewrite (Hdk kfx); reflexivity).
    destruct (Hobs _ _ kfx _ _ Ed eq_refl) as [Hsup Hsome]; [congruence|].
    rewrite Hdcams, Hcam in Hsup. rewrite Hd2, Hid in Hsome.
    split; [exact Hsup | apply Hdom1, Hsome].
Qed.

(** X10.  Global Bundle Adjustment, what a call needs to return.  Every valid
    keyframe of the keyframe vector has a pinhole or unified-projection
    camera, and outside visual-only mode, unless the first component of its id
    is 0, a valid predecessor.  Every valid observer of a valid landmark of
    the landmark vector with at least two valid observers has a camera of a
    supported model and shares its id with a valid keyframe of the keyframe
    vector. *)
Theorem GlobalBundleAdjustment_requirements s interations_limit time_limit visual_only
    outlier_removal estimate_bias s' :
  GlobalBundleAdjustment params s interations_limit time_limit visual_only outlier_removal
    estimate_bias = Ok s' ->
  (forall kf, kf ∈ GetKeyframesVec (map_ s) -> kf_invalid (kfs s kf) = false ->
     (getType (cams s (camera_ (kfs s kf))) = kPinhole
      \/ getType (cams s (camera_ (kfs s kf))) = kUnifiedProjection) /\
     (visual_only = false -> fst (id_ (kfs s kf)) <> 0 ->
      exists pred, predecessor (kfs s kf) = Some pred /\ kf_invalid (kfs s pred) = false)) /\
  (forall lm kfx feat_id,
     lm ∈ GetLandmarksVec (map_ s) -> lm_invalid (lms s lm) = false ->
     th_min_observations <= num_edges s (observations (lms s lm)) ->
     (Some kfx, feat_id) ∈ observations (lms s lm) -> kf_invalid (kfs s kfx) = false ->
     supported_camera (cams s (camera_ (kfs s kfx))) /\
     exists kf, kf ∈ GetKeyframesVec (map_ s) /\ kf_invalid (kfs s kf) = false
                /\ id_ (kfs s kf) = id_ (kfs s kfx)).
Proof.
  unfold GlobalBundleAdjustment. intros E.
  apply bind_Ok in E as (s1 & E1 & E). apply bind_Ok in E as (s2 & E2 & _).
  unfold gba_first_round in E1. destruct outlier_removal.
  - apply bind_Ok in E1 as (o & E1 & _). unfold gba_outlier_round in E1.
    apply bind_Ok in E1 as (b & Eb & _). unfold gba1_build in Eb.
    apply bind_Ok in Eb as (b1 & Ek & Eb). apply bind_Ok in Eb as (b2 & El & _).
    refine (bundle_loops_need _ _ _ _ _ _ _ _ _ Ek El).
    + intros kf c c'. apply gba1_add_keyframe_needs.
    + intros lm ob c c'. apply gba1_add_observation_state.
    + intros lm ob kfx c c'. apply gba1_add_observation_needs.
  - apply Ok_inj in E1. subst s1. unfold gba_main_round in E2.
    apply bind_Ok in E2 as (b & Eb & _). unfold gba2_build in Eb.
    apply bind_Ok in Eb as (b1 & Ek & Eb). apply bind_Ok in Eb as (b2 & El & _).
    refine (bundle_loops_need _ _ _ _ _ _ _ _ _ Ek El).
    + intros kf c c'. apply gba2_add_keyframe_needs.
    + intros lm o c c'. apply gba2_add_observation_state.
    + intros lm o kfx c c'. apply gba2_add_observation_needs.
Qed.

End BundleRequirements.

(** ** Pose-graph optimisation: the write-back *)

(** A write-back of keyframes, as both variants have it: an invalid keyframe
    is skipped; for a valid one the pose it had is recorded under its id, and
    of the graph only that keyframe changes, keeping its id and validity. *)
Section RecoverPoses.
Context `{Geometry}.
Variable recover : PoseGraphRecover -> KeyframePtr -> PoseGraphRecover.
Hypothesis recover_invalid : forall r kf,
  kf_invalid (kfs (pr_state r) kf) = true -> recover r kf = r.
Hypothesis recover_valid : forall r kf,
  kf_invalid (kfs (pr_state r) kf) = false ->
  non_corrected_poses (recover r kf)
  = <[id_ (kfs (pr_state r) kf) := T_ws (kfs (pr_state r) kf)]> (non_corrected_poses r) /\
  lms (pr_state (recover r kf)) = lms (pr_state r) /\
  map_ (pr_state (recover r kf)) = map_ (pr_state r) /\
  forall k, id_ (kfs (pr_state (recover r kf)) k) = id_ (kfs (pr_state r) k) /\
            kf_invalid (kfs (pr_state (recover r kf)) k) = kf_invalid (kfs (pr_state r) k) /\
            (k <> kf -> kfs (pr_state (recover r kf)) k = kfs (pr_state r) k).

Lemma valid_ids_snoc s pre kf :
  valid_ids s (pre ++ [kf])
  = valid_ids s pre ++ (if kf_invalid (kfs s kf) then [] else [id_ (kfs s kf)]).
Proof.
  unfold valid_ids. rewrite filter_app, fmap_app. f_equal.
  rewrite filter_cons, filter_nil.
  destruct (kf_invalid (kfs s kf)) eqn:Hv.
  - rewrite decide_False by congruence. reflexivity.
  - rewrite decide_True by reflexivity. reflexivity.
Qed.

Lemma elem_of_valid_ids s l kf :
  kf ∈ l -> kf_invalid (kfs s kf) = false -> id_ (kfs s kf) ∈ valid_ids s l.
Proof.
  intros Hin Hv. unfold valid_ids. apply list_elem_of_fmap. exists kf.
  split; [reflexivity|]. apply list_elem_of_filter. split; assumption.
Qed.

Lemma recover_poses (l : list KeyframePtr) (r0 : PoseGraphRecover) :
  non_corrected_poses r0 = ∅ ->
  let s0 := pr_state r0 in
  let r := foldl recover r0 l in
  lms (pr_state r) = lms s0 /\ map_ (pr_state r) = map_ s0 /\
  (forall k, id_ (kfs (pr_state r) k) = id_ (kfs s0 k) /\
             kf_invalid (kfs (pr_state r) k) = kf_invalid (kfs s0 k) /\
             (k ∉ l \/ kf_invalid (kfs s0 k) = true -> kfs (pr_state r) k = kfs s0 k)) /\
  (forall key, is_Some (non_corrected_poses r !! key) ->
     exists kf, kf ∈ l /\ kf_invalid (kfs s0 kf) = false /\ id_ (kfs s0 kf) = key) /\
  (NoDup (valid_ids s0 l) ->
   forall kf, kf ∈ l -> kf_invalid (kfs s0 kf) = false ->
     non_corrected_poses r !! id_ (kfs s0 kf) = Some (T_ws (kfs s0 kf))).
Proof using recover_invalid recover_valid.
  intros Hempty. cbn zeta.
  refine (foldl_prefix recover
    (fun pre r =>
       lms (pr_state r) = lms (pr_state r0) /\ map_ (pr_state r) = map_ (pr_state r0) /\
       (forall k, id_ (kfs (pr_state r) k) = id_ (kfs (pr_state r0) k) /\
                  kf_invalid (kfs (pr_state r) k) = kf_invalid (kfs (pr_state r0) k) /\
                  (k ∉ pre \/ kf_invalid (kfs (pr_state r0) k) = true ->
                   kfs (pr_state r) k = kfs (pr_state r0) k)) /\
       (forall key, is_Some (non_corrected_poses r !! key) ->
          exists kf, kf ∈ pre /\ kf_invalid (kfs (pr_state r0) kf) = false
                     /\ id_ (kfs (pr_state r0) kf) = key) /\
       (NoDup (valid_ids (pr_state r0) pre) ->
        forall kf, kf ∈ pre -> kf_invalid (kfs (pr_state r0) kf) = false ->
          non_corrected_poses r !! id_ (kfs (pr_state r0) kf)
          = Some (T_ws (kfs (pr_state r0) kf))))
    l [] r0 _ _).
  - intros pre kf r (Hlms & Hmap & Hk & Hdom & Hget).
    destruct (Hk kf) as (Hid & Hval & Hsame).
    destruct (kf_invalid (kfs (pr_state r) kf)) eqn:Hinv.
    + rewrite (recover_invalid _ _ Hinv). split; [exact Hlms|]. split; [exact Hmap|]. split.
      { intros k. destruct (Hk k) as (Hid' & Hval' & Hsame').
        split; [exact Hid'|]. split; [exact Hval'|].
        intros [Hnin|Hi]; apply Hsame'; [left | right; exact Hi].
        intros Hp. apply Hnin. apply elem_of_app. left. exact Hp. }
      split.
      { intros key Hkey. destruct (Hdom key Hkey) as (kf' & Hin & Hrest).
        exists kf'. split; [apply elem_of_app; left; exact Hin | exact Hrest]. }
      intros Hnd kf' [Hp|Hp%list_elem_of_singleton]%elem_of_app Hv.
      * apply Hget; [| exact Hp | exact Hv].
        rewrite valid_ids_snoc in Hnd. apply NoDup_app in Hnd. apply Hnd.
      * subst kf'. congruence.
    + destruct (recover_valid _ _ Hinv) as (Hp' & Hlms' & Hmap' & Hk').
      split; [congruence|]. split; [congruence|]. split.
      { intros k. destruct (Hk k) as (Hid1 & Hval1 & Hsame1).
        destruct (Hk' k) as (Hid2 & Hval2 & Hsame2).
        split; [congruence|]. split; [congruence|].
        intros Hcase. assert (Hne : k <> kf).
        { intros ->. destruct Hcase as [Hnin|Hi]; [| congruence].
          apply Hnin. apply elem_of_app. right. apply list_elem_of_singleton. reflexivity. }
        rewrite (Hsame2 Hne). apply Hsame1.
        destruct Hcase as [Hnin|Hi]; [left | right; exact Hi].
        intros Hp. apply Hnin. apply elem_of_app. left. exact Hp. }
      split.
      { intros key Hkey. rewrite Hp' in Hkey.
        destruct (decide (key = id_ (kfs (pr_state r) kf))) as [->|Hne].
        - exists kf. split; [apply elem_of_app; right; apply list_elem_of_singleton; reflexivity|].
          split; congruence.
        - rewrite lookup_insert_ne in Hkey by congruence.
          destruct (Hdom key Hkey) as (kf' & Hin & Hrest).
          exists kf'. split; [apply elem_of_app; left; exact Hin | exact Hrest]. }
      intros Hnd kf' Hin' Hv. rewrite Hp'.
      rewrite valid_ids_snoc in Hnd. rewrite <- Hval in Hnd.
      apply NoDup_app in Hnd as (Hnd & Hfresh & _).
      apply elem_of_app in Hin' as [Hp|Hp%list_elem_of_singleton].
      * rewrite lookup_insert_ne; [apply Hget; assumption|].
        rewrite Hid. intros Heq.
        apply (Hfresh (id_ (kfs (pr_state r0) kf'))).
        -- apply elem_of_valid_ids; assumption.
        -- rewrite <- Heq. apply list_elem_of_singleton. reflexivity.
      * subst kf'. rewrite Hid, lookup_insert_eq. f_equal.
        rewrite Hsame; [reflexivity|]. left. intros Hp.
        apply (Hfresh (id_ (kfs (pr_state r0) kf))).
        -- apply elem_of_valid_ids; assumption.
        -- apply list_elem_of_singleton. reflexivity.
  - split; [reflexivity|]. split; [reflexivity|]. split; [intros k; auto|]. split.
    + intros key [T HT]. rewrite Hempty, lookup_empty in HT. discriminate.
    + intros _ kf Hn. apply elem_of_nil in Hn. destruct Hn.
Qed.

End RecoverPoses.

Section PoseGraphRun.
Context `{Geometry} `{!Solver}.
Variable params : Params.

Lemma pgo_recover_keyframe_invalid (r : PoseGraphRecover) kf :
  kf_invalid (kfs (pr_state r) kf) = true -> pgo_recover_keyframe r kf = r.
Proof. intros Hv. unfold pgo_recover_keyframe. rewrite Hv. reflexivity. Qed.

Lemma pgo_recover_keyframe_valid (r : PoseGraphRecover) kf :
  kf_invalid (kfs (pr_state r) kf) = false ->
  non_corrected_poses (pgo_recover_keyframe r kf)
  = <[id_ (kfs (pr_state r) kf) := T_ws (kfs (pr_state r) kf)]> (non_corrected_poses r) /\
  lms (pr_state (pgo_recover_keyframe r kf)) = lms (pr_state r) /\
  map_ (pr_state (pgo_recover_keyframe r kf)) = map_ (pr_state r) /\
  forall k, id_ (kfs (pr_state (pgo_recover_keyframe r kf)) k) = id_ (kfs (pr_state r) k) /\
            kf_invalid (kfs (pr_state (pgo_recover_keyframe r kf)) k)
            = kf_invalid (kfs (pr_state r) k) /\
            (k <> kf -> kfs (pr_state (pgo_recover_keyframe r kf)) k = kfs (pr_state r) k).
Proof.
  intros Hv. unfold pgo_recover_keyframe. rewrite Hv.
  cbn [pr_state non_corrected_poses UpdateFromCeres with_kf with_mem kfs lms map_ mem].
  unfold upd. split; [rewrite !decide_True by reflexivity; reflexivity|].
  split; [reflexivity|]. split; [reflexivity|].
  intros k. destruct (decide (k = kf)) as [->|Hne].
  - split; [reflexivity|]. split; [reflexivity | congruence].
  - auto.
Qed.

Lemma pgo4_recover_keyframe_skips (r : PoseGraphRecover) kf :
  kf_invalid (kfs (pr_state r) kf) = true -> pgo4_recover_keyframe r kf = r.
Proof. intros Hv. unfold pgo4_recover_keyframe. rewrite Hv. reflexivity. Qed.

Lemma pgo4_recover_keyframe_valid (r : PoseGraphRecover) kf :
  kf_invalid (kfs (pr_state r) kf) = false ->
  non_corrected_poses (pgo4_recover_keyframe r kf)
  = <[id_ (kfs (pr_state r) kf) := T_ws (kfs (pr_state r) kf)]> (non_corrected_poses r) /\
  lms (pr_state (pgo4_recover_keyframe r kf)) = lms (pr_state r) /\
  map_ (pr_state (pgo4_recover_keyframe r kf)) = map_ (pr_state r) /\
  forall k, id_ (kfs (pr_state (pgo4_recover_keyframe r kf)) k) = id_ (kfs (pr_state r) k) /\
            kf_invalid (kfs (pr_state (pgo4_recover_keyframe r kf)) k)
            = kf_invalid (kfs (pr_state r) k) /\
            (k <> kf -> kfs (pr_state (pgo4_recover_keyframe r kf)) k = kfs (pr_state r) k).
Proof.
  intros Hv. unfold pgo4_recover_keyframe. rewrite Hv.
  cbn [pr_state non_corrected_poses UpdateFromCeres with_kf with_mem kfs lms map_ mem].
  unfold upd. split; [rewrite !decide_True by reflexivity; reflexivity|].
  split; [reflexivity|]. split; [reflexivity|].
  intros k. destruct (decide (k = kf)) as [->|Hne].
  - split; [reflexivity|]. split; [reflexivity | congruence].
  - auto.
Qed.

(** *** The constructions leave the graph alone *)

Lemma buffers_only_refl s : buffers_only s s.
Proof. repeat split. Qed.

Lemma buffers_only_trans s1 s2 s3 :
  buffers_only s1 s2 -> buffers_only s2 s3 -> buffers_only s1 s3.
Proof. intros (? & ? & ? & ?) (? & ? & ? & ?). repeat split; congruence. Qed.

Lemma pgo_add_keyframe_buffers corrected_poses kf (b : PoseGraphBuild) :
  buffers_only (pg_state b) (pg_state (pgo_add_keyframe corrected_poses kf b)).
Proof.
  unfold pgo_add_keyframe. destruct (kf_invalid _); [apply buffers_only_refl|].
  repeat split.
Qed.

Lemma pgo4_add_keyframe_buffers kf (b : PoseGraphBuild) :
  buffers_only (pg_state b) (pg_state (pgo4_add_keyframe params kf b)).
Proof.
  unfold pgo4_add_keyframe. destruct (kf_invalid _); [apply buffers_only_refl|].
  repeat split.
Qed.

Lemma add_keyframes_buffers (add_keyframe : KeyframePtr -> PoseGraphBuild -> PoseGraphBuild)
    (l : list KeyframePtr) :
  (forall kf b, buffers_only (pg_state b) (pg_state (add_keyframe kf b))) ->
  forall b, buffers_only (pg_state b) (pg_state (foldl (fun b kf => add_keyframe kf b) b l)).
Proof.
  intros Hadd. induction l as [|kf l IH]; intros b; [apply buffers_only_refl|].
  simpl. eapply buffers_only_trans; [apply Hadd | apply IH].
Qed.

Lemma pgo_add_edge_state kf kfc (b b' : PoseGraphBuild) :
  pgo_add_edge params kf kfc b = Ok b' -> pg_state b' = pg_state b.
Proof.
  unfold pgo_add_edge. destruct (edge_is_new _ _); intros E; apply Ok_inj in E; subst;
    reflexivity.
Qed.

Lemma pgo4_add_edge_state kf kfc (b b' : PoseGraphBuild) :
  pgo4_add_edge kf kfc b = Ok b' -> pg_state b' = pg_state b.
Proof.
  unfold pgo4_add_edge. intros E. apply bind_Ok in E as (q & _ & E).
  destruct (edge_is_new _ _); apply Ok_inj in E; subst; reflexivity.
Qed.

Lemma pgo4_add_loop_state l (b b' : PoseGraphBuild) :
  pgo4_add_loop l b = Ok b' -> pg_state b' = pg_state b.
Proof.
  unfold pgo4_add_loop. intros E. apply bind_Ok in E as (q & _ & E).
  apply Ok_inj in E. subst. reflexivity.
Qed.

Lemma pgo_build_buffers s corrected_poses b :
  pgo_build params s corrected_poses = Ok b -> buffers_only s (pg_state b).
Proof.
  unfold pgo_build. intros E. apply bind_Ok in E as (b1 & E1 & E).
  eapply (window_edges_preserve (fun x => buffers_only s (pg_state x))); [| exact E |].
  { intros kf kfc c1 c2 Ec Hc. rewrite (pgo_add_edge_state _ _ _ _ Ec). exact Hc. }
  eapply (successor_edges_preserve (fun x => buffers_only s (pg_state x))); [| exact E1 |].
  { intros kf kfc c1 c2 Ec Hc. rewrite (pgo_add_edge_state _ _ _ _ Ec). exact Hc. }
  cbn [pg_state pg_update].
  apply (add_keyframes_buffers (pgo_add_keyframe corrected_poses)
           (GetKeyframesVec (map_ s)) (pgo_add_keyframe_buffers corrected_poses)
           {| pg_state := s; pg_problem := empty_problem; q_ws_map := ∅;
              inserted_edges := ∅ |}).
Qed.

Lemma pgo4_build_buffers s b :
  pgo4_build params s = Ok b -> buffers_only s (pg_state b).
Proof.
  unfold pgo4_build. intros E. apply bind_Ok in E as (b1 & E1 & E).
  apply bind_Ok in E as (b2 & E2 & E).
  eapply (window_edges_preserve (fun x => buffers_only s (pg_state x))); [| exact E |].
  { intros kf kfc c1 c2 Ec Hc. rewrite (pgo4_add_edge_state _ _ _ _ Ec). exact Hc. }
  eapply (successor_edges_preserve (fun x => buffers_only s (pg_state x))); [| exact E2 |].
  { intros kf kfc c1 c2 Ec Hc. rewrite (pgo4_add_edge_state _ _ _ _ Ec). exact Hc. }
  refine (for_each_invariant _ (fun x => buffers_only s (pg_state x)) _ _ _ _ _ E1).
  { intros l c1 c2 _ Hc Ec. rewrite (pgo4_add_loop_state _ _ _ Ec). exact Hc. }
  apply (add_keyframes_buffers (pgo4_add_keyframe params)
           (GetKeyframesVec (map_ s)) pgo4_add_keyframe_buffers
           {| pg_state := s; pg_problem := empty_problem; q_ws_map := ∅;
              inserted_edges := ∅ |}).
Qed.

(** *** The landmarks *)

(** The landmark write-back: what it does to one landmark of the graph. *)
Lemma pgo_recover_landmarks_spec (poses : gmap idpair TransformType) l (s s' : State) lm :
  for_each (pgo_recover_landmark poses) l s = Ok s' ->
  kfs s' = kfs s /\ map_ s' = map_ s /\
  lm_moved (lms s lm) (lms s' lm) /\
  lm_optimized (lms s' lm) = lm_optimized (lms s lm) /\
  lm_is_gba_optimized_ (lms s' lm) = lm_is_gba_optimized_ (lms s lm) /\
  (lm ∉ l \/ lm_invalid (lms s lm) = true \/ reference_keyframe (lms s lm) = None ->
   pos_w (lms s' lm) = pos_w (lms s lm)) /\
  (forall kf_ref, lm ∈ l -> lm_invalid (lms s lm) = false ->
     reference_keyframe (lms s lm) = Some kf_ref ->
     is_Some (poses !! id_ (kfs s kf_ref))) /\
  (NoDup l ->
   forall kf_ref T, lm ∈ l -> lm_invalid (lms s lm) = false ->
     reference_keyframe (lms s lm) = Some kf_ref -> poses !! id_ (kfs s kf_ref) = Some T ->
     pos_w (lms s' lm)
     = T_apply (T_ws (kfs s kf_ref)) (T_apply (Tinv T) (pos_w (lms s lm)))).
Proof.
  intros E.
  pose proof (for_each_prefix (pgo_recover_landmark poses)
    (fun pre x =>
       kfs x = kfs s /\ map_ x = map_ s /\
       lm_moved (lms s lm) (lms x lm) /\
       lm_optimized (lms x lm) = lm_optimized (lms s lm) /\
       lm_is_gba_optimized_ (lms x lm) = lm_is_gba_optimized_ (lms s lm) /\
       (lm ∉ pre \/ lm_invalid (lms s lm) = true \/ reference_keyframe (lms s lm) = None ->
        pos_w (lms x lm) = pos_w (lms s lm)) /\
       (forall kf_ref, lm ∈ pre -> lm_invalid (lms s lm) = false ->
          reference_keyframe (lms s lm) = Some kf_ref ->
          is_Some (poses !! id_ (kfs s kf_ref))) /\
       (NoDup pre ->
        forall kf_ref T, lm ∈ pre -> lm_invalid (lms s lm) = false ->
          reference_keyframe (lms s lm) = Some kf_ref ->
          poses !! id_ (kfs s kf_ref) = Some T ->
          pos_w (lms x lm)
          = T_apply (T_ws (kfs s kf_ref)) (T_apply (Tinv T) (pos_w (lms s lm)))))
    l [] s s') as Hloop.
  apply Hloop; [| | exact E]; clear Hloop E.
  - intros pre lm0 x1 x2 (Hkfs & Hmap & Hmv & Hopt & Hgba & Hout & Hneed & Hmove) E1.
    destruct (lm_moved_fields _ _ Hmv) as (Hval & _ & Href).
    assert (Hweak : lm ∉ pre ++ [lm0] \/ lm_invalid (lms s lm) = true
                    \/ reference_keyframe (lms s lm) = None ->
                    lm ∉ pre \/ lm_invalid (lms s lm) = true
                    \/ reference_keyframe (lms s lm) = None).
    { intros [Hnin|Hrest]; [left | right; exact Hrest].
      intros Hp. apply Hnin. apply elem_of_app. left. exact Hp. }
    unfold pgo_recover_landmark in E1.
    destruct (lm_invalid (lms x1 lm0)) eqn:Hinv.
    { apply Ok_inj in E1. subst x2. repeat (split; [assumption|]).
      split; [intros Hc; apply Hout, Hweak, Hc|]. split.
      - intros kf_ref [Hp|Hp%list_elem_of_singleton]%elem_of_app Hv Hr;
          [eapply Hneed; eassumption | congruence].
      - intros Hnd kf_ref T [Hp|Hp%list_elem_of_singleton]%elem_of_app Hv Hr HT.
        + apply NoDup_app in Hnd as (Hnd & _). eapply Hmove; eassumption.
        + congruence. }
    destruct (reference_keyframe (lms x1 lm0)) as [kf0|] eqn:Hr0.
    2:{ apply Ok_inj in E1. subst x2. repeat (split; [assumption|]).
        split; [intros Hc; apply Hout, Hweak, Hc|]. split.
        - intros kf_ref [Hp|Hp%list_elem_of_singleton]%elem_of_app Hv Hr;
            [eapply Hneed; eassumption | congruence].
        - intros Hnd kf_ref T [Hp|Hp%list_elem_of_singleton]%elem_of_app Hv Hr HT.
          + apply NoDup_app in Hnd as (Hnd & _). eapply Hmove; eassumption.
          + congruence. }
    destruct (poses !! id_ (kfs x1 kf0)) as [T0|] eqn:HT0; [| discriminate].
    apply Ok_inj in E1. subst x2. cbn [with_lm kfs map_ lms]. unfold upd.
    split; [exact Hkfs|]. split; [exact Hmap|].
    destruct (decide (lm = lm0)) as [<-|Hne].
    + split; [eapply lm_moved_trans; [exact Hmv | reflexivity]|].
      split; [exact Hopt|]. split; [exact Hgba|]. split.
      { intros [Hnin | [Hi | Hn]]; [| congruence | congruence].
        exfalso. apply Hnin. apply elem_of_app. right. apply list_elem_of_singleton.
        reflexivity. }
      split.
      { intros kf_ref _ _ Hr. assert (kf_ref = kf0) by congruence. subst kf_ref.
        rewrite <- Hkfs. eauto. }
      intros Hnd kf_ref T _ Hv Hr HT. assert (kf_ref = kf0) by congruence. subst kf_ref.
      rewrite Hkfs in HT0. assert (T = T0) by congruence. subst T.
      apply NoDup_app in Hnd as (_ & Hfresh & _).
      cbn [SetWorldPos set_lm pos_w]. rewrite Hkfs. rewrite Hout; [reflexivity|].
      left. intros Hp. apply (Hfresh lm Hp). apply list_elem_of_singleton. reflexivity.
    + split; [exact Hmv|]. split; [exact Hopt|]. split; [exact Hgba|].
      split; [intros Hc; apply Hout, Hweak, Hc|]. split.
      * intros kf_ref [Hp|Hp%list_elem_of_singleton]%elem_of_app Hv Hr;
          [eapply Hneed; eassumption | congruence].
      * intros Hnd kf_ref T [Hp|Hp%list_elem_of_singleton]%elem_of_app Hv Hr HT.
        -- apply NoDup_app in Hnd as (Hnd & _). eapply Hmove; eassumption.
        -- congruence.
  - split; [reflexivity|]. split; [reflexivity|]. split; [apply lm_moved_refl|].
    split; [reflexivity|]. split; [reflexivity|]. split; [reflexivity|]. split.
    + intros kf_ref Hn. apply elem_of_nil in Hn. destruct Hn.
    + intros _ kf_ref T Hn. apply elem_of_nil in Hn. destruct Hn.
Qed.

(** Either variant ends with the two write-back loops, run on the graph of
    the call up to its buffers. *)
Lemma pose_graph_run_shape s corrected_poses s' :
  PoseGraphOptimization params s corrected_poses = Ok s'
  \/ PoseGraphOptimization4DoF params s corrected_poses = Ok s' ->
  exists (recover : PoseGraphRecover -> KeyframePtr -> PoseGraphRecover) (s0 : State),
    buffers_only s s0 /\
    (forall r kf, kf_invalid (kfs (pr_state r) kf) = true -> recover r kf = r) /\
    (forall r kf, kf_invalid (kfs (pr_state r) kf) = false ->
       non_corrected_poses (recover r kf)
       = <[id_ (kfs (pr_state r) kf) := T_ws (kfs (pr_state r) kf)]> (non_corrected_poses r) /\
       lms (pr_state (recover r kf)) = lms (pr_state r) /\
       map_ (pr_state (recover r kf)) = map_ (pr_state r) /\
       forall k, id_ (kfs (pr_state (recover r kf)) k) = id_ (kfs (pr_state r) k) /\
                 kf_invalid (kfs (pr_state (recover r kf)) k)
                 = kf_invalid (kfs (pr_state r) k) /\
                 (k <> kf -> kfs (pr_state (recover r kf)) k = kfs (pr_state r) k)) /\
    let r := foldl recover {| pr_state := s0; non_corrected_poses := ∅ |}
               (GetKeyframesVec (map_ s)) in
    for_each (pgo_recover_landmark (non_corrected_poses r)) (GetLandmarksVec (map_ s))
      (pr_state r) = Ok s'.
Proof.
  intros [E|E].
  - unfold PoseGraphOptimization in E. apply bind_Ok in E as (b & Eb & E).
    apply pgo_build_buffers in Eb.
    eexists pgo_recover_keyframe, _. split; [| split; [| split; [| exact E]]].
    + destruct Eb as (? & ? & ? & ?). repeat split; assumption.
    + apply pgo_recover_keyframe_invalid.
    + apply pgo_recover_keyframe_valid.
  - unfold PoseGraphOptimization4DoF in E. apply bind_Ok in E as (b & Eb & E).
    apply pgo4_build_buffers in Eb.
    eexists pgo4_recover_keyframe, _. split; [| split; [| split; [| exact E]]].
    + destruct Eb as (? & ? & ? & ?). repeat split; assumption.
    + apply pgo4_recover_keyframe_skips.
    + apply pgo4_recover_keyframe_valid.
Qed.

(** X13.  Pose-graph optimisation, what a call needs of the landmarks and which it
    leaves alone (both variants).  A landmark keeps its validity, its
    reference keyframe, its observations and its flags.  A landmark that is
    not in the landmark vector, is invalid or has no reference keyframe keeps
    its position.  Any other landmark needs the id of its reference keyframe
    to be the id of a valid keyframe of the keyframe vector. *)
Theorem pose_graph_landmark_reference s corrected_poses s' :
  PoseGraphOptimization params s corrected_poses = Ok s'
  \/ PoseGraphOptimization4DoF params s corrected_poses = Ok s' ->
  forall lm,
    lm_invalid (lms s' lm) = lm_invalid (lms s lm) /\
    reference_keyframe (lms s' lm) = reference_keyframe (lms s lm) /\
    observations (lms s' lm) = observations (lms s lm) /\
    lm_optimized (lms s' lm) = lm_optimized (lms s lm) /\
    (lm ∉ GetLandmarksVec (map_ s) \/ lm_invalid (lms s lm) = true
     \/ reference_keyframe (lms s lm) = None ->
     pos_w (lms s' lm) = pos_w (lms s lm)) /\
    (forall kf_ref, lm ∈ GetLandmarksVec (map_ s) -> lm_invalid (lms s lm) = false ->
       reference_keyframe (lms s lm) = Some kf_ref ->
       exists kf, kf ∈ GetKeyframesVec (map_ s) /\ kf_invalid (kfs s kf) = false
                  /\ id_ (kfs s kf) = id_ (kfs s kf_ref)).
Proof.
  intros E lm.
  destruct (pose_graph_run_shape _ _ _ E)
    as (recover & s0 & (Hkfs & Hlms & _ & _) & Hinv & Hval & Eland).
  cbn zeta in Eland.
  match type of Eland with context [foldl recover ?r _] => set (r0 := r) in * end.
  destruct (recover_poses recover Hinv Hval (GetKeyframesVec (map_ s)) r0 eq_refl)
    as (Rlms & _ & Rk & Rdom & _).
  change (pr_state r0) with s0 in Rlms, Rk, Rdom.
  destruct (pgo_recover_landmarks_spec _ _ _ _ lm Eland)
    as (_ & _ & Hmv & Hopt & _ & Hout & Hneed & _).
  destruct (lm_moved_fields _ _ Hmv) as (Hv & Hobs & Href).
  rewrite Rlms, Hlms in Hv, Hobs, Href, Hopt, Hout, Hneed.
  repeat (split; [assumption|]).
  intros kf_ref Hin Hvalid Hr. specialize (Hneed kf_ref Hin Hvalid Hr).
  destruct (Rk kf_ref) as (Hid & _). rewrite Hid, Hkfs in Hneed.
  destruct (Rdom _ Hneed) as (kf & Hkin & Hkv & Hkid). rewrite Hkfs in Hkv, Hkid. eauto.
Qed.

(** X14.  Pose-graph optimisation, the landmarks move with their reference
    keyframes (both variants).  When the landmark vector has no repetition
    and the valid keyframes of the keyframe vector have pairwise different
    ids, a valid landmark of the vector whose reference keyframe is a valid
    keyframe of the keyframe vector ends at the place that has, in the new
    pose of the reference keyframe, the coordinates its old position had in
    the old pose. *)
Theorem pose_graph_landmarks_move s corrected_poses s' lm kf_ref :
  NoDup (GetLandmarksVec (map_ s)) ->
  NoDup (valid_ids s (GetKeyframesVec (map_ s))) ->
  PoseGraphOptimization params s corrected_poses = Ok s'
  \/ PoseGraphOptimization4DoF params s corrected_poses = Ok s' ->
  lm ∈ GetLandmarksVec (map_ s) -> lm_invalid (lms s lm) = false ->
  reference_keyframe (lms s lm) = Some kf_ref ->
  kf_ref ∈ GetKeyframesVec (map_ s) -> kf_invalid (kfs s kf_ref) = false ->
  pos_w (lms s' lm)
  = T_apply (T_ws (kfs s' kf_ref)) (T_apply (Tinv (T_ws (kfs s kf_ref))) (pos_w (lms s lm))).
Proof.
  intros Hndl Hndk E Hin Hvalid Hr Hkin Hkv.
  destruct (pose_graph_run_shape _ _ _ E)
    as (recover & s0 & (Hkfs & Hlms & _ & _) & Hinv & Hval & Eland).
  cbn zeta in Eland.
  match type of Eland with context [foldl recover ?r _] => set (r0 := r) in * end.
  destruct (recover_poses recover Hinv Hval (GetKeyframesVec (map_ s)) r0 eq_refl)
    as (Rlms & _ & Rk & _ & Rget).
  change (pr_state r0) with s0 in Rlms, Rk, Rget.
  destruct (pgo_recover_landmarks_spec _ _ _ _ lm Eland)
    as (Hk' & _ & _ & _ & _ & _ & _ & Hmove).
  rewrite Rlms, Hlms in Hmove. destruct (Rk kf_ref) as (Hid & _).
  rewrite Hk'. apply (Hmove Hndl); [exact Hin | exact Hvalid | exact Hr |].
  rewrite Hid, Hkfs. unfold valid_ids in Rget. rewrite Hkfs in Rget.
  apply Rget; assumption.
Qed.

End PoseGraphRun.

(** ** Pose-graph optimisation: velocities, biases, pitch and roll *)

Section KeyframeBuffers.
Context `{Geometry}.

Lemma UpdateCeresFromState_speed kf s :
  load (mem (UpdateCeresFromState kf s)) (ceres_velocity_and_bias_ kf, 0) kSpeedBiasBlockSize
  = speed_and_bias (kfs s kf).
Proof.
  unfold UpdateCeresFromState. cbn [mem with_mem].
  rewrite (load_ext (store (ceres_velocity_and_bias_ kf) 0 (speed_and_bias (kfs s kf))
                       (store (ceres_pose_ kf) 0 (pose_to_ceres (T_ws (kfs s kf))) (mem s)))).
  - apply (load_store (ceres_velocity_and_bias_ kf) 0 (speed_and_bias (kfs s kf))).
  - intros i. rewrite store_other by discriminate. reflexivity.
Qed.

Lemma load_speed_and_bias (m : Mem) arr (k : Keyframe) :
  load m (arr, 0) kSpeedBiasBlockSize = speed_and_bias k ->
  vec3_at m arr 0 = velocity k /\ vec3_at m arr 3 = bias_accel k /\ vec3_at m arr 6 = bias_gyro k.
Proof.
  unfold load, speed_and_bias, vec3_at. simpl. intros E.
  injection E as E0 E1 E2 E3 E4 E5 E6 E7 E8.
  rewrite E0, E1, E2, E3, E4, E5, E6, E7, E8.
  destruct (velocity k), (bias_accel k), (bias_gyro k). auto.
Qed.

(** A buffer without a block stays as it is through the solve. *)
Lemma pinned_nowhere_is_variable arr (p : Problem) i :
  pinned arr [] False p -> is_variable p arr i = false.
Proof.
  intros [Ho _]. apply is_variable_false. intros off Hv.
  assert (Hhas : HasParameterBlock p (arr, off) = true)
    by (apply has_or_variable_or_constant; left; exact Hv).
  apply Ho in Hhas. apply elem_of_nil in Hhas. exact Hhas.
Qed.

Lemma placed_nowhere arr (x : Addr) : fst x <> arr -> placed arr [] x.
Proof. intros Hne Hx. contradiction. Qed.

Lemma loop_edge_blocks_not_speed k k1 k2 x :
  x ∈ loop_edge_blocks k1 k2 -> placed (ceres_velocity_and_bias_ k) [] x.
Proof.
  unfold loop_edge_blocks. intros Hx. apply placed_nowhere.
  repeat (apply elem_of_cons in Hx as [->|Hx]; [discriminate|]).
  apply elem_of_nil in Hx. destruct Hx.
Qed.

Lemma pose_4dof_blocks_not_speed k k1 k2 x :
  x ∈ pose_4dof_blocks k1 k2 -> placed (ceres_velocity_and_bias_ k) [] x.
Proof.
  unfold pose_4dof_blocks. intros Hx. apply placed_nowhere.
  repeat (apply elem_of_cons in Hx as [->|Hx]; [discriminate|]).
  apply elem_of_nil in Hx. destruct Hx.
Qed.

(** *** Blocks of the 4-DoF problem *)

Lemma yaw_trans_blocks_empty : yaw_trans_blocks empty_problem.
Proof. intros pb Hpb. apply elem_of_nil in Hpb. destruct Hpb. Qed.

Lemma yaw_trans_blocks_AddParameterBlock a n lp (p : Problem) :
  (snd a = 1 /\ n = 1) \/ (snd a = 4 /\ n = 3) ->
  yaw_trans_blocks p -> yaw_trans_blocks (AddParameterBlock a n lp p).
Proof.
  intros Ha Hp pb Hpb. rewrite AddParameterBlock_blocks in Hpb.
  destruct (HasParameterBlock p a); [apply Hp, Hpb|].
  apply elem_of_app in Hpb as [Hpb|Hpb]; [apply Hp, Hpb|].
  apply list_elem_of_singleton in Hpb. subst pb. exact Ha.
Qed.

Lemma yaw_trans_blocks_SetParameterBlockConstant a (p : Problem) :
  yaw_trans_blocks p -> yaw_trans_blocks (SetParameterBlockConstant a p).
Proof.
  intros Hp pb Hpb. cbn [SetParameterBlockConstant parameter_blocks] in Hpb.
  apply list_elem_of_fmap in Hpb as (pb0 & -> & Hpb0). specialize (Hp pb0 Hpb0).
  unfold set_constant. destruct (decide _); exact Hp.
Qed.

Lemma yaw_trans_blocks_set_4dof_constant kf (p : Problem) :
  yaw_trans_blocks p -> yaw_trans_blocks (set_4dof_constant kf p).
Proof.
  intros Hp. unfold set_4dof_constant.
  do 2 apply yaw_trans_blocks_SetParameterBlockConstant. exact Hp.
Qed.

Lemma yaw_trans_blocks_edge cost loss k1 k2 (p : Problem) :
  parameter_block_sizes cost = [1; 3; 1; 3] ->
  yaw_trans_blocks p ->
  yaw_trans_blocks (snd (AddResidualBlock cost loss (pose_4dof_blocks k1 k2) p)).
Proof.
  intros Hsz Hp pb Hpb. unfold AddResidualBlock in Hpb. rewrite Hsz in Hpb.
  cbn [snd parameter_blocks pose_4dof_blocks zip zip_with foldl] in Hpb.
  revert pb Hpb. fold (yaw_trans_blocks
    (AddParameterBlock (trans_block k2) 3 None
       (AddParameterBlock (yaw_block k2) 1 None
          (AddParameterBlock (trans_block k1) 3 None
             (AddParameterBlock (yaw_block k1) 1 None p))))).
  repeat (apply yaw_trans_blocks_AddParameterBlock; [simpl; auto|]). exact Hp.
Qed.

(** The scalars at the indices 0, 2 and 3 of a pose buffer are in no block of
    such a problem. *)
Lemma yaw_trans_blocks_is_variable (p : Problem) arr i :
  yaw_trans_blocks p -> i = 0 \/ i = 2 \/ i = 3 -> is_variable p arr i = false.
Proof.
  intros Hp Hi. unfold is_variable.
  destruct (existsb _ _) eqn:E; [|reflexivity]. exfalso.
  apply existsb_exists in E as (pb & Hin & Hpb).
  apply andb_true_iff in Hpb as [_ Hcov]. unfold covers in Hcov.
  apply andb_true_iff in Hcov as [Hcov Hhi]. apply andb_true_iff in Hcov as [_ Hlo].
  apply bool_decide_eq_true in Hlo, Hhi.
  destruct (Hp pb) as [[Ho Hs]|[Ho Hs]]; [apply list_elem_of_In; exact Hin | |];
    rewrite Ho, Hs in *; lia.
Qed.

End KeyframeBuffers.

Section PoseGraphKeyframes.
Context `{Geometry} `{!Solver}.
Variable params : Params.

Lemma kf_built_weaken s0 Q holds (done done' : Prop) b :
  (done' -> done) -> kf_built s0 Q holds done b -> kf_built s0 Q holds done' b.
Proof. intros Himp (Hk & HQ & Hh). split; [exact Hk|]. split; [exact HQ | auto]. Qed.

(** The prefix invariant of an "Add Keyframes" loop, seen from keyframe [k]. *)
Lemma keyframes_built k s0 Q holds
    (add_keyframe : KeyframePtr -> PoseGraphBuild -> PoseGraphBuild)
    (l : list KeyframePtr) (b : PoseGraphBuild) :
  (forall done kf b1,
     kf_built s0 Q holds done b1 ->
     kf_built s0 Q holds (done \/ (kf = k /\ kf_invalid (kfs s0 k) = false))
       (add_keyframe kf b1)) ->
  kf_built s0 Q holds False b ->
  kf_built s0 Q holds (k ∈ l /\ kf_invalid (kfs s0 k) = false)
    (foldl (fun b kf => add_keyframe kf b) b l).
Proof.
  intros Hstep Hb.
  pose proof (foldl_prefix (fun b kf => add_keyframe kf b)
                (fun pre x =>
                   kf_built s0 Q holds (k ∈ pre /\ kf_invalid (kfs s0 k) = false) x)
                l []) as Hfold.
  simpl in Hfold. apply Hfold.
  - intros pre kf c1 Hc1.
    apply (kf_built_weaken s0 Q holds
             ((k ∈ pre /\ kf_invalid (kfs s0 k) = false)
              \/ (kf = k /\ kf_invalid (kfs s0 k) = false))).
    + intros [Hin Hval]. apply elem_of_app in Hin as [Hin|Hin]; [auto|].
      apply list_elem_of_singleton in Hin. auto.
    + apply Hstep, Hc1.
  - apply kf_built_weaken with (done := False); [| exact Hb].
    intros [Hin _]. apply elem_of_nil in Hin. exact Hin.
Qed.

(** *** 6-DoF: the velocity and bias buffer *)

Lemma pgo_add_keyframe_speed corrected_poses k s0 done kf (b : PoseGraphBuild) :
  kf_built s0 (pinned (ceres_velocity_and_bias_ k) [] False)
    (fun m => load m (ceres_velocity_and_bias_ k, 0) kSpeedBiasBlockSize
              = speed_and_bias (kfs s0 k)) done b ->
  kf_built s0 (pinned (ceres_velocity_and_bias_ k) [] False)
    (fun m => load m (ceres_velocity_and_bias_ k, 0) kSpeedBiasBlockSize
              = speed_and_bias (kfs s0 k))
    (done \/ (kf = k /\ kf_invalid (kfs s0 k) = false))
    (pgo_add_keyframe corrected_poses kf b).
Proof.
  intros (Hk & Hp & Hmem). unfold pgo_add_keyframe.
  destruct (kf_invalid (kfs (pg_state b) kf)) eqn:Hinv.
  { split; [exact Hk|]. split; [exact Hp|].
    intros [Hd|[-> Hval]]; [apply Hmem, Hd|]. rewrite Hk in Hinv. congruence. }
  unfold kf_built. cbn [pg_state pg_problem pg_update kfs with_mem UpdateCeresFromState mem].
  split; [exact Hk|]. split.
  - apply pinned_SetParameterBlockConstant.
    apply pinned_AddParameterBlock; [apply placed_nowhere; discriminate|].
    assert (Hp1 : pinned (ceres_velocity_and_bias_ k) [] False
                    (AddParameterBlock (ceres_pose_ kf, 0) kPoseBlockSize
                       (Some PoseQuaternionLocalParameterization) (pg_problem b)))
      by (apply pinned_AddParameterBlock; [apply placed_nowhere; discriminate | exact Hp]).
    destruct (is_anchor _ kf); [apply pinned_SetParameterBlockConstant|]; exact Hp1.
  - intros Hdone. rewrite (load_ext (mem (UpdateCeresFromState kf (pg_state b)))).
    + destruct (decide (kf = k)) as [->|Hne].
      * rewrite UpdateCeresFromState_speed, Hk. reflexivity.
      * destruct Hdone as [Hd|[Hd _]]; [| contradiction]. rewrite <- (Hmem Hd).
        apply load_ext. intros i. apply UpdateCeresFromState_other; congruence.
    + intros i. unfold UpdateCeresFromState. cbn [mem with_mem].
      rewrite (store_other _ (ceres_pose_ kf)) by discriminate. reflexivity.
Qed.

Lemma pgo_loops_speed k (loops : list LoopConstraint) : forall p : Problem,
  pinned (ceres_velocity_and_bias_ k) [] False p ->
  pinned (ceres_velocity_and_bias_ k) [] False (foldl (pgo_add_loop params) p loops).
Proof.
  induction loops as [|l loops IH]; intros p Hp; [exact Hp|].
  simpl. apply IH. unfold pgo_add_loop.
  apply pinned_AddResidualBlock; [apply loop_edge_blocks_not_speed | exact Hp].
Qed.

Lemma pgo_add_edge_speed k s0 holds done kf kfc (b b' : PoseGraphBuild) :
  pgo_add_edge params kf kfc b = Ok b' ->
  kf_built s0 (pinned (ceres_velocity_and_bias_ k) [] False) holds done b ->
  kf_built s0 (pinned (ceres_velocity_and_bias_ k) [] False) holds done b'.
Proof.
  unfold pgo_add_edge. intros E Hb.
  destruct (edge_is_new _ _); apply Ok_inj in E; subst b'; [| exact Hb].
  destruct Hb as (Hk & Hp & Hmem).
  split; [exact Hk|]. split; [| exact Hmem].
  cbn [pg_problem insert_edge].
  apply pinned_AddResidualBlock; [apply loop_edge_blocks_not_speed | exact Hp].
Qed.

Lemma pgo_build_speed k s corrected_poses b :
  pgo_build params s corrected_poses = Ok b ->
  kf_built s (pinned (ceres_velocity_and_bias_ k) [] False)
    (fun m => load m (ceres_velocity_and_bias_ k, 0) kSpeedBiasBlockSize
              = speed_and_bias (kfs s k))
    (k ∈ GetKeyframesVec (map_ s) /\ kf_invalid (kfs s k) = false) b.
Proof.
  intros E. unfold pgo_build in E. apply bind_Ok in E as (b1 & E1 & E).
  eapply window_edges_preserve; [| exact E |].
  { intros kf kfc c1 c2. apply pgo_add_edge_speed. }
  eapply successor_edges_preserve; [| exact E1 |].
  { intros kf kfc c1 c2. apply pgo_add_edge_speed. }
  clear E E1.
  pose proof (keyframes_built k s _ _
                (pgo_add_keyframe corrected_poses) (GetKeyframesVec (map_ s))
                {| pg_state := s; pg_problem := empty_problem; q_ws_map := ∅;
                   inserted_edges := ∅ |}
                (fun done kf b1 => pgo_add_keyframe_speed corrected_poses k s done kf b1))
    as Hb.
  destruct Hb as (Hk & Hp & Hmem).
  { split; [reflexivity|]. split; [apply pinned_empty | intros []]. }
  split; [exact Hk|]. split; [| exact Hmem].
  cbn [pg_problem pg_update]. apply pgo_loops_speed, Hp.
Qed.

(** *** 4-DoF: the velocity and bias buffer, pitch and roll *)

Lemma pgo4_add_keyframe_built k s0 done kf (b : PoseGraphBuild) :
  kf_built s0
    (fun p => pinned (ceres_velocity_and_bias_ k) [] False p /\ yaw_trans_blocks p)
    (fun m => load m (ceres_velocity_and_bias_ k, 0) kSpeedBiasBlockSize
              = speed_and_bias (kfs s0 k)
              /\ m (ceres_pose_ k) 2 = v3_y (R2ypr (T_ws (kfs s0 k)))
              /\ m (ceres_pose_ k) 3 = v3_z (R2ypr (T_ws (kfs s0 k)))) done b ->
  kf_built s0
    (fun p => pinned (ceres_velocity_and_bias_ k) [] False p /\ yaw_trans_blocks p)
    (fun m => load m (ceres_velocity_and_bias_ k, 0) kSpeedBiasBlockSize
              = speed_and_bias (kfs s0 k)
              /\ m (ceres_pose_ k) 2 = v3_y (R2ypr (T_ws (kfs s0 k)))
              /\ m (ceres_pose_ k) 3 = v3_z (R2ypr (T_ws (kfs s0 k))))
    (done \/ (kf = k /\ kf_invalid (kfs s0 k) = false))
    (pgo4_add_keyframe params kf b).
Proof.
  intros (Hk & [Hp Hsz] & Hmem). unfold pgo4_add_keyframe.
  destruct (kf_invalid (kfs (pg_state b) kf)) eqn:Hinv.
  { split; [exact Hk|]. split; [split; assumption|].
    intros [Hd|[-> Hval]]; [apply Hmem, Hd|]. rewrite Hk in Hinv. congruence. }
  unfold kf_built. cbn [pg_state pg_problem kfs with_mem UpdateCeresFromState mem].
  split; [exact Hk|]. split.
  - assert (Hp1 : pinned (ceres_velocity_and_bias_ k) [] False
                    (AddParameterBlock (trans_block kf) 3 None
                       (AddParameterBlock (yaw_block kf) 1
                          (Some AngleLocalParameterization) (pg_problem b)))
                  /\ yaw_trans_blocks
                       (AddParameterBlock (trans_block kf) 3 None
                          (AddParameterBlock (yaw_block kf) 1
                             (Some AngleLocalParameterization) (pg_problem b)))).
    { split.
      - apply pinned_AddParameterBlock; [apply placed_nowhere; discriminate|].
        apply pinned_AddParameterBlock; [apply placed_nowhere; discriminate | exact Hp].
      - apply yaw_trans_blocks_AddParameterBlock; [simpl; auto|].
        apply yaw_trans_blocks_AddParameterBlock; [simpl; auto | exact Hsz]. }
    assert (Hc : forall p, pinned (ceres_velocity_and_bias_ k) [] False p /\ yaw_trans_blocks p ->
                   pinned (ceres_velocity_and_bias_ k) [] False (set_4dof_constant kf p)
                   /\ yaw_trans_blocks (set_4dof_constant kf p)).
    { intros p [Hq1 Hq2].
      split; [apply set_4dof_constant_pinned | apply yaw_trans_blocks_set_4dof_constant];
        assumption. }
    assert (Hp2 : forall c : bool,
      pinned (ceres_velocity_and_bias_ k) [] False
        (if c then set_4dof_constant kf
                     (AddParameterBlock (trans_block kf) 3 None
                        (AddParameterBlock (yaw_block kf) 1
                           (Some AngleLocalParameterization) (pg_problem b)))
         else AddParameterBlock (trans_block kf) 3 None
                (AddParameterBlock (yaw_block kf) 1
                   (Some AngleLocalParameterization) (pg_problem b)))
      /\ yaw_trans_blocks
        (if c then set_4dof_constant kf
                     (AddParameterBlock (trans_block kf) 3 None
                        (AddParameterBlock (yaw_block kf) 1
                           (Some AngleLocalParameterization) (pg_problem b)))
         else AddParameterBlock (trans_block kf) 3 None
                (AddParameterBlock (yaw_block kf) 1
                   (Some AngleLocalParameterization) (pg_problem b))))
      by (intros [|]; [apply Hc|]; exact Hp1).
    destruct (_ && _); [apply Hc, Hp2|].
    destruct (_ && _); [apply Hc, Hp2 | apply Hp2].
  - intros Hdone. destruct (decide (kf = k)) as [->|Hne].
    + split; [| split].
      * rewrite (load_ext (mem (UpdateCeresFromState k (pg_state b)))).
        -- rewrite UpdateCeresFromState_speed, Hk. reflexivity.
        -- intros i. unfold UpdateCeresFromState. cbn [mem with_mem].
           rewrite (store_other _ (ceres_pose_ k)) by discriminate. reflexivity.
      * rewrite store_same, Hk. reflexivity.
      * rewrite store_same, Hk. reflexivity.
    + destruct Hdone as [Hd|[Hd _]]; [| contradiction].
      destruct (Hmem Hd) as (Hm1 & Hm2 & Hm3). split; [| split].
      * rewrite <- Hm1. apply load_ext. intros i.
        rewrite store_other by discriminate.
        apply (UpdateCeresFromState_other kf (pg_state b)); congruence.
      * rewrite <- Hm2. rewrite store_other by congruence.
        apply (UpdateCeresFromState_other kf (pg_state b)); congruence.
      * rewrite <- Hm3. rewrite store_other by congruence.
        apply (UpdateCeresFromState_other kf (pg_state b)); congruence.
Qed.

Lemma pgo4_add_loop_built k s0 holds done l (b b' : PoseGraphBuild) :
  pgo4_add_loop l b = Ok b' ->
  kf_built s0
    (fun p => pinned (ceres_velocity_and_bias_ k) [] False p /\ yaw_trans_blocks p)
    holds done b ->
  kf_built s0
    (fun p => pinned (ceres_velocity_and_bias_ k) [] False p /\ yaw_trans_blocks p)
    holds done b'.
Proof.
  unfold pgo4_add_loop. intros E (Hk & [Hp Hsz] & Hmem).
  apply bind_Ok in E as (q & _ & E). apply Ok_inj in E. subst b'.
  split; [exact Hk|]. split; [| exact Hmem]. cbn [pg_problem pg_update]. split.
  - apply pinned_AddResidualBlock; [apply pose_4dof_blocks_not_speed | exact Hp].
  - apply yaw_trans_blocks_edge; [reflexivity | exact Hsz].
Qed.

Lemma pgo4_add_edge_built k s0 holds done kf kfc (b b' : PoseGraphBuild) :
  pgo4_add_edge kf kfc b = Ok b' ->
  kf_built s0
    (fun p => pinned (ceres_velocity_and_bias_ k) [] False p /\ yaw_trans_blocks p)
    holds done b ->
  kf_built s0
    (fun p => pinned (ceres_velocity_and_bias_ k) [] False p /\ yaw_trans_blocks p)
    holds done b'.
Proof.
  unfold pgo4_add_edge. intros E Hb.
  apply bind_Ok in E as (q & _ & E).
  destruct (edge_is_new _ _); apply Ok_inj in E; subst b'; [| exact Hb].
  destruct Hb as (Hk & [Hp Hsz] & Hmem).
  split; [exact Hk|]. split; [| exact Hmem]. cbn [pg_problem insert_edge]. split.
  - apply pinned_AddResidualBlock; [apply pose_4dof_blocks_not_speed | exact Hp].
  - apply yaw_trans_blocks_edge; [reflexivity | exact Hsz].
Qed.

Lemma pgo4_build_built k s b :
  pgo4_build params s = Ok b ->
  kf_built s
    (fun p => pinned (ceres_velocity_and_bias_ k) [] False p /\ yaw_trans_blocks p)
    (fun m => load m (ceres_velocity_and_bias_ k, 0) kSpeedBiasBlockSize
              = speed_and_bias (kfs s k)
              /\ m (ceres_pose_ k) 2 = v3_y (R2ypr (T_ws (kfs s k)))
              /\ m (ceres_pose_ k) 3 = v3_z (R2ypr (T_ws (kfs s k))))
    (k ∈ GetKeyframesVec (map_ s) /\ kf_invalid (kfs s k) = false) b.
Proof.
  intros E. unfold pgo4_build in E.
  apply bind_Ok in E as (b1 & E1 & E). apply bind_Ok in E as (b2 & E2 & E).
  eapply window_edges_preserve; [| exact E |].
  { intros kf kfc c1 c2. apply pgo4_add_edge_built. }
  eapply successor_edges_preserve; [| exact E2 |].
  { intros kf kfc c1 c2. apply pgo4_add_edge_built. }
  refine (for_each_invariant _ _ _ _ _ _ _ E1).
  { intros l c1 c2 _ Hc1 Ec. eapply pgo4_add_loop_built; eassumption. }
  apply (keyframes_built k s _ _ (pgo4_add_keyframe params) (GetKeyframesVec (map_ s))
           {| pg_state := s; pg_problem := empty_problem; q_ws_map := ∅;
              inserted_edges := ∅ |}
           (fun done kf b1 => pgo4_add_keyframe_built k s done kf b1)).
  split; [reflexivity|]. split; [| intros []].
  split; [apply pinned_empty | apply yaw_trans_blocks_empty].
Qed.

End PoseGraphKeyframes.

(** A write-back of keyframes, as both variants have it, seen from the
    velocity and the biases: an invalid keyframe is skipped; a valid one
    gets its biases from its velocity and bias buffer and the velocity of
    that buffer rotated from its old into its new pose, and nothing else
    changes but its own pose buffer. *)
Section RecoverSpeed.
Context `{Geometry}.
Variable recover : PoseGraphRecover -> KeyframePtr -> PoseGraphRecover.
Hypothesis recover_invalid : forall r kf,
  kf_invalid (kfs (pr_state r) kf) = true -> recover r kf = r.
Hypothesis recover_valid : forall r kf,
  kf_invalid (kfs (pr_state r) kf) = false ->
  (forall k, k <> kf -> kfs (pr_state (recover r kf)) k = kfs (pr_state r) k) /\
  (forall k i, mem (pr_state (recover r kf)) (ceres_velocity_and_bias_ k) i
               = mem (pr_state r) (ceres_velocity_and_bias_ k) i) /\
  velocity (kfs (pr_state (recover r kf)) kf)
  = T_rotate (Tmul (T_ws (kfs (pr_state (recover r kf)) kf))
                (Tinv (T_ws (kfs (pr_state r) kf))))
      (vec3_at (mem (pr_state r)) (ceres_velocity_and_bias_ kf) 0) /\
  bias_accel (kfs (pr_state (recover r kf)) kf)
  = vec3_at (mem (pr_state r)) (ceres_velocity_and_bias_ kf) 3 /\
  bias_gyro (kfs (pr_state (recover r kf)) kf)
  = vec3_at (mem (pr_state r)) (ceres_velocity_and_bias_ kf) 6.

Lemma recover_speed_others (l : list KeyframePtr) kf : forall r,
  kf ∉ l ->
  kfs (pr_state (foldl recover r l)) kf = kfs (pr_state r) kf /\
  forall k i, mem (pr_state (foldl recover r l)) (ceres_velocity_and_bias_ k) i
              = mem (pr_state r) (ceres_velocity_and_bias_ k) i.
Proof using recover_invalid recover_valid.
  induction l as [|kf0 l IH]; intros r Hl; [auto|].
  simpl. apply not_elem_of_cons in Hl as [Hne Hl].
  destruct (IH (recover r kf0) Hl) as [Ek Em].
  destruct (kf_invalid (kfs (pr_state r) kf0)) eqn:Hv.
  - rewrite (recover_invalid _ _ Hv) in *. auto.
  - destruct (recover_valid _ _ Hv) as (Hk' & Hm' & _).
    split; [rewrite Ek; apply Hk'; exact Hne|].
    intros k i. rewrite Em. apply Hm'.
Qed.

Lemma recover_speed_mem (l : list KeyframePtr) : forall r k i,
  mem (pr_state (foldl recover r l)) (ceres_velocity_and_bias_ k) i
  = mem (pr_state r) (ceres_velocity_and_bias_ k) i.
Proof using recover_invalid recover_valid.
  induction l as [|kf0 l IH]; intros r k i; [reflexivity|].
  simpl. rewrite IH.
  destruct (kf_invalid (kfs (pr_state r) kf0)) eqn:Hv.
  - rewrite (recover_invalid _ _ Hv). reflexivity.
  - destruct (recover_valid _ _ Hv) as (_ & Hm' & _). apply Hm'.
Qed.

Lemma recover_speed (l : list KeyframePtr) (r0 : PoseGraphRecover) kf :
  NoDup l -> kf ∈ l -> kf_invalid (kfs (pr_state r0) kf) = false ->
  let r := foldl recover r0 l in
  velocity (kfs (pr_state r) kf)
  = T_rotate (Tmul (T_ws (kfs (pr_state r) kf)) (Tinv (T_ws (kfs (pr_state r0) kf))))
      (vec3_at (mem (pr_state r0)) (ceres_velocity_and_bias_ kf) 0) /\
  bias_accel (kfs (pr_state r) kf)
  = vec3_at (mem (pr_state r0)) (ceres_velocity_and_bias_ kf) 3 /\
  bias_gyro (kfs (pr_state r) kf)
  = vec3_at (mem (pr_state r0)) (ceres_velocity_and_bias_ kf) 6.
Proof using recover_invalid recover_valid.
  intros Hnd Hin Hval. cbn zeta.
  destruct (list_elem_of_split _ _ Hin) as (l1 & l2 & ->).
  apply NoDup_app in Hnd as (_ & Hl1 & Hl2). apply NoDup_cons in Hl2 as [Hl2 _].
  assert (Hnot1 : kf ∉ l1) by (intros Ha; apply (Hl1 kf Ha); left).
  rewrite foldl_app. simpl.
  destruct (recover_speed_others l2 kf (recover (foldl recover r0 l1) kf) Hl2) as [-> _].
  destruct (recover_speed_others l1 kf r0 Hnot1) as [Ek Em].
  assert (Hv1 : kf_invalid (kfs (pr_state (foldl recover r0 l1)) kf) = false)
    by (rewrite Ek; exact Hval).
  destruct (recover_valid _ _ Hv1) as (_ & _ & Hvel & HbA & HbG).
  rewrite Hvel, HbA, HbG, Ek. unfold vec3_at. rewrite !Em. auto.
Qed.

End RecoverSpeed.

Section PoseGraphSpeed.
Context `{Geometry} `{!Solver}.
Variable params : Params.

Lemma pgo_recover_keyframe_speed (r : PoseGraphRecover) kf :
  kf_invalid (kfs (pr_state r) kf) = false ->
  (forall k, k <> kf -> kfs (pr_state (pgo_recover_keyframe r kf)) k = kfs (pr_state r) k) /\
  (forall k i, mem (pr_state (pgo_recover_keyframe r kf)) (ceres_velocity_and_bias_ k) i
               = mem (pr_state r) (ceres_velocity_and_bias_ k) i) /\
  velocity (kfs (pr_state (pgo_recover_keyframe r kf)) kf)
  = T_rotate (Tmul (T_ws (kfs (pr_state (pgo_recover_keyframe r kf)) kf))
                (Tinv (T_ws (kfs (pr_state r) kf))))
      (vec3_at (mem (pr_state r)) (ceres_velocity_and_bias_ kf) 0) /\
  bias_accel (kfs (pr_state (pgo_recover_keyframe r kf)) kf)
  = vec3_at (mem (pr_state r)) (ceres_velocity_and_bias_ kf) 3 /\
  bias_gyro (kfs (pr_state (pgo_recover_keyframe r kf)) kf)
  = vec3_at (mem (pr_state r)) (ceres_velocity_and_bias_ kf) 6.
Proof.
  intros Hv. unfold pgo_recover_keyframe. rewrite Hv.
  cbn [pr_state UpdateFromCeres with_kf with_mem kfs mem]. unfold upd.
  split; [intros k Hne; rewrite !decide_False by exact Hne; reflexivity|].
  split; [reflexivity|].
  rewrite !decide_True by reflexivity. repeat split.
Qed.

Lemma pgo4_recover_keyframe_speed (r : PoseGraphRecover) kf :
  kf_invalid (kfs (pr_state r) kf) = false ->
  (forall k, k <> kf -> kfs (pr_state (pgo4_recover_keyframe r kf)) k = kfs (pr_state r) k) /\
  (forall k i, mem (pr_state (pgo4_recover_keyframe r kf)) (ceres_velocity_and_bias_ k) i
               = mem (pr_state r) (ceres_velocity_and_bias_ k) i) /\
  velocity (kfs (pr_state (pgo4_recover_keyframe r kf)) kf)
  = T_rotate (Tmul (T_ws (kfs (pr_state (pgo4_recover_keyframe r kf)) kf))
                (Tinv (T_ws (kfs (pr_state r) kf))))
      (vec3_at (mem (pr_state r)) (ceres_velocity_and_bias_ kf) 0) /\
  bias_accel (kfs (pr_state (pgo4_recover_keyframe r kf)) kf)
  = vec3_at (mem (pr_state r)) (ceres_velocity_and_bias_ kf) 3 /\
  bias_gyro (kfs (pr_state (pgo4_recover_keyframe r kf)) kf)
  = vec3_at (mem (pr_state r)) (ceres_velocity_and_bias_ kf) 6.
Proof.
  intros Hv. unfold pgo4_recover_keyframe. rewrite Hv.
  cbn [pr_state UpdateFromCeres with_kf with_mem kfs mem]. unfold upd.
  split; [intros k Hne; rewrite !decide_False by exact Hne; reflexivity|].
  split; [intros k i; apply store_other; discriminate|].
  rewrite !decide_True by reflexivity.
  cbn [rotate_velocity SetStateVelocity set_kf_pose velocity bias_accel bias_gyro T_ws].
  unfold vec3_at. rewrite !(store_other _ (ceres_pose_ kf)) by discriminate.
  repeat split.
Qed.

(** X15.  Pose-graph optimisation, velocities and biases (both variants).  With
    a solver that writes to variable blocks only and a keyframe vector
    without repetition, every valid keyframe of the vector ends with its
    velocity rotated from its old into its new pose, and with its biases
    unchanged. *)
Theorem pose_graph_velocity_rotated s corrected_poses s' kf :
  solver_keeps_constants ->
  NoDup (GetKeyframesVec (map_ s)) ->
  PoseGraphOptimization params s corrected_poses = Ok s'
  \/ PoseGraphOptimization4DoF params s corrected_poses = Ok s' ->
  kf ∈ GetKeyframesVec (map_ s) -> kf_invalid (kfs s kf) = false ->
  velocity (kfs s' kf)
  = T_rotate (Tmul (T_ws (kfs s' kf)) (Tinv (T_ws (kfs s kf)))) (velocity (kfs s kf)) /\
  bias_accel (kfs s' kf) = bias_accel (kfs s kf) /\
  bias_gyro (kfs s' kf) = bias_gyro (kfs s kf).
Proof.
  intros Hsolve Hnd [E|E] Hin Hval.
  - unfold PoseGraphOptimization in E. apply bind_Ok in E as (b & Eb & E).
    apply pgo_recover_landmarks_kfs in E. rewrite E.
    destruct (pgo_build_speed _ kf _ _ _ Eb) as (Hk & Hp & Hmem).
    match goal with |- context [foldl pgo_recover_keyframe ?r _] => set (r0 := r) end.
    destruct (recover_speed pgo_recover_keyframe pgo_recover_keyframe_invalid
                pgo_recover_keyframe_speed (GetKeyframesVec (map_ s)) r0 kf Hnd Hin)
      as (Hvel & HbA & HbG).
    { subst r0. cbn [pr_state with_mem kfs]. rewrite Hk. exact Hval. }
    cbn zeta in Hvel, HbA, HbG. rewrite Hvel, HbA, HbG. subst r0.
    cbn [pr_state with_mem kfs mem]. rewrite Hk.
    destruct (load_speed_and_bias
                (Solve (bundle_options params (pgo_iteration_limit params)) (pg_problem b)
                   (mem (pg_state b)))
                (ceres_velocity_and_bias_ kf) (kfs s kf)) as (-> & -> & ->); [| auto].
    rewrite <- (Hmem (conj Hin Hval)). apply load_ext. intros i.
    apply Hsolve, pinned_nowhere_is_variable, Hp.
  - unfold PoseGraphOptimization4DoF in E. apply bind_Ok in E as (b & Eb & E).
    apply pgo_recover_landmarks_kfs in E. rewrite E.
    destruct (pgo4_build_built _ kf _ _ Eb) as (Hk & [Hp _] & Hmem).
    match goal with |- context [foldl pgo4_recover_keyframe ?r _] => set (r0 := r) end.
    destruct (recover_speed pgo4_recover_keyframe pgo4_recover_keyframe_skips
                pgo4_recover_keyframe_speed (GetKeyframesVec (map_ s)) r0 kf Hnd Hin)
      as (Hvel & HbA & HbG).
    { subst r0. cbn [pr_state with_mem kfs]. rewrite Hk. exact Hval. }
    cbn zeta in Hvel, HbA, HbG. rewrite Hvel, HbA, HbG. subst r0.
    cbn [pr_state with_mem kfs mem]. rewrite Hk.
    destruct (load_speed_and_bias
                (Solve (pgo4_options params) (pg_problem b) (mem (pg_state b)))
                (ceres_velocity_and_bias_ kf) (kfs s kf)) as (-> & -> & ->); [| auto].
    destruct (Hmem (conj Hin Hval)) as (<- & _). apply load_ext. intros i.
    apply Hsolve, pinned_nowhere_is_variable, Hp.
Qed.

(** The pose the 4-DoF write-back gives a valid keyframe: the quaternion of
    the three angles in its pose buffer, and the translation in it. *)
Lemma pgo4_recover_keyframe_pose (r : PoseGraphRecover) kf :
  kf_invalid (kfs (pr_state r) kf) = false ->
  T_ws (kfs (pr_state (pgo4_recover_keyframe r kf)) kf)
  = Ceres2Transform
      (let m := mem (pr_state r) (ceres_pose_ kf) in
       let q := eulerAnglesToQuat (m 1) (m 2) (m 3) in
       [q_x q; q_y q; q_z q; q_w q] ++ vec3_to_list (Vector3 (m 4) (m 5) (m 6))).
Proof.
  intros Hval. unfold pgo4_recover_keyframe. rewrite Hval.
  cbn [pr_state]. unfold UpdateFromCeres. cbn [mem with_kf with_mem kfs]. unfold upd.
  rewrite !decide_True by reflexivity. simpl T_ws. f_equal.
  unfold load. simpl. rewrite !store_same. simpl. reflexivity.
Qed.

(** X16.  4-DoF pose-graph optimisation optimises yaw and translation only.  With
    a solver that writes to variable blocks only and a keyframe vector
    without repetition, every valid keyframe of the vector ends with the
    pose made of some yaw, the pitch and the roll of its old pose, and some
    translation. *)
Theorem PoseGraphOptimization4DoF_keeps_pitch_and_roll s corrected_poses s' kf :
  solver_keeps_constants ->
  NoDup (GetKeyframesVec (map_ s)) ->
  PoseGraphOptimization4DoF params s corrected_poses = Ok s' ->
  kf ∈ GetKeyframesVec (map_ s) -> kf_invalid (kfs s kf) = false ->
  exists yaw t,
    T_ws (kfs s' kf)
    = Ceres2Transform
        (let q := eulerAnglesToQuat yaw (v3_y (R2ypr (T_ws (kfs s kf))))
                    (v3_z (R2ypr (T_ws (kfs s kf)))) in
         [q_x q; q_y q; q_z q; q_w q] ++ vec3_to_list t).
Proof.
  intros Hsolve Hnd E Hin Hval.
  unfold PoseGraphOptimization4DoF in E. apply bind_Ok in E as (b & Eb & E).
  apply pgo_recover_landmarks_kfs in E. rewrite E.
  destruct (pgo4_build_built _ kf _ _ Eb) as (Hk & [_ Hsz] & Hmem).
  destruct (Hmem (conj Hin Hval)) as (_ & Hpitch & Hroll).
  match goal with |- context [foldl pgo4_recover_keyframe ?r _] => set (r0 := r) end.
  destruct (list_elem_of_split _ _ Hin) as (l1 & l2 & Hl). rewrite Hl in Hnd |- *.
  apply NoDup_app in Hnd as (_ & Hl1 & Hl2). apply NoDup_cons in Hl2 as [Hl2 _].
  assert (Hnot1 : kf ∉ l1) by (intros Ha; apply (Hl1 kf Ha); left).
  rewrite foldl_app. simpl.
  destruct (pgo4_recover_keyframes_other kf l2
              (pgo4_recover_keyframe (foldl pgo4_recover_keyframe r0 l1) kf) Hl2) as [-> _].
  destruct (pgo4_recover_keyframes_other kf l1 r0 Hnot1) as [Ek Em].
  rewrite pgo4_recover_keyframe_pose
    by (rewrite Ek; subst r0; cbn [pr_state with_mem kfs]; rewrite Hk; exact Hval).
  cbn zeta. rewrite !Em. subst r0. cbn [pr_state with_mem mem].
  rewrite (Hsolve _ _ _ (ceres_pose_ kf) 2)
    by (apply yaw_trans_blocks_is_variable; [exact Hsz | auto]).
  rewrite (Hsolve _ _ _ (ceres_pose_ kf) 3)
    by (apply yaw_trans_blocks_is_variable; [exact Hsz | auto]).
  rewrite Hpitch, Hroll. eexists _, _. reflexivity.
Qed.

End PoseGraphSpeed.

(** ** Local Bundle Adjustment: the graph, the needs, the query pose *)

Section LocalRun.
Context `{Geometry} `{!Solver}.
Variable params : Params.

Lemma buffers_only_with_mem m s0 s : buffers_only s0 s -> buffers_only s0 (with_mem m s).
Proof. intros (? & ? & ? & ?). repeat split; assumption. Qed.

Lemma buffers_only_UpdateCeresFromState kf s0 s :
  buffers_only s0 s -> buffers_only s0 (UpdateCeresFromState kf s).
Proof. apply buffers_only_with_mem. Qed.

(** What a round of "Add Query KFs" needs and does. *)
Lemma lba_add_query_kf_needs QKFs QKF i (b b' : BundleBuild) :
  lba_add_query_kf QKFs QKF i b = Ok b' ->
  exists kf, QKFs !! i = Some kf /\
    buffers_only (bb_state b) (bb_state b') /\
    (getType (cams (bb_state b) (camera_ (kfs (bb_state b) kf))) = kPinhole
     \/ getType (cams (bb_state b) (camera_ (kfs (bb_state b) kf))) = kUnifiedProjection) /\
    (forall key, is_Some (intrinsics_map b' !! key) ->
       is_Some (intrinsics_map b !! key) \/ key = id_ (kfs (bb_state b) kf)).
Proof.
  unfold lba_add_query_kf. intros E. apply bind_Ok in E as (kf & Ekf & E).
  apply vec_at_Ok in Ekf. exists kf. split; [exact Ekf|].
  destruct (bool_decide (i = 0)).
  - pose proof (add_camera_parameters_type _ _ _ E) as Htype.
    apply add_camera_parameters_Ok in E. subst b'.
    cbn [add_camera_blocks bb_state bb_update intrinsics_map] in *.
    cbn [with_mem UpdateCeresFromState cams kfs] in *.
    split; [repeat split|]. split; [exact Htype|].
    intros key Hk. apply map_insert_new_is_Some in Hk as [Hk| ->]; auto.
  - pose proof (add_camera_parameters_type _ _ _ E) as Htype.
    apply add_camera_parameters_Ok in E. subst b'.
    cbn [add_camera_blocks bb_state bb_update intrinsics_map] in *.
    cbn [with_mem UpdateCeresFromState cams kfs] in *.
    split; [repeat split|]. split; [exact Htype|].
    intros key Hk. apply map_insert_new_is_Some in Hk as [Hk| ->]; auto.
Qed.

(** What a round of "Add Candidate KFs" needs and does. *)
Lemma lba_add_candidate_kf_needs CKF T_s1s2 kf (b b' : BundleBuild) :
  lba_add_candidate_kf CKF T_s1s2 kf b = Ok b' ->
  buffers_only (bb_state b) (bb_state b') /\
  (getType (cams (bb_state b) (camera_ (kfs (bb_state b) kf))) = kPinhole
   \/ getType (cams (bb_state b) (camera_ (kfs (bb_state b) kf))) = kUnifiedProjection) /\
  (forall key, is_Some (intrinsics_map b' !! key) ->
     is_Some (intrinsics_map b !! key) \/ key = id_ (kfs (bb_state b) kf)).
Proof.
  unfold lba_add_candidate_kf. intros E.
  pose proof (add_camera_parameters_type _ _ _ E) as Htype.
  apply add_camera_parameters_Ok in E. subst b'.
  cbn [add_camera_blocks bb_state bb_update intrinsics_map] in *.
  cbn [with_mem UpdateCeresFromState cams kfs] in *.
  split; [repeat split|]. split; [exact Htype|].
  intros key Hk. apply map_insert_new_is_Some in Hk as [Hk| ->]; auto.
Qed.

(** What the factor of an observation needs and does. *)
Lemma lba_add_observation_needs i o (b b' : BundleBuild) :
  lba_add_observation i o b = Ok b' ->
  bb_state b' = bb_state b /\ intrinsics_map b' = intrinsics_map b /\
  distortion_map b' = distortion_map b /\
  forall kfx, fst o = Some kfx -> kf_invalid (kfs (bb_state b) kfx) = false ->
    supported_camera (cams (bb_state b) (camera_ (kfs (bb_state b) kfx))) /\
    is_Some (intrinsics_map b !! id_ (kfs (bb_state b) kfx)).
Proof.
  unfold lba_add_observation. intros E.
  destruct (fst o) as [kfx|].
  2:{ apply Ok_inj in E. subst. do 3 (split; [reflexivity|]). intros k Hk. discriminate. }
  destruct (kf_invalid (kfs (bb_state b) kfx)) eqn:Hv.
  { apply Ok_inj in E. subst. do 3 (split; [reflexivity|]).
    intros k [= <-] Hk. congruence. }
  destruct (intrinsics_map b !! id_ (kfs (bb_state b) kfx)) as [intr|] eqn:Ei; [|discriminate].
  apply bind_Ok in E as (c & Ec & E). apply bind_Ok in E as (dist & _ & E).
  apply Ok_inj in E. subst b'. cbn [bb_state bb_update intrinsics_map distortion_map].
  repeat (split; [reflexivity|]). intros k [= <-] _.
  apply new_GlobalEuclideanReprError_supported in Ec. rewrite Ei. split; [exact Ec | eauto].
Qed.

Lemma lba_add_landmark_state lms_ i (b b' : BundleBuild) :
  lba_add_landmark lms_ i b = Ok b' ->
  buffers_only (bb_state b) (bb_state b') /\ intrinsics_map b' = intrinsics_map b /\
  distortion_map b' = distortion_map b.
Proof.
  unfold lba_add_landmark. intros E. apply bind_Ok in E as (lm & _ & E).
  refine (for_each_invariant _
            (fun x => buffers_only (bb_state b) (bb_state x)
                      /\ intrinsics_map x = intrinsics_map b
                      /\ distortion_map x = distortion_map b) _ _ _ _ _ E).
  - intros o c1 c2 _ (Hs & Hi & Hd) Ec.
    apply lba_add_observation_needs in Ec as (-> & -> & -> & _). auto.
  - cbn [bb_state bb_update intrinsics_map distortion_map]. repeat split.
Qed.

(** The construction, loop by loop. *)
Lemma lba_build_loops s lms_ QKFs CKFs T_s1s2 b :
  lba_build s lms_ QKFs CKFs T_s1s2 = Ok b ->
  exists QKF CKF b1 b2 b3,
    QKFs !! 0 = Some QKF /\ CKFs !! 0 = Some CKF /\
    for_each (lba_add_query_kf QKFs QKF) (seq 0 (length QKFs)) (bundle_init s) = Ok b1 /\
    for_each (lba_add_candidate_kf CKF T_s1s2) CKFs b1 = Ok b2 /\
    for_each (lba_add_landmark lms_) (seq 0 (length lms_)) b2 = Ok b3 /\
    b = bb_update (bb_state b3)
          (foldl (lba_add_edge (bb_state b3) QKF)
             (foldl (lba_add_edge (bb_state b3) CKF) (bb_problem b3) (drop 1 CKFs))
             (drop 1 QKFs)) b3.
Proof.
  unfold lba_build. intros E.
  apply bind_Ok in E as (QKF & EQ & E). apply bind_Ok in E as (CKF & EC & E).
  apply bind_Ok in E as (b1 & E1 & E). apply bind_Ok in E as (b2 & E2 & E).
  apply bind_Ok in E as (b3 & E3 & E). apply Ok_inj in E.
  apply vec_at_Ok in EQ, EC. exists QKF, CKF, b1, b2, b3.
  split; [exact EQ|]. split; [exact EC|]. split; [exact E1|]. split; [exact E2|].
  split; [exact E3 | symmetry; exact E].
Qed.

(** X19.  Local Bundle Adjustment works on the buffers only: the keyframes, the
    landmarks, the cameras and the map of the graph it returns are those of
    the graph it was given. *)
Theorem LocalBundleAdjustment_leaves_graph s lms_ QKFs CKFs T_s1s2 s' cov_BA :
  LocalBundleAdjustment params s lms_ QKFs CKFs T_s1s2 = Ok (s', cov_BA) ->
  kfs s' = kfs s /\ lms s' = lms s /\ cams s' = cams s /\ map_ s' = map_ s.
Proof.
  unfold LocalBundleAdjustment. intros E. apply bind_Ok in E as (b & Eb & E).
  apply Ok_inj in E. injection E as <- _.
  apply lba_build_loops in Eb as (QKF & CKF & b1 & b2 & b3 & _ & _ & E1 & E2 & E3 & ->).
  cbn [bb_state bb_update]. apply buffers_only_with_mem.
  assert (Hs1 : buffers_only s (bb_state b1)).
  { refine (for_each_invariant _ (fun x => buffers_only s (bb_state x)) _ _ _ _ _ E1);
      [| apply buffers_only_refl].
    intros i c1 c2 _ Hc Ec. apply lba_add_query_kf_needs in Ec as (kf & _ & Hs & _).
    eapply buffers_only_trans; eassumption. }
  assert (Hs2 : buffers_only s (bb_state b2)).
  { refine (for_each_invariant _ (fun x => buffers_only s (bb_state x)) _ _ _ _ Hs1 E2).
    intros kf c1 c2 _ Hc Ec. apply lba_add_candidate_kf_needs in Ec as (Hs & _).
    eapply buffers_only_trans; eassumption. }
  refine (for_each_invariant _ (fun x => buffers_only s (bb_state x)) _ _ _ _ Hs2 E3).
  intros i c1 c2 _ Hc Ec. apply lba_add_landmark_state in Ec as (Hs & _).
  eapply buffers_only_trans; eassumption.
Qed.

(** X20.  Local Bundle Adjustment, what a call needs to return.  Neither keyframe
    vector is empty; every keyframe of the two vectors has a pinhole or
    unified-projection camera; and every valid observer of a local landmark
    has a camera of a supported model and shares its id with a keyframe of
    the two vectors. *)
Theorem LocalBundleAdjustment_requirements s lms_ QKFs CKFs T_s1s2 r :
  LocalBundleAdjustment params s lms_ QKFs CKFs T_s1s2 = Ok r ->
  QKFs <> [] /\ CKFs <> [] /\
  (forall kf, kf ∈ QKFs ++ CKFs ->
     getType (cams s (camera_ (kfs s kf))) = kPinhole
     \/ getType (cams s (camera_ (kfs s kf))) = kUnifiedProjection) /\
  (forall lm kfx feat_id,
     lm ∈ lms_ -> (Some kfx, feat_id) ∈ observations_ lm ->
     kf_invalid (kfs s kfx) = false ->
     supported_camera (cams s (camera_ (kfs s kfx))) /\
     exists kf, kf ∈ QKFs ++ CKFs /\ id_ (kfs s kf) = id_ (kfs s kfx)).
Proof.
  unfold LocalBundleAdjustment. intros E. apply bind_Ok in E as (b & Eb & _).
  apply lba_build_loops in Eb as (QKF & CKF & b1 & b2 & b3 & EQ & EC & E1 & E2 & E3 & _).
  split; [intros ->; discriminate|]. split; [intros ->; discriminate|].
  (* the loop over the query keyframes *)
  assert (Hinv1 : forall i c1 c2, buffers_only s (bb_state c1) ->
                    lba_add_query_kf QKFs QKF i c1 = Ok c2 -> buffers_only s (bb_state c2)).
  { intros i c1 c2 Hc Ec. apply lba_add_query_kf_needs in Ec as (kf & _ & Hs & _).
    eapply buffers_only_trans; eassumption. }
  assert (Hb1 : buffers_only s (bb_state b1) /\
                forall key, is_Some (intrinsics_map b1 !! key) ->
                  exists kf, kf ∈ QKFs /\ id_ (kfs s kf) = key).
  { refine (for_each_invariant _
              (fun x => buffers_only s (bb_state x) /\
                        forall key, is_Some (intrinsics_map x !! key) ->
                          exists kf, kf ∈ QKFs /\ id_ (kfs s kf) = key) _ _ _ _ _ E1).
    - intros i c1 c2 _ [Hc Hm] Ec. split; [eapply Hinv1; eassumption|].
      apply lba_add_query_kf_needs in Ec as (kf & Hkf & _ & _ & Hdom).
      intros key Hkey. destruct (Hdom key Hkey) as [Hold| ->]; [apply Hm, Hold|].
      exists kf. split; [eapply list_elem_of_lookup_2, Hkf|].
      destruct Hc as (-> & _). reflexivity.
    - split; [apply buffers_only_refl|]. intros key [v Hv]. cbn in Hv.
      rewrite lookup_empty in Hv. discriminate. }
  destruct Hb1 as [Hs1 Hdom1].
  (* the loop over the candidate keyframes *)
  assert (Hinv2 : forall kf c1 c2, buffers_only s (bb_state c1) ->
                    lba_add_candidate_kf CKF T_s1s2 kf c1 = Ok c2 ->
                    buffers_only s (bb_state c2)).
  { intros kf c1 c2 Hc Ec. apply lba_add_candidate_kf_needs in Ec as (Hs & _).
    eapply buffers_only_trans; eassumption. }
  assert (Hb2 : buffers_only s (bb_state b2) /\
                forall key, is_Some (intrinsics_map b2 !! key) ->
                  exists kf, kf ∈ QKFs ++ CKFs /\ id_ (kfs s kf) = key).
  { refine (for_each_invariant _
              (fun x => buffers_only s (bb_state x) /\
                        forall key, is_Some (intrinsics_map x !! key) ->
                          exists kf, kf ∈ QKFs ++ CKFs /\ id_ (kfs s kf) = key)
              _ _ _ _ _ E2).
    - intros kf c1 c2 Hin [Hc Hm] Ec. split; [eapply Hinv2; eassumption|].
      apply lba_add_candidate_kf_needs in Ec as (_ & _ & Hdom).
      intros key Hkey. destruct (Hdom key Hkey) as [Hold| ->]; [apply Hm, Hold|].
      exists kf. split; [apply elem_of_app; right; exact Hin|].
      destruct Hc as (-> & _). reflexivity.
    - split; [exact Hs1|]. intros key Hkey. destruct (Hdom1 key Hkey) as (kf & Hin & Hid).
      exists kf. split; [apply elem_of_app; left; exact Hin | exact Hid]. }
  destruct Hb2 as [Hs2 Hdom2]. split.
  - intros kf [Hin|Hin]%elem_of_app.
    + apply list_elem_of_lookup_1 in Hin as [i Hi].
      assert (Hi' : i ∈ seq 0 (length QKFs))
        by (apply elem_of_seq; apply lookup_lt_Some in Hi; simpl; lia).
      destruct (for_each_visits _ (fun x => buffers_only s (bb_state x)) _
                  (bundle_init s) b1 Hinv1 (buffers_only_refl s) E1 i Hi')
        as (c1 & c2 & Hc & Ec).
      apply lba_add_query_kf_needs in Ec as (kf' & Hkf' & _ & Htype & _).
      assert (kf' = kf) by congruence. subst kf'.
      destruct Hc as (Hk & _ & Hcams & _). rewrite Hk, Hcams in Htype. exact Htype.
    + destruct (for_each_visits _ (fun x => buffers_only s (bb_state x)) _
                  b1 b2 Hinv2 Hs1 E2 kf Hin) as (c1 & c2 & Hc & Ec).
      apply lba_add_candidate_kf_needs in Ec as (_ & Htype & _).
      destruct Hc as (Hk & _ & Hcams & _). rewrite Hk, Hcams in Htype. exact Htype.
  - intros lm kfx feat_id [i Hi]%list_elem_of_lookup_1 Ho Hkv.
    assert (Hinv3 : forall j c1 c2,
      buffers_only s (bb_state c1) /\ intrinsics_map c1 = intrinsics_map b2 ->
      lba_add_landmark lms_ j c1 = Ok c2 ->
      buffers_only s (bb_state c2) /\ intrinsics_map c2 = intrinsics_map b2).
    { intros j c1 c2 [Hc Hm] Ec. apply lba_add_landmark_state in Ec as (Hs & -> & _).
      split; [eapply buffers_only_trans; eassumption | exact Hm]. }
    assert (Hi' : i ∈ seq 0 (length lms_))
      by (apply elem_of_seq; apply lookup_lt_Some in Hi; simpl; lia).
    destruct (for_each_visits _
                (fun x => buffers_only s (bb_state x) /\ intrinsics_map x = intrinsics_map b2)
                _ b2 b3 Hinv3 (conj Hs2 eq_refl) E3 i Hi') as (c1 & c2 & [Hc Hm] & Ec).
    unfold lba_add_landmark in Ec. apply bind_Ok in Ec as (lm' & Elm & Ec).
    apply vec_at_Ok in Elm. assert (lm' = lm) by congruence. subst lm'.
    match type of Ec with for_each _ _ ?c0 = _ => set (d0 := c0) in * end.
    assert (Hinv4 : forall o d1 d2,
      bb_state d1 = bb_state d0 /\ intrinsics_map d1 = intrinsics_map b2 ->
      lba_add_observation i o d1 = Ok d2 ->
      bb_state d2 = bb_state d0 /\ intrinsics_map d2 = intrinsics_map b2).
    { intros o d1 d2 [Hd1 Hd2] Ed. apply lba_add_observation_needs in Ed as (-> & -> & _).
      auto. }
    destruct (for_each_visits _
                (fun x => bb_state x = bb_state d0 /\ intrinsics_map x = intrinsics_map b2)
                _ d0 c2 Hinv4 (conj eq_refl Hm) Ec _ Ho) as (d1 & d2 & [Hd1 Hd2] & Ed).
    apply lba_add_observation_needs in Ed as (_ & _ & _ & Hneed).
    assert (Hd : buffers_only s (bb_state d1))
      by (rewrite Hd1; subst d0; cbn [bb_state bb_update];
          apply buffers_only_with_mem; exact Hc).
    destruct Hd as (Hk & _ & Hcams & _). rewrite Hk, Hcams, Hd2 in Hneed.
    destruct (Hneed kfx eq_refl Hkv) as [Hsup Hsome].
    split; [exact Hsup | apply Hdom2, Hsome].
Qed.

(** *** The local pose of the query keyframe *)

Lemma add_camera_blocks_pinned arr done kf (b : BundleBuild) :
  pinned arr [0] done (bb_problem b) ->
  pinned arr [0] done (bb_problem (add_camera_blocks kf b)).
Proof.
  intros Hp. unfold add_camera_blocks. cbn [bb_problem].
  apply pinned_SetParameterBlockConstant.
  apply pinned_AddParameterBlock; [apply placed_zero; reflexivity|].
  apply pinned_SetParameterBlockConstant.
  apply pinned_AddParameterBlock; [apply placed_zero; reflexivity | exact Hp].
Qed.

Lemma lba_add_blocks_pinned arr done anchor kf (p : Problem) :
  pinned arr [0] done p -> pinned arr [0] done (lba_add_blocks anchor kf p).
Proof.
  intros Hp. unfold lba_add_blocks.
  apply pinned_SetParameterBlockConstant.
  apply pinned_AddParameterBlock; [apply placed_zero; reflexivity|].
  assert (Hp1 : pinned arr [0] done
                  (AddParameterBlock (ceres_pose_local_ kf, 0) kPoseBlockSize
                     (Some PoseQuaternionLocalParameterization) p))
    by (apply pinned_AddParameterBlock; [apply placed_zero; reflexivity | exact Hp]).
  destruct anchor; [apply pinned_SetParameterBlockConstant|]; exact Hp1.
Qed.

(** The first round of "Add Query KFs" pins the local pose of the query
    keyframe at the identity. *)
Lemma lba_add_query_kf_first QKFs QKF s0 (b b' : BundleBuild) :
  QKFs !! 0 = Some QKF ->
  lba_add_query_kf QKFs QKF 0 b = Ok b' ->
  query_pinned QKF s0 False b -> query_pinned QKF s0 True b'.
Proof.
  intros HQ E (Hs & Hm & Hp & _). unfold lba_add_query_kf in E.
  apply bind_Ok in E as (kf & Ekf & E). apply vec_at_Ok in Ekf.
  assert (kf = QKF) by congruence. subst kf.
  rewrite bool_decide_eq_true_2 in E by reflexivity.
  apply add_camera_parameters_Ok in E. subst b'.
  split; [| split; [| split]].
  - cbn [add_camera_blocks bb_state bb_update].
    apply buffers_only_with_mem, buffers_only_UpdateCeresFromState, Hs.
  - apply add_camera_blocks_camera_maps. exact Hm.
  - apply add_camera_blocks_pinned. cbn [bb_problem bb_update]. unfold lba_add_blocks.
    apply pinned_SetParameterBlockConstant.
    apply pinned_AddParameterBlock; [apply placed_zero; reflexivity|].
    eapply pinned_set_constant. exact Hp.
  - intros _. cbn [add_camera_blocks bb_state bb_update with_mem mem].
    apply (load_store (ceres_pose_local_ QKF) 0 identity_pose).
Qed.

Lemma UpdateCeresFromState_pose_local kf QKF s i :
  mem (UpdateCeresFromState kf s) (ceres_pose_local_ QKF) i = mem s (ceres_pose_local_ QKF) i.
Proof. apply UpdateCeresFromState_other; discriminate. Qed.

(** A keyframe other than the query keyframe leaves its local pose alone. *)
Lemma lba_window_kf_pinned QKF s0 done kf T (b : BundleBuild) :
  kf <> QKF ->
  query_pinned QKF s0 done b ->
  query_pinned QKF s0 done
    (add_camera_blocks kf
       (bb_update
          (with_mem (store (ceres_pose_local_ kf) 0 (pose_to_ceres T)
                       (mem (UpdateCeresFromState kf (bb_state b))))
             (UpdateCeresFromState kf (bb_state b)))
          (lba_add_blocks false kf (bb_problem b)) b)).
Proof.
  intros Hne (Hs & Hm & Hp & Hmem). split; [| split; [| split]].
  - cbn [add_camera_blocks bb_state bb_update].
    apply buffers_only_with_mem, buffers_only_UpdateCeresFromState, Hs.
  - apply add_camera_blocks_camera_maps. exact Hm.
  - apply add_camera_blocks_pinned. cbn [bb_problem bb_update].
    apply lba_add_blocks_pinned, Hp.
  - intros Hd. rewrite <- (Hmem Hd). apply load_ext. intros i.
    cbn [add_camera_blocks bb_state bb_update with_mem mem].
    rewrite store_other by congruence. apply UpdateCeresFromState_pose_local.
Qed.

Lemma lba_add_query_kf_later QKFs QKF s0 done i (b b' : BundleBuild) :
  QKF ∉ drop 1 QKFs -> i <> 0 ->
  lba_add_query_kf QKFs QKF i b = Ok b' ->
  query_pinned QKF s0 done b -> query_pinned QKF s0 done b'.
Proof.
  intros Hnot Hi E Hb. unfold lba_add_query_kf in E.
  apply bind_Ok in E as (kf & Ekf & E). apply vec_at_Ok in Ekf.
  rewrite bool_decide_eq_false_2 in E by exact Hi.
  apply add_camera_parameters_Ok in E. subst b'.
  apply lba_window_kf_pinned; [| exact Hb].
  intros ->. apply Hnot. apply list_elem_of_lookup. exists (i - 1).
  rewrite lookup_drop. replace (1 + (i - 1)) with i by lia. exact Ekf.
Qed.

Lemma lba_add_candidate_kf_pinned CKF T_s1s2 QKF s0 done kf (b b' : BundleBuild) :
  kf <> QKF ->
  lba_add_candidate_kf CKF T_s1s2 kf b = Ok b' ->
  query_pinned QKF s0 done b -> query_pinned QKF s0 done b'.
Proof.
  intros Hne E Hb. unfold lba_add_candidate_kf in E.
  apply add_camera_parameters_Ok in E. subst b'.
  apply lba_window_kf_pinned; assumption.
Qed.

Lemma lba_add_observation_pinned QKF s0 done i o (b b' : BundleBuild) :
  lba_add_observation i o b = Ok b' ->
  query_pinned QKF s0 done b -> query_pinned QKF s0 done b'.
Proof.
  intros E (Hs & Hm & Hp & Hmem).
  destruct (lba_add_observation_needs _ _ _ _ E) as (Hst & Hi & Hd & _).
  unfold query_pinned, camera_maps. rewrite Hst, Hi, Hd.
  split; [exact Hs|]. split; [exact Hm|]. split; [| exact Hmem].
  unfold lba_add_observation in E.
  destruct (fst o) as [kfx|]; [| apply Ok_inj in E; subst; exact Hp].
  destruct (kf_invalid _); [apply Ok_inj in E; subst; exact Hp|].
  destruct (intrinsics_map b !! _) as [intr|] eqn:Ei; [|discriminate].
  apply bind_Ok in E as (c & _ & E).
  apply bind_Ok in E as (dist & Ed & E). apply map_at_Ok in Ed.
  apply Ok_inj in E. subst b'. cbn [bb_problem bb_update].
  apply pinned_AddResidualBlock; [| exact Hp].
  destruct Hm as [Hmi Hmd].
  destruct (Hmi _ _ Ei) as [ci ->]. destruct (Hmd _ _ Ed) as [cd ->].
  intros x Hx.
  repeat (apply elem_of_cons in Hx as [->|Hx]; [apply placed_zero; reflexivity|]).
  apply elem_of_nil in Hx. destruct Hx.
Qed.

Lemma lba_add_landmark_pinned QKF s0 done lms_ i (b b' : BundleBuild) :
  lba_add_landmark lms_ i b = Ok b' ->
  query_pinned QKF s0 done b -> query_pinned QKF s0 done b'.
Proof.
  unfold lba_add_landmark. intros E Hb. apply bind_Ok in E as (lm & _ & E).
  refine (for_each_invariant _ (query_pinned QKF s0 done) _ _ _ _ _ E).
  - intros o c1 c2 _ Hc Ec. eapply lba_add_observation_pinned; eassumption.
  - destruct Hb as (Hs & Hm & Hp & Hmem). split; [| split; [exact Hm | split]];
      cbn [bb_state bb_problem bb_update].
    + apply buffers_only_with_mem, Hs.
    + apply pinned_AddParameterBlock; [apply placed_zero; reflexivity | exact Hp].
    + intros Hd. rewrite <- (Hmem Hd). apply load_ext. intros j. cbn [mem with_mem].
      apply store_other. discriminate.
Qed.

Lemma lba_add_edges_pinned arr done s kf1 (l : list KeyframePtr) : forall p : Problem,
  pinned arr [0] done p -> pinned arr [0] done (foldl (lba_add_edge s kf1) p l).
Proof.
  induction l as [|kf2 l IH]; intros p Hp; [exact Hp|].
  simpl. apply IH. unfold lba_add_edge.
  apply pinned_AddResidualBlock; [| exact Hp].
  intros x Hx.
  repeat (apply elem_of_cons in Hx as [->|Hx]; [apply placed_zero; reflexivity|]).
  apply elem_of_nil in Hx. destruct Hx.
Qed.

(** X21.  Local Bundle Adjustment keeps the local pose of the query keyframe at
    the identity.  With a solver that writes to variable blocks only, and a
    query keyframe that is neither repeated in its vector nor a candidate,
    the local pose buffer of the query keyframe holds the identity pose after
    the call. *)
Theorem LocalBundleAdjustment_query_pose_identity s lms_ QKFs CKFs T_s1s2 QKF s' cov_BA :
  solver_keeps_constants ->
  QKFs !! 0 = Some QKF -> QKF ∉ drop 1 QKFs -> QKF ∉ CKFs ->
  LocalBundleAdjustment params s lms_ QKFs CKFs T_s1s2 = Ok (s', cov_BA) ->
  load (mem s') (ceres_pose_local_ QKF, 0) kPoseBlockSize = identity_pose.
Proof.
  intros Hsolve HQ Hnq Hnc E. unfold LocalBundleAdjustment in E.
  apply bind_Ok in E as (b & Eb & E). apply Ok_inj in E. injection E as <- _.
  apply lba_build_loops in Eb as (QKF' & CKF & b1 & b2 & b3 & EQ & _ & E1 & E2 & E3 & ->).
  assert (QKF' = QKF) by congruence. subst QKF'.
  assert (Hlen : length QKFs = S (length QKFs - 1))
    by (apply lookup_lt_Some in HQ; lia).
  rewrite Hlen in E1. cbn [seq] in E1.
  apply for_each_cons in E1 as (b0 & E0 & E1).
  assert (Hq0 : query_pinned QKF s True b0).
  { eapply lba_add_query_kf_first; [exact HQ | exact E0 |].
    split; [apply buffers_only_refl|]. split; [| split; [apply pinned_empty | intros []]].
    split; intros k v Hv; cbn in Hv; rewrite lookup_empty in Hv; discriminate. }
  assert (Hq1 : query_pinned QKF s True b1).
  { refine (for_each_invariant _ (query_pinned QKF s True) _ _ _ _ Hq0 E1).
    intros i c1 c2 Hi Hc Ec. apply elem_of_seq in Hi.
    eapply lba_add_query_kf_later; [exact Hnq | | exact Ec | exact Hc]. lia. }
  assert (Hq2 : query_pinned QKF s True b2).
  { refine (for_each_invariant _ (query_pinned QKF s True) _ _ _ _ Hq1 E2).
    intros kf c1 c2 Hin Hc Ec.
    eapply lba_add_candidate_kf_pinned; [| exact Ec | exact Hc].
    intros ->. contradiction. }
  assert (Hq3 : query_pinned QKF s True b3).
  { refine (for_each_invariant _ (query_pinned QKF s True) _ _ _ _ Hq2 E3).
    intros i c1 c2 _ Hc Ec. eapply lba_add_landmark_pinned; eassumption. }
  destruct Hq3 as (_ & _ & Hp & Hmem).
  cbn [bb_state bb_problem bb_update with_mem mem]. rewrite <- (Hmem I).
  apply load_ext. intros i. apply Hsolve. apply (pinned_is_variable _ [0]).
  do 2 apply lba_add_edges_pinned. exact Hp.
Qed.

End LocalRun.

(** ** Euler angles to quaternion *)

Section Euler.
Context `{Scalar}.

(** X22.  [eulerAnglesToQuat] returns the quaternion of the two that stand for
    the rotation whose real part is not negative: in an arithmetic where the
    opposite of a negative number is not negative, the real part of the
    result is never below zero, whatever the angles. *)
Theorem eulerAnglesToQuat_real_part_not_negative (yaw pitch roll : precision_t) :
  (forall x, flt x (lit 0) = true -> flt (fneg x) (lit 0) = false) ->
  flt (q_w (eulerAnglesToQuat yaw pitch roll)) (lit 0) = false.
Proof.
  intros Hneg. unfold eulerAnglesToQuat. cbn zeta.
  match goal with |- context [if flt (q_w ?q) _ then _ else _] => set (quat := q) end.
  destruct (flt (q_w quat) (lit 0)) eqn:E.
  - cbn [quat_negate q_w]. apply Hneg. exact E.
  - exact E.
Qed.

End Euler.

(** ** Pose-graph optimisation: the keyframe edges *)

Section KeyframeEdges.
Context `{Geometry} `{!Solver}.
Variable params : Params.

(** Adding an edge that is new keeps the edges distinct; an edge on record
    is not added again. *)
Lemma add_edge_distinct (blocks : KeyframePtr -> KeyframePtr -> list Addr)
    (add_edge : KeyframePtr -> KeyframePtr -> PoseGraphBuild -> Result PoseGraphBuild) :
  (forall k1 k2 k1' k2', blocks k1 k2 = blocks k1' k2' -> k1 = k1' /\ k2 = k2') ->
  (forall kf kfc b b', add_edge kf kfc b = Ok b' ->
     b' = b \/
     (((kf, kfc) ∉ inserted_edges b) /\
      inserted_edges b' = {[(kf, kfc)]} ∪ inserted_edges b /\
      exists r, residual_blocks (pg_problem b') = residual_blocks (pg_problem b) ++ [r] /\
                rb_params r = blocks kf kfc /\ rb_loss r = None)) ->
  forall n kf kfc b b',
    add_edge kf kfc b = Ok b' -> edges_distinct blocks n b -> edges_distinct blocks n b'.
Proof.
  intros Hinj Hadd n kf kfc b b' E (Hn & Hnd & Hall).
  destruct (Hadd _ _ _ _ E) as [-> | (Hnew & Hins & r & Hres & Hpar & Hloss)].
  { split; [exact Hn|]. split; assumption. }
  unfold edges_distinct. rewrite Hres, Hins, drop_app_le by exact Hn.
  split; [rewrite length_app; lia|]. split.
  - rewrite fmap_app. apply NoDup_app. split; [exact Hnd|]. split.
    + intros x Hx [= ->]%list_elem_of_singleton.
      apply list_elem_of_fmap in Hx as (r0 & Hr0 & Hin0).
      destruct (Hall r0 Hin0) as (_ & k1 & k2 & Hrec & Hp0).
      rewrite Hpar, Hp0 in Hr0. apply Hinj in Hr0 as [-> ->]. contradiction.
    + apply NoDup_singleton.
  - intros r0 [Hin0|Hin0%list_elem_of_singleton]%elem_of_app.
    + destruct (Hall r0 Hin0) as (Hl0 & k1 & k2 & Hrec & Hp0).
      split; [exact Hl0|]. exists k1, k2. split; [| exact Hp0].
      apply elem_of_union. right. exact Hrec.
    + subst r0. split; [exact Hloss|]. exists kf, kfc. split; [| exact Hpar].
      apply elem_of_union. left. apply elem_of_singleton. reflexivity.
Qed.

Lemma pgo_add_edge_cases kf kfc (b b' : PoseGraphBuild) :
  pgo_add_edge params kf kfc b = Ok b' ->
  b' = b \/
  (((kf, kfc) ∉ inserted_edges b) /\
   inserted_edges b' = {[(kf, kfc)]} ∪ inserted_edges b /\
   exists r, residual_blocks (pg_problem b') = residual_blocks (pg_problem b) ++ [r] /\
             rb_params r = loop_edge_blocks kf kfc /\ rb_loss r = None).
Proof.
  unfold pgo_add_edge, edge_is_new. intros E. case_bool_decide as Hnew.
  - right. apply Ok_inj in E. subst b'. split; [exact Hnew|]. split; [reflexivity|].
    cbn [insert_edge pg_problem]. rewrite AddResidualBlock_residual_blocks.
    eexists. split; [reflexivity|]. split; reflexivity.
  - left. apply Ok_inj in E. auto.
Qed.

Lemma pgo4_add_edge_cases kf kfc (b b' : PoseGraphBuild) :
  pgo4_add_edge kf kfc b = Ok b' ->
  b' = b \/
  (((kf, kfc) ∉ inserted_edges b) /\
   inserted_edges b' = {[(kf, kfc)]} ∪ inserted_edges b /\
   exists r, residual_blocks (pg_problem b') = residual_blocks (pg_problem b) ++ [r] /\
             rb_params r = pose_4dof_blocks kf kfc /\ rb_loss r = None).
Proof.
  unfold pgo4_add_edge, edge_is_new. intros E. apply bind_Ok in E as (q & _ & E).
  case_bool_decide as Hnew.
  - right. apply Ok_inj in E. subst b'. split; [exact Hnew|]. split; [reflexivity|].
    cbn [insert_edge pg_problem]. rewrite AddResidualBlock_residual_blocks.
    eexists. split; [reflexivity|]. split; reflexivity.
  - left. apply Ok_inj in E. auto.
Qed.

Lemma loop_edge_blocks_inj k1 k2 k1' k2' :
  loop_edge_blocks k1 k2 = loop_edge_blocks k1' k2' -> k1 = k1' /\ k2 = k2'.
Proof. unfold loop_edge_blocks. intros E. inversion E. auto. Qed.

Lemma pose_4dof_blocks_inj k1 k2 k1' k2' :
  pose_4dof_blocks k1 k2 = pose_4dof_blocks k1' k2' -> k1 = k1' /\ k2 = k2'.
Proof. unfold pose_4dof_blocks, yaw_block, trans_block. intros E. inversion E. auto. Qed.

Lemma edges_distinct_start blocks n (b : PoseGraphBuild) :
  length (residual_blocks (pg_problem b)) = n -> edges_distinct blocks n b.
Proof.
  intros Hlen. unfold edges_distinct. rewrite drop_ge by lia.
  split; [lia|]. split; [apply NoDup_nil_2|]. intros r Hr. apply elem_of_nil in Hr. destruct Hr.
Qed.

Lemma pgo4_loops_length (ls : list LoopConstraint) : forall b b' : PoseGraphBuild,
  for_each pgo4_add_loop ls b = Ok b' ->
  length (residual_blocks (pg_problem b'))
  = length (residual_blocks (pg_problem b)) + length ls.
Proof.
  induction ls as [|l ls IH]; intros b b' E.
  - apply Ok_inj in E. subst. simpl. lia.
  - apply for_each_cons in E as (b1 & E1 & E). rewrite (IH _ _ E).
    unfold pgo4_add_loop in E1. apply bind_Ok in E1 as (q & _ & E1).
    apply Ok_inj in E1. subst b1. cbn [pg_problem pg_update].
    rewrite AddResidualBlock_residual_blocks, length_app. simpl. lia.
Qed.

(** X17.  Pose-graph optimisation adds no keyframe edge twice (both variants).
    In the problem a construction returns, the factors after those of the
    loop constraints are the keyframe edges: each without a loss, over the
    blocks of a pair of keyframes on record, and no two of them over the
    same blocks, that is, between the same ordered pair of keyframes. *)
Theorem pose_graph_keyframe_edges_distinct s corrected_poses b :
  (pgo_build params s corrected_poses = Ok b ->
   edges_distinct loop_edge_blocks (length (GetLoopConstraints (map_ s))) b) /\
  (pgo4_build params s = Ok b ->
   edges_distinct pose_4dof_blocks (length (GetLoopConstraints (map_ s))) b).
Proof.
  split; intros E.
  - unfold pgo_build in E. apply bind_Ok in E as (b1 & E1 & E).
    eapply window_edges_preserve; [| exact E |].
    { apply (add_edge_distinct _ _ loop_edge_blocks_inj pgo_add_edge_cases). }
    eapply successor_edges_preserve; [| exact E1 |].
    { apply (add_edge_distinct _ _ loop_edge_blocks_inj pgo_add_edge_cases). }
    apply edges_distinct_start. cbn [pg_problem pg_update].
    pose proof (pgo_loops_costs params (GetLoopConstraints (map_ s))
                  (pg_problem (foldl (fun b kf => pgo_add_keyframe corrected_poses kf b)
                     {| pg_state := s; pg_problem := empty_problem; q_ws_map := ∅;
                        inserted_edges := ∅ |} (GetKeyframesVec (map_ s))))) as Hc.
    rewrite pgo_keyframes_residuals in Hc. cbn in Hc.
    apply (f_equal length) in Hc. rewrite !length_fmap in Hc. exact Hc.
  - unfold pgo4_build in E. apply bind_Ok in E as (b1 & E1 & E).
    apply bind_Ok in E as (b2 & E2 & E).
    eapply window_edges_preserve; [| exact E |].
    { apply (add_edge_distinct _ _ pose_4dof_blocks_inj pgo4_add_edge_cases). }
    eapply successor_edges_preserve; [| exact E2 |].
    { apply (add_edge_distinct _ _ pose_4dof_blocks_inj pgo4_add_edge_cases). }
    apply edges_distinct_start. rewrite (pgo4_loops_length _ _ _ E1).
    rewrite pgo4_keyframes_residuals. reflexivity.
Qed.

End KeyframeEdges.

(** ** Global Bundle Adjustment: visual-only mode *)

Section VisualOnly.
Context `{Geometry} `{!Solver}.
Variable params : Params.

Lemma no_speed_blocks_AddParameterBlock a n lp (p : Problem) :
  (forall kf, fst a <> ceres_velocity_and_bias_ kf) ->
  no_speed_blocks p -> no_speed_blocks (AddParameterBlock a n lp p).
Proof.
  intros Ha Hp x Hx. apply AddParameterBlock_has in Hx as [->|Hx]; [exact Ha | apply Hp, Hx].
Qed.

Lemma no_speed_blocks_SetParameterBlockConstant a (p : Problem) :
  no_speed_blocks p -> no_speed_blocks (SetParameterBlockConstant a p).
Proof. intros Hp x Hx. rewrite SetParameterBlockConstant_has in Hx. apply Hp, Hx. Qed.

Lemma no_speed_blocks_AddResidualBlock cost loss params' (p : Problem) :
  (forall x, x ∈ params' -> forall kf, fst x <> ceres_velocity_and_bias_ kf) ->
  no_speed_blocks p -> no_speed_blocks (snd (AddResidualBlock cost loss params' p)).
Proof.
  intros Ha Hp x Hx. apply AddResidualBlock_has in Hx as [Hx|Hx]; [apply Hp, Hx|].
  apply declared_params_subset in Hx. apply Ha, Hx.
Qed.

Lemma no_imu_factors_same (p p' : Problem) :
  residual_blocks p' = residual_blocks p -> no_imu_factors p -> no_imu_factors p'.
Proof. intros E Hp r Hr. rewrite E in Hr. apply Hp, Hr. Qed.

Lemma no_imu_factors_AddResidualBlock cost loss params' (p : Problem) :
  (forall kf, cost <> PreintegrationFactor kf) ->
  no_imu_factors p -> no_imu_factors (snd (AddResidualBlock cost loss params' p)).
Proof.
  intros Hc Hp r Hr. rewrite AddResidualBlock_residual_blocks in Hr.
  apply elem_of_app in Hr as [Hr|Hr%list_elem_of_singleton]; [apply Hp, Hr|].
  subst r. exact Hc.
Qed.

Lemma add_state_parameters_visual kf s (p : Problem) :
  no_speed_blocks p /\ no_imu_factors p ->
  no_speed_blocks (add_state_parameters true kf s p)
  /\ no_imu_factors (add_state_parameters true kf s p).
Proof.
  intros [Hs Hi]. unfold add_state_parameters. cbn [negb]. split.
  - apply no_speed_blocks_SetParameterBlockConstant.
    apply no_speed_blocks_AddParameterBlock; [discriminate|].
    assert (Hs1 : no_speed_blocks
                    (AddParameterBlock (ceres_pose_ kf, 0) kPoseBlockSize
                       (Some PoseQuaternionLocalParameterization) p))
      by (apply no_speed_blocks_AddParameterBlock; [discriminate | exact Hs]).
    destruct (is_anchor s kf); [apply no_speed_blocks_SetParameterBlockConstant|]; exact Hs1.
  - eapply no_imu_factors_same; [| exact Hi]. cbn [SetParameterBlockConstant residual_blocks].
    rewrite (proj1 (AddParameterBlock_residual_blocks _ _ _ _)).
    destruct (is_anchor s kf); cbn [SetParameterBlockConstant residual_blocks];
      apply AddParameterBlock_residual_blocks.
Qed.

Lemma add_camera_blocks_visual kf (b : BundleBuild) :
  camera_maps b /\ no_inertial_terms b ->
  camera_maps (add_camera_blocks kf b) /\ no_inertial_terms (add_camera_blocks kf b).
Proof.
  intros [Hm (Hs & Hi & Hrec)]. split; [apply add_camera_blocks_camera_maps, Hm|].
  split; [| split; [| exact Hrec]].
  - unfold add_camera_blocks. cbn [bb_problem].
    apply no_speed_blocks_SetParameterBlockConstant.
    apply no_speed_blocks_AddParameterBlock; [discriminate|].
    apply no_speed_blocks_SetParameterBlockConstant.
    apply no_speed_blocks_AddParameterBlock; [discriminate | exact Hs].
  - eapply no_imu_factors_same; [apply add_camera_blocks_residual_blocks | exact Hi].
Qed.

Lemma gba1_add_keyframe_visual kf (b b' : BundleBuild) :
  gba1_add_keyframe true kf b = Ok b' ->
  camera_maps b /\ no_inertial_terms b -> camera_maps b' /\ no_inertial_terms b'.
Proof.
  unfold gba1_add_keyframe. intros E Hb.
  destruct (kf_invalid _); [apply Ok_inj in E; subst; exact Hb|].
  apply bind_Ok in E as (b0 & E0 & E). apply add_camera_parameters_Ok in E0.
  cbn [negb] in E. apply Ok_inj in E. subst b' b0.
  apply add_camera_blocks_visual. destruct Hb as [Hm (Hs & Hi & Hrec)].
  split; [exact Hm|]. unfold no_inertial_terms. cbn [bb_problem bb_update imu_factors].
  destruct (add_state_parameters_visual kf (UpdateCeresFromState kf (bb_state b))
              (bb_problem b) (conj Hs Hi)) as [Hs' Hi'].
  auto.
Qed.

Lemma gba2_add_keyframe_visual kf (b b' : BundleBuild) :
  gba2_add_keyframe params true kf b = Ok b' ->
  camera_maps b /\ no_inertial_terms b -> camera_maps b' /\ no_inertial_terms b'.
Proof.
  unfold gba2_add_keyframe. intros E Hb.
  destruct (kf_invalid _); [apply Ok_inj in E; subst; exact Hb|].
  apply bind_Ok in E as (b0 & E0 & E). apply add_camera_parameters_Ok in E0.
  cbn [negb] in E. apply Ok_inj in E. subst b' b0.
  apply add_camera_blocks_visual. destruct Hb as [Hm (Hs & Hi & Hrec)].
  split; [exact Hm|]. unfold no_inertial_terms. cbn [bb_problem bb_update imu_factors].
  destruct (add_state_parameters_visual kf (UpdateCeresFromState kf (bb_state b))
              (bb_problem b) (conj Hs Hi)) as [Hs' Hi'].
  split; [| split; [| exact Hrec]].
  - destruct (_ && _); [apply no_speed_blocks_SetParameterBlockConstant|]; exact Hs'.
  - destruct (_ && _); [| exact Hi'].
    eapply no_imu_factors_same; [reflexivity | exact Hi'].
Qed.

Lemma reprojection_blocks_not_speed kfx lm intr dist x :
  (exists c, intr = (camera_parameters c, 0)) ->
  (exists c, dist = (distortion_parameters c, 0)) ->
  x ∈ reprojection_blocks kfx lm intr dist ->
  forall kf, fst x <> ceres_velocity_and_bias_ kf.
Proof.
  intros [ci ->] [cd ->]. unfold reprojection_blocks. intros Hx kf.
  repeat (apply elem_of_cons in Hx as [->|Hx]; [discriminate|]).
  apply elem_of_nil in Hx. destruct Hx.
Qed.

Lemma add_reprojection_visual cost kfx lm intr dist ident (b : BundleBuild) :
  (exists C D kpx sigma camera, cost = GlobalEuclideanReprError C D kpx sigma camera) ->
  intrinsics_map b !! id_ (kfs (bb_state b) kfx) = Some intr ->
  distortion_map b !! id_ (kfs (bb_state b) kfx) = Some dist ->
  camera_maps b /\ no_inertial_terms b ->
  camera_maps
    (push_residual
       (fst (AddResidualBlock cost (Some (CauchyLoss 1))
               (reprojection_blocks kfx lm intr dist) (bb_problem b)))
       ident
       (snd (AddResidualBlock cost (Some (CauchyLoss 1))
               (reprojection_blocks kfx lm intr dist) (bb_problem b))) b)
  /\ no_inertial_terms
    (push_residual
       (fst (AddResidualBlock cost (Some (CauchyLoss 1))
               (reprojection_blocks kfx lm intr dist) (bb_problem b)))
       ident
       (snd (AddResidualBlock cost (Some (CauchyLoss 1))
               (reprojection_blocks kfx lm intr dist) (bb_problem b))) b).
Proof.
  intros (C & D & kpx & sigma & camera & ->) Ei Ed [Hm (Hs & Hi & Hrec)].
  split; [exact Hm|]. unfold no_inertial_terms. cbn [push_residual bb_problem imu_factors].
  split; [| split; [| exact Hrec]].
  - apply no_speed_blocks_AddResidualBlock; [| exact Hs].
    destruct Hm as [Hmi Hmd]. intros x. apply reprojection_blocks_not_speed; eauto.
  - apply no_imu_factors_AddResidualBlock; [discriminate | exact Hi].
Qed.

Lemma gba1_add_observation_visual lm o (b b' : BundleBuild) :
  gba1_add_observation lm o b = Ok b' ->
  camera_maps b /\ no_inertial_terms b -> camera_maps b' /\ no_inertial_terms b'.
Proof.
  unfold gba1_add_observation. intros E Hb.
  destruct (fst o) as [kfx|]; [| apply Ok_inj in E; subst; exact Hb].
  destruct (kf_invalid _); [apply Ok_inj in E; subst; exact Hb|].
  apply bind_Ok in E as (c & Ec & E). apply bind_Ok in E as (intr & Ei & E).
  apply bind_Ok in E as (dist & Ed & E). apply map_at_Ok in Ei, Ed.
  apply new_GlobalEuclideanReprError_Ok in Ec as (C & D & ->).
  apply Ok_inj in E. subst b'. apply add_reprojection_visual; eauto 6.
Qed.

Lemma gba2_add_observation_visual lm o (b b' : BundleBuild) :
  gba2_add_observation lm o b = Ok b' ->
  camera_maps b /\ no_inertial_terms b -> camera_maps b' /\ no_inertial_terms b'.
Proof.
  unfold gba2_add_observation. intros E Hb.
  destruct (fst o) as [kfx|]; [| apply Ok_inj in E; subst; exact Hb].
  destruct (kf_invalid _); [apply Ok_inj in E; subst; exact Hb|].
  destruct (intrinsics_map b !! _) as [intr|] eqn:Ei; [|discriminate].
  apply bind_Ok in E as (c & Ec & E).
  apply bind_Ok in E as (dist & Ed & E). apply map_at_Ok in Ed.
  apply new_GlobalEuclideanReprError_Ok in Ec as (C & D & ->).
  apply Ok_inj in E. subst b'. apply add_reprojection_visual; eauto 6.
Qed.

Lemma gba_add_landmark_visual add_observation landmarks i (b b' : BundleBuild) :
  (forall lm o b1 b2, add_observation lm o b1 = Ok b2 ->
     camera_maps b1 /\ no_inertial_terms b1 -> camera_maps b2 /\ no_inertial_terms b2) ->
  gba_add_landmark add_observation landmarks i b = Ok b' ->
  camera_maps b /\ no_inertial_terms b -> camera_maps b' /\ no_inertial_terms b'.
Proof.
  intros Hadd E Hb.
  apply gba_add_landmark_cases in E as (lm & Hi & [[_ ->]|[(_ & _ & ->)|(_ & _ & E)]]).
  - exact Hb.
  - exact Hb.
  - refine (for_each_invariant _ (fun x => camera_maps x /\ no_inertial_terms x)
              _ _ _ _ _ E).
    + intros o c1 c2 _ Hc Ec. eapply Hadd; eassumption.
    + destruct Hb as [Hm (Hs & Hi' & Hrec)]. split; [exact Hm|].
      unfold no_inertial_terms. cbn [include_landmark bb_problem imu_factors].
      split; [| split; [| exact Hrec]].
      * apply no_speed_blocks_AddParameterBlock; [discriminate | exact Hs].
      * eapply no_imu_factors_same; [apply AddParameterBlock_residual_blocks | exact Hi'].
Qed.

Lemma loop_edge_blocks_no_speed k1 k2 x :
  x ∈ loop_edge_blocks k1 k2 -> forall kf, fst x <> ceres_velocity_and_bias_ kf.
Proof.
  unfold loop_edge_blocks. intros Hx kf.
  repeat (apply elem_of_cons in Hx as [->|Hx]; [discriminate|]).
  apply elem_of_nil in Hx. destruct Hx.
Qed.

Lemma gba1_loops_visual (loops : list LoopConstraint) : forall p : Problem,
  no_speed_blocks p /\ no_imu_factors p ->
  no_speed_blocks (foldl gba1_add_loop p loops) /\ no_imu_factors (foldl gba1_add_loop p loops).
Proof.
  induction loops as [|l loops IH]; intros p Hp; [exact Hp|].
  simpl. apply IH. destruct Hp as [Hs Hi]. unfold gba1_add_loop. split.
  - apply no_speed_blocks_AddResidualBlock; [apply loop_edge_blocks_no_speed | exact Hs].
  - apply no_imu_factors_AddResidualBlock; [discriminate | exact Hi].
Qed.

Lemma gba2_loops_visual (loops : list LoopConstraint) : forall p : Problem,
  no_speed_blocks p /\ no_imu_factors p ->
  no_speed_blocks (foldl gba2_add_loop p loops) /\ no_imu_factors (foldl gba2_add_loop p loops).
Proof.
  induction loops as [|l loops IH]; intros p Hp; [exact Hp|].
  simpl. apply IH. destruct Hp as [Hs Hi]. unfold gba2_add_loop.
  destruct (_ || _); [split; assumption|]. split.
  - apply no_speed_blocks_AddResidualBlock; [apply loop_edge_blocks_no_speed | exact Hs].
  - apply no_imu_factors_AddResidualBlock; [discriminate | exact Hi].
Qed.

Lemma no_inertial_terms_init s : camera_maps (bundle_init s) /\ no_inertial_terms (bundle_init s).
Proof.
  split; [| split; [| split; [| reflexivity]]].
  - split; intros k v Hv; cbn in Hv; rewrite lookup_empty in Hv; discriminate.
  - intros x Hx. discriminate.
  - intros r Hr. apply elem_of_nil in Hr. destruct Hr.
Qed.

(** X11.  Global Bundle Adjustment in visual-only mode has no inertial terms.  The
    problems of both rounds have no block over a velocity and bias buffer and
    no IMU factor, and no IMU factor is on record. *)
Theorem gba_visual_only_no_inertial_terms s b :
  gba1_build true s = Ok b \/ gba2_build params true s = Ok b ->
  no_inertial_terms b.
Proof.
  intros [E|E].
  - unfold gba1_build in E.
    apply bind_Ok in E as (b1 & E1 & E). apply bind_Ok in E as (b2 & E2 & E).
    apply Ok_inj in E. subst b.
    assert (Hb1 : camera_maps b1 /\ no_inertial_terms b1).
    { refine (for_each_invariant _ (fun x => camera_maps x /\ no_inertial_terms x)
                _ _ _ _ (no_inertial_terms_init s) E1).
      intros kf c1 c2 _ Hc Ec. eapply gba1_add_keyframe_visual; eassumption. }
    assert (Hb2 : camera_maps b2 /\ no_inertial_terms b2).
    { refine (for_each_invariant _ (fun x => camera_maps x /\ no_inertial_terms x)
                _ _ _ _ Hb1 E2).
      intros i c1 c2 _ Hc Ec.
      eapply (gba_add_landmark_visual gba1_add_observation); [| exact Ec | exact Hc].
      intros lm o d1 d2. apply gba1_add_observation_visual. }
    destruct Hb2 as [_ (Hs & Hi & Hrec)].
    unfold no_inertial_terms. cbn [bb_problem bb_update imu_factors].
    destruct (gba1_loops_visual (GetLoopConstraints (map_ (bb_state b2))) (bb_problem b2)
                (conj Hs Hi)) as [Hs' Hi'].
    auto.
  - unfold gba2_build in E.
    apply bind_Ok in E as (b1 & E1 & E). apply bind_Ok in E as (b2 & E2 & E).
    assert (Hb1 : camera_maps b1 /\ no_inertial_terms b1).
    { refine (for_each_invariant _ (fun x => camera_maps x /\ no_inertial_terms x)
                _ _ _ _ (no_inertial_terms_init s) E1).
      intros kf c1 c2 _ Hc Ec. eapply gba2_add_keyframe_visual; eassumption. }
    assert (Hb2 : camera_maps b2 /\ no_inertial_terms b2).
    { refine (for_each_invariant _ (fun x => camera_maps x /\ no_inertial_terms x)
                _ _ _ _ Hb1 E2).
      intros i c1 c2 _ Hc Ec.
      eapply (gba_add_landmark_visual gba2_add_observation); [| exact Ec | exact Hc].
      intros lm o d1 d2. apply gba2_add_observation_visual. }
    destruct Hb2 as [_ (Hs & Hi & Hrec)].
    destruct (gba_use_map_loop_constraints params); apply Ok_inj in E; subst b;
      [| split; [exact Hs | split; assumption]].
    unfold no_inertial_terms. cbn [bb_problem bb_update imu_factors].
    destruct (gba2_loops_visual (GetLoopConstraints (map_ (bb_state b2))) (bb_problem b2)
                (conj Hs Hi)) as [Hs' Hi'].
    auto.
Qed.

End VisualOnly.

(** ** Keyframes held fixed by the configuration *)

Section FixedKeyframes.
Context `{Geometry} `{!Solver} `{!MapBackend}.
Variable params : Params.
Variable a : KeyframePtr.

(** Setting the one block of a buffer constant pins the buffer. *)
Lemma pinned_fix arr done (p : Problem) :
  pinned arr [0] done p -> HasParameterBlock p (arr, 0) = true ->
  pinned arr [0] True (SetParameterBlockConstant (arr, 0) p).
Proof.
  intros [Ho _] Hhas. split.
  - intros off. rewrite SetParameterBlockConstant_has. apply Ho.
  - intros _. split.
    + intros off Hoff. apply list_elem_of_singleton in Hoff. subst off.
      rewrite SetParameterBlockConstant_has. exact Hhas.
    + intros off Hv. apply SetParameterBlockConstant_variable in Hv as [Hv Hne].
      assert (Hoff : HasParameterBlock p (arr, off) = true)
        by (apply has_or_variable_or_constant; left; exact Hv).
      apply Ho, list_elem_of_singleton in Hoff. congruence.
Qed.

Lemma add_state_parameters_blocks visual_only kf s (p : Problem) arr :
  pinned arr [0] False p ->
  pinned arr [0] False (add_state_parameters visual_only kf s p) /\
  HasParameterBlock (add_state_parameters visual_only kf s p) (ceres_pose_ kf, 0) = true.
Proof.
  intros Hp. unfold add_state_parameters. split.
  - apply pinned_SetParameterBlockConstant.
    apply pinned_AddParameterBlock; [apply placed_zero; reflexivity|].
    assert (Hp1 : pinned arr [0] False
                    (AddParameterBlock (ceres_pose_ kf, 0) kPoseBlockSize
                       (Some PoseQuaternionLocalParameterization) p))
      by (apply pinned_AddParameterBlock; [apply placed_zero; reflexivity | exact Hp]).
    assert (Hp2 : pinned arr [0] False
                    (if is_anchor s kf
                     then SetParameterBlockConstant (ceres_pose_ kf, 0)
                            (AddParameterBlock (ceres_pose_ kf, 0) kPoseBlockSize
                               (Some PoseQuaternionLocalParameterization) p)
                     else AddParameterBlock (ceres_pose_ kf, 0) kPoseBlockSize
                            (Some PoseQuaternionLocalParameterization) p))
      by (destruct (is_anchor s kf); [apply pinned_SetParameterBlockConstant|]; exact Hp1).
    destruct (negb visual_only);
      [apply pinned_AddParameterBlock; [apply placed_zero; reflexivity|]|]; exact Hp2.
  - rewrite SetParameterBlockConstant_has. apply AddParameterBlock_has. right.
    assert (Hh : forall c : bool,
      HasParameterBlock
        (if c
         then SetParameterBlockConstant (ceres_pose_ kf, 0)
                (AddParameterBlock (ceres_pose_ kf, 0) kPoseBlockSize
                   (Some PoseQuaternionLocalParameterization) p)
         else AddParameterBlock (ceres_pose_ kf, 0) kPoseBlockSize
                (Some PoseQuaternionLocalParameterization) p) (ceres_pose_ kf, 0) = true).
    { intros [|]; [rewrite SetParameterBlockConstant_has|]; apply AddParameterBlock_has; auto. }
    destruct (negb visual_only); [apply AddParameterBlock_has; right|]; apply Hh.
Qed.

(** Round 2, "Add Keyframes": a loaded keyframe is pinned when it is
    visited, and stays so. *)
Lemma gba2_add_keyframe_fixed visual_only s0 done kf (b b' : BundleBuild) :
  is_loaded_ (kfs s0 a) && gba_fix_poses_loaded_maps params = true ->
  kf_invalid (kfs s0 a) = false ->
  gba2_add_keyframe params visual_only kf b = Ok b' ->
  anchored a s0 done b -> anchored a s0 (done \/ kf = a) b'.
Proof.
  intros Hfix Hval E (F & Hm & Hp & Hmem).
  pose proof (gba2_add_keyframe_frame _ _ _ _ _ E) as F'.
  split; [eapply frame_trans; eassumption|]. clear F'.
  destruct (frame_kf _ _ a F) as (Hinv_a & HT_a & _).
  destruct (kf_same_fields _ _ (fr_kfs _ _ F a)) as (_ & _ & _ & _ & _ & _ & _ & _ & _ & _ & _ & Hld).
  unfold gba2_add_keyframe in E.
  destruct (kf_invalid (kfs (bb_state b) kf)) eqn:Hinv.
  { apply Ok_inj in E. subst b'.
    assert (Hne : kf <> a) by (intros ->; congruence).
    split; [exact Hm|]. split; [apply pinned_weaken with (done := done); tauto|].
    intros [Hd|Hd]; [auto | contradiction]. }
  apply bind_Ok in E as (b0 & E0 & E). apply add_camera_parameters_Ok in E0.
  set (s := UpdateCeresFromState kf (bb_state b)) in *.
  assert (Hm0 : camera_maps b0).
  { rewrite E0. apply add_camera_blocks_camera_maps. exact Hm. }
  assert (Hp0 : pinned (ceres_pose_ a) [0] (done \/ kf = a) (bb_problem b0)).
  { rewrite E0. apply add_camera_blocks_pinned. cbn [bb_problem bb_update].
    destruct (decide (kf = a)) as [->|Hne].
    - apply pinned_weaken with (done := True); [auto|].
      assert (Hc : is_loaded_ (kfs s a) && gba_fix_poses_loaded_maps params = true)
        by (unfold s; cbn [UpdateCeresFromState with_mem kfs]; rewrite Hld; exact Hfix).
      rewrite Hc.
      destruct (add_state_parameters_blocks visual_only a s (bb_problem b) (ceres_pose_ a))
        as [Hq Hhas]; [apply pinned_weaken with (done := done); [intros [] | exact Hp]|].
      eapply pinned_fix; eassumption.
    - assert (Hp1 : pinned (ceres_pose_ a) [0] done
                      (add_state_parameters visual_only kf s (bb_problem b))).
      { apply pinned_weaken with (done := done \/ kf = a); [auto|].
        apply add_state_parameters_pinned; [intros ->; contradiction | exact Hp]. }
      apply pinned_weaken with (done := done); [tauto|].
      match goal with |- pinned _ _ _ (if ?c then _ else _) => destruct c end;
        [apply pinned_SetParameterBlockConstant|]; exact Hp1. }
  assert (Hmem0 : done \/ kf = a ->
                  load (mem s) (ceres_pose_ a, 0) kPoseBlockSize
                  = pose_to_ceres (T_ws (kfs s0 a))).
  { destruct (decide (kf = a)) as [->|Hne].
    - intros _. unfold s. rewrite UpdateCeresFromState_pose, HT_a. reflexivity.
    - intros [Hd|Hd]; [| contradiction].
      unfold s. rewrite UpdateCeresFromState_pose_other by exact Hne. auto. }
  assert (Hs0 : bb_state b0 = s) by (rewrite E0; reflexivity).
  assert (Hsame : camera_maps b0 /\
                  pinned (ceres_pose_ a) [0] (done \/ kf = a) (bb_problem b0) /\
                  (done \/ kf = a ->
                   load (mem (bb_state b0)) (ceres_pose_ a, 0) kPoseBlockSize
                   = pose_to_ceres (T_ws (kfs s0 a))))
    by (rewrite Hs0; auto).
  clear E0.
  destruct (negb visual_only); [| apply Ok_inj in E; subst b'; exact Hsame].
  destruct (predecessor _) as [pred|].
  - destruct (kf_invalid (kfs _ pred)).
    + destruct (bool_decide _); [discriminate | apply Ok_inj in E; subst b'; exact Hsame].
    + destruct (bool_decide (getNumMeasurements _ = 0));
        [apply Ok_inj in E; subst b'; exact Hsame|].
      destruct (_ || _); [discriminate|].
      apply Ok_inj in E. subst b'. split; [exact Hm0|]. cbn [bb_problem bb_state]. split.
      * apply pinned_AddResidualBlock; [apply imu_factor_blocks_placed | exact Hp0].
      * exact Hmem0.
  - destruct (bool_decide _); [discriminate | apply Ok_inj in E; subst b'; exact Hsame].
Qed.

Lemma gba2_build_fixed visual_only s b :
  is_loaded_ (kfs s a) && gba_fix_poses_loaded_maps params = true ->
  kf_invalid (kfs s a) = false ->
  gba2_build params visual_only s = Ok b ->
  anchored a s (a ∈ GetKeyframesVec (map_ s)) b.
Proof.
  intros Hfix Hval E. unfold gba2_build in E.
  apply bind_Ok in E as (b1 & E1 & E). apply bind_Ok in E as (b2 & E2 & E).
  assert (Hb1 : anchored a s (a ∈ GetKeyframesVec (map_ s)) b1).
  { pose proof (for_each_prefix (gba2_add_keyframe params visual_only)
                  (fun pre x => anchored a s (a ∈ pre) x)
                  (GetKeyframesVec (map_ s)) [] (bundle_init s) b1) as Hloop.
    apply Hloop; [| | exact E1].
    - intros pre kf c1 c2 Hc1 Ec.
      apply (anchored_weaken a s (a ∈ pre \/ kf = a)).
      + intros Hin. apply elem_of_app in Hin as [Hin|Hin]; [auto|].
        apply list_elem_of_singleton in Hin. auto.
      + eapply gba2_add_keyframe_fixed; eassumption.
    - split; [apply frame_refl|]. split; [| split].
      + split; intros k v Hv; simpl in Hv; rewrite lookup_empty in Hv; discriminate.
      + apply pinned_weaken with (done := False); [| apply pinned_empty].
        intros Hin. apply elem_of_nil in Hin. exact Hin.
      + intros Hin. apply elem_of_nil in Hin. destruct Hin. }
  assert (Hb2 : anchored a s (a ∈ GetKeyframesVec (map_ s)) b2).
  { refine (for_each_invariant _ (anchored a s (a ∈ GetKeyframesVec (map_ s)))
              _ _ _ _ Hb1 E2).
    intros i c1 c2 _ Hc1 Ec. eapply gba2_add_landmark_anchored; eassumption. }
  destruct (gba_use_map_loop_constraints params); apply Ok_inj in E; subst b;
    [| exact Hb2].
  destruct Hb2 as (F & Hm & Hp & Hmem).
  split; [exact F|]. split; [exact Hm|]. cbn [bb_problem bb_state bb_update].
  split; [| exact Hmem]. apply gba2_loops_pinned, Hp.
Qed.

(** X12.  Global Bundle Adjustment holds the loaded keyframes fixed when told to.
    With [gba_fix_poses_loaded_maps] set and a solver that writes to variable
    blocks only, a keyframe loaded from a stored map has, in the graph handed
    to the clean-up of the map, the pose it had before the call (its pose
    being one the pose block represents exactly). *)
Theorem GlobalBundleAdjustment_loaded_keyframe_fixed s interations_limit time_limit
    visual_only outlier_removal estimate_bias s' :
  solver_keeps_constants ->
  Ceres2Transform (pose_to_ceres (T_ws (kfs s a))) = T_ws (kfs s a) ->
  gba_fix_poses_loaded_maps params = true -> is_loaded_ (kfs s a) = true ->
  GlobalBundleAdjustment params s interations_limit time_limit visual_only outlier_removal
    estimate_bias = Ok s' ->
  exists s2, s' = Clean s2 /\ T_ws (kfs s2 a) = T_ws (kfs s a).
Proof.
  intros Hsolve Hround Hflag Hld E. unfold GlobalBundleAdjustment in E.
  apply bind_Ok in E as (s1 & E1 & E). apply bind_Ok in E as (s2 & E2 & E).
  apply Ok_inj in E. subst s'. exists s2. split; [reflexivity|].
  pose proof (gba_first_round_frame _ _ _ _ _ E1) as F1.
  destruct (frame_kf _ _ a F1) as (_ & HT1 & _).
  destruct (kf_same_fields _ _ (fr_kfs _ _ F1 a))
    as (_ & _ & _ & _ & _ & _ & _ & _ & _ & _ & _ & Hld1).
  rewrite <- HT1. unfold gba_main_round in E2.
  apply bind_Ok in E2 as (b & Eb & E2).
  apply gba_recover_landmarks_kfs in E2. rewrite E2.
  pose proof (gba2_build_frame _ _ _ _ Eb) as F.
  destruct (frame_kf _ _ a F) as (Hinv & HT & _).
  rewrite gba_recover_keyframes_anchor; cbn [kfs mem with_mem]; [exact HT|].
  intros Hin Hval. rewrite Hinv in Hval.
  destruct (gba2_build_fixed visual_only s1 b) as (_ & _ & Hp & Hmem);
    [rewrite Hld1, Hld, Hflag; reflexivity | exact Hval | exact Eb |].
  rewrite HT, HT1, <- Hround at 1. f_equal. rewrite <- HT1, <- (Hmem Hin).
  apply load_ext. intros i. apply Hsolve.
  apply (pinned_is_variable _ [0]). apply pinned_weaken with (2 := Hp). auto.
Qed.

End FixedKeyframes.

Section FixedPoseGraph.
Context `{Geometry} `{!Solver}.
Variable params : Params.
Variable a : KeyframePtr.

(** 4-DoF, "Add Keyframes": a keyframe the configuration holds fixed is
    pinned when it is visited, and stays so. *)
Lemma pgo4_add_keyframe_fixed s0 done kf (b : PoseGraphBuild) :
  is_gba_optimized_ (kfs s0 a) && pgo_fix_kfs_after_gba params = true
  \/ is_loaded_ (kfs s0 a) && pgo_fix_poses_loaded_maps params = true ->
  pg_anchored a s0 [1; 4] (holds_yaw_trans a (T_ws (kfs s0 a))) done b ->
  pg_anchored a s0 [1; 4] (holds_yaw_trans a (T_ws (kfs s0 a)))
    (done \/ (kf = a /\ kf_invalid (kfs s0 a) = false))
    (pgo4_add_keyframe params kf b).
Proof.
  intros Hfix (Hk & Hm & Hp & Hmem). unfold pgo4_add_keyframe.
  destruct (kf_invalid (kfs (pg_state b) kf)) eqn:Hinv.
  { apply pg_anchored_weaken with (done := done).
    - intros [Hd|[-> Hval]]; [exact Hd|]. rewrite Hk in Hinv. congruence.
    - split; [exact Hk|]. split; [exact Hm|]. split; assumption. }
  unfold pg_anchored. cbn [pg_state pg_problem kfs with_mem UpdateCeresFromState].
  split; [exact Hk|]. split; [exact Hm|].
  set (p2 := AddParameterBlock (trans_block kf) 3 None
               (AddParameterBlock (yaw_block kf) 1 (Some AngleLocalParameterization)
                  (pg_problem b))).
  destruct (decide (kf = a)) as [->|Hne].
  - split.
    + apply pinned_weaken with (done := True); [auto|].
      assert (Hp1 := pinned_set_4dof_constant a done _ Hp). fold p2 in Hp1.
      assert (Hp2 : forall c : bool,
                pinned (ceres_pose_ a) [1; 4] True
                  (set_4dof_constant a (if c then set_4dof_constant a p2 else p2)))
        by (intros [|]; [apply set_4dof_constant_pinned|]; exact Hp1).
      rewrite Hk.
      destruct Hfix as [Hfix|Hfix].
      * rewrite Hfix. apply Hp2.
      * rewrite Hfix.
        match goal with |- pinned _ _ _ (if ?c then _ else _) => destruct c end; apply Hp2.
    + intros _. unfold holds_yaw_trans. cbn [mem with_mem]. rewrite Hk.
      apply (load_store (ceres_pose_ a) 1
               (vec3_to_list (R2ypr (T_ws (kfs s0 a)))
                ++ vec3_to_list (T_trans (T_ws (kfs s0 a))))).
  - split.
    + apply pinned_weaken with (done := done); [tauto|].
      assert (Hp1 : pinned (ceres_pose_ a) [1; 4] done p2).
      { unfold p2. apply pinned_AddParameterBlock; [apply placed_yaw_trans; simpl; auto|].
        apply pinned_AddParameterBlock; [apply placed_yaw_trans; simpl; auto | exact Hp]. }
      repeat first
        [ apply set_4dof_constant_pinned
        | match goal with |- pinned _ _ _ (if ?c then _ else _) => destruct c end ];
        exact Hp1.
    + intros [Hd|[Hd _]]; [| contradiction]. unfold holds_yaw_trans. rewrite <- (Hmem Hd).
      apply load_ext. intros i. cbn [mem with_mem].
      rewrite store_other by congruence.
      apply (UpdateCeresFromState_other kf (pg_state b)); congruence.
Qed.

Lemma pgo4_build_fixed s b :
  is_gba_optimized_ (kfs s a) && pgo_fix_kfs_after_gba params = true
  \/ is_loaded_ (kfs s a) && pgo_fix_poses_loaded_maps params = true ->
  pgo4_build params s = Ok b ->
  pg_anchored a s [1; 4] (holds_yaw_trans a (T_ws (kfs s a)))
    (a ∈ GetKeyframesVec (map_ s) /\ kf_invalid (kfs s a) = false) b.
Proof.
  intros Hfix E. unfold pgo4_build in E.
  apply bind_Ok in E as (b1 & E1 & E). apply bind_Ok in E as (b2 & E2 & E).
  eapply window_edges_preserve; [| exact E |].
  { intros kf kfc c1 c2. apply pgo4_add_edge_anchored. }
  eapply successor_edges_preserve; [| exact E2 |].
  { intros kf kfc c1 c2. apply pgo4_add_edge_anchored. }
  refine (for_each_invariant _ _ _ _ _ _ _ E1).
  - intros l c1 c2 _ Hc1 Ec. eapply pgo4_add_loop_anchored; eassumption.
  - apply (keyframes_anchored a s [1; 4] (holds_yaw_trans a (T_ws (kfs s a)))
             (pgo4_add_keyframe params) (GetKeyframesVec (map_ s)) _
             (fun done kf b1 => pgo4_add_keyframe_fixed s done kf b1 Hfix)
             (pg_anchored_init a s _ _)).
Qed.

(** X18.  4-DoF pose-graph optimisation holds fixed the keyframes the
    configuration tells it to.  With a solver that writes to variable blocks
    only and a keyframe vector without repetition, a keyframe that was
    optimised by a bundle adjustment, with [pgo_fix_kfs_after_gba] set, or
    loaded from a stored map, with [pgo_fix_poses_loaded_maps] set, keeps its
    pose (its pose being one its Euler angles and translation give back). *)
Theorem PoseGraphOptimization4DoF_fixed_keyframe s corrected_poses s' :
  solver_keeps_constants ->
  Ceres2Transform (pose_via_euler (T_ws (kfs s a))) = T_ws (kfs s a) ->
  NoDup (GetKeyframesVec (map_ s)) ->
  is_gba_optimized_ (kfs s a) && pgo_fix_kfs_after_gba params = true
  \/ is_loaded_ (kfs s a) && pgo_fix_poses_loaded_maps params = true ->
  PoseGraphOptimization4DoF params s corrected_poses = Ok s' ->
  T_ws (kfs s' a) = T_ws (kfs s a).
Proof.
  intros Hsolve Hround Hnd Hfix E. unfold PoseGraphOptimization4DoF in E.
  apply bind_Ok in E as (b & Eb & E).
  apply pgo_recover_landmarks_kfs in E. rewrite E.
  destruct (pgo4_build_fixed _ _ Hfix Eb) as (Hk & _ & Hp & Hmem).
  apply pgo4_recover_keyframes_anchor; cbn [pr_state kfs mem with_mem];
    [exact Hnd | exact Hround | rewrite Hk; reflexivity |].
  rewrite Hk. intros Hin Hval.
  unfold holds_yaw_trans. rewrite <- (Hmem (conj Hin Hval)).
  apply load_ext. intros i. apply Hsolve.
  apply (pinned_is_variable _ [1; 4]). apply pinned_weaken with (2 := Hp). auto.
Qed.

End FixedPoseGraph.

(** ** Pose-graph optimisation: the window of predecessors *)

Section WindowEdges.
Context `{Geometry} `{!Solver}.
Variable params : Params.

Lemma nth_predecessor_ext (s s' : State) j kf :
  kfs s' = kfs s -> nth_predecessor s' j kf = nth_predecessor s j kf.
Proof.
  intros Hk. induction j as [|j IH]; [reflexivity|].
  simpl. rewrite IH, Hk. reflexivity.
Qed.

(** The walk along the predecessors, from the [a]-th on. *)
Lemma connections_from_chain s first kf (m : nat) : forall (a : nat) conns,
  connections_from s first (nth_predecessor s a kf) (Z.of_nat <$> seq (S a) m) = Ok conns ->
  forall j, a < j <= a + m -> (Z.of_nat j < first)%Z ->
    conns !! (j - a - 1) = Some (nth_predecessor s j kf).
Proof.
  induction m as [|m IH]; intros a conns E j Hj Hfirst; [lia|].
  cbn [seq fmap list_fmap connections_from] in E.
  rewrite bool_decide_eq_true_2 in E by lia.
  destruct (nth_predecessor s a kf) as [k|] eqn:Ha; [| discriminate].
  apply bind_Ok in E as (rest & Erest & E). apply Ok_inj in E. subst conns.
  assert (Hn : predecessor (kfs s k) = nth_predecessor s (S a) kf)
    by (simpl; rewrite Ha; reflexivity).
  rewrite Hn in Erest.
  destruct (decide (j = S a)) as [->|Hne].
  - replace (S a - a - 1) with 0 by lia. simpl. rewrite Ha. reflexivity.
  - replace (j - a - 1) with (S (j - S a - 1)) by lia. simpl.
    apply (IH (S a) rest Erest j); lia.
Qed.

(** What "Set Additonal Keyframe edges" needs of a valid keyframe: the
    predecessors the window reaches for are there. *)
Lemma add_window_edges_needs add_edge kf (b b' : PoseGraphBuild) j :
  add_window_edges add_edge kf b = Ok b' ->
  kf_invalid (kfs (pg_state b) kf) = false ->
  1 <= j <= 4 ->
  (Z.of_nat j < to_int (Z.of_nat (fst (id_ (kfs (pg_state b) kf)))))%Z ->
  is_Some (nth_predecessor (pg_state b) j kf).
Proof.
  unfold add_window_edges. intros E Hval Hj Hfirst. rewrite Hval in E.
  apply bind_Ok in E as (conns & Ec & E).
  pose proof (connections_from_chain (pg_state b) _ kf 4 0 conns Ec j
                ltac:(lia) Hfirst) as Hc.
  apply list_elem_of_lookup_2 in Hc.
  destruct (for_each_visits _ (fun _ => True) conns b b' (fun _ _ _ _ _ => I) I E _ Hc)
    as (c1 & c2 & _ & Ebody).
  destruct (nth_predecessor (pg_state b) j kf); [eauto | discriminate].
Qed.

Lemma window_edges_state add_edge l (b b' : PoseGraphBuild) :
  (forall kf kfc b1 b2, add_edge kf kfc b1 = Ok b2 -> pg_state b2 = pg_state b1) ->
  for_each (add_window_edges add_edge) l b = Ok b' ->
  forall kf, kf ∈ l ->
    exists b1 b2, pg_state b1 = pg_state b /\ add_window_edges add_edge kf b1 = Ok b2.
Proof.
  intros Hadd E kf Hin.
  destruct (for_each_visits (add_window_edges add_edge)
              (fun x => pg_state x = pg_state b) l b b') with (a := kf)
    as (b1 & b2 & Hb1 & Eb); [| reflexivity | exact E | exact Hin | eauto].
  intros kf0 c1 c2 Hc Ec. rewrite <- Hc.
  apply (window_edges_preserve (fun x => pg_state x = pg_state c1) add_edge [kf0] c1 c2).
  - intros k kc d1 d2 Ed Hd. rewrite (Hadd _ _ _ _ Ed). exact Hd.
  - simpl. rewrite Ec. reflexivity.
  - reflexivity.
Qed.

(** X23.  Pose-graph optimisation needs the predecessors its window reaches for
    (both variants).  For a call to return, every valid keyframe of the
    keyframe vector must have a [j]-th predecessor for every [j] from 1 to 4
    that is below the first component of its id (read as an [int]). *)
Theorem pose_graph_needs_predecessors s corrected_poses s' kf j :
  PoseGraphOptimization params s corrected_poses = Ok s'
  \/ PoseGraphOptimization4DoF params s corrected_poses = Ok s' ->
  kf ∈ GetKeyframesVec (map_ s) -> kf_invalid (kfs s kf) = false ->
  1 <= j <= 4 -> (Z.of_nat j < to_int (Z.of_nat (fst (id_ (kfs s kf)))))%Z ->
  is_Some (nth_predecessor s j kf).
Proof.
  intros [E|E] Hin Hval Hj Hfirst.
  - unfold PoseGraphOptimization in E. apply bind_Ok in E as (b & Eb & _).
    unfold pgo_build in Eb. apply bind_Ok in Eb as (b1 & E1 & E2).
    assert (Hb1 : buffers_only s (pg_state b1)).
    { eapply (successor_edges_preserve (fun x => buffers_only s (pg_state x)));
        [| exact E1 |].
      - intros k kc c1 c2 Ec Hc. rewrite (pgo_add_edge_state _ _ _ _ _ Ec). exact Hc.
      - cbn [pg_state pg_update].
        apply (add_keyframes_buffers (pgo_add_keyframe corrected_poses)
                 (GetKeyframesVec (map_ s)) (pgo_add_keyframe_buffers corrected_poses)
                 {| pg_state := s; pg_problem := empty_problem; q_ws_map := ∅;
                    inserted_edges := ∅ |}). }
    destruct (window_edges_state _ _ _ _ (pgo_add_edge_state params) E2 kf Hin)
      as (c1 & c2 & Hc & Ec).
    destruct Hb1 as (Hk & _). rewrite <- Hc in Hk.
    rewrite <- (nth_predecessor_ext s (pg_state c1)) by exact Hk.
    apply (add_window_edges_needs _ _ _ _ _ Ec); [rewrite Hk; exact Hval | exact Hj |].
    rewrite Hk. exact Hfirst.
  - unfold PoseGraphOptimization4DoF in E. apply bind_Ok in E as (b & Eb & _).
    unfold pgo4_build in Eb. apply bind_Ok in Eb as (b1 & E1 & Eb).
    apply bind_Ok in Eb as (b2 & E2 & E3).
    assert (Hb2 : buffers_only s (pg_state b2)).
    { eapply (successor_edges_preserve (fun x => buffers_only s (pg_state x)));
        [| exact E2 |].
      - intros k kc c1 c2 Ec Hc. rewrite (pgo4_add_edge_state _ _ _ _ Ec). exact Hc.
      - refine (for_each_invariant _ (fun x => buffers_only s (pg_state x)) _ _ _ _ _ E1).
        + intros l c1 c2 _ Hc Ec. rewrite (pgo4_add_loop_state _ _ _ Ec). exact Hc.
        + apply (add_keyframes_buffers (pgo4_add_keyframe params)
                   (GetKeyframesVec (map_ s)) (pgo4_add_keyframe_buffers params)
                   {| pg_state := s; pg_problem := empty_problem; q_ws_map := ∅;
                      inserted_edges := ∅ |}). }
    destruct (window_edges_state _ _ _ _ pgo4_add_edge_state E3 kf Hin)
      as (c1 & c2 & Hc & Ec).
    destruct Hb2 as (Hk & _). rewrite <- Hc in Hk.
    rewrite <- (nth_predecessor_ext s (pg_state c1)) by exact Hk.
    apply (add_window_edges_needs _ _ _ _ _ Ec); [rewrite Hk; exact Hval | exact Hj |].
    rewrite Hk. exact Hfirst.
Qed.

End WindowEdges.

(** * Test scenes: the properties at concrete inputs *)

Import TestWorld.

Lemma OptimizeRelativePose_inlier_count_witness :
  (Z.of_nat (length thirteen_matches) < 2 ^ 31)%Z /\
  OptimizeRelativePose test_params (two_view_scene [2%Z] 14) 0 1 thirteen_matches zero3 0%Q
  = Ok (12%Z, None :: None :: (Some <$> seq 102 12), Vector3 2%Q 2%Q 2%Q) /\
  exists b,
    relative_pose_problem (two_view_scene [2%Z] 14) 0 1 thirteen_matches = Ok b /\
    vIndex b = correspondence_indices (two_view_scene [2%Z] 14) 0 1 thirteen_matches /\
    (12 <= Z.of_nat (length (filter is_Some thirteen_matches)))%Z /\
    length (outliers test_params (two_view_scene [2%Z] 14) zero3 b) <= length (vIndex b) /\
    (length (vIndex b) - length (outliers test_params (two_view_scene [2%Z] 14) zero3 b) < 12
     -> 12%Z = 0%Z) /\
    (12 <= length (vIndex b) - length (outliers test_params (two_view_scene [2%Z] 14) zero3 b)
     -> 12%Z = Z.of_nat (length (vIndex b)
                         - length (outliers test_params (two_view_scene [2%Z] 14) zero3 b))).
Proof.
  assert (Hlen : (Z.of_nat (length thirteen_matches) < 2 ^ 31)%Z) by (vm_compute; reflexivity).
  assert (Hrun :
    OptimizeRelativePose test_params (two_view_scene [2%Z] 14) 0 1 thirteen_matches zero3 0%Q
    = Ok (12%Z, None :: None :: (Some <$> seq 102 12), Vector3 2%Q 2%Q 2%Q))
    by (vm_compute; reflexivity).
  split; [exact Hlen|]. split; [exact Hrun|].
  exact (OptimizeRelativePose_inlier_count test_params _ _ _ _ _ _ _ _ _ Hlen Hrun).
Defined.

Lemma OptimizeRelativePose_failure_keeps_T12_witness :
  OptimizeRelativePose test_params (two_view_scene [2%Z] 3) 0 1 [None; Some 101; Some 102]
    (Vector3 7%Q 8%Q 9%Q) 0%Q
  = Ok (0%Z, [None; None; Some 102], Vector3 7%Q 8%Q 9%Q) /\
  (0%Z = 0%Z -> Vector3 7%Q 8%Q 9%Q = Vector3 7%Q 8%Q 9%Q).
Proof.
  assert (Hrun :
    OptimizeRelativePose test_params (two_view_scene [2%Z] 3) 0 1 [None; Some 101; Some 102]
      (Vector3 7%Q 8%Q 9%Q) 0%Q
    = Ok (0%Z, [None; None; Some 102], Vector3 7%Q 8%Q 9%Q)) by (vm_compute; reflexivity).
  split; [exact Hrun|].
  exact (proj1 (OptimizeRelativePose_failure_keeps_T12 test_params _ _ _ _ _ _ _ _ _ Hrun)).
Defined.

(** C5 (OptimizeRelativePose, the entry of an outlier is set to null).  Three
    entries [None; Some 101; Some 102]: the correspondences are the entries 1
    and 2, and the second of them (entry 2) is the outlier.  The call empties
    entry 1, the inlier, and leaves entry 2, the outlier, in place: it writes
    [matches1[i]] with [i] the position among the correspondences, where the
    original index is [vIndex[i]]. *)
Theorem OptimizeRelativePose_nulls_wrong_entry :
  match relative_pose_problem (two_view_scene [2%Z] 3) 0 1 [None; Some 101; Some 102] with
  | Ok b =>
      vIndex b = [1; 2] /\
      outliers test_params (two_view_scene [2%Z] 3) zero3 b = [1] /\
      vIndex b !! 1 = Some 2
  | Err _ => False
  end /\
  OptimizeRelativePose test_params (two_view_scene [2%Z] 3) 0 1 [None; Some 101; Some 102]
    zero3 0%Q
  = Ok (0%Z, [None; None; Some 102], zero3).
Proof. vm_compute. repeat split. Qed.

Lemma GlobalBundleAdjustment_time_limit_dropped :
  GlobalBundleAdjustment test_params (chain_scene 2 []) 10 0%Q true false false
  = GlobalBundleAdjustment test_params (chain_scene 2 []) 10 1000%Q true false false.
Proof. reflexivity. Qed.

(** A query window [0; 1] and a candidate window [2; 3]: the anchor 0 has an
    edge to the query keyframe 1 only, and the candidate keyframes 2 and 3 are
    connected to each other. *)
Lemma lba_between_factors_two_stars_witness :
  match lba_build (chain_scene 4 []) [] [0; 1] [2; 3] zero3 with
  | Ok b =>
      between_edges (bb_problem b) = [(2, 3); (0, 1)] /\
      forall kf, kf ∈ [2; 3] ->
        ((0, kf) ∉ between_edges (bb_problem b)) /\ ((kf, 0) ∉ between_edges (bb_problem b))
  | Err _ => False
  end.
Proof.
  assert (Hok : match lba_build (chain_scene 4 []) [] [0; 1] [2; 3] zero3 with
                | Ok _ => True | Err _ => False end) by (vm_compute; exact I).
  destruct (lba_build (chain_scene 4 []) [] [0; 1] [2; 3] zero3) as [b|e] eqn:E;
    [| destruct Hok].
  destruct (lba_between_factors_two_stars _ _ _ _ _ _ E)
    as (QKF & CKF & HQ & HC & Hedges & _ & Hdisj).
  inversion HQ; inversion HC; subst. split; [exact Hedges|].
  apply Hdisj. intros kf Hq Hc.
  apply list_elem_of_In in Hq, Hc. simpl in Hq, Hc. lia.
Defined.

(** The claim as stated: the anchor is connected to every candidate keyframe,
    and no edge joins two keyframes other than the anchor. *)
Lemma lba_anchor_not_connected_to_candidates :
  match lba_build (chain_scene 4 []) [] [0; 1] [2; 3] zero3 with
  | Ok b =>
      ~ ((0, 2) ∈ between_edges (bb_problem b) /\ (0, 3) ∈ between_edges (bb_problem b)) /\
      ~ (forall e, e ∈ between_edges (bb_problem b) -> fst e = 0)
  | Err _ => False
  end.
Proof.
  vm_compute. split.
  - intros [H2 _]. apply list_elem_of_In in H2. simpl in H2.
    destruct H2 as [H2|[H2|[]]]; discriminate.
  - intros Hall. specialize (Hall (2, 3) ltac:(left)). discriminate.
Qed.

(** The claim as stated: the weight of a 4-DoF loop edge is the entry the
    three-band table has for the covariance trace of its loop constraint. *)
Lemma pgo4_loop_weight_not_from_table :
  match pgo4_build test_params (chain_scene 3 [tight_loop]) with
  | Ok b =>
      loop_edge_weights (pg_problem b) = [1%Q] /\
      three_band_weight test_params (cov_trace tight_loop) = (1 # 2)%Q /\
      loop_edge_weights (pg_problem b)
      <> three_band_weight test_params <$> (cov_trace <$> [tight_loop])
  | Err _ => False
  end.
Proof. vm_compute. repeat split. discriminate. Qed.

(** Over the rationals whatever is not greater is at most. *)
Lemma QScalar_order_total (x y : Q) : fgt x y = false -> fle x y = true.
Proof. cbn. intros Hx. apply negb_false_iff. exact Hx. Qed.


Lemma gba_outlier_removal_scene :
  match gba1_build true (bundle_scene []) with
  | Ok b =>
      residual_ids b = [0; 1; 2; 3] /\
      match gba1_remove_outliers test_params b with
      | Ok o =>
          num_bad o = 1 /\
          residual_block_ids (ol_problem o) = [0; 1; 3] /\
          landmarks_ (kfs (ol_state o) 0) = [Some 0; None; Some 2]
      | Err _ => False
      end
  | Err _ => False
  end.
Proof. vm_compute. repeat split. Qed.

(** Scene 3: the landmark 2 has a single observation. *)
Lemma gba_skips_underobserved_landmark_witness :
  exists s',
    GlobalBundleAdjustment test_params (bundle_scene []) 10 0%Q true true false = Ok s' /\
    pos_w (lms s' 2) = pos_w (lms (bundle_scene []) 2).
Proof.
  assert (Hok : match GlobalBundleAdjustment test_params (bundle_scene []) 10 0%Q true true
                        false with
                | Ok _ => True | Err _ => False end) by (vm_compute; exact I).
  destruct (GlobalBundleAdjustment test_params (bundle_scene []) 10 0%Q true true false)
    as [s'|e] eqn:E; [| destruct Hok].
  exists s'. split; [reflexivity|].
  refine (proj1 (gba_skips_underobserved_landmark test_params (bundle_scene []) 10 0%Q true
                   true false 2 s' _ _ E)).
  - intros st l. reflexivity.
  - vm_compute. lia.
Defined.

Lemma gba_moves_observed_landmark :
  match GlobalBundleAdjustment test_params (bundle_scene []) 10 0%Q true true false with
  | Ok s' =>
      pos_w (lms s' 0) = Vector3 1%Q 1%Q 6%Q /\ pos_w (lms s' 2) = Vector3 0%Q 0%Q 5%Q
  | Err _ => False
  end.
Proof. vm_compute. repeat split. Qed.

Lemma ShiftSolver_keeps_constants : solver_keeps_constants.
Proof. intros o p m arr i Hv. simpl. rewrite Hv. reflexivity. Qed.





(** ** The further properties at concrete inputs *)

Lemma transformJacobian_coefficients_witness :
  transformJacobian sparse_2x3 = Ok dense_2x3 /\
  mat_rows dense_2x3 = Z.to_nat (num_rows sparse_2x3) /\
  mat_cols dense_2x3 = Z.to_nat (num_cols sparse_2x3) /\
  forall r c, r < mat_rows dense_2x3 -> c < mat_cols dense_2x3 ->
    mat_get dense_2x3 r c = Some (default (lit 0) (crs_stored sparse_2x3 r c)).
Proof.
  assert (Hrun : transformJacobian sparse_2x3 = Ok dense_2x3) by (vm_compute; reflexivity).
  split; [exact Hrun|].
  exact (transformJacobian_coefficients sparse_2x3 dense_2x3 Hrun).
Defined.

Lemma relative_pose_problem_structure_witness :
  match relative_pose_problem (two_view_scene [2%Z] 3) 0 1 [None; Some 101; Some 102] with
  | Ok b =>
      vIndex b = [1; 2] /\
      pb_addr <$> parameter_blocks (rp_problem b) = [(ceresAB, 0)] /\
      length (residual_blocks (rp_problem b)) = 2 * length (vIndex b) /\
      (forall r, r ∈ residual_blocks (rp_problem b) ->
         rb_params r = [(ceresAB, 0)] /\ rb_loss r = Some (CauchyLoss 1)) /\
      length (residIdsA b) = length (vIndex b) /\
      length (residIdsB b) = length (vIndex b)
  | Err _ => False
  end.
Proof.
  assert (Hok :
    match relative_pose_problem (two_view_scene [2%Z] 3) 0 1 [None; Some 101; Some 102] with
    | Ok b => vIndex b = [1; 2]
    | Err _ => False
    end) by (vm_compute; reflexivity).
  destruct (relative_pose_problem (two_view_scene [2%Z] 3) 0 1 [None; Some 101; Some 102])
    as [b|e] eqn:E; [|destruct Hok].
  split; [exact Hok|].
  exact (relative_pose_problem_structure _ _ _ _ _ E).
Defined.

Lemma OptimizeRelativePose_nulled_entries_witness :
  OptimizeRelativePose test_params (two_view_scene [2%Z] 3) 0 1 [None; Some 101; Some 102]
    zero3 0%Q
  = Ok (0%Z, [None; None; Some 102], zero3) /\
  exists b,
    relative_pose_problem (two_view_scene [2%Z] 3) 0 1 [None; Some 101; Some 102] = Ok b /\
    length [None; None; Some 102] = length [None; Some 101; Some 102] /\
    forall k,
      [None; None; Some 102] !! k
      = if decide (k ∈ outliers test_params (two_view_scene [2%Z] 3) zero3 b)
        then Some None else [None; Some 101; Some 102] !! k.
Proof.
  assert (Hrun :
    OptimizeRelativePose test_params (two_view_scene [2%Z] 3) 0 1 [None; Some 101; Some 102]
      zero3 0%Q
    = Ok (0%Z, [None; None; Some 102], zero3)) by (vm_compute; reflexivity).
  split; [exact Hrun|].
  exact (OptimizeRelativePose_nulled_entries test_params _ _ _ _ _ _ _ _ _ Hrun).
Defined.

Lemma OptimizeRelativePose_requirements_witness :
  (Z.of_nat (length thirteen_matches) < 2 ^ 31)%Z /\
  OptimizeRelativePose test_params (two_view_scene [2%Z] 14) 0 1 thirteen_matches zero3 0%Q
  = Ok (12%Z, None :: None :: (Some <$> seq 102 12), Vector3 2%Q 2%Q 2%Q) /\
  (forall i pMPB, thirteen_matches !! i = Some (Some pMPB) ->
     i < length (landmarks_ (kfs (two_view_scene [2%Z] 14) 0))) /\
  (forall i, is_correspondence (two_view_scene [2%Z] 14) 0 1 thirteen_matches i = true ->
     supported_camera (cams (two_view_scene [2%Z] 14) (camera_ (kfs (two_view_scene [2%Z] 14) 0))) /\
     supported_camera (cams (two_view_scene [2%Z] 14) (camera_ (kfs (two_view_scene [2%Z] 14) 1)))).
Proof.
  assert (Hlen : (Z.of_nat (length thirteen_matches) < 2 ^ 31)%Z) by (vm_compute; reflexivity).
  assert (Hrun :
    OptimizeRelativePose test_params (two_view_scene [2%Z] 14) 0 1 thirteen_matches zero3 0%Q
    = Ok (12%Z, None :: None :: (Some <$> seq 102 12), Vector3 2%Q 2%Q 2%Q))
    by (vm_compute; reflexivity).
  split; [exact Hlen|]. split; [exact Hrun|].
  exact (OptimizeRelativePose_requirements test_params _ _ _ _ _ _ _ Hlen Hrun).
Defined.

Local Ltac in_list := apply list_elem_of_In; simpl; auto.
Local Ltac not_in_list :=
  let Hin := fresh "Hin" in
  intros Hin; apply list_elem_of_In in Hin; simpl in Hin; intuition discriminate.
Local Ltac no_dup :=
  vm_compute; repeat (apply NoDup_cons; split; [not_in_list|]); apply NoDup_nil_2.

Lemma gba_first_round_keeps_estimates_witness :
  exists s1,
    gba_first_round test_params true true (bundle_scene []) = Ok s1 /\
    landmarks_ (kfs s1 0) = [Some 0; None; Some 2] /\
    forall k,
      kfs s1 k
      = set_kf_links (landmarks_ (kfs s1 k)) (preintegrated_imu_ (kfs (bundle_scene []) k))
          (kfs (bundle_scene []) k) /\
      slots_emptied (landmarks_ (kfs (bundle_scene []) k)) (landmarks_ (kfs s1 k)).
Proof.
  assert (Hok : match gba_first_round test_params true true (bundle_scene []) with
                | Ok s1 => landmarks_ (kfs s1 0) = [Some 0; None; Some 2]
                | Err _ => False end) by (vm_compute; reflexivity).
  destruct (gba_first_round test_params true true (bundle_scene [])) as [s1|e] eqn:E;
    [| destruct Hok].
  exists s1. split; [reflexivity|]. split; [exact Hok|].
  destruct (gba_first_round_keeps_estimates test_params _ _ _ _ E) as (_ & _ & Hk & _).
  intros k. destruct (Hk k) as (Heq & Hsl & Himu).
  split; [| exact Hsl]. rewrite <- (Himu (or_introl eq_refl)). exact Heq.
Defined.

Lemma GlobalBundleAdjustment_write_back_witness :
  exists s',
    GlobalBundleAdjustment test_params (bundle_scene []) 10 0%Q false false false = Ok s' /\
    pose_optimized (kfs s' 1) = true /\ vel_bias_optimized (kfs s' 1) = true /\
    lm_optimized (lms s' 0) = true.
Proof.
  assert (Hok : match GlobalBundleAdjustment test_params (bundle_scene []) 10 0%Q false false
                        false with
                | Ok _ => True | Err _ => False end) by (vm_compute; exact I).
  destruct (GlobalBundleAdjustment test_params (bundle_scene []) 10 0%Q false false false)
    as [s'|e] eqn:E; [| destruct Hok].
  exists s'. split; [reflexivity|].
  destruct (GlobalBundleAdjustment_write_back test_params _ _ _ _ _ _ _ E)
    as (s1 & b & s2 & E1 & _ & -> & Hkf & Hlm).
  destruct (Hkf 1) as (_ & Hp & _ & Hv); [in_list | reflexivity |].
  destruct (Hv eq_refl) as (_ & _ & _ & Hvb).
  assert (Hobs : th_min_observations <= num_edges s1 (observations (lms s1 0))).
  { assert (Hs1 : Ok s1 = gba_first_round test_params false false (bundle_scene []))
      by (symmetry; exact E1).
    assert (Hn : match gba_first_round test_params false false (bundle_scene []) with
                 | Ok s1 => th_min_observations <= num_edges s1 (observations (lms s1 0))
                 | Err _ => True end) by (vm_compute; lia).
    rewrite <- Hs1 in Hn. exact Hn. }
  destruct (Hlm 0) as (_ & Hl & _); [in_list | reflexivity | exact Hobs |].
  split; [exact Hp|]. split; [exact Hvb | exact Hl].
Defined.

Lemma GlobalBundleAdjustment_leaves_alone_witness :
  exists s',
    GlobalBundleAdjustment test_params (bundle_scene []) 10 0%Q true true false = Ok s' /\
    velocity (kfs s' 1) = velocity (kfs (bundle_scene []) 1) /\
    T_ws (kfs s' 7) = T_ws (kfs (bundle_scene []) 7) /\
    pos_w (lms s' 5) = pos_w (lms (bundle_scene []) 5).
Proof.
  assert (Hok : match GlobalBundleAdjustment test_params (bundle_scene []) 10 0%Q true true
                        false with
                | Ok _ => True | Err _ => False end) by (vm_compute; exact I).
  destruct (GlobalBundleAdjustment test_params (bundle_scene []) 10 0%Q true true false)
    as [s'|e] eqn:E; [| destruct Hok].
  exists s'. split; [reflexivity|].
  destruct (GlobalBundleAdjustment_leaves_alone test_params _ _ _ _ _ _ _ E)
    as (s2 & -> & _ & _ & Hkf & Hlm).
  destruct (Hkf 1) as (_ & _ & _ & Hv & _). destruct (Hv eq_refl) as (Hvel & _).
  destruct (Hkf 7) as (_ & _ & _ & _ & Hout).
  destruct Hout as (HT & _); [left; not_in_list|].
  destruct (Hlm 5) as (_ & _ & _ & Hpos).
  split; [exact Hvel|]. split; [exact HT|]. apply Hpos. left. not_in_list.
Defined.

Lemma GlobalBundleAdjustment_requirements_witness :
  (exists s',
     GlobalBundleAdjustment test_params (bundle_scene []) 10 0%Q true true false = Ok s') /\
  (forall kf, kf ∈ GetKeyframesVec (map_ (bundle_scene [])) ->
     getType (cams (bundle_scene []) (camera_ (kfs (bundle_scene []) kf))) = kPinhole
     \/ getType (cams (bundle_scene []) (camera_ (kfs (bundle_scene []) kf)))
        = kUnifiedProjection) /\
  supported_camera (cams (bundle_scene []) (camera_ (kfs (bundle_scene []) 1))).
Proof.
  assert (Hok : match GlobalBundleAdjustment test_params (bundle_scene []) 10 0%Q true true
                        false with
                | Ok _ => True | Err _ => False end) by (vm_compute; exact I).
  destruct (GlobalBundleAdjustment test_params (bundle_scene []) 10 0%Q true true false)
    as [s'|e] eqn:E; [| destruct Hok].
  split; [exists s'; reflexivity|].
  destruct (GlobalBundleAdjustment_requirements test_params _ _ _ _ _ _ _ E) as (Hkf & Hlm).
  split.
  - intros kf Hin. destruct (Hkf kf Hin) as (Hc & _); [| exact Hc].
    simpl. destruct (decide (kf = 0)); reflexivity.
  - destruct (Hlm 0 1 0%Z) as (Hs & _); [in_list | reflexivity | vm_compute; lia | in_list
                                        | reflexivity | exact Hs].
Defined.

Lemma gba_visual_only_no_inertial_terms_witness :
  match gba2_build test_params true (bundle_scene []) with
  | Ok b => no_inertial_terms b
  | Err _ => False
  end.
Proof.
  assert (Hok : match gba2_build test_params true (bundle_scene []) with
                | Ok _ => True | Err _ => False end) by (vm_compute; exact I).
  destruct (gba2_build test_params true (bundle_scene [])) as [b|e] eqn:E; [| destruct Hok].
  exact (gba_visual_only_no_inertial_terms test_params _ _ (or_intror E)).
Defined.

Lemma GlobalBundleAdjustment_loaded_keyframe_fixed_witness :
  exists s',
    GlobalBundleAdjustment fixing_params (loaded_chain 3 []) 10 0%Q true false false = Ok s' /\
    T_ws (kfs s' 1) = T_ws (kfs (loaded_chain 3 []) 1) /\
    T_ws (kfs s' 2) <> T_ws (kfs (loaded_chain 3 []) 2).
Proof.
  assert (Hok : match GlobalBundleAdjustment fixing_params (loaded_chain 3 []) 10 0%Q true
                        false false with
                | Ok s' => T_ws (kfs s' 2) <> T_ws (kfs (loaded_chain 3 []) 2)
                | Err _ => False end) by (vm_compute; discriminate).
  destruct (GlobalBundleAdjustment fixing_params (loaded_chain 3 []) 10 0%Q true false false)
    as [s'|e] eqn:E; [| destruct Hok].
  exists s'. split; [reflexivity|]. split; [| exact Hok].
  destruct (GlobalBundleAdjustment_loaded_keyframe_fixed fixing_params 1 (loaded_chain 3 [])
              10 0%Q true false false s' ShiftSolver_keeps_constants) as (s2 & -> & HT);
    [reflexivity | reflexivity | reflexivity | exact E | exact HT].
Defined.

Lemma pose_graph_landmark_reference_witness :
  exists s',
    PoseGraphOptimization test_params (bundle_scene []) ∅ = Ok s' /\
    (forall lm, observations (lms s' lm) = observations (lms (bundle_scene []) lm)) /\
    pos_w (lms s' 5) = pos_w (lms (bundle_scene []) 5).
Proof.
  assert (Hok : match PoseGraphOptimization test_params (bundle_scene []) ∅ with
                | Ok _ => True | Err _ => False end) by (vm_compute; exact I).
  destruct (PoseGraphOptimization test_params (bundle_scene []) ∅) as [s'|e] eqn:E;
    [| destruct Hok].
  exists s'. split; [reflexivity|].
  pose proof (pose_graph_landmark_reference test_params _ _ _ (or_introl E)) as Hlm.
  split.
  - intros lm. destruct (Hlm lm) as (_ & _ & Ho & _). exact Ho.
  - destruct (Hlm 5) as (_ & _ & _ & _ & Hp & _). apply Hp. left. not_in_list.
Defined.

Lemma pose_graph_landmarks_move_witness :
  exists s',
    PoseGraphOptimization4DoF test_params (bundle_scene []) ∅ = Ok s' /\
    pos_w (lms s' 1)
    = T_apply (T_ws (kfs s' 0))
        (T_apply (Tinv (T_ws (kfs (bundle_scene []) 0))) (pos_w (lms (bundle_scene []) 1))).
Proof.
  assert (Hok : match PoseGraphOptimization4DoF test_params (bundle_scene []) ∅ with
                | Ok _ => True | Err _ => False end) by (vm_compute; exact I).
  destruct (PoseGraphOptimization4DoF test_params (bundle_scene []) ∅) as [s'|e] eqn:E;
    [| destruct Hok].
  exists s'. split; [reflexivity|].
  eapply (pose_graph_landmarks_move test_params (bundle_scene []) _ s' 1 0); [no_dup | no_dup | right; exact E
    | in_list | reflexivity | reflexivity | in_list | reflexivity].
Defined.

Lemma pose_graph_velocity_rotated_witness :
  exists s',
    PoseGraphOptimization test_params (chain_scene 3 [tight_loop]) ∅ = Ok s' /\
    velocity (kfs s' 2)
    = T_rotate (Tmul (T_ws (kfs s' 2)) (Tinv (T_ws (kfs (chain_scene 3 [tight_loop]) 2))))
        (velocity (kfs (chain_scene 3 [tight_loop]) 2)) /\
    bias_accel (kfs s' 2) = bias_accel (kfs (chain_scene 3 [tight_loop]) 2) /\
    bias_gyro (kfs s' 2) = bias_gyro (kfs (chain_scene 3 [tight_loop]) 2).
Proof.
  assert (Hok : match PoseGraphOptimization test_params (chain_scene 3 [tight_loop]) ∅ with
                | Ok _ => True | Err _ => False end) by (vm_compute; exact I).
  destruct (PoseGraphOptimization test_params (chain_scene 3 [tight_loop]) ∅) as [s'|e] eqn:E;
    [| destruct Hok].
  exists s'. split; [reflexivity|].
  apply (pose_graph_velocity_rotated test_params _ ∅ _ 2 ShiftSolver_keeps_constants);
    [no_dup | left; exact E | in_list | reflexivity].
Defined.

Lemma PoseGraphOptimization4DoF_keeps_pitch_and_roll_witness :
  exists s',
    PoseGraphOptimization4DoF test_params (chain_scene 3 [tight_loop]) ∅ = Ok s' /\
    exists yaw t,
      T_ws (kfs s' 1)
      = Ceres2Transform
          (let q := eulerAnglesToQuat yaw
                      (v3_y (R2ypr (T_ws (kfs (chain_scene 3 [tight_loop]) 1))))
                      (v3_z (R2ypr (T_ws (kfs (chain_scene 3 [tight_loop]) 1)))) in
           [q_x q; q_y q; q_z q; q_w q] ++ vec3_to_list t).
Proof.
  assert (Hok : match PoseGraphOptimization4DoF test_params (chain_scene 3 [tight_loop]) ∅ with
                | Ok _ => True | Err _ => False end) by (vm_compute; exact I).
  destruct (PoseGraphOptimization4DoF test_params (chain_scene 3 [tight_loop]) ∅)
    as [s'|e] eqn:E; [| destruct Hok].
  exists s'. split; [reflexivity|].
  apply (PoseGraphOptimization4DoF_keeps_pitch_and_roll test_params _ ∅ _ 1
           ShiftSolver_keeps_constants); [no_dup | exact E | in_list | reflexivity].
Defined.

Lemma pose_graph_keyframe_edges_distinct_witness :
  match pgo4_build test_params (chain_scene 3 [tight_loop]) with
  | Ok b => edges_distinct pose_4dof_blocks 1 b
  | Err _ => False
  end.
Proof.
  assert (Hok : match pgo4_build test_params (chain_scene 3 [tight_loop]) with
                | Ok _ => True | Err _ => False end) by (vm_compute; exact I).
  destruct (pgo4_build test_params (chain_scene 3 [tight_loop])) as [b|e] eqn:E;
    [| destruct Hok].
  exact (proj2 (pose_graph_keyframe_edges_distinct test_params _ ∅ b) E).
Defined.

Lemma PoseGraphOptimization4DoF_fixed_keyframe_witness :
  exists s',
    PoseGraphOptimization4DoF fixing_params (loaded_chain 3 [tight_loop]) ∅ = Ok s' /\
    T_ws (kfs s' 1) = T_ws (kfs (loaded_chain 3 [tight_loop]) 1) /\
    T_ws (kfs s' 2) <> T_ws (kfs (loaded_chain 3 [tight_loop]) 2).
Proof.
  assert (Hok : match PoseGraphOptimization4DoF fixing_params (loaded_chain 3 [tight_loop]) ∅
                with
                | Ok s' => T_ws (kfs s' 2) <> T_ws (kfs (loaded_chain 3 [tight_loop]) 2)
                | Err _ => False end) by (vm_compute; discriminate).
  destruct (PoseGraphOptimization4DoF fixing_params (loaded_chain 3 [tight_loop]) ∅)
    as [s'|e] eqn:E; [| destruct Hok].
  exists s'. split; [reflexivity|]. split; [| exact Hok].
  apply (PoseGraphOptimization4DoF_fixed_keyframe fixing_params 1 _ ∅ _
           ShiftSolver_keeps_constants); [reflexivity | no_dup | right; reflexivity | exact E].
Defined.

Lemma LocalBundleAdjustment_leaves_graph_witness :
  match LocalBundleAdjustment test_params (chain_scene 4 []) window_landmarks [0; 1] [2; 3]
          zero3 with
  | Ok r =>
      kfs (fst r) = kfs (chain_scene 4 []) /\ lms (fst r) = lms (chain_scene 4 []) /\
      cams (fst r) = cams (chain_scene 4 []) /\ map_ (fst r) = map_ (chain_scene 4 [])
  | Err _ => False
  end.
Proof.
  assert (Hok : match LocalBundleAdjustment test_params (chain_scene 4 []) window_landmarks
                        [0; 1] [2; 3] zero3 with
                | Ok _ => True | Err _ => False end) by (vm_compute; exact I).
  destruct (LocalBundleAdjustment test_params (chain_scene 4 []) window_landmarks [0; 1] [2; 3]
              zero3) as [[s' cov_BA]|e] eqn:E; [| destruct Hok].
  exact (LocalBundleAdjustment_leaves_graph test_params _ _ _ _ _ _ _ E).
Defined.

Lemma LocalBundleAdjustment_requirements_witness :
  (exists r,
     LocalBundleAdjustment test_params (chain_scene 4 []) window_landmarks [0; 1] [2; 3] zero3
     = Ok r) /\
  forall lm kfx feat_id,
    lm ∈ window_landmarks -> (Some kfx, feat_id) ∈ observations_ lm ->
    exists kf, kf ∈ [0; 1] ++ [2; 3]
               /\ id_ (kfs (chain_scene 4 []) kf) = id_ (kfs (chain_scene 4 []) kfx).
Proof.
  assert (Hok : match LocalBundleAdjustment test_params (chain_scene 4 []) window_landmarks
                        [0; 1] [2; 3] zero3 with
                | Ok _ => True | Err _ => False end) by (vm_compute; exact I).
  destruct (LocalBundleAdjustment test_params (chain_scene 4 []) window_landmarks [0; 1] [2; 3]
              zero3) as [r|e] eqn:E; [| destruct Hok].
  split; [exists r; reflexivity|].
  destruct (LocalBundleAdjustment_requirements test_params _ _ _ _ _ _ E)
    as (_ & _ & _ & Hobs).
  intros lm kfx feat_id Hlm Ho.
  destruct (Hobs lm kfx feat_id Hlm Ho) as (_ & Hkf); [reflexivity | exact Hkf].
Defined.

Lemma LocalBundleAdjustment_query_pose_identity_witness :
  match LocalBundleAdjustment test_params (chain_scene 4 []) window_landmarks [0; 1] [2; 3]
          zero3 with
  | Ok r => load (mem (fst r)) (ceres_pose_local_ 0, 0) kPoseBlockSize = identity_pose
            /\ load (mem (fst r)) (ceres_pose_local_ 1, 0) kPoseBlockSize <> identity_pose
  | Err _ => False
  end.
Proof.
  assert (Hok : match LocalBundleAdjustment test_params (chain_scene 4 []) window_landmarks
                        [0; 1] [2; 3] zero3 with
                | Ok r =>
                    load (mem (fst r)) (ceres_pose_local_ 1, 0) kPoseBlockSize <> identity_pose
                | Err _ => False end) by (vm_compute; discriminate).
  destruct (LocalBundleAdjustment test_params (chain_scene 4 []) window_landmarks [0; 1] [2; 3]
              zero3) as [[s' cov_BA]|e] eqn:E; [| destruct Hok].
  split; [| exact Hok].
  apply (LocalBundleAdjustment_query_pose_identity test_params (chain_scene 4 [])
           window_landmarks [0; 1] [2; 3] zero3 0 s' cov_BA ShiftSolver_keeps_constants);
    [reflexivity | not_in_list | not_in_list | exact E].
Defined.

(** Over the rationals the negative of a negative number is not negative. *)
Lemma QScalar_negation_not_negative (x : Q) :
  flt x (lit 0) = true -> flt (fneg x) (lit 0) = false.
Proof.
  cbn. intros Hx. apply negb_true_iff in Hx. apply negb_false_iff. apply Qle_bool_iff.
  assert (Hlt : (x < 0)%Q).
  { apply Qnot_le_lt. intros Hle. apply Qle_bool_iff in Hle. congruence. }
  apply Qlt_le_weak, Qopp_le_compat in Hlt. exact Hlt.
Qed.

Lemma eulerAnglesToQuat_real_part_not_negative_witness :
  flt (q_w (eulerAnglesToQuat 3%Q 0%Q 0%Q)) (lit 0) = false.
Proof.
  exact (eulerAnglesToQuat_real_part_not_negative 3%Q 0%Q 0%Q
           QScalar_negation_not_negative).
Defined.

Lemma pose_graph_needs_predecessors_witness :
  (exists s', PoseGraphOptimization test_params (chain_scene 3 [tight_loop]) ∅ = Ok s') /\
  is_Some (nth_predecessor (chain_scene 3 [tight_loop]) 1 2).
Proof.
  assert (Hok : match PoseGraphOptimization test_params (chain_scene 3 [tight_loop]) ∅ with
                | Ok _ => True | Err _ => False end) by (vm_compute; exact I).
  destruct (PoseGraphOptimization test_params (chain_scene 3 [tight_loop]) ∅) as [s'|e] eqn:E;
    [| destruct Hok].
  split; [exists s'; reflexivity|].
  apply (pose_graph_needs_predecessors test_params _ ∅ s' 2 1);
    [left; exact E | in_list | reflexivity | lia | vm_compute; reflexivity].
Defined.
